(** * Rift Architect: orchestration substrate, verified against its source

    A shallow embedding of the parts of the companion daemon that carry
    its ordering, rate-limiting and failure semantics:

    - [RateLimit]   the token buckets of the cloud-API client
                    (classes [Bucket] and [RateLimiter]);
    - [Scheduler]   the serial queue and the retrying client
                    (classes [BottleneckQueue] and [RiotApiClient]);
    - [Phase]       the game-phase state machine (state-machine.js);
    - [Orchestrator] advisor activation on phase transitions;
    - [LiveClient]  the in-match event poller (live-client.js);
    - [Triggers]    the tactical trigger detector (triggers.js);
    - [Macro]       the dispatch policy of the live advisor.

    Conventions.  [Date.now()] is an explicit argument [now : Z]
    (milliseconds).  A JavaScript number that may be [NaN] is an
    [option Z], [None] standing for [NaN].  Objects mutated in place
    are threaded as explicit state.  Observable effects (HTTP calls,
    emitted signals, settled promises, overlay messages) are appended
    to logs kept inside the state. *)

From Stdlib Require Import ZArith List Bool Lia Ascii String QArith Qround Sorted.
From stdpp Require Import gmap strings pretty.
Import ListNotations.

Local Open Scope string_scope.
Local Open Scope Z_scope.

(* ===================================================================== *)
(** * JavaScript helpers *)
(* ===================================================================== *)

Module Js.

(** Numbers that may be [NaN]. *)
Definition num := option Z.

Definition add (a b : num) : num :=
  match a, b with Some x, Some y => Some (x + y) | _, _ => None end.
Definition sub (a b : num) : num :=
  match a, b with Some x, Some y => Some (x - y) | _, _ => None end.
Definition mul (a b : num) : num :=
  match a, b with Some x, Some y => Some (x * y) | _, _ => None end.

(** [a < b] and [a > b]: every comparison with [NaN] is false. *)
Definition lt (a b : num) : bool :=
  match a, b with Some x, Some y => x <? y | _, _ => false end.
Definition gt (a b : num) : bool := lt b a.

(** [Math.max(a, b)]: [NaN] as soon as one argument is. *)
Definition max (a b : num) : num :=
  match a, b with Some x, Some y => Some (Z.max x y) | _, _ => None end.

(** [s.split(sep)] for a one-character separator. *)
Fixpoint split (sep : ascii) (s : string) : list string :=
  match s with
  | EmptyString => [EmptyString]
  | String c s' =>
      if Ascii.eqb c sep then EmptyString :: split sep s'
      else match split sep s' with
           | w :: ws => String c w :: ws
           | [] => [String c EmptyString]
           end
  end.

Definition is_digit (c : ascii) : bool :=
  let n := nat_of_ascii c in ((48 <=? n) && (n <=? 57))%nat.

Definition is_space (c : ascii) : bool :=
  let n := nat_of_ascii c in
  ((n =? 32) || ((9 <=? n) && (n <=? 13)))%nat.

Definition digit_val (c : ascii) : Z := Z.of_nat (nat_of_ascii c) - 48.

Fixpoint digits (s : string) (acc : Z) : num :=
  match s with
  | EmptyString => Some acc
  | String c s' =>
      if is_digit c then digits s' (10 * acc + digit_val c) else None
  end.

Fixpoint trim_left (s : string) : string :=
  match s with
  | String c s' => if is_space c then trim_left s' else s
  | EmptyString => EmptyString
  end.

Fixpoint trim_right (s : string) : string :=
  match s with
  | EmptyString => EmptyString
  | String c s' =>
      match trim_right s' with
      | EmptyString => if is_space c then EmptyString else String c EmptyString
      | r => String c r
      end
  end.

(** [Number(s)] on the integer literals: surrounding white space is
    dropped, the empty string is [0], an optional sign is followed by
    decimal digits.  Fractions, exponents, radix prefixes and
    [Infinity] have no image in [Z] and are mapped to [NaN]. *)
Definition Number (s : string) : num :=
  match trim_right (trim_left s) with
  | EmptyString => Some 0
  | String "+" (String c r) => digits (String c r) 0
  | String "-" (String c r) => Z.opp <$> digits (String c r) 0
  | t => digits t 0
  end.

(** [parseInt(s, 10)]: optional white space and sign, then the longest
    run of decimal digits; [NaN] when there is no digit. *)
Fixpoint digit_run (s : string) (acc : Z) : Z :=
  match s with
  | String c s' => if is_digit c then digit_run s' (10 * acc + digit_val c) else acc
  | EmptyString => acc
  end.

Definition starts_with_digit (s : string) : bool :=
  match s with String c _ => is_digit c | EmptyString => false end.

Definition parseInt (s : string) : num :=
  match trim_left s with
  | String "+" r => if starts_with_digit r then Some (digit_run r 0) else None
  | String "-" r => if starts_with_digit r then Some (- digit_run r 0) else None
  | t => if starts_with_digit t then Some (digit_run t 0) else None
  end.

(** Truthiness of a string (the empty string is falsy) and of a number
    ([0] and [NaN] are falsy). *)
Definition truthy_str (s : string) : bool :=
  match s with EmptyString => false | _ => true end.
Definition truthy_num (n : num) : bool :=
  match n with Some 0 => false | Some _ => true | None => false end.

(** [a || b] on strings. *)
Definition or_str (a b : string) : string := if truthy_str a then a else b.

(** [s.includes(needle)] *)
Fixpoint starts_with (needle s : string) : bool :=
  match needle, s with
  | EmptyString, _ => true
  | String a n', String b s' => Ascii.eqb a b && starts_with n' s'
  | String _ _, EmptyString => false
  end.

Fixpoint includes (s needle : string) : bool :=
  starts_with needle s ||
  match s with
  | EmptyString => false
  | String _ s' => includes s' needle
  end.

(** [s.toUpperCase()] on ASCII letters. *)
Definition upper (c : ascii) : ascii :=
  let n := nat_of_ascii c in
  if ((97 <=? n) && (n <=? 122))%nat then ascii_of_nat (n - 32) else c.

Fixpoint toUpperCase (s : string) : string :=
  match s with
  | EmptyString => EmptyString
  | String c s' => String (upper c) (toUpperCase s')
  end.

(** [Math.round(x)] on a rational: the nearest integer, halves up. *)
Definition round (x : Q) : Z := Qfloor (x + (1 # 2)).

(** Comparisons of rationals as booleans. *)
Definition Qltb (x y : Q) : bool := negb (Qle_bool y x).
Definition Qleb (x y : Q) : bool := Qle_bool x y.

End Js.

(* ===================================================================== *)
(** * Token buckets (classes [Bucket] and [RateLimiter]) *)
(* ===================================================================== *)

Module RateLimit.

Record Bucket := mkBucket {
  max : Js.num;            (* #max *)
  windowMs : Js.num;       (* #windowMs *)
  timestamps : list Z      (* #timestamps, oldest first *)
}.

(** [new Bucket(max, windowSeconds)] *)
Definition newBucket (mx seconds : Js.num) : Bucket :=
  mkBucket mx (Js.mul seconds (Some 1000)) [].

(** [#prune()] *)
Definition prune (b : Bucket) (now : Z) : Bucket :=
  let cutoff := Js.sub (Some now) (windowMs b) in
  mkBucket (max b) (windowMs b)
           (List.filter (fun t => Js.gt (Some t) cutoff) (timestamps b)).

(** [canRequest()]: the answer and the pruned bucket. *)
Definition canRequest (b : Bucket) (now : Z) : bool * Bucket :=
  let b' := prune b now in
  (Js.lt (Some (Z.of_nat (length (timestamps b')))) (max b'), b').

(** [consume()] *)
Definition consume (b : Bucket) (now : Z) : Bucket :=
  mkBucket (max b) (windowMs b) (timestamps b ++ [now]).

(** [waitTime()]; [timestamps[0]] of an empty array is [undefined],
    which makes the sum [NaN]. *)
Definition waitTime (b : Bucket) (now : Z) : Js.num * Bucket :=
  let b' := prune b now in
  if Js.lt (Some (Z.of_nat (length (timestamps b')))) (max b') then (Some 0, b')
  else (Js.sub (Js.add (head (timestamps b')) (windowMs b')) (Some now), b').

(** The limiter is the array of its buckets. *)
Definition RateLimiter := list Bucket.

(** [RateLimiter.parseBuckets(headerValue)] *)
Definition parseBuckets (headerValue : string) : list Bucket :=
  if negb (Js.truthy_str headerValue)
  then [newBucket (Some 20) (Some 1); newBucket (Some 100) (Some 120)]
  else
    map (fun pair =>
           let nums := map Js.Number (Js.split ":" pair) in
           newBucket (nth 0 nums None) (nth 1 nums None))
        (Js.split "," headerValue).

(** [new RateLimiter(headerValue)] and [update(headerValue)] *)
Definition newLimiter (headerValue : string) : RateLimiter :=
  parseBuckets headerValue.
Definition update (_ : RateLimiter) (headerValue : string) : RateLimiter :=
  parseBuckets headerValue.

(** [this.#buckets.every((b) => b.canRequest())]: [every] stops at the
    first bucket that refuses, the later ones are not pruned. *)
Fixpoint limCanRequest (bs : RateLimiter) (now : Z) : bool * RateLimiter :=
  match bs with
  | [] => (true, [])
  | b :: rest =>
      let (ok, b') := canRequest b now in
      if ok then let (ok', rest') := limCanRequest rest now in (ok', b' :: rest')
      else (false, b' :: rest)
  end.

(** [this.#buckets.forEach((b) => b.consume())] *)
Definition limConsume (bs : RateLimiter) (now : Z) : RateLimiter :=
  map (fun b => consume b now) bs.

(** [Math.max(0, ...this.#buckets.map((b) => b.waitTime()))] *)
Definition limWaitTime (bs : RateLimiter) (now : Z) : Js.num * RateLimiter :=
  (fold_left Js.max (map (fun b => fst (waitTime b now)) bs) (Some 0),
   map (fun b => snd (waitTime b now)) bs).

(** The recorded requests that are younger than the window at [now]:
    what is left "after pruning timestamps older than the window". *)
Definition in_window (b : Bucket) (now : Z) : list Z :=
  List.filter (fun t => match windowMs b with
                        | Some w => now - w <? t
                        | None => false
                        end)
              (timestamps b).

(** A bucket whose capacity is a number of at least one. *)
Definition positive_capacity (b : Bucket) : Prop :=
  exists cap, max b = Some cap /\ 0 < cap.

End RateLimit.

(* ===================================================================== *)
(** * The serial queue and the retrying client
    (classes [BottleneckQueue] and [RiotApiClient]) *)
(* ===================================================================== *)

Module Scheduler.
Import RateLimit.

(** A queued task is the closure
    [() => this.#requestWithRetry(hostname, path)]; the ticket is the
    identity of that closure, numbered in order of submission. *)
Record Task := mkTask { ticket : nat; hostname : string; path : string }.

Inductive error :=
| ErrKeyExpired            (* "Riot API key expired — update .env" *)
| ErrPaused                (* "Riot API paused — API key expired" *)
| ErrNoKey                 (* "RIOT_API_KEY not configured" *)
| Err429 (retryAfterMs : Js.num)   (* statusCode 429, retryAfterMs attached *)
| Err403                   (* "Riot API 403 Forbidden — check your API key" *)
| Err404
| ErrStatus (status : Z)
| ErrNet.                  (* req.on("error") and the 10 s timeout *)

Inductive outcome := Resolved | Rejected (e : error).

(** Signals of the client's [EventEmitter]. *)
Inductive signal := KeyExpired | RateLimited (retryAfterMs : Js.num).

(** What the outside can observe, in the order it happens. *)
Inductive obs :=
| Accepted (t : nat)                 (* pushed on #queue *)
| Dispatched (t : nat)               (* shifted off #queue, run() called *)
| Http (t : nat) (attempt : nat)     (* https.request sent *)
| Sleep (ms : Js.num)                (* await sleep(ms) *)
| Emit (s : signal)                  (* this.emit(...) *)
| Settled (t : nat) (o : outcome).   (* the caller's promise settles *)

(** Where the one [#drain] coroutine is suspended. *)
Inductive Pc :=
| Idle                                   (* #running = false *)
| ThrottleSleep                          (* drain: await sleep(remaining) *)
| LimiterSleep (t : Task) (attempt : nat)   (* step 1: await sleep(waitMs + 50) *)
| SpacingSleep (t : Task) (attempt : nat)   (* step 2: await sleep(spacing - elapsed) *)
| BucketSleep (t : Task) (attempt : nat)    (* step 3: await sleep(extraWait + 50) *)
| AwaitHttp (t : Task) (attempt : nat)      (* await this.#request(...) *)
| RetrySleep (t : Task) (attempt : nat)     (* step 5: await sleep(err.retryAfterMs) *)
| Crashed                                (* #queue.shift() of an empty queue throws *)
| Hung.                                  (* the while loop never suspends *)

Record State := mkState {
  (* RiotApiClient *)
  apiKey : option string;
  keyExpired : bool;
  appLimiter : RateLimiter;
  lastRequestTime : Z;
  (* BottleneckQueue *)
  queue : list Task;
  paused : bool;
  pauseUntil : Z;
  windowTimestamps : list Z;
  (* control and observations *)
  pc : Pc;
  nextTicket : nat;
  trace : list obs
}.

Definition REQUEST_SPACING_MS : Z := 50.
Definition MAX_RETRIES : nat := 3.
Definition WINDOW_MS : Z := 120000.
Definition WINDOW_MAX : Z := 100.
Definition THROTTLE_NUM : Z := 80.       (* WINDOW_MAX * THROTTLE_PCT, 100 * 0.80 *)
Definition PAUSE_DURATION_MS : Z := 30000.

(** [#running] is true exactly while the coroutine exists. *)
Definition running (st : State) : bool :=
  match pc st with Idle => false | _ => true end.

Definition has_key (k : option string) : bool :=
  match k with Some s => Js.truthy_str s | None => false end.

(** The client after [new RiotApiClient()] with [getKey] returning [k]. *)
Definition init (k : option string) : State :=
  mkState k false (newLimiter "20:1,100:120") 0 [] false 0 [] Idle 0 [].

(** ** Field updates *)

Definition log (o : list obs) (st : State) : State :=
  mkState (apiKey st) (keyExpired st) (appLimiter st) (lastRequestTime st)
          (queue st) (paused st) (pauseUntil st) (windowTimestamps st)
          (pc st) (nextTicket st) (trace st ++ o).
Definition set_pc (p : Pc) (st : State) : State :=
  mkState (apiKey st) (keyExpired st) (appLimiter st) (lastRequestTime st)
          (queue st) (paused st) (pauseUntil st) (windowTimestamps st)
          p (nextTicket st) (trace st).
Definition set_limiter (l : RateLimiter) (st : State) : State :=
  mkState (apiKey st) (keyExpired st) l (lastRequestTime st)
          (queue st) (paused st) (pauseUntil st) (windowTimestamps st)
          (pc st) (nextTicket st) (trace st).
Definition set_lastRequestTime (t : Z) (st : State) : State :=
  mkState (apiKey st) (keyExpired st) (appLimiter st) t
          (queue st) (paused st) (pauseUntil st) (windowTimestamps st)
          (pc st) (nextTicket st) (trace st).
Definition set_queue (q : list Task) (st : State) : State :=
  mkState (apiKey st) (keyExpired st) (appLimiter st) (lastRequestTime st)
          q (paused st) (pauseUntil st) (windowTimestamps st)
          (pc st) (nextTicket st) (trace st).
Definition set_pause (p : bool) (u : Z) (st : State) : State :=
  mkState (apiKey st) (keyExpired st) (appLimiter st) (lastRequestTime st)
          (queue st) p u (windowTimestamps st)
          (pc st) (nextTicket st) (trace st).
Definition set_window (w : list Z) (st : State) : State :=
  mkState (apiKey st) (keyExpired st) (appLimiter st) (lastRequestTime st)
          (queue st) (paused st) (pauseUntil st) w
          (pc st) (nextTicket st) (trace st).
Definition set_key (k : option string) (e : bool) (st : State) : State :=
  mkState k e (appLimiter st) (lastRequestTime st)
          (queue st) (paused st) (pauseUntil st) (windowTimestamps st)
          (pc st) (nextTicket st) (trace st).
Definition bump_ticket (st : State) : State :=
  mkState (apiKey st) (keyExpired st) (appLimiter st) (lastRequestTime st)
          (queue st) (paused st) (pauseUntil st) (windowTimestamps st)
          (pc st) (S (nextTicket st)) (trace st).

(** ** [BottleneckQueue] *)

(** [#pruneWindow()] *)
Definition pruneWindow (now : Z) (st : State) : State :=
  set_window (List.filter (fun t => now - WINDOW_MS <? t) (windowTimestamps st)) st.

(** The rejections [pause()] hands to the pending tasks. *)
Definition cancel_all (q : list Task) : list obs :=
  map (fun t => Settled (ticket t) (Rejected ErrPaused)) q.

(** [pause()]: pause indefinitely and reject all pending tasks. *)
Definition pause (st : State) : State :=
  log (cancel_all (queue st)) (set_queue [] (set_pause true 0 st)).

(** [resume()] *)
Definition resume (st : State) : State := set_pause false 0 st.

(** ** [RiotApiClient.#requestWithRetry], cut at its [await]s

    Every function below runs from one suspension point to the next.
    The result is the new state and whether the task's promise has
    settled ([true]) or the coroutine is suspended ([false], with
    [pc] saying where). *)

(** Step 4: consume a token, stamp the request, call [#request]. *)
Definition fire (now : Z) (t : Task) (attempt : nat) (st : State) : State * bool :=
  let st := set_limiter (limConsume (appLimiter st) now) st in
  let st := set_lastRequestTime now st in
  if has_key (apiKey st)
  then (set_pc (AwaitHttp t attempt) (log [Http (ticket t) attempt] st), false)
  else (* Promise.reject: no retryAfterMs, no statusCode, rethrown *)
       (log [Settled (ticket t) (Rejected ErrNoKey)] st, true).

(** Step 3: check the buckets once more. *)
Definition check_bucket (now : Z) (t : Task) (attempt : nat) (st : State) : State * bool :=
  let (ok, l) := limCanRequest (appLimiter st) now in
  let st := set_limiter l st in
  if ok then fire now t attempt st
  else
    let (extraWait, l') := limWaitTime (appLimiter st) now in
    let st := set_limiter l' st in
    (set_pc (BucketSleep t attempt) (log [Sleep (Js.add extraWait (Some 50))] st), false).

(** Step 2: minimum spacing between requests. *)
Definition check_spacing (now : Z) (t : Task) (attempt : nat) (st : State) : State * bool :=
  let elapsed := now - lastRequestTime st in
  if elapsed <? REQUEST_SPACING_MS
  then (set_pc (SpacingSleep t attempt)
               (log [Sleep (Some (REQUEST_SPACING_MS - elapsed))] st), false)
  else check_bucket now t attempt st.

(** Step 1: wait for the rate limiter. *)
Definition requestWithRetry (now : Z) (t : Task) (attempt : nat) (st : State) : State * bool :=
  let (waitMs, l) := limWaitTime (appLimiter st) now in
  let st := set_limiter l st in
  if Js.gt waitMs (Some 0)
  then (set_pc (LimiterSleep t attempt) (log [Sleep (Js.add waitMs (Some 50))] st), false)
  else check_spacing now t attempt st.

(** ** [BottleneckQueue.#drain]

    [AtWhile] is the loop test, [AfterThrottle] the point after the
    throttle block, where the coroutine resumes from its sleep.  The
    loop suspends or exits within [2 * length queue + 3] rounds
    unless it spins for ever, which [Hung] records. *)
Inductive entry := AtWhile | AfterThrottle.

Fixpoint drain (fuel : nat) (e : entry) (now : Z) (st : State) : State :=
  match fuel with
  | O => set_pc Hung st
  | S fuel =>
      match e with
      | AtWhile =>
          match queue st with
          | [] => set_pc Idle st
          | _ :: _ =>
              if paused st && (0 <? pauseUntil st) then
                let remaining := pauseUntil st - now in
                if 0 <? remaining
                then set_pc ThrottleSleep (log [Sleep (Some remaining)] st)
                else drain fuel AfterThrottle now (set_pause false 0 st)
              else drain fuel AfterThrottle now st
          end
      | AfterThrottle =>
          if paused st && (pauseUntil st =? 0) then set_pc Idle st
          else
            let st := pruneWindow now st in
            if THROTTLE_NUM <=? Z.of_nat (List.length (windowTimestamps st))
            then drain fuel AtWhile now (set_pause true (now + PAUSE_DURATION_MS) st)
            else
              match queue st with
              | [] => set_pc Crashed st
              | t :: rest =>
                  let st := set_queue rest st in
                  let st := set_window (windowTimestamps st ++ [now]) st in
                  let st := log [Dispatched (ticket t)] st in
                  let (st, done) := requestWithRetry now t 0 st in
                  if done then drain fuel AtWhile now st else st
              end
      end
  end.

Definition drain_fuel (st : State) : nat := 2 * List.length (queue st) + 4.

(** The coroutine goes on after the task in flight has settled. *)
Definition continue (now : Z) (r : State * bool) : State :=
  let (st, done) := r in
  if done then drain (drain_fuel st) AtWhile now st else st.

(** [enqueue(fn)] *)
Definition enqueue (now : Z) (t : Task) (st : State) : State :=
  if paused st && (pauseUntil st =? 0)
  then log [Settled (ticket t) (Rejected ErrPaused)] st
  else
    let st := log [Accepted (ticket t)] (set_queue (queue st ++ [t]) st) in
    if running st then st
    else drain (drain_fuel st) AtWhile now st.

(** [#platformRequest(path)] and [#regionalRequest(path)] *)
Definition submit (now : Z) (host p : string) (st : State) : State :=
  let t := mkTask (nextTicket st) host p in
  let st := bump_ticket st in
  if keyExpired st
  then log [Settled (ticket t) (Rejected ErrKeyExpired)] st
  else enqueue now t st.

(** [reloadKey()], [k] being what [getKey("RIOT_API_KEY")] returns. *)
Definition reloadKey (k : option string) (st : State) : State :=
  if has_key k then resume (set_key k false st)
  else set_key k (keyExpired st) st.

(** ** The response handler of [#request] and the [catch] of
    [#requestWithRetry] *)

Record Response := mkResponse {
  statusCode : Z;
  appLimit : option string;      (* res.headers["x-app-rate-limit"] *)
  retryAfter : option string     (* res.headers["retry-after"] *)
}.

(** [res.headers["retry-after"] || "1"] *)
Definition retryAfterOr1 (h : option string) : string :=
  match h with
  | Some s => if Js.truthy_str s then s else "1"
  | None => "1"
  end.

Definition on_response (now : Z) (r : Response) (t : Task) (attempt : nat)
           (st : State) : State * bool :=
  let st := match appLimit r with
            | Some h => if Js.truthy_str h
                        then set_limiter (update (appLimiter st) h) st else st
            | None => st
            end in
  if statusCode r =? 200 then
    (log [Settled (ticket t) Resolved] st, true)
  else if statusCode r =? 429 then
    let retryAfterMs := Js.mul (Js.parseInt (retryAfterOr1 (retryAfter r))) (Some 1000) in
    if Js.truthy_num retryAfterMs && (attempt <? MAX_RETRIES)%nat
    then (set_pc (RetrySleep t attempt) (log [Sleep retryAfterMs] st), false)
    else (log [Emit (RateLimited retryAfterMs);
               Settled (ticket t) (Rejected (Err429 retryAfterMs))] st, true)
  else if statusCode r =? 403 then
    let st := if keyExpired st then st
              else log [Emit KeyExpired] (pause (set_key (apiKey st) true st)) in
    (log [Settled (ticket t) (Rejected Err403)] st, true)
  else if statusCode r =? 404 then
    (log [Settled (ticket t) (Rejected Err404)] st, true)
  else
    (log [Settled (ticket t) (Rejected (ErrStatus (statusCode r)))] st, true).

(** ** One turn of the event loop *)

Inductive event :=
| Submit (host p : string)          (* a public API method is called *)
| TimerFired                        (* the pending sleep is over *)
| Responded (r : Response)          (* res.on("end") *)
| NetError                          (* req.on("error") *)
| ReloadKey (k : option string).    (* the settings UI calls reloadKey() *)

(** [step now ev st]: the turn triggered by [ev] with the clock at
    [now], together with all the promise reactions it unleashes.  An
    event that the coroutine is not waiting for changes nothing. *)
Definition step (now : Z) (ev : event) (st : State) : State :=
  match ev, pc st with
  | Submit host p, _ => submit now host p st
  | ReloadKey k, _ => reloadKey k st
  | TimerFired, ThrottleSleep =>
      drain (drain_fuel st) AfterThrottle now (set_pause false 0 st)
  | TimerFired, LimiterSleep t a => continue now (check_spacing now t a st)
  | TimerFired, SpacingSleep t a => continue now (check_bucket now t a st)
  | TimerFired, BucketSleep t a => continue now (fire now t a st)
  | TimerFired, RetrySleep t a => continue now (requestWithRetry now t (S a) st)
  | Responded r, AwaitHttp t a => continue now (on_response now r t a st)
  | NetError, AwaitHttp t a =>
      continue now (log [Settled (ticket t) (Rejected ErrNet)] st, true)
  | _, _ => st
  end.

(** A run: the events of successive turns, each with its clock. *)
Fixpoint run (evs : list (Z * event)) (st : State) : State :=
  match evs with
  | [] => st
  | (now, ev) :: rest => run rest (step now ev st)
  end.

(** Projections of the trace. *)
Definition dispatched (st : State) : list nat :=
  omap (fun o => match o with Dispatched t => Some t | _ => None end) (trace st).
Definition https (st : State) : list (nat * nat) :=
  omap (fun o => match o with Http t a => Some (t, a) | _ => None end) (trace st).
Definition emitted (st : State) : list signal :=
  omap (fun o => match o with Emit s => Some s | _ => None end) (trace st).
Definition sleeps (st : State) : list Js.num :=
  omap (fun o => match o with Sleep ms => Some ms | _ => None end) (trace st).
Definition settled (st : State) : list (nat * outcome) :=
  omap (fun o => match o with Settled t r => Some (t, r) | _ => None end) (trace st).

Definition accepted_in (tr : list obs) : list nat :=
  omap (fun o => match o with Accepted t => Some t | _ => None end) tr.
Definition dispatched_in (tr : list obs) : list nat :=
  omap (fun o => match o with Dispatched t => Some t | _ => None end) tr.
(** The tasks thrown out of the queue by a credential pause (and the
    submissions refused while it lasts). *)
Definition cancelled_in (tr : list obs) : list nat :=
  omap (fun o => match o with
                 | Settled t (Rejected ErrPaused) => Some t
                 | _ => None
                 end) tr.

Definition accepted (st : State) : list nat := accepted_in (trace st).
Definition cancelled (st : State) : list nat := cancelled_in (trace st).

Definition mem (t : nat) (l : list nat) : bool := existsb (Nat.eqb t) l.

(** The accepted tasks that no credential pause threw out, in arrival
    order. *)
Definition surviving (tr : list obs) : list nat :=
  List.filter (fun t => negb (mem t (cancelled_in tr))) (accepted_in tr).

(** [a] stands before [b] in [l]. *)
Definition before (a b : nat) (l : list nat) : Prop :=
  exists l1 l2 l3, l = (l1 ++ a :: l2 ++ b :: l3)%list.

(** The task the coroutine is working on. *)
Definition task_of (p : Pc) : option nat :=
  match p with
  | LimiterSleep t _ | SpacingSleep t _ | BucketSleep t _
  | AwaitHttp t _ | RetrySleep t _ => Some (ticket t)
  | Idle | ThrottleSleep | Crashed | Hung => None
  end.

(** Reading a trace from the left with the task in flight: a dispatch
    needs that there is none, the settlement of the task in flight
    leaves none.  [None] when a dispatch finds a task in flight. *)
Fixpoint scan (cur : option nat) (tr : list obs) : option (option nat) :=
  match tr with
  | [] => Some cur
  | Dispatched t :: rest =>
      match cur with
      | None => scan (Some t) rest
      | Some _ => None
      end
  | Settled t _ :: rest =>
      scan (match cur with
            | Some c => if Nat.eqb c t then None else cur
            | None => None
            end) rest
  | _ :: rest => scan cur rest
  end.

(** Events that leave an expired credential expired: everything but a
    [reloadKey()] that finds a key. *)
Definition keeps_expired (ev : Z * event) : bool :=
  match snd ev with
  | ReloadKey k => negb (has_key k)
  | _ => true
  end.

(** The refusals of the submissions among [evs], the tickets counting
    up from [n]. *)
Fixpoint refusals (n : nat) (evs : list (Z * event)) : list obs :=
  match evs with
  | [] => []
  | (_, Submit _ _) :: rest =>
      Settled n (Rejected ErrKeyExpired) :: refusals (S n) rest
  | _ :: rest => refusals n rest
  end.

(** [windowUsage] at [now]. *)
Definition windowUsage (now : Z) (st : State) : Z :=
  Z.of_nat (List.length (windowTimestamps (pruneWindow now st))).

(** ** Scenarios *)

Definition T0 : Z := 1700000000000.

(** Three submissions in a row; the first request is on the wire. *)
Definition three_submitted : State :=
  run [(T0, Submit "na1" "/lol/summoner/v4/a");
       (T0 + 1, Submit "na1" "/lol/summoner/v4/b");
       (T0 + 2, Submit "americas" "/lol/match/v5/c")]
      (init (Some "RGAPI-old")).

Definition forbidden : Response := mkResponse 403 None None.

(** What may follow while the key stays expired. *)
Definition while_expired : list (Z * event) :=
  [(T0 + 200, Submit "na1" "/lol/summoner/v4/d");
   (T0 + 250, TimerFired);
   (T0 + 300, ReloadKey None)].

(** One submission answered 429 with [Retry-After: 0]. *)
Definition retry_after_zero : list (Z * event) :=
  [(T0, Submit "na1" "/lol/summoner/v4/a");
   (T0 + 100, Responded (mkResponse 429 None (Some "0")))].

(** One submission answered 429 four times, the third time without the
    header. *)
(** A task is queued behind a request that is answered 403; the key is
    then replaced and a third task submitted, which is answered. *)
Definition expired_in_between : list (Z * event) :=
  [(T0, Submit "na1" "/lol/summoner/v4/a");
   (T0 + 1, Submit "na1" "/lol/summoner/v4/b");
   (T0 + 100, Responded (mkResponse 403 None None));
   (T0 + 5000, ReloadKey (Some "RGAPI-new"));
   (T0 + 10000, Submit "americas" "/lol/match/v5/c");
   (T0 + 10100, Responded (mkResponse 200 None None))].

Definition four_times_429 : list (Z * event) :=
  [(T0, Submit "na1" "/lol/summoner/v4/a");
   (T0 + 100, Responded (mkResponse 429 None (Some "2")));
   (T0 + 2100, TimerFired);
   (T0 + 2200, Responded (mkResponse 429 None (Some "2")));
   (T0 + 4200, TimerFired);
   (T0 + 4300, Responded (mkResponse 429 None None));
   (T0 + 5300, TimerFired);
   (T0 + 5400, Responded (mkResponse 429 None (Some "7")))].

End Scheduler.

(* ===================================================================== *)
(** * The game-phase state machine (orchestrator/state-machine.js) *)
(* ===================================================================== *)

Module Phase.

Inductive GamePhase :=
| IDLE | LOBBY | CHAMP_SELECT | LOADING | IN_GAME | POST_GAME.

Definition GamePhase_eqb (a b : GamePhase) : bool :=
  match a, b with
  | IDLE, IDLE | LOBBY, LOBBY | CHAMP_SELECT, CHAMP_SELECT
  | LOADING, LOADING | IN_GAME, IN_GAME | POST_GAME, POST_GAME => true
  | _, _ => false
  end.

(** The own properties of the frozen object [LCU_PHASE_MAP], in
    source order. *)
Definition LCU_PHASE_MAP : list (string * GamePhase) :=
  [ ("None", IDLE);
    ("Lobby", LOBBY);
    ("Matchmaking", LOBBY);
    ("ReadyCheck", LOBBY);
    ("ChampSelect", CHAMP_SELECT);
    ("GameStart", LOADING);
    ("InProgress", IN_GAME);
    ("WaitingForStats", POST_GAME);
    ("PreEndOfGame", POST_GAME);
    ("EndOfGame", POST_GAME) ].

(** The names every object literal inherits from [Object.prototype].
    What is found under them is a function, and under ["__proto__"]
    the prototype object itself: a truthy value in each case. *)
Definition Object_prototype : list string :=
  [ "constructor"; "__defineGetter__"; "__defineSetter__"; "hasOwnProperty";
    "__lookupGetter__"; "__lookupSetter__"; "isPrototypeOf";
    "propertyIsEnumerable"; "toString"; "valueOf"; "__proto__";
    "toLocaleString" ].

Definition inherited (key : string) : bool :=
  existsb (String.eqb key) Object_prototype.

(** [String(v)] of the member inherited under [name], as V8 prints a
    built-in function; ["__proto__"] gives the prototype object and
    ["constructor"] the function [Object]. *)
Definition member_text (name : string) : string :=
  if String.eqb name "__proto__" then "[object Object]"
  else "function "
         +:+ (if String.eqb name "constructor" then "Object" else name)
         +:+ "() { [native code] }".

(** What [obj[key]] finds on an object literal: the value of an own
    property, else a member inherited from [Object.prototype], else
    [undefined]. *)
Inductive found (A : Type) :=
| Own (v : A)
| Inherited (name : string)
| Undefined.
Arguments Own {A} v.
Arguments Inherited {A} name.
Arguments Undefined {A}.

Fixpoint own {A} (obj : list (string * A)) (key : string) : option A :=
  match obj with
  | [] => None
  | (k, v) :: rest => if String.eqb k key then Some v else own rest key
  end.

(** [obj[key]] *)
Definition prop {A} (obj : list (string * A)) (key : string) : found A :=
  match own obj key with
  | Some v => Own v
  | None => if inherited key then Inherited key else Undefined
  end.

Definition VALID_TRANSITIONS (p : GamePhase) : list GamePhase :=
  match p with
  | IDLE => [LOBBY]
  | LOBBY => [CHAMP_SELECT; IDLE]
  | CHAMP_SELECT => [LOADING; LOBBY]
  | LOADING => [IN_GAME]
  | IN_GAME => [POST_GAME]
  | POST_GAME => [IDLE; LOBBY]
  end.

Definition PHASE_AGENT_MAP (p : GamePhase) : option string :=
  match p with
  | CHAMP_SELECT => Some "drafting-oracle"
  | IN_GAME => Some "macro-strategist"
  | POST_GAME => Some "tilt-guard"
  | IDLE | LOBBY | LOADING => None
  end.

Definition PHASE_OVERLAY_MAP (p : GamePhase) : list string :=
  match p with
  | CHAMP_SELECT => ["draft"]
  | IN_GAME => ["macro"]
  | POST_GAME => ["tilt"]
  | IDLE | LOBBY | LOADING => []
  end.

(** What a call on the machine does besides changing [#currentPhase]:
    the warning for an edge outside [VALID_TRANSITIONS] and the call
    of the [#onTransition] callback given to the constructor. *)
Inductive effect :=
| WarnInvalid (from to : GamePhase)
| WarnUnknown (lcuPhase : string)
| OnTransition (from to : GamePhase).

(** The machine is its one variable [#currentPhase]. *)
Definition Machine := GamePhase.

Definition initial : Machine := IDLE.

Definition includes (l : list GamePhase) (p : GamePhase) : bool :=
  existsb (GamePhase_eqb p) l.

(** [transition(newPhase)]: the returned boolean, the new machine and
    the effects in order. *)
Definition transition (newPhase : GamePhase) (m : Machine)
  : bool * Machine * list effect :=
  if GamePhase_eqb newPhase m then (false, m, [])
  else
    let warn := if includes (VALID_TRANSITIONS m) newPhase then []
                else [WarnInvalid m newPhase] in
    (true, newPhase, (warn ++ [OnTransition m newPhase])%list).

(** What a call of [transitionFromLCU] does to a machine that holds
    a phase.  [Within]: the returned boolean, the new machine and the
    effects in order.  [Escapes]: the string names an inherited
    member; being truthy it is passed to [transition], which finds it
    different from the current phase and outside
    [VALID_TRANSITIONS], warns, stores it in [#currentPhase], calls
    [#onTransition(from, member)] and returns [true].  The machine
    then holds no phase any more, and this embedding, which is of the
    machine among its six phases, ends there. *)
Inductive moved :=
| Within (r : bool) (m : Machine) (eff : list effect)
| Escapes (from : GamePhase) (member : string).

(** [transitionFromLCU(lcuPhase)] *)
Definition transitionFromLCU (lcuPhase : string) (m : Machine) : moved :=
  match prop LCU_PHASE_MAP lcuPhase with
  | Undefined =>
      let '(r, m', eff) := transition IDLE m in
      Within r m' (WarnUnknown lcuPhase :: eff)
  | Own mapped =>
      let '(r, m', eff) := transition mapped m in
      Within r m' eff
  | Inherited member => Escapes m member
  end.

(** [reset()] *)
Definition reset (m : Machine) : Machine * list effect :=
  (IDLE, if GamePhase_eqb m IDLE then [] else [OnTransition m IDLE]).

(** The canonical phase a raw string stands for; the name of an
    inherited member stands for none. *)
Definition canonical (lcuPhase : string) : option GamePhase :=
  match prop LCU_PHASE_MAP lcuPhase with
  | Own mapped => Some mapped
  | Undefined => Some IDLE
  | Inherited _ => None
  end.

(** The mapping as the specification words it: seven named strings,
    "anything else" going to Idle. *)
Definition spec_canonical (lcuPhase : string) : GamePhase :=
  if String.eqb lcuPhase "None" then IDLE
  else if String.eqb lcuPhase "Matchmaking" then LOBBY
  else if String.eqb lcuPhase "ReadyCheck" then LOBBY
  else if String.eqb lcuPhase "ChampSelect" then CHAMP_SELECT
  else if String.eqb lcuPhase "GameStart" then LOADING
  else if String.eqb lcuPhase "InProgress" then IN_GAME
  else if String.eqb lcuPhase "WaitingForStats" then POST_GAME
  else if String.eqb lcuPhase "PreEndOfGame" then POST_GAME
  else if String.eqb lcuPhase "EndOfGame" then POST_GAME
  else IDLE.

End Phase.

(* ===================================================================== *)
(** * The in-match telemetry poller (integrations/riot/live-client.js) *)
(* ===================================================================== *)

Module LiveClient.

(** An entry of [/eventdata].  Times are seconds of game time. *)
Record GameEvent := mkEvent {
  EventID : Z;
  EventName : string;
  EventTime : Q;
  KillerName : string;
  VictimName : string;
  DragonType : string;
  Stolen : string;
  TurretKilled : string;
  InhibKilled : string;
  InhibRespawned : string
}.

Record Poller := mkPoller {
  lastEventId : Z;          (* #lastEventId *)
  wasAvailable : bool       (* #wasAvailable *)
}.

Definition newPoller : Poller := mkPoller (-1) false.

(** The part of [startPolling] and [stopPolling] that touches the state. *)
Definition startPolling (p : Poller) : Poller := mkPoller (-1) (wasAvailable p).
Definition stopPolling (_ : Poller) : Poller := mkPoller (-1) false.

(** What [await this.getEventData()] gives: the fetch rejects, or it
    resolves to a body whose [Events] may be missing. *)
Inductive fetched :=
| FetchFailed
| FetchOk (Events : option (list GameEvent)).

(** [Math.max(...ids)] of a non-empty array. *)
Definition maxId (first : GameEvent) (rest : list GameEvent) : Z :=
  fold_left Z.max (map EventID rest) (EventID first).

(** The callback of the event timer after its [await]: the new state
    and the payload of the ["new-events"] emission, if there is one. *)
Definition eventTick (r : fetched) (p : Poller) : Poller * option (list GameEvent) :=
  match r with
  | FetchFailed => (p, None)
  | FetchOk evs =>
      let allEvents := default [] evs in
      let newEvents := List.filter (fun e => lastEventId p <? EventID e) allEvents in
      match newEvents with
      | [] => (p, None)
      | e :: rest => (mkPoller (maxId e rest) (wasAvailable p), Some newEvents)
      end
  end.

(** Every identifier of the later emission is above every identifier
    of the earlier one. *)
Definition strictly_later (earlier later : list GameEvent) : Prop :=
  forall x y, In x earlier -> In y later -> EventID x < EventID y.

End LiveClient.

(* ===================================================================== *)
(** * The tactical trigger detector (agents/macro-strategist/triggers.js) *)
(* ===================================================================== *)

Module Triggers.
Import LiveClient.

(** ** The telemetry snapshot

    Only the fields the detector reads.  A string field that is
    absent is read as the empty string, an absent number as [0];
    [team] is one of the two sides the telemetry knows.  Times are
    rationals (seconds). *)

Inductive Team := ORDER | CHAOS.

Definition Team_eqb (a b : Team) : bool :=
  match a, b with ORDER, ORDER | CHAOS, CHAOS => true | _, _ => false end.

Definition teamName (t : Team) : string :=
  match t with ORDER => "ORDER" | CHAOS => "CHAOS" end.

Record Scores := mkScores { creepScore : Z; kills : Z; assists : Z }.

Record Player := mkPlayer {
  riotId : string;
  summonerName : string;
  championName : string;
  team : Team;
  position : string;
  isDead : bool;
  respawnTimer : Q;
  scores : Scores
}.

Record ActivePlayer := mkActive {
  ap_riotId : string;
  ap_summonerName : string;
  ap_championName : string;
  ap_level : Z
}.

Record Snapshot := mkSnapshot {
  allPlayers : list Player;
  activePlayer : option ActivePlayer;
  gameTime : Q                       (* gameData.gameTime *)
}.

(** ** Trigger results *)

Inductive MacroTrigger :=
| THROW_GUARD | BARON_WINDOW | CONTEST_SOUL | RUSH_BARON | CATCH_WAVE
| WIN_CONDITION | BARON_BAIT
| GOLD_SWING | OBJECTIVE_TAKEN | ACE | POWER_SPIKE | DEATH_TIMER_LONG
| TOWER_DESTROYED | INHIB_KILLED.

Inductive Urgency := urgent | suggestion | info.

(** A [TriggerResult] without its free-text [detail]. *)
Record TriggerResult := mkTrigger {
  trigger : MacroTrigger;
  urgency : Urgency;
  localCall : option string;
  localCallType : option string;
  claudeWorthy : bool
}.

Definition local (t : MacroTrigger) (u : Urgency) (call type : string) : TriggerResult :=
  mkTrigger t u (Some call) (Some type) false.
Definition forClaude (t : MacroTrigger) (u : Urgency) : TriggerResult :=
  mkTrigger t u None None true.

(** ** The detector's rolling state *)

Record Detector := mkDetector {
  localTeam : option Team;               (* null until identified *)
  localPlayerName : string;
  playerTeamMap : gmap string Team;
  goldHistory : list (Q * Z * Z);        (* gameTime, allyGold, enemyGold *)
  lastReportedGoldLead : Z;
  allyDrakeCount : Z;
  enemyDrakeCount : Z;
  lastDrakeKillTime : Q;
  lastBaronKillTime : Q;
  recentAllyDeathTimes : list Q;
  turretsDestroyed : gmap string Z;      (* "ORDER:top" -> count *)
  allyInhibsDown : gset string;
  enemyInhibsDown : gset string;
  playerLevels : gmap string Z;
  seenEventIds : gset string
}.

(** A new detector, which is also what [reset()] leaves. *)
Definition fresh : Detector :=
  mkDetector None EmptyString ∅ [] 0 0 0 0%Q 0%Q [] ∅ ∅ ∅ ∅ ∅.

Definition reset (_ : Detector) : Detector := fresh.

Definition BARON_SPAWN_TIME : Q := 1200%Q.
Definition BARON_RESPAWN_TIME : Q := 360%Q.

(** [isBaronUp(gameTime)] *)
Definition isBaronUp (d : Detector) (gameTime : Q) : bool :=
  if Js.Qltb gameTime BARON_SPAWN_TIME then false
  else if Qeq_bool (lastBaronKillTime d) 0 then true
  else Js.Qleb (lastBaronKillTime d + BARON_RESPAWN_TIME) gameTime.

(** [#estimateTeamGold(players)] *)
Definition estimateTeamGold (players : list Player) : Z :=
  fold_left (fun sum p =>
               sum + creepScore (scores p) * 20
                   + kills (scores p) * 300
                   + assists (scores p) * 150)
            players 0.

(** [#getPlayerTeam(name)] *)
Definition getPlayerTeam (d : Detector) (name : string) : option Team :=
  playerTeamMap d !! name.

Definition turretKey (t : Team) (lane : string) : string :=
  teamName t +:+ ":" +:+ lane.

(** [this.#turretsDestroyed.get(key) || 0] *)
Definition turretsDown (d : Detector) (t : Team) (lane : string) : Z :=
  default 0 (turretsDestroyed d !! turretKey t lane).

(** [#parseTurretTeam(name)] and [#parseInhibTeam(name)] *)
Definition parseTurretTeam (name : string) : option Team :=
  if Js.includes name "T1" then Some ORDER
  else if Js.includes name "T2" then Some CHAOS
  else None.
Definition parseInhibTeam (name : string) : option Team := parseTurretTeam name.

(** [#parseTurretLane(name)] *)
Definition parseTurretLane (name : string) : option string :=
  if Js.includes name "_R_" || Js.includes name "_R1" || Js.includes name "_R2"
  then Some "bot"
  else if Js.includes name "_L_" || Js.includes name "_L1" || Js.includes name "_L2"
  then Some "top"
  else if Js.includes name "_C_" || Js.includes name "_C1" || Js.includes name "_C2"
  then Some "mid"
  else None.

(** [#parseInhibLane(name)] *)
Definition parseInhibLane (name : string) : option string :=
  if Js.includes name "_L" then Some "top"
  else if Js.includes name "_C" then Some "mid"
  else if Js.includes name "_R" then Some "bot"
  else None.

(** ** Snapshot triggers *)

(** One round of the loop of [#checkSideLanePressure]. *)
Definition laneCheck (d : Detector) (lt : Team) (allies : list Player)
           (lane role : string) : option TriggerResult :=
  if turretsDown d lt lane <? 2 then None
  else match find (fun p => String.eqb (position p) role) allies with
       | Some laneAlly =>
           if isDead laneAlly
           then Some (local CATCH_WAVE suggestion
                        ("CATCH " +:+ Js.toUpperCase lane +:+ " WAVE — Turrets exposed")
                        "CATCH_WAVE")
           else None
       | None => None
       end.

(** [#checkSideLanePressure(allies, gameTime)]: the lanes "top" and
    "bot" in turn, the first hit returns. *)
Definition checkSideLanePressure (d : Detector) (lt : Team) (allies : list Player)
  : option TriggerResult :=
  match laneCheck d lt allies "top" "TOP" with
  | Some t => Some t
  | None => laneCheck d lt allies "bot" "BOTTOM"
  end.

Definition qmin (a b : Q) : Q := if Js.Qleb a b then a else b.

(** The lane with most enemy turrets down: the loop over
    ["top"], ["mid"], ["bot"] starting from [0]. *)
Definition bestLaneTurretsDown (d : Detector) (enemyTeam : Team) : Z :=
  fold_left (fun best lane =>
               let down := turretsDown d enemyTeam lane in
               if best <? down then down else best)
            ["top"; "mid"; "bot"] 0.

(** The push-time estimate of [#checkWinCondition]. *)
Definition estimatedPushTime (d : Detector) (enemyTeam : Team) : Z :=
  let structuresRemaining := Z.max 0 (5 - bestLaneTurretsDown d enemyTeam) in
  let estimate := structuresRemaining * 18 + 10 in
  if (0 <? size (enemyInhibsDown d))%nat
  then Js.round (inject_Z estimate * (7 # 10))
  else estimate.

(** [Math.min(...deadEnemies.map((p) => p.respawnTimer || 0))] of a
    non-empty array. *)
Definition minRespawn (first : Player) (rest : list Player) : Q :=
  fold_left qmin (map respawnTimer rest) (respawnTimer first).

(** [#checkWinCondition(enemies, enemyJungler)] *)
Definition checkWinCondition (d : Detector) (enemies : list Player)
           (enemyJungler : option Player) : option TriggerResult :=
  let deadEnemies := List.filter isDead enemies in
  if (List.length deadEnemies <? 3)%nat then None
  else match enemyJungler with
       | None => None
       | Some jg =>
           if negb (isDead jg) then None
           else match deadEnemies, enemies with
                | p :: ps, e :: _ =>
                    let minR := minRespawn p ps in
                    if Js.Qltb minR 15 then None
                    else
                      let enemyTeam := team e in
                      if Js.Qltb (inject_Z (estimatedPushTime d enemyTeam)) minR
                      then Some (local WIN_CONDITION urgent
                                   "WIN CONDITION ACTIVE — PUSH TO END"
                                   "WIN_CONDITION")
                      else None
                | _, _ => None      (* excluded by the length test *)
                end
       end.

Definition opt_list {A} (o : option A) : list A :=
  match o with Some x => [x] | None => [] end.
Definition when {A} (b : bool) (x : A) : list A := if b then [x] else [].

(** The head of [evaluateSnapshot]: the name and the team of the local
    player, looked up on the first snapshot and kept afterwards. *)
Definition identify (d : Detector) (players : list Player) (ap : ActivePlayer)
  : string * option Team :=
  match localTeam d with
  | Some t => (localPlayerName d, Some t)
  | None =>
      let name0 := Js.or_str (ap_riotId ap) (ap_summonerName ap) in
      (name0,
       team <$> find (fun p => String.eqb (Js.or_str (riotId p) (summonerName p)) name0)
                     players)
  end.

(** The rest of [evaluateSnapshot], once the local team [lt] is known:
    the new state and the triggers, in the order they are pushed. *)
Definition evaluateFor (lt : Team) (lname : string) (snapshot : Snapshot)
           (ap : ActivePlayer) (d : Detector) : Detector * list TriggerResult :=
  let players := allPlayers snapshot in
  let gameTime := gameTime snapshot in
  let teamMap :=
    fold_left (fun m p =>
                 <[Js.or_str (Js.or_str (riotId p) (summonerName p)) (championName p)
                   := team p]> m)
              players (playerTeamMap d) in
  let allies := List.filter (fun p => Team_eqb (team p) lt) players in
  let enemies := List.filter (fun p => negb (Team_eqb (team p) lt)) players in
  let enemyJungler := find (fun p => String.eqb (position p) "JUNGLE") enemies in
  let allyGold := estimateTeamGold allies in
  let enemyGold := estimateTeamGold enemies in
  let goldLead := allyGold - enemyGold in
  let history := (goldHistory d ++ [(gameTime, allyGold, enemyGold)])%list in
  let history := if (20 <? List.length history)%nat
                 then skipn (List.length history - 15) history else history in
  let baronUp := isBaronUp d gameTime in
  let deaths := List.filter (fun t => Js.Qltb (gameTime - t) 30)
                            (recentAllyDeathTimes d) in
  let baronUp' := baronUp && Js.Qleb BARON_SPAWN_TIME gameTime in
  (* 1. throw guard *)
  let t1 := when ((3000 <? goldLead) && (2 <=? List.length deaths)%nat)
                 (local THROW_GUARD urgent
                        "RESET NOW — DON'T THROW BOUNTY" "RESET_NOW") in
  (* 2. baron and soul calls *)
  let t2a := when (baronUp' &&
                   match enemyJungler with
                   | Some jg => isDead jg && Js.Qltb 15 (respawnTimer jg)
                   | None => false
                   end)
                  (forClaude BARON_WINDOW urgent) in
  let t2b := when (baronUp' && (3 <=? enemyDrakeCount d))
                  (local CONTEST_SOUL urgent
                         "CONTEST SOUL — Enemy on Soul Point" "CONTEST_OBJECTIVE") in
  let t2c := when (baronUp' && (3 <=? allyDrakeCount d))
                  (local RUSH_BARON urgent
                         "RUSH BARON — Force lose-lose trade" "BARON_CALL") in
  (* 3. side-lane auditor *)
  let t3 := if Js.Qltb 840 gameTime
            then opt_list (checkSideLanePressure d lt allies) else [] in
  (* 4. win condition *)
  let t4 := if Js.Qltb 1500 gameTime
            then opt_list (checkWinCondition d enemies enemyJungler) else [] in
  (* 5. inhibitor pressure *)
  let t5 := when ((0 <? size (enemyInhibsDown d))%nat && baronUp'
                  && (allyDrakeCount d <? 3))
                 (local BARON_BAIT suggestion
                        "BARON BAIT — Inhib down, punish face-checks" "BARON_BAIT") in
  (* 6. ace *)
  let t6 := when ((0 <? List.length enemies)%nat && forallb isDead enemies)
                 (forClaude ACE urgent) in
  (* 7. gold swing *)
  let swing := 1000 <=? Z.abs (goldLead - lastReportedGoldLead d) in
  let reported := if swing then goldLead else lastReportedGoldLead d in
  let t7 := when swing (forClaude GOLD_SWING suggestion) in
  (* 8. long death timers *)
  let longDead := List.filter (fun p => isDead p && Js.Qltb 30 (respawnTimer p))
                              enemies in
  let t8 := when (2 <=? List.length longDead)%nat
                 (forClaude DEATH_TIMER_LONG suggestion) in
  (* 9. power spike *)
  let level := ap_level ap in
  let name := Js.or_str lname "local" in
  let prevLevel := default 0 (playerLevels d !! name) in
  let levels := if level =? prevLevel then playerLevels d
                else <[name := level]> (playerLevels d) in
  let t9 := when (negb (level =? prevLevel)
                  && ((level =? 6) || (level =? 11) || (level =? 16))
                  && (prevLevel <? level))
                 (mkTrigger POWER_SPIKE info None None false) in
  (mkDetector (Some lt) lname teamMap history reported
              (allyDrakeCount d) (enemyDrakeCount d)
              (lastDrakeKillTime d) (lastBaronKillTime d)
              deaths (turretsDestroyed d)
              (allyInhibsDown d) (enemyInhibsDown d) levels
              (seenEventIds d),
   ((t1 ++ t2a ++ t2b ++ t2c ++ t3) ++ t4 ++ (t5 ++ t6 ++ t7 ++ t8 ++ t9))%list).

(** [evaluateSnapshot(snapshot)] *)
Definition evaluateSnapshot (snapshot : Snapshot) (d : Detector)
  : Detector * list TriggerResult :=
  match allPlayers snapshot, activePlayer snapshot with
  | [], _ => (d, [])
  | _ :: _, None => (d, [])
  | _ :: _, Some ap =>
      match identify d (allPlayers snapshot) ap with
      | (lname, None) =>
          (mkDetector None lname (playerTeamMap d) (goldHistory d)
                      (lastReportedGoldLead d) (allyDrakeCount d) (enemyDrakeCount d)
                      (lastDrakeKillTime d) (lastBaronKillTime d)
                      (recentAllyDeathTimes d) (turretsDestroyed d)
                      (allyInhibsDown d) (enemyInhibsDown d) (playerLevels d)
                      (seenEventIds d), [])
      | (lname, Some lt) => evaluateFor lt lname snapshot ap d
      end
  end.

(** ** Event triggers *)

Definition with_events (d : Detector)
           (deaths : list Q) (ally enemy : Z) (drakeT baronT : Q)
           (turrets : gmap string Z) (allyInh enemyInh seen : gset string) : Detector :=
  mkDetector (localTeam d) (localPlayerName d) (playerTeamMap d) (goldHistory d)
             (lastReportedGoldLead d) ally enemy drakeT baronT deaths turrets
             allyInh enemyInh (playerLevels d) seen.

Definition set_seen (seen : gset string) (d : Detector) : Detector :=
  with_events d (recentAllyDeathTimes d) (allyDrakeCount d) (enemyDrakeCount d)
              (lastDrakeKillTime d) (lastBaronKillTime d) (turretsDestroyed d)
              (allyInhibsDown d) (enemyInhibsDown d) seen.
Definition set_deaths (deaths : list Q) (d : Detector) : Detector :=
  with_events d deaths (allyDrakeCount d) (enemyDrakeCount d)
              (lastDrakeKillTime d) (lastBaronKillTime d) (turretsDestroyed d)
              (allyInhibsDown d) (enemyInhibsDown d) (seenEventIds d).
Definition set_drakes (ally enemy : Z) (t : Q) (d : Detector) : Detector :=
  with_events d (recentAllyDeathTimes d) ally enemy
              t (lastBaronKillTime d) (turretsDestroyed d)
              (allyInhibsDown d) (enemyInhibsDown d) (seenEventIds d).
Definition set_baron (t : Q) (d : Detector) : Detector :=
  with_events d (recentAllyDeathTimes d) (allyDrakeCount d) (enemyDrakeCount d)
              (lastDrakeKillTime d) t (turretsDestroyed d)
              (allyInhibsDown d) (enemyInhibsDown d) (seenEventIds d).
Definition set_turrets (m : gmap string Z) (d : Detector) : Detector :=
  with_events d (recentAllyDeathTimes d) (allyDrakeCount d) (enemyDrakeCount d)
              (lastDrakeKillTime d) (lastBaronKillTime d) m
              (allyInhibsDown d) (enemyInhibsDown d) (seenEventIds d).
Definition set_inhibs (allyInh enemyInh : gset string) (d : Detector) : Detector :=
  with_events d (recentAllyDeathTimes d) (allyDrakeCount d) (enemyDrakeCount d)
              (lastDrakeKillTime d) (lastBaronKillTime d) (turretsDestroyed d)
              allyInh enemyInh (seenEventIds d).

(** [a === b] on teams that may be [null]. *)
Definition same_team (a b : option Team) : bool :=
  match a, b with
  | Some x, Some y => Team_eqb x y
  | None, None => true
  | _, _ => false
  end.

(** The key [`${event.EventName}:${event.EventID}`]. *)
Definition eventKey (e : GameEvent) : string :=
  EventName e +:+ ":" +:+ pretty (EventID e).

(** The body of the [for] loop of [evaluateEvents]. *)
Definition onEvent (acc : Detector * list TriggerResult) (e : GameEvent)
  : Detector * list TriggerResult :=
  let (d, triggers) := acc in
  if bool_decide (eventKey e ∈ seenEventIds d) then (d, triggers)
  else
    let d := set_seen ({[eventKey e]} ∪ seenEventIds d) d in
    let name := EventName e in
    if String.eqb name "ChampionKill" then
      if same_team (getPlayerTeam d (VictimName e)) (localTeam d)
      then (set_deaths (recentAllyDeathTimes d ++ [EventTime e]) d, triggers)
      else (d, triggers)
    else if String.eqb name "DragonKill" then
      let killerTeam := getPlayerTeam d (KillerName e) in
      let d :=
        if same_team killerTeam (localTeam d)
        then set_drakes (allyDrakeCount d + 1) (enemyDrakeCount d) (EventTime e) d
        else match killerTeam with
             | Some _ => set_drakes (allyDrakeCount d) (enemyDrakeCount d + 1) (EventTime e) d
             | None => set_drakes (allyDrakeCount d) (enemyDrakeCount d) (EventTime e) d
             end in
      (d, (triggers ++ [forClaude OBJECTIVE_TAKEN suggestion])%list)
    else if String.eqb name "BaronKill" then
      (set_baron (EventTime e) d, (triggers ++ [forClaude OBJECTIVE_TAKEN urgent])%list)
    else if String.eqb name "HeraldKill" then
      (d, (triggers ++ [forClaude OBJECTIVE_TAKEN info])%list)
    else if String.eqb name "TurretKilled" then
      let turretName := TurretKilled e in
      let d :=
        match parseTurretTeam turretName, parseTurretLane turretName with
        | Some tteam, Some lane =>
            set_turrets (<[turretKey tteam lane := turretsDown d tteam lane + 1]>
                           (turretsDestroyed d)) d
        | _, _ => d
        end in
      (d, (triggers ++ [mkTrigger TOWER_DESTROYED info None None false])%list)
    else if String.eqb name "InhibKilled" then
      let inhibName := InhibKilled e in
      let d :=
        match parseInhibTeam inhibName, parseInhibLane inhibName with
        | Some iteam, Some lane =>
            if same_team (Some iteam) (localTeam d)
            then set_inhibs ({[lane]} ∪ allyInhibsDown d) (enemyInhibsDown d) d
            else set_inhibs (allyInhibsDown d) ({[lane]} ∪ enemyInhibsDown d) d
        | _, _ => d
        end in
      (d, (triggers ++ [forClaude INHIB_KILLED suggestion])%list)
    else if String.eqb name "InhibRespawned" then
      let rInhibName := Js.or_str (InhibRespawned e) (InhibKilled e) in
      let d :=
        match parseInhibTeam rInhibName, parseInhibLane rInhibName with
        | Some iteam, Some lane =>
            if same_team (Some iteam) (localTeam d)
            then set_inhibs (allyInhibsDown d ∖ {[lane]}) (enemyInhibsDown d) d
            else set_inhibs (allyInhibsDown d) (enemyInhibsDown d ∖ {[lane]}) d
        | _, _ => d
        end in
      (d, triggers)
    else (d, triggers).

(** [evaluateEvents(events)] *)
Definition evaluateEvents (events : list GameEvent) (d : Detector)
  : Detector * list TriggerResult :=
  fold_left onEvent events (d, []).

(** ** The win condition in the words of the specification *)

(** The enemies and the enemy jungler of a snapshot, as
    [evaluateSnapshot] computes them. *)
Definition enemiesOf (lt : Team) (s : Snapshot) : list Player :=
  List.filter (fun p => negb (Team_eqb (team p) lt)) (allPlayers s).
Definition junglerOf (enemies : list Player) : option Player :=
  find (fun p => String.eqb (position p) "JUNGLE") enemies.

Definition opponent (t : Team) : Team :=
  match t with ORDER => CHAOS | CHAOS => ORDER end.

(** The largest number of destroyed turrets of [enemyTeam] in a lane
    (the counters are counts, never negative). *)
Definition maxTurretsDownInLane (d : Detector) (enemyTeam : Team) : Z :=
  Z.max 0 (Z.max (turretsDown d enemyTeam "top")
                 (Z.max (turretsDown d enemyTeam "mid")
                        (turretsDown d enemyTeam "bot"))).

(** Push-time = max(0, 5 - maxTurretsDownInLane) x 18 + 10, multiplied
    by 0.7 and rounded when an enemy inhibitor is down. *)
Definition pushTime (d : Detector) (enemyTeam : Team) : Q :=
  let base := inject_Z (Z.max 0 (5 - maxTurretsDownInLane d enemyTeam) * 18 + 10) in
  if bool_decide (enemyInhibsDown d = ∅) then base
  else inject_Z (Js.round (base * (7 # 10))).

(** At least three enemies dead, the jungler among them, every dead
    enemy respawning in 15 s or more and later than the push takes
    (that is: the minimum respawn is at least 15 and above the
    push-time). *)
Definition winCondition (d : Detector) (enemyTeam : Team) (enemies : list Player) : Prop :=
  let dead := List.filter isDead enemies in
  (3 <= List.length dead)%nat
  /\ (exists jg, junglerOf enemies = Some jg /\ isDead jg = true)
  /\ (forall p, In p dead ->
        (15 <= respawnTimer p)%Q /\ (pushTime d enemyTeam < respawnTimer p)%Q).

(** ** A late-game scenario *)

Definition enemy (name pos : string) (dead : bool) (timer : Q) : Player :=
  mkPlayer name name name CHAOS pos dead timer (mkScores 200 5 5).
Definition ally (name pos : string) : Player :=
  mkPlayer name name name ORDER pos false 0 (mkScores 200 5 5).

(** Three enemy turrets down in mid, an enemy inhibitor down, the local
    team known to be ORDER. *)
Definition late_detector : Detector :=
  mkDetector (Some ORDER) "me" ∅ [] 0 0 0 0%Q 0%Q []
             {[ "CHAOS:mid" := 3 ]} ∅ {[ "mid" ]} ∅ ∅.

(** Game time 1700 s; three enemies dead, respawning in 50, 40 and 35 s,
    the jungler among them. *)
Definition late_snapshot : Snapshot :=
  mkSnapshot
    [ ally "me" "MIDDLE"; ally "a2" "TOP"; ally "a3" "JUNGLE";
      ally "a4" "BOTTOM"; ally "a5" "UTILITY";
      enemy "e1" "TOP" false 0; enemy "e2" "JUNGLE" true 50;
      enemy "e3" "MIDDLE" true 40; enemy "e4" "BOTTOM" true 35;
      enemy "e5" "UTILITY" false 0 ]
    (Some (mkActive "me" "me" "Ahri" 14))
    1700.

End Triggers.

(* ===================================================================== *)
(** * The live advisor's dispatch policy (class [MacroStrategist]) *)
(* ===================================================================== *)

Module Macro.
Import LiveClient Triggers.

Definition MIN_ADVICE_INTERVAL : Z := 60000.

Record Agent := mkAgent {
  triggerDetector : Detector;
  latestSnapshot : option Snapshot;
  recentEvents : list GameEvent;
  lastAdviceTime : Z;
  invoking : bool;
  callCounter : Z
}.

(** The payload of a local call on the [macro:call] channel
    (its [reasoning] is the trigger's free text, left out). *)
Record MacroCall := mkCall {
  timestamp : Z;
  counter : Z;                      (* the suffix of the id *)
  game_time : Q;
  call_type : option string;
  call_urgency : Urgency;
  message : option string;
  window_seconds : Z
}.

(** A dispatch: a local call put on the overlay channel, or the
    hand-over of the LLM-worthy triggers to the advisor
    ([this.invoke(context, "IN_GAME")]), stamped with the value
    [#lastAdviceTime] takes. *)
Inductive dispatch :=
| LocalCall (at_time : Z) (call : MacroCall)
| ClaudeInvoke (at_time : Z) (triggers : list TriggerResult).

Definition dispatch_time (d : dispatch) : Z :=
  match d with LocalCall t _ => t | ClaudeInvoke t _ => t end.

(** The agent as [onActivate] leaves it. *)
Definition onActivate (_ : Agent) : Agent :=
  mkAgent fresh None [] 0 false 0.

Definition onDeactivate (a : Agent) : Agent :=
  mkAgent (reset (triggerDetector a)) (latestSnapshot a) (recentEvents a)
          (lastAdviceTime a) false (callCounter a).

(** [priorityOrder[t.urgency]] *)
Definition priority (u : Urgency) : Z :=
  match u with urgent => 0 | suggestion => 1 | info => 2 end.

(** [triggers.sort(...)]: the sort is stable. *)
Fixpoint insert (t : TriggerResult) (l : list TriggerResult) : list TriggerResult :=
  match l with
  | [] => [t]
  | x :: rest =>
      if priority (urgency t) <=? priority (urgency x) then t :: x :: rest
      else x :: insert t rest
  end.

Definition sort (l : list TriggerResult) : list TriggerResult :=
  fold_right insert [] l.

Definition truthy_call (c : option string) : bool :=
  match c with Some s => Js.truthy_str s | None => false end.

Definition snapshotTime (s : option Snapshot) : Q :=
  match s with Some s => gameTime s | None => 0%Q end.

(** [#emitLocalCall(trigger)], the clock reading [now']. *)
Definition emitLocalCall (now' : Z) (t : TriggerResult) (a : Agent)
  : Agent * list dispatch :=
  let c := callCounter a + 1 in
  (mkAgent (triggerDetector a) (latestSnapshot a) (recentEvents a) now' (invoking a) c,
   [LocalCall now'
      (mkCall now' c (snapshotTime (latestSnapshot a)) (localCallType t) (urgency t)
              (localCall t)
              (match urgency t with urgent => 20 | _ => 15 end))]).

(** [#maybeInvokeClaude(triggers)] up to its [await]. *)
Definition maybeInvokeClaude (now' : Z) (ts : list TriggerResult) (a : Agent)
  : Agent * list dispatch :=
  if invoking a then (a, [])
  else match latestSnapshot a with
       | None => (a, [])
       | Some _ =>
           (mkAgent (triggerDetector a) (latestSnapshot a) (recentEvents a) now' true
                    (callCounter a),
            [ClaudeInvoke now' ts])
       end.

(** The [finally] of [#maybeInvokeClaude], once the invocation settles. *)
Definition invokeSettled (a : Agent) : Agent :=
  mkAgent (triggerDetector a) (latestSnapshot a) (recentEvents a)
          (lastAdviceTime a) false (callCounter a).

Definition set_detector (d : Detector) (a : Agent) : Agent :=
  mkAgent d (latestSnapshot a) (recentEvents a) (lastAdviceTime a) (invoking a)
          (callCounter a).

(** [#handleSnapshot(snapshot)]; [now] is the reading of the cooldown
    test, [now'] the later one taken when dispatching. *)
Definition handleSnapshot (now now' : Z) (snapshot : Snapshot) (a : Agent)
  : Agent * list dispatch :=
  let a := mkAgent (triggerDetector a) (Some snapshot) (recentEvents a)
                   (lastAdviceTime a) (invoking a) (callCounter a) in
  match allPlayers snapshot, activePlayer snapshot with
  | [], _ => (a, [])
  | _ :: _, None => (a, [])
  | _, Some _ =>
      let (d, triggers) := evaluateSnapshot snapshot (triggerDetector a) in
      let a := set_detector d a in
      match triggers with
      | [] => (a, [])
      | _ :: _ =>
          if now - lastAdviceTime a <? MIN_ADVICE_INTERVAL then (a, [])
          else
            match sort triggers with
            | [] => (a, [])
            | top :: _ =>
                if truthy_call (localCall top) then emitLocalCall now' top a
                else if claudeWorthy top
                     then maybeInvokeClaude now' (List.filter claudeWorthy (sort triggers)) a
                     else (a, [])
            end
      end
  end.

(** [#handleNewEvents(events)] *)
Definition handleNewEvents (now now' : Z) (events : list GameEvent) (a : Agent)
  : Agent * list dispatch :=
  let recent := (recentEvents a ++ events)%list in
  let recent := if (30 <? List.length recent)%nat
                then skipn (List.length recent - 30) recent else recent in
  let (d, triggers) := evaluateEvents events (triggerDetector a) in
  let a := mkAgent d (latestSnapshot a) recent (lastAdviceTime a) (invoking a)
                   (callCounter a) in
  match triggers with
  | [] => (a, [])
  | _ :: _ =>
      if now - lastAdviceTime a <? MIN_ADVICE_INTERVAL then (a, [])
      else
        match List.filter claudeWorthy triggers with
        | [] => (a, [])
        | worthy => maybeInvokeClaude now' worthy a
        end
  end.

(** What reaches the agent between activation and deactivation. *)
Inductive input :=
| SnapshotIn (now now' : Z) (s : Snapshot)         (* "snapshot" *)
| EventsIn (now now' : Z) (es : list GameEvent)    (* "new-events" *)
| InvokeSettled.                                   (* the LLM call returns *)

Definition handle (i : input) (a : Agent) : Agent * list dispatch :=
  match i with
  | SnapshotIn now now' s => handleSnapshot now now' s a
  | EventsIn now now' es => handleNewEvents now now' es a
  | InvokeSettled => (invokeSettled a, [])
  end.

(** The dispatches of a run, oldest first. *)
Fixpoint run (ins : list input) (a : Agent) : Agent * list dispatch :=
  match ins with
  | [] => (a, [])
  | i :: rest =>
      let (a1, out1) := handle i a in
      let (a2, out2) := run rest a1 in
      (a2, (out1 ++ out2)%list)
  end.

(** The clock never runs backwards: readings are taken in order. *)
Fixpoint chronological (last : Z) (ins : list input) : Prop :=
  match ins with
  | [] => True
  | SnapshotIn now now' _ :: rest
  | EventsIn now now' _ :: rest =>
      last <= now /\ now <= now' /\ chronological now' rest
  | InvokeSettled :: rest => chronological last rest
  end.

(** Any two dispatches are at least the advice interval apart. *)
Definition spaced (out : list dispatch) : Prop :=
  ForallOrdPairs
    (fun d1 d2 => MIN_ADVICE_INTERVAL <= dispatch_time d2 - dispatch_time d1) out.

(** ** A scenario: throw guard, then an ace during the cooldown *)

Definition kill (id : Z) (victim : string) (t : Q) : GameEvent :=
  mkEvent id "ChampionKill" t "e1" victim EmptyString EmptyString
          EmptyString EmptyString EmptyString.

Definition member (name pos : string) (side : Team) (dead : bool) (timer : Q)
           (cs : Z) : Player :=
  mkPlayer name name name side pos dead timer (mkScores cs 0 0).

(** The local team is 3500 gold ahead at 900 s. *)
Definition ahead (enemiesDead : bool) (time : Q) : Snapshot :=
  mkSnapshot
    [ member "me" "MIDDLE" ORDER false 0 375; member "a2" "TOP" ORDER false 0 200;
      member "e1" "MIDDLE" CHAOS enemiesDead 20 200;
      member "e2" "JUNGLE" CHAOS enemiesDead 20 200 ]
    (Some (mkActive "me" "me" "Ahri" 9))
    time.

Definition T0 : Z := 1700000000000.

Definition throw_then_ace : list input :=
  [ SnapshotIn T0 T0 (ahead false 870);
    InvokeSettled;
    EventsIn (T0 + 61000) (T0 + 61000) [kill 1 "me" 880; kill 2 "a2" 890];
    SnapshotIn (T0 + 70000) (T0 + 70001) (ahead false 900);
    SnapshotIn (T0 + 90000) (T0 + 90000) (ahead true 920);
    SnapshotIn (T0 + 131000) (T0 + 131002) (ahead true 961) ].

End Macro.

(* ===================================================================== *)
(** * Advisor activation on phase transitions (class [Orchestrator]) *)
(* ===================================================================== *)

Module Orchestrator.
Import Phase.

Inductive hook := OnActivate | OnDeactivate.

(** What matters of an advisor class for the order of events: whether
    the body of a lifecycle hook contains an [await].  An [async]
    function runs synchronously up to its first [await]; a body
    without one has run to its end when the call returns. *)
Record AgentClass := mkClass {
  className : string;
  onActivateAwaits : bool;
  onDeactivateAwaits : bool
}.

(** [DraftingOracle]: [onActivate] ends on
    [await this.#pollChampSelect()], [onDeactivate] has no [await]. *)
Definition DraftingOracle := mkClass "drafting-oracle" true false.
(** [MacroStrategist]: neither hook has an [await]. *)
Definition MacroStrategist := mkClass "macro-strategist" false false.
(** [TiltGuard]: [onActivate] ends on [await this.#processPostGame()],
    [onDeactivate] has no [await]. *)
Definition TiltGuard := mkClass "tilt-guard" true false.

(** [#createAgent(agentId)] *)
Definition createAgent (agentId : string) : option AgentClass :=
  if String.eqb agentId "drafting-oracle" then Some DraftingOracle
  else if String.eqb agentId "macro-strategist" then Some MacroStrategist
  else if String.eqb agentId "tilt-guard" then Some TiltGuard
  else None.

(** A live instance: its class and [BaseAgent]'s [#active] flag. *)
Record Instance := mkInstance { class : AgentClass; active : bool }.

Definition awaits (c : AgentClass) (h : hook) : bool :=
  match h with
  | OnActivate => onActivateAwaits c
  | OnDeactivate => onDeactivateAwaits c
  end.

Inductive obs :=
| TrayStatus (p : GamePhase)
| HookBegin (agent : string) (h : hook)      (* the body starts to run *)
| HookSuspended (agent : string) (h : hook)  (* the body stops at its await *)
| HookEnd (agent : string) (h : hook)        (* the body has run to its end *)
| OverlayHide (ov : string)
| OverlayShow (ov : string)
| BroadcastPhase (p : GamePhase)
| Publish (topic : string) (payload : string).

(** Continuations left behind by calls that are not awaited; they run
    once the current call stack has unwound, in order. *)
Inductive reaction :=
| ResumeHook (agent : string) (h : hook)   (* the rest of a hook body *)
| FinishDeactivate (agentId : string).     (* #deactivateAgent after its await *)

Record State := mkState {
  machine : Machine;
  activeAgents : list (string * Instance);   (* a Map, in insertion order *)
  settings : gmap string string;             (* queries.getSetting *)
  reactions : list reaction
}.

Fixpoint mapGet (m : list (string * Instance)) (k : string) : option Instance :=
  match m with
  | [] => None
  | (k', v) :: rest => if String.eqb k' k then Some v else mapGet rest k
  end.

Fixpoint mapSet (m : list (string * Instance)) (k : string) (v : Instance)
  : list (string * Instance) :=
  match m with
  | [] => [(k, v)]
  | (k', v') :: rest =>
      if String.eqb k' k then (k, v) :: rest else (k', v') :: mapSet rest k v
  end.

Definition mapDelete (m : list (string * Instance)) (k : string)
  : list (string * Instance) :=
  List.filter (fun kv => negb (String.eqb (fst kv) k)) m.

Definition set_agents (m : list (string * Instance)) (st : State) : State :=
  mkState (machine st) m (settings st) (reactions st).
Definition push_reaction (r : reaction) (st : State) : State :=
  mkState (machine st) (activeAgents st) (settings st) (reactions st ++ [r]).

(** [agentId.replace(/-/g, "_")] *)
Fixpoint dashToUnderscore (s : string) : string :=
  match s with
  | EmptyString => EmptyString
  | String c s' =>
      String (if Ascii.eqb c "-" then "_"%char else c) (dashToUnderscore s')
  end.

Definition settingKey (agentId : string) : string :=
  "agent_" +:+ dashToUnderscore agentId +:+ "_enabled".

(** Calling an [async] hook that is not awaited: what is observed
    before the call returns, and the continuation left behind. *)
Definition callHook (agentId : string) (c : AgentClass) (h : hook)
           (whenDone : list reaction) : list obs * list reaction :=
  if awaits c h
  then ([HookBegin agentId h; HookSuspended agentId h], [ResumeHook agentId h])
  else ([HookBegin agentId h; HookEnd agentId h], whenDone).

(** [#deactivateAgent(agentId)] up to [await agent.stop()], with
    [BaseAgent.stop()] up to [await this.onDeactivate()].  The rest
    of [#deactivateAgent] is queued as soon as [stop()] can finish. *)
Definition deactivateAgent (agentId : string) (st : State) : State * list obs :=
  match mapGet (activeAgents st) agentId with
  | None => (st, [])
  | Some agent =>
      if active agent then
        let (out, rs) := callHook agentId (class agent) OnDeactivate
                                  [FinishDeactivate agentId] in
        (mkState (machine st)
                 (mapSet (activeAgents st) agentId (mkInstance (class agent) false))
                 (settings st) (reactions st ++ rs), out)
      else
        (mkState (machine st) (activeAgents st) (settings st)
                 (reactions st ++ [FinishDeactivate agentId]), [])
  end.

(** [#activateAgent(agentId)] up to [await agent.start()], with
    [BaseAgent.start()] up to [await this.onActivate()].  What
    [start()] does once a suspended [onActivate] ends, its [catch]
    included, is [OrchestratorTurns.startSettled]. *)
Definition activateAgent (agentId : string) (st : State) : State * list obs :=
  match mapGet (activeAgents st) agentId with
  | Some _ => (st, [])
  | None =>
      if bool_decide (settings st !! settingKey agentId = Some "false") then (st, [])
      else match createAgent agentId with
           | None => (st, [])
           | Some c =>
               let (out, rs) := callHook agentId c OnActivate [] in
               (mkState (machine st)
                        (mapSet (activeAgents st) agentId (mkInstance c true))
                        (settings st) (reactions st ++ rs),
                Publish "agent:activated" agentId :: out)
           end
  end.

Definition opt_call (f : string -> State -> State * list obs) (a : option string)
           (st : State) : State * list obs :=
  match a with Some agentId => f agentId st | None => (st, []) end.

(** [#onPhaseTransition(from, to)], the synchronous call. *)
Definition onPhaseTransition (from to : GamePhase) (st : State) : State * list obs :=
  let (st1, o1) := opt_call deactivateAgent (PHASE_AGENT_MAP from) st in
  let (st2, o2) := opt_call activateAgent (PHASE_AGENT_MAP to) st1 in
  (st2,
   [TrayStatus to] ++ o1 ++ map OverlayHide (PHASE_OVERLAY_MAP from)
     ++ o2 ++ map OverlayShow (PHASE_OVERLAY_MAP to)
     ++ [BroadcastPhase to; Publish "phase:changed" EmptyString])%list.

(** Once the call stack has unwound the queued ends of
    [#deactivateAgent] run, in order; the hook bodies that wait for
    what they await stay queued. *)
Fixpoint settle (rs : list reaction) (agents : list (string * Instance))
  : list (string * Instance) * list reaction * list obs :=
  match rs with
  | [] => (agents, [], [])
  | FinishDeactivate agentId :: rest =>
      let '(ag, kept, out) := settle rest (mapDelete agents agentId) in
      (ag, kept, Publish "agent:deactivated" agentId :: out)
  | r :: rest =>
      let '(ag, kept, out) := settle rest agents in
      (ag, r :: kept, out)
  end.

Definition flush (st : State) : State * list obs :=
  let '(ag, kept, out) := settle (reactions st) (activeAgents st) in
  (mkState (machine st) ag (settings st) kept, out).

(** [#onPhaseTransition] as a whole turn: the call and what it leaves
    to run afterwards. *)
Definition transitionTurn (from to : GamePhase) (st : State) : State * list obs :=
  let (st1, o1) := onPhaseTransition from to st in
  let (st2, o2) := flush st1 in
  (st2, (o1 ++ o2)%list).

(** A phase notification of the client whose string stands for the
    phase [to] (see [Phase.canonical]): the machine moves and calls
    back [#onPhaseTransition]. *)
Definition phaseChanged (to : GamePhase) (st : State) : State * list obs :=
  let '(_, m, eff) := transition to (machine st) in
  let st := mkState m (activeAgents st) (settings st) (reactions st) in
  match List.filter (fun e => match e with OnTransition _ _ => true | _ => false end) eff with
  | OnTransition from to :: _ => transitionTurn from to st
  | _ => (st, [])
  end.

(** Every live instance is of the class [#createAgent] builds for its
    identifier; [#activateAgent] is the only place that stores one. *)
Definition well_formed (st : State) : Prop :=
  Forall (fun kv => createAgent (fst kv) = Some (class (snd kv))) (activeAgents st).

Definition initial (s : gmap string string) : State := mkState Phase.initial [] s [].

(** The advisors whose [onActivate] starts to run, in order. *)
Definition activation_begins (out : list obs) : list string :=
  flat_map (fun o => match o with HookBegin a OnActivate => [a] | _ => [] end) out.

(** A game in progress: the live advisor is up. *)
Definition in_game : State :=
  mkState IN_GAME [("macro-strategist", mkInstance MacroStrategist true)] ∅ [].

End Orchestrator.

(* ===================================================================== *)
(** * Runs of the phase machine *)
(* ===================================================================== *)

Module PhaseRuns.
Import Phase.

(** The two ways the orchestrator drives the machine. *)
Inductive call :=
| FromLCU (lcuPhase : string)     (* transitionFromLCU(lcuPhase) *)
| Reset.                          (* reset() *)

(** A call on a machine that holds a phase; [None] when the machine
    leaves the phases (see [Phase.Escapes]). *)
Definition apply_call (c : call) (m : Machine) : option (Machine * list effect) :=
  match c with
  | FromLCU s =>
      match transitionFromLCU s m with
      | Within _ m' eff => Some (m', eff)
      | Escapes _ _ => None
      end
  | Reset => Some (reset m)
  end.

(** Successive calls, the effects in order. *)
Fixpoint feed (cs : list call) (m : Machine) : option (Machine * list effect) :=
  match cs with
  | [] => Some (m, [])
  | c :: rest =>
      match apply_call c m with
      | None => None
      | Some (m1, eff1) =>
          match feed rest m1 with
          | None => None
          | Some (m2, eff2) => Some (m2, (eff1 ++ eff2)%list)
          end
      end
  end.

(** The calls of the [#onTransition] callback among the effects. *)
Definition callbacks (eff : list effect) : list (GamePhase * GamePhase) :=
  omap (fun e => match e with OnTransition f t => Some (f, t) | _ => None end) eff.

(** The phase a call asks for, if it asks for one. *)
Definition target (c : call) : option GamePhase :=
  match c with FromLCU s => canonical s | Reset => Some IDLE end.

(** The changes along a sequence of requested phases, starting from
    [m]: each phase that differs from the one before it, paired with
    that one. *)
Fixpoint changes (m : GamePhase) (ts : list GamePhase) : list (GamePhase * GamePhase) :=
  match ts with
  | [] => []
  | t :: rest =>
      if GamePhase_eqb t m then changes m rest else (m, t) :: changes t rest
  end.

End PhaseRuns.

(* ===================================================================== *)
(** * The telemetry client with its timers and requests in flight *)
(* ===================================================================== *)

Module LivePolling.
Import LiveClient Triggers.

(** What the snapshot side of [LiveClientAPI] emits. *)
Inductive emission :=
| Available
| Unavailable
| SnapshotOut (data : Snapshot).

(** The callback of the snapshot timer after its [await]; [r] is what
    [await this.getAllGameData()] gives, [None] when it rejects. *)
Definition snapshotTick (r : option Snapshot) (p : Poller) : Poller * list emission :=
  match r with
  | Some data =>
      (mkPoller (lastEventId p) true,
       ((if wasAvailable p then [] else [Available]) ++ [SnapshotOut data])%list)
  | None =>
      (mkPoller (lastEventId p) false,
       if wasAvailable p then [Unavailable] else [])
  end.

(** The immediate first poll of [startPolling], when it settles. *)
Definition firstPoll (r : option Snapshot) (p : Poller) : Poller * list emission :=
  match r with
  | Some data => (mkPoller (lastEventId p) true, [Available; SnapshotOut data])
  | None => (p, [])
  end.

(** Everything the client emits. *)
Inductive emitted :=
| Snap (e : emission)
| NewEvents (events : list GameEvent).     (* "new-events" *)

(** The client between two turns of the event loop: its two fields,
    whether [#snapshotTimer] and [#eventTimer] hold a timer, how many
    pairs of intervals are running ([startPolling] sets a new pair
    without clearing an old one, [stopPolling] clears the pair it
    holds), and the requests in flight, whose callbacks are suspended
    at their [await]. *)
Record Client := mkClient {
  poller : Poller;
  held : bool;
  intervals : nat;
  snapshotsInFlight : nat;
  eventsInFlight : nat;
  firstPollsInFlight : nat
}.

Definition newClient : Client := mkClient newPoller false 0 0 0 0.

(** What happens to the client, one turn each.  Nothing cancels a
    request: a callback goes on after its [await] whenever the request
    settles, and works on the fields as they are then. *)
Inductive action :=
| StartPolling                              (* startPolling() *)
| StopPolling                               (* stopPolling() *)
| SnapshotTimer                             (* a snapshot interval fires *)
| EventTimer                                (* an event interval fires *)
| SnapshotFetched (r : option Snapshot)     (* a snapshot request settles *)
| EventsFetched (r : fetched)               (* an event request settles *)
| FirstPollFetched (r : option Snapshot).   (* a first poll settles *)

(** One turn; [None] when the action cannot happen (no interval
    running, no such request in flight). *)
Definition step (a : action) (c : Client) : option (Client * list emitted) :=
  match a with
  | StartPolling =>
      Some (mkClient (startPolling (poller c)) true (S (intervals c))
                     (snapshotsInFlight c) (eventsInFlight c)
                     (S (firstPollsInFlight c)),
            [])
  | StopPolling =>
      Some (mkClient (stopPolling (poller c)) false
                     (if held c then Nat.pred (intervals c) else intervals c)
                     (snapshotsInFlight c) (eventsInFlight c) (firstPollsInFlight c),
            [])
  | SnapshotTimer =>
      match intervals c with
      | O => None
      | S _ =>
          Some (mkClient (poller c) (held c) (intervals c)
                         (S (snapshotsInFlight c)) (eventsInFlight c)
                         (firstPollsInFlight c),
                [])
      end
  | EventTimer =>
      match intervals c with
      | O => None
      | S _ =>
          Some (mkClient (poller c) (held c) (intervals c)
                         (snapshotsInFlight c) (S (eventsInFlight c))
                         (firstPollsInFlight c),
                [])
      end
  | SnapshotFetched r =>
      match snapshotsInFlight c with
      | O => None
      | S n =>
          let (p, out) := snapshotTick r (poller c) in
          Some (mkClient p (held c) (intervals c) n (eventsInFlight c)
                         (firstPollsInFlight c),
                map Snap out)
      end
  | EventsFetched r =>
      match eventsInFlight c with
      | O => None
      | S n =>
          let (p, out) := eventTick r (poller c) in
          Some (mkClient p (held c) (intervals c) (snapshotsInFlight c) n
                         (firstPollsInFlight c),
                match out with Some evs => [NewEvents evs] | None => [] end)
      end
  | FirstPollFetched r =>
      match firstPollsInFlight c with
      | O => None
      | S n =>
          let (p, out) := firstPoll r (poller c) in
          Some (mkClient p (held c) (intervals c) (snapshotsInFlight c)
                         (eventsInFlight c) n,
                map Snap out)
      end
  end.

(** Successive turns, the emissions in order. *)
Fixpoint run (acts : list action) (c : Client) : option (Client * list emitted) :=
  match acts with
  | [] => Some (c, [])
  | a :: rest =>
      match step a c with
      | None => None
      | Some (c1, out1) =>
          match run rest c1 with
          | None => None
          | Some (c2, out2) => Some (c2, (out1 ++ out2)%list)
          end
      end
  end.

(** The payloads of the ["new-events"] emissions, oldest first. *)
Definition new_events (out : list emitted) : list (list GameEvent) :=
  omap (fun e => match e with NewEvents evs => Some evs | Snap _ => None end) out.

(** The emissions of the snapshot side, oldest first. *)
Definition snaps (out : list emitted) : list emission :=
  omap (fun e => match e with Snap s => Some s | NewEvents _ => None end) out.

(** Reading the snapshot side from the left with the reachability
    last announced: "unavailable" and snapshots come only after an
    "available" with no "unavailable" since. *)
Fixpoint announced (reachable : bool) (out : list emission) : Prop :=
  match out with
  | [] => True
  | Available :: rest => announced true rest
  | Unavailable :: rest => reachable = true /\ announced false rest
  | SnapshotOut _ :: rest => reachable = true /\ announced reachable rest
  end.

(** Polling goes on: neither stopped nor started anew. *)
Definition in_session (a : action) : Prop :=
  match a with StartPolling | StopPolling => False | _ => True end.

(** The event feed of a game is a log that only grows: a request that
    succeeds returns its first entries, up to some length. *)
Definition from_log (log : list GameEvent) (a : action) : Prop :=
  match a with
  | EventsFetched (FetchOk evs) => exists n, default [] evs = firstn n log
  | _ => True
  end.

(** The number of events of the longest answer. *)
Definition answered (a : action) : nat :=
  match a with
  | EventsFetched (FetchOk evs) => List.length (default [] evs)
  | _ => 0%nat
  end.

Definition longest (acts : list action) : nat :=
  fold_right Nat.max 0%nat (map answered acts).

(** ** A scenario: polling is stopped while an event request is in flight *)

Definition ev (id : Z) : GameEvent :=
  mkEvent id "ChampionKill" (inject_Z (60 * id)) "e1" "a1" EmptyString EmptyString
          EmptyString EmptyString EmptyString.

Definition stopped_in_flight : list action :=
  [ StartPolling;
    EventTimer; EventsFetched (FetchOk (Some [ev 0; ev 1; ev 2]));
    EventTimer;
    StopPolling;
    EventsFetched (FetchOk (Some [ev 0; ev 1; ev 2; ev 3])) ].

End LivePolling.

(* ===================================================================== *)
(** * The live advisor's tool for the LLM *)
(* ===================================================================== *)

Module MacroTool.
Import LiveClient Triggers Macro.

(** The [labels] table of [#formatCallMessage]. *)
Definition labels : list (string * string) :=
  [ ("CONTEST_OBJECTIVE", "Contest Objective");
    ("SPLIT_PUSH", "Split Push");
    ("GROUP_MID", "Group Mid");
    ("RESET_NOW", "Reset Now");
    ("PLAY_SAFE", "Play Safe");
    ("FORCE_FIGHT", "Force Fight");
    ("SET_UP_VISION", "Set Up Vision");
    ("TAKE_TOWER", "Take Tower");
    ("INVADE_JUNGLE", "Invade Jungle");
    ("BARON_CALL", "Baron Call");
    ("CATCH_WAVE", "Catch Wave");
    ("WIN_CONDITION", "Win Condition");
    ("BARON_BAIT", "Baron Bait") ].

(** The part of the message that is displayed: messages longer than
    60 are cut to 57 and an ellipsis.  (Lengths count the characters
    of the string; code and model agree on ASCII text.) *)
Definition shorten (message : string) : string :=
  if (60 <? String.length message)%nat
  then String.substring 0 57 message +:+ "..."
  else message.

(** [#formatCallMessage(callType, message)] *)
Definition formatCallMessage (callType message : string) : string :=
  let label := match Phase.prop labels callType with
               | Phase.Own l => l
               | Phase.Inherited name => Phase.member_text name
               | Phase.Undefined => callType
               end in
  label +:+ " — " +:+ shorten message.

(** The payload [#handleEmitMacroCall] puts on the overlay channel. *)
Record ToolCall := mkToolCall {
  tc_timestamp : Z;
  tc_counter : Z;                 (* the suffix of the id *)
  tc_game_time : Q;
  tc_type : string;
  tc_urgency : string;
  tc_message : string;
  tc_reasoning : string;
  tc_window : Z
}.

(** [#handleEmitMacroCall({ type, urgency, message, window_seconds = 15 })] *)
Definition handleEmitMacroCall (now : Z) (type urgency message : string)
           (window_seconds : option Z) (a : Agent) : Agent * ToolCall :=
  let c := callCounter a + 1 in
  (mkAgent (triggerDetector a) (latestSnapshot a) (recentEvents a)
           (lastAdviceTime a) (invoking a) c,
   mkToolCall now c (snapshotTime (latestSnapshot a)) type urgency
              (formatCallMessage type message) message
              (default 15 window_seconds)).

(** What reaches the agent, the tool calls of the LLM included. *)
Inductive input2 :=
| Live (i : input)
| EmitMacroCall (now : Z) (type urgency message : string) (window_seconds : option Z).

(** What goes to the overlay: the time stamp and the counter that make
    the [id] of the call, [`macro-${Date.now()}-${counter}`]. *)
Definition local_ids (out : list dispatch) : list (Z * Z) :=
  omap (fun d => match d with
                 | LocalCall _ c => Some (timestamp c, counter c)
                 | ClaudeInvoke _ _ => None
                 end) out.

Definition handle2 (i : input2) (a : Agent) : Agent * list (Z * Z) :=
  match i with
  | Live i => let (a', out) := handle i a in (a', local_ids out)
  | EmitMacroCall now type urgency message w =>
      let (a', c) := handleEmitMacroCall now type urgency message w a in
      (a', [(tc_timestamp c, tc_counter c)])
  end.

(** The ids of the calls sent to the overlay along a run. *)
Fixpoint sent (ins : list input2) (a : Agent) : Agent * list (Z * Z) :=
  match ins with
  | [] => (a, [])
  | i :: rest =>
      let (a1, out1) := handle2 i a in
      let (a2, out2) := sent rest a1 in
      (a2, (out1 ++ out2)%list)
  end.

End MacroTool.

(* ===================================================================== *)
(** * Turns of the orchestrator *)
(* ===================================================================== *)

Module OrchestratorTurns.
Import Phase Orchestrator.

(** What the orchestrator's other entry points add to the
    observations of a phase transition. *)
Inductive obs2 :=
| Seen (o : obs)
| TrayText (status : string)                 (* #updateTrayStatus(text) *)
| SendToMain (channel text : string)         (* overlayManager.sendToMain *)
| HideAll.                                   (* overlayManager.hideAll() *)

(** The calls that reach the orchestrator.  A phase notification is
    given by the phase its string stands for (see [Phase.canonical]);
    a string that names an inherited member, with which the machine
    leaves the phases, is left out. *)
Inductive call :=
| PhaseChanged (to : GamePhase)        (* the "phase-changed" handler *)
| Disconnected                         (* the "disconnected" handler *)
| PauseAgents                          (* pauseAgents() *)
| ResumeAgents.                        (* resumeAgents() *)

(** [#deactivateAllAgents()] up to its [await]: [#deactivateAgent] is
    called for the keys of the map, in order, each running up to its
    own [await]. *)
Definition deactivateAllAgents (st : State) : State * list obs :=
  fold_left (fun (acc : State * list obs) id =>
               let (st0, out) := acc in
               let (st1, o) := deactivateAgent id st0 in
               (st1, (out ++ o)%list))
            (map fst (activeAgents st)) (st, []).

(** The synchronous part of a call: the new state, what is observed,
    and how many [pauseAgents()] are left waiting at their [await]. *)
Definition sync (c : call) (st : State) : State * list obs2 * nat :=
  match c with
  | PhaseChanged to =>
      let '(_, m, eff) := transition to (machine st) in
      let st := mkState m (activeAgents st) (settings st) (reactions st) in
      match List.filter (fun e => match e with OnTransition _ _ => true | _ => false end)
                        eff with
      | OnTransition from to :: _ =>
          let (st', o) := onPhaseTransition from to st in (st', map Seen o, 0%nat)
      | _ => (st, [], 0%nat)
      end
  | Disconnected =>
      let (st1, o1) := deactivateAllAgents st in
      let (m, eff) := reset (machine st1) in
      let st2 := mkState m (activeAgents st1) (settings st1) (reactions st1) in
      let (st3, o3) := match eff with
                       | OnTransition from to :: _ => onPhaseTransition from to st2
                       | _ => (st2, [])
                       end in
      (st3,
       ([TrayText "Disconnected — waiting for League Client..."]
          ++ map Seen o1 ++ [HideAll] ++ map Seen o3
          ++ [SendToMain "status:update" "Disconnected — reconnecting..."])%list,
       0%nat)
  | PauseAgents =>
      let (st1, o1) := deactivateAllAgents st in (st1, map Seen o1, 1%nat)
  | ResumeAgents =>
      let (st1, o1) := opt_call activateAgent (PHASE_AGENT_MAP (machine st)) st in
      (st1, map Seen (o1 ++ map OverlayShow (PHASE_OVERLAY_MAP (machine st)))%list, 0%nat)
  end.

(** The calls of one turn, run one after the other without a pause. *)
Fixpoint syncs (cs : list call) (st : State) : State * list obs2 * nat :=
  match cs with
  | [] => (st, [], 0%nat)
  | c :: rest =>
      let '(st1, o1, n1) := sync c st in
      let '(st2, o2, n2) := syncs rest st1 in
      (st2, (o1 ++ o2)%list, (n1 + n2)%nat)
  end.

(** A turn: the calls, what their caller does after them, then the
    continuations they left behind; a [pauseAgents()] goes on to
    [hideAll()] once its deactivations are finished.  In the turns
    used below no call after a [pauseAgents()] queues a deactivation,
    so its [hideAll()] comes last. *)
Definition turn (cs : list call) (after : list obs2) (st : State)
  : State * list obs2 :=
  let '(st1, o1, n) := syncs cs st in
  let (st2, o2) := flush st1 in
  (st2, (o1 ++ after ++ map Seen o2 ++ repeat HideAll n)%list).

(** The first continuation of [agentId]'s [onActivate] leaves the queue. *)
Fixpoint take_resume (agentId : string) (rs : list reaction)
  : option (list reaction) :=
  match rs with
  | [] => None
  | ResumeHook a OnActivate :: rest =>
      if String.eqb a agentId then Some rest
      else option_map (cons (ResumeHook a OnActivate)) (take_resume agentId rest)
  | r :: rest => option_map (cons r) (take_resume agentId rest)
  end.

(** The rest of [BaseAgent.start()], once what a suspended
    [onActivate] awaits has settled: the hook body ends and nothing
    else changes, or it rejects and the [catch] of [start()] clears
    [#active]; the advisor stays in [#activeAgents], since [start()]
    itself never rejects.  The instance whose hook settles may have
    left the map since ([live] false): then the map is not touched.
    Nothing happens when no [onActivate] of [agentId] is suspended. *)
Definition startSettled (agentId : string) (rejected live : bool) (st : State)
  : State * list obs2 :=
  match take_resume agentId (reactions st) with
  | None => (st, [])
  | Some rs =>
      if rejected then
        (mkState (machine st)
                 (if live then
                    match mapGet (activeAgents st) agentId with
                    | Some agent =>
                        mapSet (activeAgents st) agentId (mkInstance (class agent) false)
                    | None => activeAgents st
                    end
                  else activeAgents st)
                 (settings st) rs,
         [])
      else
        (mkState (machine st) (activeAgents st) (settings st) rs,
         [Seen (HookEnd agentId OnActivate)])
  end.

(** What happens to the orchestrator: a call in a turn of its own, the
    timer of the "keys:save" handler, which calls [pauseAgents()] and
    [resumeAgents()] in a row, a change of a setting, or the end of a
    suspended [onActivate]. *)
Inductive happening :=
| Call (c : call)
| KeysSaved
| SettingChanged (key value : string)
| StartSettled (agentId : string) (rejected live : bool).

Definition happen (h : happening) (st : State) : State * list obs2 :=
  match h with
  | Call c => turn [c] [] st
  | KeysSaved =>
      turn [PauseAgents; ResumeAgents]
           [TrayText "Keys propagated — agents resumed."] st
  | SettingChanged k v =>
      (mkState (machine st) (activeAgents st) (<[k := v]> (settings st)) (reactions st),
       [])
  | StartSettled agentId rejected live => startSettled agentId rejected live st
  end.

Fixpoint happenings (hs : list happening) (st : State) : State * list obs2 :=
  match hs with
  | [] => (st, [])
  | h :: rest =>
      let (st1, o1) := happen h st in
      let (st2, o2) := happenings rest st1 in
      (st2, (o1 ++ o2)%list)
  end.

(** The rest of a hook body that waits for what it awaits. *)
Definition is_resume (r : reaction) : Prop :=
  match r with ResumeHook _ _ => True | FinishDeactivate _ => False end.

(** Between turns: no deactivation is half done, and the only advisor
    that may be live is the one of the current phase, active and of
    its class. *)
Definition tidy (st : State) : Prop :=
  Forall is_resume (reactions st)
  /\ (activeAgents st = []
      \/ exists a c,
           activeAgents st = [(a, mkInstance c true)]
           /\ PHASE_AGENT_MAP (machine st) = Some a
           /\ createAgent a = Some c).

(** The same without the claim that the advisor is active: its
    [onActivate] may have failed since. *)
Definition housed (st : State) : Prop :=
  Forall is_resume (reactions st)
  /\ (activeAgents st = []
      \/ exists a c act,
           activeAgents st = [(a, mkInstance c act)]
           /\ PHASE_AGENT_MAP (machine st) = Some a
           /\ createAgent a = Some c).

End OrchestratorTurns.

(* ===================================================================== *)
(** * The tilt score *)
(* ===================================================================== *)

Module TiltMetrics.

Inductive TiltLevel := COOL | WARMING | TILTED | DANGER_ZONE.

(** [getTiltLevel(score)] *)
Definition getTiltLevel (score : Z) : TiltLevel :=
  if score <=? 25 then COOL
  else if score <=? 50 then WARMING
  else if score <=? 75 then TILTED
  else DANGER_ZONE.

Inductive Trend := improving | stable | declining.

(** A match row, with the columns read below. *)
Record Match := mkMatch { win : bool; deaths : Z }.

(** The streak loop of [buildTiltMetrics]: the matches from the last
    one backwards, with [lossStreak] and [winStreak]; a [break] ends
    the loop. *)
Fixpoint streakLoop (backwards : list Match) (lossStreak winStreak : nat) : nat * nat :=
  match backwards with
  | [] => (lossStreak, winStreak)
  | m :: rest =>
      if win m then
        if (0 <? lossStreak)%nat then (lossStreak, winStreak)
        else streakLoop rest lossStreak (S winStreak)
      else
        if (0 <? winStreak)%nat then (lossStreak, winStreak)
        else streakLoop rest (S lossStreak) winStreak
  end.

(** The part of the metrics that [calculateTiltScore] reads, and the
    streaks. *)
Record Metrics := mkMetrics {
  session_games_played : Z;
  current_loss_streak : Z;
  current_win_streak : Z;
  kda_trend : Trend;
  cs_per_min_trend : Trend;
  death_timing_trend : Trend;
  avg_time_between_games : Z;
  surrender_votes : Z;
  last_game_death_count : Z;
  last_game_kda : Q
}.

(** The values [buildTiltMetrics] computes in floating point, taken
    as they come out: the three trends, the rounded average pause
    between games and the last game's KDA rounded to two places. *)
Record Measured := mkMeasured {
  m_kda_trend : Trend;
  m_cs_per_min_trend : Trend;
  m_death_timing_trend : Trend;
  m_avg_time_between_games : Z;
  m_last_game_kda : Q
}.

(** [buildTiltMetrics(sessionMatches, latestMatch)], the fields above. *)
Definition buildTiltMetrics (sessionMatches : list Match) (latestMatch : option Match)
           (fl : Measured) : Metrics :=
  let (lossStreak, winStreak) := streakLoop (rev sessionMatches) 0 0 in
  mkMetrics (Z.of_nat (List.length sessionMatches))
            (Z.of_nat lossStreak) (Z.of_nat winStreak)
            (m_kda_trend fl) (m_cs_per_min_trend fl) (m_death_timing_trend fl)
            (m_avg_time_between_games fl)
            0
            (match latestMatch with Some m => deaths m | None => 0 end)
            (m_last_game_kda fl).

Definition is_declining (t : Trend) : bool :=
  match t with declining => true | _ => false end.

(** [calculateTiltScore(metrics)] *)
Definition calculateTiltScore (metrics : Metrics) : Z :=
  let score := 0 in
  let score := score + Z.min (current_loss_streak metrics * 12) 36 in
  let score := if is_declining (kda_trend metrics) then score + 10 else score in
  let score := if is_declining (cs_per_min_trend metrics) then score + 5 else score in
  let score := if is_declining (death_timing_trend metrics) then score + 10 else score in
  let score := if avg_time_between_games metrics <? 60 then score + 15 else score in
  let score := score + Z.min (surrender_votes metrics * 5) 10 in
  let score := if 8 <? last_game_death_count metrics then score + 8 else score in
  let score := if negb (Qle_bool 1 (last_game_kda metrics)) then score + 5 else score in
  let score := if 5 <? session_games_played metrics then score + 5 else score in
  let score := if 8 <? session_games_played metrics then score + 10 else score in
  Z.min score 100.

(** Step 4 of [TiltGuard.#processPostGame]: nothing for an empty
    session, else the score and the level of the session, the latest
    match being the last one. *)
Definition tiltAnalysis (sessionMatches : list Match) (fl : Measured)
  : option (Z * TiltLevel) :=
  match sessionMatches with
  | [] => None
  | _ =>
      let latestMatch := List.last (map Some sessionMatches) None in
      let metrics := buildTiltMetrics sessionMatches latestMatch fl in
      let score := calculateTiltScore metrics in
      Some (score, getTiltLevel score)
  end.

End TiltMetrics.

(* ===================================================================== *)
(** * The tool loop of the Claude client *)
(* ===================================================================== *)

Module ClaudeClient.

Section ToolLoop.

(** Tool inputs and tool results are JSON values; the loop only passes
    them on. *)
Variable Json : Type.
(** [typeof result === "string" ? result : JSON.stringify(result)] *)
Variable asContent : Json -> string.
(** [{ error: err.message }] *)
Variable errorObject : string -> Json.

Inductive block :=
| Text (text : string)
| ToolUse (id name : string) (input : Json)
| OtherBlock.

Record Response := mkResponse {
  content : list block;
  stop_reason : string;
  input_tokens : Z;
  output_tokens : Z
}.

Record ApiError := mkApiError { message : string; code : option string }.

Inductive answer := Responded (r : Response) | Failed (e : ApiError).

Record ToolResult := mkToolResult { tool_use_id : string; result_content : string }.

Inductive Content :=
| Plain (s : string)
| Blocks (bs : list block)
| Results (rs : list ToolResult).

Record Message := mkMessage { role : string; body : Content }.

(** An entry of [allToolResults]. *)
Record ToolRecord := mkToolRecord { tool : string; input : Json; output : Json }.

Record Result := mkResult {
  text : string;
  toolResults : list ToolRecord;
  usage_input : Z;
  usage_output : Z;
  error : option string
}.

(** What the tools act on, the handler given by the caller ([inr] is
    a thrown error with its message) and the service, asked in round
    [round] with a conversation. *)
Variable State : Type.
Variable toolHandler : string -> Json -> State -> State * (Json + string).
Variable api : nat -> list Message -> answer.

Definition MAX_TOOL_ROUNDS : nat := 10.

Definition is_tool_use (b : block) : bool :=
  match b with ToolUse _ _ _ => true | _ => false end.

Definition texts (bs : list block) : list string :=
  flat_map (fun b => match b with Text t => [t] | _ => [] end) bs.

Definition isTimeout (e : ApiError) : bool :=
  Js.includes (message e) "timeout"
  || match code e with Some c => String.eqb c "ETIMEDOUT" | None => false end.

(** [for (const toolUse of toolUseBlocks)]: the handler is called for
    each block in order; [allToolResults] and [toolResults] grow by
    one entry each. *)
Fixpoint processTools (toolUseBlocks : list block) (s : State)
  : State * list ToolRecord * list ToolResult :=
  match toolUseBlocks with
  | ToolUse id name inp :: rest =>
      let (s1, r) := toolHandler name inp s in
      let result := match r with inl v => v | inr msg => errorObject msg end in
      let '(s2, recs, results) := processTools rest s1 in
      (s2, mkToolRecord name inp result :: recs,
       mkToolResult id (asContent result) :: results)
  | _ :: rest => processTools rest s
  | [] => (s, [], [])
  end.

(** The [for] loop of [runToolLoop] with [left] rounds to go; besides
    the final state of the tools and the returned object (without its
    latency), the conversations sent to the service, in order. *)
Fixpoint rounds (left round : nat) (s : State) (conversationMessages : list Message)
         (totalInput totalOutput : Z) (allToolResults : list ToolRecord)
  : State * Result * list (list Message) :=
  match left with
  | O =>
      (s, mkResult "[Tool loop exceeded maximum rounds]" allToolResults
                   totalInput totalOutput None, [])
  | S left' =>
      match api round conversationMessages with
      | Failed apiErr =>
          (s, mkResult EmptyString allToolResults totalInput totalOutput
                       (Some (if isTimeout apiErr then "Claude request timed out"
                              else message apiErr)),
           [conversationMessages])
      | Responded response =>
          let totalInput := totalInput + input_tokens response in
          let totalOutput := totalOutput + output_tokens response in
          let toolUseBlocks := List.filter is_tool_use (content response) in
          if (List.length toolUseBlocks =? 0)%nat
             || String.eqb (stop_reason response) "end_turn"
          then
            (s, mkResult (String.concat EmptyString (texts (content response)))
                         allToolResults totalInput totalOutput None,
             [conversationMessages])
          else
            let '(s1, recs, toolResults) := processTools toolUseBlocks s in
            let '(s2, res, sent) :=
              rounds left' (S round) s1
                     (conversationMessages
                        ++ [mkMessage "assistant" (Blocks (content response));
                            mkMessage "user" (Results toolResults)])%list
                     totalInput totalOutput (allToolResults ++ recs)%list in
            (s2, res, conversationMessages :: sent)
      end
  end.

(** [runToolLoop({ systemPrompt, tools, messages, toolHandler })];
    [inl] is the error thrown when there is no client. *)
Definition runToolLoop (client : bool) (messages : list Message) (s : State)
  : string + State * Result * list (list Message) :=
  if client then inr (rounds MAX_TOOL_ROUNDS 0 s messages 0 0 [])
  else inl "Claude client not initialized".

End ToolLoop.

End ClaudeClient.

(* ===================================================================== *)
(** * Properties of the token buckets *)
(* ===================================================================== *)

Module RateLimitFacts.
Import RateLimit.

Lemma prune_in_window (b : Bucket) (now : Z) :
  timestamps (prune b now) = in_window b now.
Proof.
  unfold prune, in_window; simpl.
  destruct (windowMs b) as [w|]; simpl; reflexivity.
Qed.

Lemma prune_eq (b : Bucket) (now : Z) :
  prune b now = mkBucket (max b) (windowMs b) (in_window b now).
Proof.
  unfold prune. f_equal. unfold in_window.
  destruct (windowMs b) as [w|]; reflexivity.
Qed.

Lemma canRequest_eq (b : Bucket) (now : Z) :
  canRequest b now
  = (Js.lt (Some (Z.of_nat (List.length (in_window b now)))) (max b),
     mkBucket (max b) (windowMs b) (in_window b now)).
Proof. unfold canRequest. rewrite prune_eq. reflexivity. Qed.

Lemma waitTime_eq (b : Bucket) (now : Z) :
  waitTime b now
  = (if Js.lt (Some (Z.of_nat (List.length (in_window b now)))) (max b)
     then Some 0
     else Js.sub (Js.add (head (in_window b now)) (windowMs b)) (Some now),
     mkBucket (max b) (windowMs b) (in_window b now)).
Proof.
  unfold waitTime. rewrite prune_eq. cbn [max windowMs timestamps].
  match goal with |- context [if ?c then _ else _] => destruct c end; reflexivity.
Qed.

Lemma in_window_has_window (b : Bucket) (now oldest : Z) (rest : list Z) :
  in_window b now = oldest :: rest -> exists w, windowMs b = Some w.
Proof.
  unfold in_window. destruct (windowMs b) as [w|]; [eauto|].
  intros H. exfalso.
  assert (Hin : In oldest (List.filter (fun _ : Z => false) (timestamps b)))
    by (rewrite H; left; reflexivity).
  apply filter_In in Hin. destruct Hin as [_ Hf]. discriminate.
Qed.

(** C7. Rate-bucket parse and admission.  The header "20:1,100:120"
    parses to exactly the buckets 20 per 1 s and 100 per 120 s, and the
    empty header to the same pair.  For every bucket and every clock
    reading, [canRequest()] answers true exactly when fewer timestamps
    than the capacity are left after pruning those older than the
    window; [waitTime()] is 0 when the bucket admits and otherwise the
    oldest remaining timestamp plus the window minus the clock; both
    leave the bucket pruned. *)
Theorem bucket_parse_and_admission :
  parseBuckets "20:1,100:120"
    = [mkBucket (Some 20) (Some 1000) []; mkBucket (Some 100) (Some 120000) []]
  /\ parseBuckets EmptyString
    = [mkBucket (Some 20) (Some 1000) []; mkBucket (Some 100) (Some 120000) []]
  /\ forall (b : Bucket) (now : Z),
      (fst (canRequest b now) = true <->
         exists cap, max b = Some cap /\ Z.of_nat (List.length (in_window b now)) < cap)
      /\ (fst (canRequest b now) = true -> fst (waitTime b now) = Some 0)
      /\ (fst (canRequest b now) = false ->
          forall oldest rest, in_window b now = oldest :: rest ->
          exists w, windowMs b = Some w
                    /\ fst (waitTime b now) = Some (oldest + w - now))
      /\ timestamps (snd (canRequest b now)) = in_window b now
      /\ timestamps (snd (waitTime b now)) = in_window b now.
Proof.
  split; [reflexivity|]. split; [reflexivity|].
  intros b now. rewrite canRequest_eq, waitTime_eq. simpl.
  repeat split.
  - unfold Js.lt. destruct (max b) as [cap|]; [|discriminate].
    intros H. exists cap. split; [reflexivity|]. now apply Z.ltb_lt.
  - intros (cap & Hc & Hlt). rewrite Hc. simpl. now apply Z.ltb_lt.
  - intros H. rewrite H. reflexivity.
  - intros H oldest rest Hk.
    destruct (in_window_has_window b now oldest rest Hk) as [w Hwin].
    exists w. split; [assumption|].
    rewrite H, Hk, Hwin. reflexivity.
Qed.

Lemma parseBuckets_fresh (h : string) :
  Forall (fun b => timestamps b = []) (parseBuckets h).
Proof.
  unfold parseBuckets. destruct (negb (Js.truthy_str h)).
  - repeat constructor.
  - apply List.Forall_forall. intros b Hb. apply in_map_iff in Hb.
    destruct Hb as (pair & <- & _). reflexivity.
Qed.

Lemma fresh_positive_admits (bs : RateLimiter) (now : Z) :
  Forall (fun b => timestamps b = []) bs ->
  Forall positive_capacity bs ->
  limCanRequest bs now = (true, bs).
Proof.
  induction bs as [|b bs IH]; intros Hf Hp; [reflexivity|].
  inversion Hf as [|? ? Hb Hf']; subst. inversion Hp as [|? ? Hc Hp']; subst.
  destruct Hc as (cap & Hc & Hpos). destruct b as [m w ts]. simpl in *. subst.
  unfold canRequest, prune. simpl.
  assert (Hlt : (0 <? cap) = true) by now apply Z.ltb_lt.
  change (Z.of_nat 0) with 0. rewrite Hlt. rewrite (IH Hf' Hp'). reflexivity.
Qed.

Lemma fold_max_zero (l : list Js.num) :
  Forall (fun x => x = Some 0) l -> fold_left Js.max l (Some 0) = Some 0.
Proof.
  induction l as [|x l IH]; intros H; [reflexivity|].
  inversion H; subst. simpl. now apply IH.
Qed.

Lemma fresh_positive_no_wait (bs : RateLimiter) (now : Z) :
  Forall (fun b => timestamps b = []) bs ->
  Forall positive_capacity bs ->
  fst (limWaitTime bs now) = Some 0.
Proof.
  intros Hf Hp. unfold limWaitTime. simpl. apply fold_max_zero.
  apply List.Forall_forall. intros x Hx. apply in_map_iff in Hx.
  destruct Hx as (b & <- & Hb).
  rewrite List.Forall_forall in Hf, Hp.
  specialize (Hf b Hb). destruct (Hp b Hb) as (cap & Hc & Hpos).
  rewrite waitTime_eq. unfold in_window. rewrite Hf, Hc. simpl.
  assert (Hlt : (0 <? cap) = true) by now apply Z.ltb_lt.
  change (Z.of_nat 0) with 0. now rewrite Hlt.
Qed.

End RateLimitFacts.

(* ===================================================================== *)
(** * Properties of the phase state machine *)
(* ===================================================================== *)

Module PhaseFacts.
Import Phase.

Lemma GamePhase_eqb_eq (a b : GamePhase) : GamePhase_eqb a b = true <-> a = b.
Proof. destruct a, b; simpl; split; intros H; try reflexivity; discriminate. Qed.

Lemma GamePhase_eqb_refl (a : GamePhase) : GamePhase_eqb a a = true.
Proof. now apply GamePhase_eqb_eq. Qed.

Lemma GamePhase_eqb_neq (a b : GamePhase) : a <> b -> GamePhase_eqb a b = false.
Proof.
  intros H. destruct (GamePhase_eqb a b) eqn:E; [|reflexivity].
  apply GamePhase_eqb_eq in E. contradiction.
Qed.

Ltac split_on_key :=
  match goal with
  | |- context [String.eqb ?a ?b] =>
      destruct (String.eqb_spec a b); subst; try reflexivity; try congruence
  end.

Lemma inherited_In (s : string) : inherited s = true <-> In s Object_prototype.
Proof.
  unfold inherited. rewrite existsb_exists. split.
  - intros (x & Hx & He). apply String.eqb_eq in He. now subst.
  - intros H. exists s. split; [exact H|apply String.eqb_refl].
Qed.

(** The source's table is the specification's list of strings with one
    more own key, ["Lobby"]. *)
Lemma own_table (s : string) :
  own LCU_PHASE_MAP s
  = if String.eqb s "None" then Some IDLE
    else if String.eqb s "Lobby" then Some LOBBY
    else if String.eqb s "Matchmaking" then Some LOBBY
    else if String.eqb s "ReadyCheck" then Some LOBBY
    else if String.eqb s "ChampSelect" then Some CHAMP_SELECT
    else if String.eqb s "GameStart" then Some LOADING
    else if String.eqb s "InProgress" then Some IN_GAME
    else if String.eqb s "WaitingForStats" then Some POST_GAME
    else if String.eqb s "PreEndOfGame" then Some POST_GAME
    else if String.eqb s "EndOfGame" then Some POST_GAME
    else None.
Proof.
  unfold LCU_PHASE_MAP, own.
  rewrite !(String.eqb_sym _ s). reflexivity.
Qed.

(** A string that is no own key of the table and no inherited name is
    not found. *)
Lemma prop_unknown (s : string) :
  ~ In s ["None"; "Lobby"; "Matchmaking"; "ReadyCheck"; "ChampSelect";
          "GameStart"; "InProgress"; "WaitingForStats"; "PreEndOfGame";
          "EndOfGame"] ->
  ~ In s Object_prototype ->
  prop LCU_PHASE_MAP s = Undefined.
Proof.
  intros Hs Hi. unfold prop. rewrite own_table.
  repeat match goal with
         | |- context [String.eqb s ?b] =>
             destruct (String.eqb_spec s b);
             [subst; exfalso; apply Hs; simpl; tauto|]
         end.
  destruct (inherited s) eqn:E; [|reflexivity].
  apply inherited_In in E. contradiction.
Qed.

(** C9, as stated, fails: the raw phase ["Lobby"] is none of the strings
    the claim lists, so the claim sends it to Idle, and the source sends
    it to Lobby. *)
Lemma lobby_is_not_idle :
  ~ (forall s : string, canonical s = Some (spec_canonical s)).
Proof. intros H. specialize (H "Lobby"). vm_compute in H. discriminate. Qed.

Definition is_callback (e : effect) : bool :=
  match e with OnTransition _ _ => true | _ => false end.

(** C9, amended.  A raw client phase string is reduced by the table
    None -> Idle, Lobby -> Lobby, Matchmaking -> Lobby, ReadyCheck ->
    Lobby, ChampSelect -> ChampSelect, GameStart -> Loading, InProgress
    -> InGame, WaitingForStats / PreEndOfGame / EndOfGame -> PostGame,
    and any other string that is not the name of a member objects
    inherit -> Idle; for a string that stands for a phase,
    [transitionFromLCU] is [transition] on that phase, warnings
    apart.  An input equal to the current phase changes nothing and
    calls nobody back; any other input becomes the current phase and
    the callback receives (from, to), whether or not the edge is in
    [VALID_TRANSITIONS] (a disallowed edge adds a warning only). *)
Theorem phase_mapping_and_policy :
  canonical "None" = Some IDLE
  /\ canonical "Lobby" = Some LOBBY
  /\ canonical "Matchmaking" = Some LOBBY
  /\ canonical "ReadyCheck" = Some LOBBY
  /\ canonical "ChampSelect" = Some CHAMP_SELECT
  /\ canonical "GameStart" = Some LOADING
  /\ canonical "InProgress" = Some IN_GAME
  /\ canonical "WaitingForStats" = Some POST_GAME
  /\ canonical "PreEndOfGame" = Some POST_GAME
  /\ canonical "EndOfGame" = Some POST_GAME
  /\ (forall s : string,
        ~ In s ["None"; "Lobby"; "Matchmaking"; "ReadyCheck"; "ChampSelect";
                "GameStart"; "InProgress"; "WaitingForStats"; "PreEndOfGame";
                "EndOfGame"] ->
        ~ In s Object_prototype ->
        canonical s = Some IDLE)
  /\ (forall (s : string) (p : GamePhase) (m : Machine),
        canonical s = Some p ->
        exists eff,
          transitionFromLCU s m
          = Within (fst (fst (transition p m))) (snd (fst (transition p m))) eff
          /\ List.filter is_callback eff
             = List.filter is_callback (snd (transition p m)))
  /\ (forall m : Machine, transition m m = (false, m, []))
  /\ (forall p m : Machine,
        p <> m ->
        fst (transition p m) = (true, p)
        /\ snd (transition p m)
           = ((if includes (VALID_TRANSITIONS m) p then [] else [WarnInvalid m p])
                ++ [OnTransition m p])%list).
Proof.
  repeat (split; [reflexivity|]).
  split.
  { intros s Hs Hi. unfold canonical. now rewrite prop_unknown. }
  split.
  { intros s p m. unfold transitionFromLCU, canonical.
    destruct (prop LCU_PHASE_MAP s) as [mapped|name|]; intros [= <-].
    - destruct (transition mapped m) as [[r m'] eff]. exists eff. split; reflexivity.
    - destruct (transition IDLE m) as [[r m'] eff].
      exists (WarnUnknown s :: eff). split; reflexivity. }
  split.
  { intros m. unfold transition. now rewrite GamePhase_eqb_refl. }
  intros p m Hne. unfold transition. rewrite (GamePhase_eqb_neq p m Hne).
  split; reflexivity.
Qed.

End PhaseFacts.

(* ===================================================================== *)
(** * Bounds on the identifiers of a batch of events *)
(* ===================================================================== *)

Module LiveClientFacts.
Import LiveClient.

Lemma fold_max_ge_init (l : list Z) (a : Z) : a <= fold_left Z.max l a.
Proof.
  revert a. induction l as [|x l IH]; intros a; simpl; [lia|].
  specialize (IH (Z.max a x)). lia.
Qed.

Lemma fold_max_ge_elem (l : list Z) (a x : Z) : In x l -> x <= fold_left Z.max l a.
Proof.
  revert a. induction l as [|y l IH]; intros a Hin; simpl; [contradiction|].
  destruct Hin as [->|Hin].
  - pose proof (fold_max_ge_init l (Z.max a x)). lia.
  - now apply IH.
Qed.

Lemma maxId_bound (e : GameEvent) (rest : list GameEvent) (x : GameEvent) :
  In x (e :: rest) -> EventID x <= maxId e rest.
Proof.
  unfold maxId. intros [->|Hin].
  - apply fold_max_ge_init.
  - apply fold_max_ge_elem. now apply in_map.
Qed.

End LiveClientFacts.

(* ===================================================================== *)
(** * Properties of the serial queue and the retrying client *)
(* ===================================================================== *)

Module SchedulerFacts.
Import RateLimit Scheduler.

(** ** Lists *)

Lemma mem_app (t : nat) (l1 l2 : list nat) :
  mem t (l1 ++ l2) = mem t l1 || mem t l2.
Proof. unfold mem. apply existsb_app. Qed.

Lemma mem_In (t : nat) (l : list nat) : mem t l = true <-> In t l.
Proof.
  unfold mem. rewrite existsb_exists. split.
  - intros (x & Hx & He). apply Nat.eqb_eq in He. now subst.
  - intros H. exists t. split; [assumption|apply Nat.eqb_refl].
Qed.

Lemma mem_false (t : nat) (l : list nat) : mem t l = false <-> ~ In t l.
Proof.
  rewrite <- mem_In. destruct (mem t l); split; intros H; try congruence.
  all: try (exfalso; now apply H).
Qed.

Lemma filter_all (f : nat -> bool) (l : list nat) :
  (forall x, In x l -> f x = true) -> List.filter f l = l.
Proof.
  induction l as [|x l IH]; intros H; simpl; [reflexivity|].
  rewrite (H x (or_introl eq_refl)). f_equal. apply IH. intros y Hy. apply H. now right.
Qed.

Lemma filter_none (f : nat -> bool) (l : list nat) :
  (forall x, In x l -> f x = false) -> List.filter f l = [].
Proof.
  induction l as [|x l IH]; intros H; simpl; [reflexivity|].
  rewrite (H x (or_introl eq_refl)). apply IH. intros y Hy. apply H. now right.
Qed.

Lemma sorted_filter (f : nat -> bool) (l : list nat) :
  StronglySorted Nat.lt l -> StronglySorted Nat.lt (List.filter f l).
Proof.
  induction 1 as [|x l Hs IH Hx]; simpl; [constructor|].
  destruct (f x); [|assumption]. constructor; [assumption|].
  rewrite List.Forall_forall in *. intros y Hy. apply Hx.
  apply filter_In in Hy. tauto.
Qed.

Lemma sorted_app_l (l1 l2 : list nat) :
  StronglySorted Nat.lt (l1 ++ l2) -> StronglySorted Nat.lt l1.
Proof.
  induction l1 as [|x l1 IH]; simpl; intros H; [constructor|].
  inversion H as [|? ? Hs Hx]; subst. constructor; [now apply IH|].
  rewrite List.Forall_forall in *. intros y Hy. apply Hx. apply in_or_app. now left.
Qed.

Lemma sorted_app_disjoint (l1 l2 : list nat) (x : nat) :
  StronglySorted Nat.lt (l1 ++ l2) -> In x l1 -> In x l2 -> False.
Proof.
  induction l1 as [|y l1 IH]; simpl; intros H H1 H2; [contradiction|].
  inversion H as [|? ? Hs Hy]; subst. destruct H1 as [->|H1].
  - rewrite List.Forall_forall in Hy.
    assert (Hlt : Nat.lt x x) by (apply Hy; apply in_or_app; now right).
    unfold Nat.lt in Hlt. lia.
  - now apply IH.
Qed.

Lemma sorted_snoc (l : list nat) (n : nat) :
  StronglySorted Nat.lt l -> Forall (fun t => (t < n)%nat) l ->
  StronglySorted Nat.lt (l ++ [n]).
Proof.
  induction 1 as [|x l Hs IH Hx]; simpl; intros Hn.
  - constructor; constructor.
  - inversion Hn; subst. constructor; [now apply IH|].
    apply Forall_app. split; [assumption|]. constructor; [assumption|constructor].
Qed.

(** ** Projections of a growing trace *)

Lemma accepted_in_app (tr o : list obs) :
  accepted_in (tr ++ o) = (accepted_in tr ++ accepted_in o)%list.
Proof. apply omap_app. Qed.

Lemma dispatched_in_app (tr o : list obs) :
  dispatched_in (tr ++ o) = (dispatched_in tr ++ dispatched_in o)%list.
Proof. apply omap_app. Qed.

Lemma cancelled_in_app (tr o : list obs) :
  cancelled_in (tr ++ o) = (cancelled_in tr ++ cancelled_in o)%list.
Proof. apply omap_app. Qed.

Lemma scan_app (c : option nat) (tr o : list obs) :
  scan c (tr ++ o) = match scan c tr with Some c' => scan c' o | None => None end.
Proof.
  revert c. induction tr as [|x tr IH]; intros c; simpl; [reflexivity|].
  destruct x; try apply IH. destruct c; [reflexivity|apply IH].
Qed.

Lemma surviving_unchanged (tr o : list obs) :
  accepted_in o = [] -> cancelled_in o = [] -> surviving (tr ++ o) = surviving tr.
Proof.
  intros Ha Hc. unfold surviving.
  rewrite accepted_in_app, cancelled_in_app, Ha, Hc, !app_nil_r. reflexivity.
Qed.

(** ** The invariant

    [c] is the ticket of the task the coroutine works on. *)
Record InvD (tr : list obs) (q : list Task) (n : nat) (c : option nat) : Prop := {
  inv_sorted : StronglySorted Nat.lt (accepted_in tr);
  inv_acc_lt : Forall (fun t => (t < n)%nat) (accepted_in tr);
  inv_can_lt : Forall (fun t => (t < n)%nat) (cancelled_in tr);
  inv_fifo : surviving tr = (dispatched_in tr ++ map ticket q)%list;
  inv_scan : scan None tr = Some c;
  inv_flight : forall t, c = Some t -> In t (dispatched_in tr)
}.

Lemma surviving_sorted tr q n c :
  InvD tr q n c -> StronglySorted Nat.lt (dispatched_in tr ++ map ticket q).
Proof.
  intros H. rewrite <- (inv_fifo _ _ _ _ H). apply sorted_filter, (inv_sorted _ _ _ _ H).
Qed.

Lemma dispatched_lt tr q n c t :
  InvD tr q n c -> In t (dispatched_in tr) -> (t < n)%nat.
Proof.
  intros H Ht.
  assert (Hs : In t (surviving tr)).
  { rewrite (inv_fifo _ _ _ _ H). apply in_or_app. now left. }
  unfold surviving in Hs. apply filter_In in Hs. destruct Hs as [Hs _].
  pose proof (inv_acc_lt _ _ _ _ H) as Hlt. rewrite List.Forall_forall in Hlt.
  now apply Hlt.
Qed.

(** Observations that concern neither the queue nor a promise. *)
Definition neutral (o : obs) : bool :=
  match o with Http _ _ | Sleep _ | Emit _ => true | _ => false end.

Lemma neutral_projections (o : list obs) :
  forallb neutral o = true ->
  accepted_in o = [] /\ dispatched_in o = [] /\ cancelled_in o = []
  /\ forall c, scan c o = Some c.
Proof.
  induction o as [|x o IH]; simpl; intros H; [repeat split; reflexivity|].
  apply andb_true_iff in H. destruct H as [Hx Ho].
  destruct (IH Ho) as (Ha & Hd & Hc & Hs).
  destruct x; try discriminate; simpl; repeat split; assumption.
Qed.

Lemma InvD_neutral tr q n c o :
  forallb neutral o = true -> InvD tr q n c -> InvD (tr ++ o) q n c.
Proof.
  intros Ho H. destruct (neutral_projections o Ho) as (Ha & Hd & Hc & Hs).
  destruct H as [H1 H2 H3 H4 H5 H6].
  constructor.
  - rewrite accepted_in_app, Ha, app_nil_r. assumption.
  - rewrite accepted_in_app, Ha, app_nil_r. assumption.
  - rewrite cancelled_in_app, Hc, app_nil_r. assumption.
  - rewrite surviving_unchanged by assumption.
    rewrite dispatched_in_app, Hd, app_nil_r. assumption.
  - rewrite scan_app, H5. apply Hs.
  - intros t Ht. rewrite dispatched_in_app, Hd, app_nil_r. now apply H6.
Qed.

Lemma InvD_dispatch tr t q n :
  InvD tr (t :: q) n None ->
  InvD (tr ++ [Dispatched (ticket t)]) q n (Some (ticket t)).
Proof.
  intros [H1 H2 H3 H4 H5 H6]. constructor.
  - rewrite accepted_in_app, app_nil_r. assumption.
  - rewrite accepted_in_app, app_nil_r. assumption.
  - rewrite cancelled_in_app, app_nil_r. assumption.
  - rewrite surviving_unchanged by reflexivity.
    rewrite dispatched_in_app, H4. simpl. now rewrite <- app_assoc.
  - rewrite scan_app, H5. reflexivity.
  - intros t' Ht. injection Ht as <-. rewrite dispatched_in_app.
    apply in_or_app. right. now left.
Qed.

Definition not_paused_error (o : outcome) : bool :=
  match o with Rejected ErrPaused => false | _ => true end.

Lemma InvD_settle tr q n t o :
  not_paused_error o = true ->
  InvD tr q n (Some t) -> InvD (tr ++ [Settled t o]) q n None.
Proof.
  intros Ho [H1 H2 H3 H4 H5 H6].
  assert (Hc : cancelled_in [Settled t o] = []).
  { destruct o as [|[]]; try reflexivity. discriminate. }
  constructor.
  - rewrite accepted_in_app, app_nil_r. assumption.
  - rewrite accepted_in_app, app_nil_r. assumption.
  - rewrite cancelled_in_app, Hc, app_nil_r. assumption.
  - rewrite surviving_unchanged by (reflexivity || assumption).
    rewrite dispatched_in_app, app_nil_r. assumption.
  - rewrite scan_app, H5. simpl. now rewrite Nat.eqb_refl.
  - discriminate.
Qed.

Lemma lt_not_in (l : list nat) (n : nat) :
  Forall (fun t => (t < n)%nat) l -> ~ In n l.
Proof.
  rewrite List.Forall_forall. intros H Hin. specialize (H n Hin). lia.
Qed.

Lemma Forall_lt_S (l : list nat) (n : nat) :
  Forall (fun t => (t < n)%nat) l -> Forall (fun t => (t < S n)%nat) l.
Proof. apply List.Forall_impl. intros; lia. Qed.

Lemma InvD_accept tr q n c host p :
  InvD tr q n c ->
  InvD (tr ++ [Accepted n]) (q ++ [mkTask n host p]) (S n) c.
Proof.
  intros [H1 H2 H3 H4 H5 H6]. constructor.
  - rewrite accepted_in_app. simpl. now apply sorted_snoc.
  - rewrite accepted_in_app. simpl. apply Forall_app. split.
    + now apply Forall_lt_S.
    + constructor; [lia|constructor].
  - rewrite cancelled_in_app, app_nil_r. now apply Forall_lt_S.
  - unfold surviving in *.
    rewrite accepted_in_app, cancelled_in_app, app_nil_r. simpl.
    rewrite List.filter_app, H4. simpl.
    assert (Hn : mem n (cancelled_in tr) = false)
      by (apply mem_false; now apply lt_not_in).
    rewrite Hn. simpl.
    rewrite dispatched_in_app, app_nil_r, map_app, app_assoc. reflexivity.
  - rewrite scan_app, H5. reflexivity.
  - intros t Ht. rewrite dispatched_in_app, app_nil_r. now apply H6.
Qed.

(** A submission that is refused on the spot. *)
Lemma InvD_refuse tr q n c e :
  InvD tr q n c ->
  InvD (tr ++ [Settled n (Rejected e)]) q (S n) c.
Proof.
  intros H. pose proof H as [H1 H2 H3 H4 H5 H6].
  assert (Hcan : exists l, cancelled_in [Settled n (Rejected e)] = l
                           /\ Forall (fun t => t = n) l).
  { destruct e; simpl; eexists; split; try reflexivity; repeat constructor. }
  destruct Hcan as (l & Hl & Hall).
  constructor.
  - rewrite accepted_in_app, app_nil_r. assumption.
  - rewrite accepted_in_app, app_nil_r. now apply Forall_lt_S.
  - rewrite cancelled_in_app, Hl. apply Forall_app. split.
    + now apply Forall_lt_S.
    + eapply List.Forall_impl; [|exact Hall]. simpl. intros; lia.
  - rewrite dispatched_in_app, app_nil_r, <- H4. unfold surviving.
    rewrite accepted_in_app, cancelled_in_app, app_nil_r, Hl.
    apply List.filter_ext_in. intros t Ht. rewrite mem_app.
    assert (Hm : mem t l = false).
    { apply mem_false. intros Hin. rewrite List.Forall_forall in Hall, H2.
      specialize (Hall t Hin). specialize (H2 t Ht). lia. }
    rewrite Hm. now rewrite orb_false_r.
  - rewrite scan_app, H5. simpl. destruct c as [t|]; [|reflexivity].
    assert (Hlt : (t < n)%nat) by (eapply dispatched_lt; eauto).
    assert (Hne : Nat.eqb t n = false) by (apply Nat.eqb_neq; lia).
    now rewrite Hne.
  - intros t Ht. rewrite dispatched_in_app, app_nil_r. now apply H6.
Qed.

Lemma filter_not_mem_app (l c q : list nat) :
  List.filter (fun t => negb (mem t (c ++ q))) l
  = List.filter (fun t => negb (mem t q)) (List.filter (fun t => negb (mem t c)) l).
Proof.
  induction l as [|x l IH]; simpl; [reflexivity|].
  rewrite mem_app. destruct (mem x c); simpl; [apply IH|].
  destruct (mem x q); simpl; [apply IH|]. now rewrite IH.
Qed.

Lemma cancel_all_projections (q : list Task) :
  accepted_in (cancel_all q) = [] /\ dispatched_in (cancel_all q) = []
  /\ cancelled_in (cancel_all q) = map ticket q.
Proof.
  induction q as [|t q (Ha & Hd & Hc)]; simpl; [repeat split; reflexivity|].
  repeat split; try assumption. now rewrite Hc.
Qed.

Lemma scan_cancel_all (q : list Task) (c : option nat) :
  (forall t, c = Some t -> ~ In t (map ticket q)) ->
  scan c (cancel_all q) = Some c.
Proof.
  induction q as [|x q IH]; simpl; intros H; [reflexivity|].
  destruct c as [t|].
  - assert (Hne : Nat.eqb t (ticket x) = false).
    { apply Nat.eqb_neq. intros ->. apply (H (ticket x) eq_refl). now left. }
    rewrite Hne. apply IH. intros t' Ht Hin. apply (H t' Ht). now right.
  - apply IH. discriminate.
Qed.

(** [pause()]: the queue is emptied, each of its tasks is rejected. *)
Lemma InvD_pause tr q n c :
  InvD tr q n c -> InvD (tr ++ cancel_all q) [] n c.
Proof.
  intros H. pose proof (surviving_sorted _ _ _ _ H) as Hsort.
  destruct H as [H1 H2 H3 H4 H5 H6].
  destruct (cancel_all_projections q) as (Ha & Hd & Hc).
  assert (Hq : Forall (fun t => (t < n)%nat) (map ticket q)).
  { apply List.Forall_forall. intros t Ht.
    assert (Hs : In t (surviving tr)) by (rewrite H4; apply in_or_app; now right).
    unfold surviving in Hs. apply filter_In in Hs. destruct Hs as [Hs _].
    rewrite List.Forall_forall in H2. now apply H2. }
  constructor.
  - rewrite accepted_in_app, Ha, app_nil_r. assumption.
  - rewrite accepted_in_app, Ha, app_nil_r. assumption.
  - rewrite cancelled_in_app, Hc. apply Forall_app. now split.
  - rewrite dispatched_in_app, Hd, !app_nil_r. unfold surviving in *.
    rewrite accepted_in_app, Ha, app_nil_r, cancelled_in_app, Hc.
    transitivity (List.filter (fun t => negb (mem t (map ticket q)))
                   (List.filter (fun t => negb (mem t (cancelled_in tr)))
                                (accepted_in tr))).
    + apply filter_not_mem_app.
    + rewrite H4, List.filter_app.
      rewrite (filter_all _ (dispatched_in tr)).
      * rewrite (filter_none _ (map ticket q)); [apply app_nil_r|].
        intros x Hx. apply negb_false_iff. now apply mem_In.
      * intros x Hx. apply negb_true_iff. apply mem_false. intros Hin.
        eapply sorted_app_disjoint; eauto.
  - rewrite scan_app, H5. apply scan_cancel_all.
    intros t Ht Hin. eapply sorted_app_disjoint; eauto.
  - intros t Ht. rewrite dispatched_in_app, Hd, app_nil_r. now apply H6.
Qed.

(** ** The invariant along the code *)

Definition Inv' (c : option nat) (st : State) : Prop :=
  InvD (trace st) (queue st) (nextTicket st) c.

Definition Inv (st : State) : Prop := Inv' (task_of (pc st)) st.

(** What a stretch of [#requestWithRetry] for task [t] leaves: the task
    settled, or the coroutine suspended on it. *)
Definition TaskStep (t : Task) (r : State * bool) : Prop :=
  if snd r then Inv' None (fst r)
  else Inv' (Some (ticket t)) (fst r) /\ task_of (pc (fst r)) = Some (ticket t).

Ltac st_unfold :=
  unfold TaskStep, Inv, Inv' in *;
  cbn [trace queue nextTicket pc apiKey keyExpired appLimiter lastRequestTime
       paused pauseUntil windowTimestamps fst snd task_of ticket
       log set_pc set_limiter set_lastRequestTime set_queue set_pause
       set_window set_key bump_ticket pruneWindow pause resume] in *.

Lemma snoc2 {A} (l : list A) (a b : A) : (l ++ [a; b] = (l ++ [a]) ++ [b])%list.
Proof. now rewrite <- app_assoc. Qed.

Lemma fire_step now t a st :
  Inv' (Some (ticket t)) st -> TaskStep t (fire now t a st).
Proof.
  intros H. unfold fire. st_unfold.
  destruct (has_key (apiKey st)); st_unfold.
  - split; [|reflexivity]. now apply InvD_neutral.
  - now apply InvD_settle.
Qed.

Lemma check_bucket_step now t a st :
  Inv' (Some (ticket t)) st -> TaskStep t (check_bucket now t a st).
Proof.
  intros H. unfold check_bucket.
  destruct (limCanRequest (appLimiter st) now) as [ok l]. destruct ok.
  - apply fire_step. st_unfold. exact H.
  - unfold limWaitTime. st_unfold.
    split; [|reflexivity]. now apply InvD_neutral.
Qed.

Lemma check_spacing_step now t a st :
  Inv' (Some (ticket t)) st -> TaskStep t (check_spacing now t a st).
Proof.
  intros H. unfold check_spacing.
  destruct (now - lastRequestTime st <? REQUEST_SPACING_MS).
  - st_unfold. split; [|reflexivity]. now apply InvD_neutral.
  - now apply check_bucket_step.
Qed.

Lemma requestWithRetry_step now t a st :
  Inv' (Some (ticket t)) st -> TaskStep t (requestWithRetry now t a st).
Proof.
  intros H. unfold requestWithRetry, limWaitTime.
  match goal with |- context [if ?c then _ else _] => destruct c end.
  - st_unfold. split; [|reflexivity]. now apply InvD_neutral.
  - apply check_spacing_step. st_unfold. exact H.
Qed.

Lemma on_response_step now r t a st :
  Inv' (Some (ticket t)) st -> TaskStep t (on_response now r t a st).
Proof.
  intros H. unfold on_response.
  set (st1 := match appLimit r with
              | Some h => if Js.truthy_str h
                          then set_limiter (update (appLimiter st) h) st else st
              | None => st
              end).
  assert (H1 : Inv' (Some (ticket t)) st1).
  { subst st1. destruct (appLimit r) as [h|]; [|exact H].
    destruct (Js.truthy_str h); [|exact H]. st_unfold. exact H. }
  clearbody st1. clear H.
  destruct (statusCode r =? 200).
  { st_unfold. now apply InvD_settle. }
  destruct (statusCode r =? 429).
  { match goal with |- context [if ?c then _ else _] => destruct c end; st_unfold.
    - split; [|reflexivity]. now apply InvD_neutral.
    - rewrite snoc2.
      apply InvD_settle; [reflexivity|]. now apply InvD_neutral. }
  destruct (statusCode r =? 403).
  { destruct (keyExpired st1); st_unfold.
    - now apply InvD_settle.
    - apply InvD_settle; [reflexivity|].
      apply InvD_neutral; [reflexivity|].
      apply (InvD_pause _ _ _ _ H1). }
  destruct (statusCode r =? 404); st_unfold; now apply InvD_settle.
Qed.

Lemma drain_inv fuel e now st :
  Inv' None st -> Inv (drain fuel e now st).
Proof.
  revert e st. induction fuel as [|fuel IH]; intros e st H; simpl.
  { st_unfold. exact H. }
  destruct e.
  - destruct (queue st) as [|t q] eqn:Hq; [st_unfold; exact H|].
    destruct (paused st && (0 <? pauseUntil st)).
    + destruct (0 <? pauseUntil st - now).
      * st_unfold. now apply InvD_neutral.
      * apply IH. st_unfold. exact H.
    + now apply IH.
  - destruct (paused st && (pauseUntil st =? 0)); [st_unfold; exact H|].
    match goal with |- context [if ?c then _ else _] => destruct c end.
    + apply IH. st_unfold. exact H.
    + cbn [queue pruneWindow set_window].
      destruct (queue st) as [|t q] eqn:Hq; [st_unfold; exact H|].
      match goal with
      | |- context [requestWithRetry now t 0 ?s] =>
          pose proof (requestWithRetry_step now t 0 s) as Hstep;
          destruct (requestWithRetry now t 0 s) as [st' done]
      end.
      assert (Hpre : TaskStep t (st', done)).
      { apply Hstep. st_unfold. rewrite Hq in H. now apply InvD_dispatch. }
      unfold TaskStep in Hpre. cbn [fst snd] in Hpre. destruct done.
      * now apply IH.
      * destruct Hpre as [Hi Hp]. unfold Inv. rewrite Hp. exact Hi.
Qed.

Lemma continue_inv now t r :
  TaskStep t r -> Inv (continue now r).
Proof.
  destruct r as [st done]. unfold TaskStep, continue. cbn [fst snd].
  destruct done.
  - apply drain_inv.
  - intros [Hi Hp]. unfold Inv. rewrite Hp. exact Hi.
Qed.

Lemma submit_inv now host p st : Inv st -> Inv (submit now host p st).
Proof.
  intros H. unfold submit, enqueue.
  cbn [keyExpired bump_ticket ticket paused pauseUntil].
  destruct (keyExpired st).
  { st_unfold. now apply InvD_refuse. }
  destruct (paused st && (pauseUntil st =? 0)).
  { st_unfold. now apply InvD_refuse. }
  unfold running. cbn [pc log set_queue bump_ticket].
  destruct (pc st) eqn:Hpc;
    try (st_unfold; rewrite Hpc; cbn [task_of]; rewrite Hpc in H; cbn [task_of] in H;
         now apply InvD_accept).
  apply drain_inv. st_unfold. rewrite Hpc in H. now apply InvD_accept.
Qed.

Lemma reloadKey_inv k st : Inv st -> Inv (reloadKey k st).
Proof.
  intros H. unfold reloadKey. destruct (has_key k); st_unfold; exact H.
Qed.

Lemma step_inv now ev st : Inv st -> Inv (step now ev st).
Proof.
  intros H. unfold step.
  destruct ev as [host p| |r| |k].
  - now apply submit_inv.
  - destruct (pc st) eqn:Hpc; try exact H; unfold Inv in H; rewrite Hpc in H;
      cbn [task_of] in H.
    + apply drain_inv. st_unfold. exact H.
    + eapply continue_inv. now apply check_spacing_step.
    + eapply continue_inv. now apply check_bucket_step.
    + eapply continue_inv. now apply fire_step.
    + eapply continue_inv. now apply requestWithRetry_step.
  - destruct (pc st) eqn:Hpc; try exact H; unfold Inv in H; rewrite Hpc in H;
      cbn [task_of] in H.
    eapply continue_inv. now apply on_response_step.
  - destruct (pc st) eqn:Hpc; try exact H; unfold Inv in H; rewrite Hpc in H;
      cbn [task_of] in H.
    apply (continue_inv now t). unfold TaskStep. st_unfold. now apply InvD_settle.
  - now apply reloadKey_inv.
Qed.

Lemma init_inv k : Inv (init k).
Proof.
  unfold Inv, Inv', init. cbn. constructor; try constructor; try reflexivity.
  discriminate.
Qed.

Lemma run_inv evs st : Inv st -> Inv (run evs st).
Proof.
  revert st. induction evs as [|[now ev] evs IH]; intros st H; simpl; [exact H|].
  apply IH. now apply step_inv.
Qed.

(** ** First in, first out *)

Lemma sorted_before_lt (l : list nat) (a b : nat) :
  StronglySorted Nat.lt l -> before a b l -> (a < b)%nat.
Proof.
  intros Hs (l1 & l2 & l3 & ->).
  induction l1 as [|x l1 IH]; simpl in Hs.
  - inversion Hs as [|? ? _ Hall]; subst. rewrite List.Forall_forall in Hall.
    apply Hall. apply in_or_app. right. now left.
  - inversion Hs; subst. now apply IH.
Qed.

Lemma sorted_lt_before (l : list nat) (a b : nat) :
  StronglySorted Nat.lt l -> In a l -> In b l -> (a < b)%nat -> before a b l.
Proof.
  induction 1 as [|x l Hs IH Hx]; intros Ha Hb Hlt; [contradiction|].
  rewrite List.Forall_forall in Hx.
  destruct Ha as [->|Ha].
  - destruct Hb as [->|Hb]; [lia|].
    apply in_split in Hb. destruct Hb as (l2 & l3 & ->).
    exists [], l2, l3. reflexivity.
  - destruct Hb as [->|Hb].
    + specialize (Hx a Ha). unfold Nat.lt in Hx. lia.
    + destruct (IH Ha Hb Hlt) as (l1 & l2 & l3 & ->).
      exists (x :: l1), l2, l3. reflexivity.
Qed.

Lemma before_In (l : list nat) (a b : nat) : before a b l -> In a l /\ In b l.
Proof.
  intros (l1 & l2 & l3 & ->). split; apply in_or_app; right.
  - now left.
  - right. apply in_or_app. right. now left.
Qed.

Definition settles (a : nat) (tr : list obs) : bool :=
  existsb (fun o => match o with Settled t _ => Nat.eqb t a | _ => false end) tr.

Lemma settles_true (a : nat) (tr : list obs) :
  settles a tr = true -> exists o, In (Settled a o) tr.
Proof.
  unfold settles. rewrite existsb_exists. intros (x & Hx & He).
  destruct x; try discriminate. apply Nat.eqb_eq in He. subst. eauto.
Qed.

Lemma scan_blocked (a b : nat) (mid post : list obs) :
  settles a mid = false -> scan (Some a) (mid ++ Dispatched b :: post) = None.
Proof.
  induction mid as [|x mid IH]; simpl; intros H; [reflexivity|].
  apply orb_false_iff in H. destruct H as [Hx Hm].
  destruct x; try reflexivity; try (now apply IH).
  rewrite Nat.eqb_sym in Hx. rewrite Hx. now apply IH.
Qed.

Lemma scan_serial (tr : list obs) (c : option nat) pre a mid b post :
  scan None tr = Some c ->
  tr = (pre ++ Dispatched a :: mid ++ Dispatched b :: post)%list ->
  exists o, In (Settled a o) mid.
Proof.
  intros Hs ->. rewrite scan_app in Hs.
  destruct (scan None pre) as [[c1|]|]; simpl in Hs; try discriminate.
  destruct (settles a mid) eqn:E; [now apply settles_true|].
  rewrite scan_blocked in Hs by assumption. discriminate.
Qed.

(** Tickets number the submissions in arrival order.  At every moment
    of every run of the client, the tasks dispatched so far followed
    by the tasks still queued are exactly the accepted tasks in
    arrival order, less those a credential pause threw out.  So of
    two tasks accepted in the order a, b, when b has been dispatched,
    a (unless a pause rejected it) was dispatched before b.  Tasks run
    one at a time: between two dispatches the promise of the first
    task has settled. *)
Lemma arrival_order (k : option string) (evs : list (Z * event)) :
  let st := run evs (init k) in
  StronglySorted Nat.lt (accepted st)
  /\ (dispatched st ++ map ticket (queue st))%list = surviving (trace st)
  /\ (forall a b,
        before a b (accepted st) -> In b (dispatched st) ->
        ~ In a (cancelled st) -> before a b (dispatched st))
  /\ (forall pre a mid b post,
        trace st = (pre ++ Dispatched a :: mid ++ Dispatched b :: post)%list ->
        exists o, In (Settled a o) mid).
Proof.
  intros st. pose proof (run_inv evs (init k) (init_inv k)) as H.
  fold st in H. unfold Inv, Inv' in H.
  pose proof (surviving_sorted _ _ _ _ H) as Hsort.
  pose proof H as [H1 H2 H3 H4 H5 H6].
  split; [exact H1|]. split; [symmetry; exact H4|]. split.
  - intros a b Hab Hb Ha.
    pose proof (sorted_before_lt _ _ _ H1 Hab) as Hlt.
    destruct (before_In _ _ _ Hab) as [Hina _].
    assert (Hsa : In a (surviving (trace st))).
    { unfold surviving. apply filter_In. split; [exact Hina|].
      apply negb_true_iff. now apply mem_false. }
    rewrite H4 in Hsa. apply in_app_or in Hsa.
    assert (Hda : In a (dispatched st)).
    { destruct Hsa as [Hd|Hq]; [exact Hd|]. exfalso.
      assert (Hba : before b a (dispatched_in (trace st) ++ map ticket (queue st))).
      { apply in_split in Hb. destruct Hb as (d1 & d2 & Hd).
        apply in_split in Hq. destruct Hq as (q1 & q2 & Hq).
        exists d1, (d2 ++ q1)%list, q2.
        unfold dispatched in Hd. unfold dispatched_in. rewrite Hd, Hq.
        now rewrite <- !app_assoc. }
      pose proof (sorted_before_lt _ _ _ Hsort Hba). lia. }
    apply sorted_lt_before; try assumption.
    apply (sorted_app_l _ _ Hsort).
  - intros pre a mid b post Htr. eapply scan_serial; eauto.
Qed.

(** ** Credential expiry *)

Lemma step_403 now r t a st :
  pc st = AwaitHttp t a -> keyExpired st = false -> statusCode r = 403 ->
  exists l,
    step now (Responded r) st
    = mkState (apiKey st) true l (lastRequestTime st) [] true 0
              (windowTimestamps st) Idle (nextTicket st)
              (trace st ++ cancel_all (queue st)
                 ++ [Emit KeyExpired; Settled (ticket t) (Rejected Err403)]).
Proof.
  intros Hpc Hk Hs. unfold step. rewrite Hpc. unfold on_response. rewrite Hs.
  cbn [Z.eqb Pos.eqb].
  set (st1 := match appLimit r with
              | Some h => if Js.truthy_str h
                          then set_limiter (update (appLimiter st) h) st else st
              | None => st
              end).
  assert (Hst1 : exists l, st1 = set_limiter l st).
  { subst st1. destruct (appLimit r) as [h|].
    - destruct (Js.truthy_str h); eexists; [reflexivity|].
      instantiate (1 := appLimiter st). now destruct st.
    - exists (appLimiter st). now destruct st. }
  destruct Hst1 as (l & ->). exists l.
  unfold continue, drain_fuel. st_unfold. rewrite Hk. st_unfold.
  cbn [List.length Nat.mul Nat.add drain]. st_unfold.
  destruct st; cbn in Hpc, Hk; subst.
  cbv [set_pc log pause set_key set_limiter set_queue set_pause apiKey keyExpired
       appLimiter lastRequestTime queue paused pauseUntil windowTimestamps pc
       nextTicket trace].
  rewrite <- !app_assoc. reflexivity.
Qed.

Definition Expired (st : State) : Prop :=
  keyExpired st = true /\ pc st = Idle.

Lemma expired_run (evs : list (Z * event)) (st : State) :
  Expired st -> forallb keeps_expired evs = true ->
  Expired (run evs st)
  /\ trace (run evs st) = (trace st ++ refusals (nextTicket st) evs)%list
  /\ queue (run evs st) = queue st.
Proof.
  revert st. induction evs as [|[now ev] evs IH]; intros st [Hk Hpc] Hq; simpl.
  { repeat split; try assumption. now rewrite app_nil_r. }
  simpl in Hq. apply andb_true_iff in Hq. destruct Hq as [Hev Hq].
  destruct ev as [host p| |r| |k]; unfold step; try rewrite Hpc.
  - unfold submit. cbn [keyExpired bump_ticket]. rewrite Hk.
    destruct (IH (log [Settled (nextTicket st) (Rejected ErrKeyExpired)] (bump_ticket st)))
      as (He & Ht & Hqq); [split; assumption|assumption|].
    cbn [ticket]. repeat split; try apply He.
    + rewrite Ht. st_unfold. now rewrite <- app_assoc.
    + rewrite Hqq. reflexivity.
  - now apply IH.
  - now apply IH.
  - now apply IH.
  - unfold keeps_expired in Hev. simpl in Hev. apply negb_true_iff in Hev.
    unfold reloadKey. rewrite Hev.
    destruct (IH (set_key k (keyExpired st) st)) as (He & Ht & Hqq);
      [split; assumption|assumption|].
    repeat split; try apply He; assumption.
Qed.

(** Of a trace that grows by refusals alone, the HTTP calls, the
    emitted signals and the dispatches do not grow. *)
Lemma cancel_all_project {B} (f : obs -> option B) (q : list Task) :
  (forall t o, f (Settled t o) = None) -> omap f (cancel_all q) = [].
Proof.
  intros Hf. induction q as [|x q IH]; simpl; [reflexivity|]. now rewrite Hf.
Qed.

Lemma refusals_project {B} (f : obs -> option B) (n : nat) (evs : list (Z * event)) :
  (forall t o, f (Settled t o) = None) -> omap f (refusals n evs) = [].
Proof.
  intros Hf. revert n. induction evs as [|[now ev] evs IH]; intros n; simpl;
    [reflexivity|].
  destruct ev; simpl; try apply IH. now rewrite Hf.
Qed.

Lemma refusals_silent (n : nat) (evs : list (Z * event)) (tr : list obs) :
  omap (fun o => match o with Http t a => Some (t, a) | _ => None end)
       (tr ++ refusals n evs)%list
  = omap (fun o => match o with Http t a => Some (t, a) | _ => None end) tr
  /\ omap (fun o => match o with Emit s => Some s | _ => None end)
          (tr ++ refusals n evs)%list
     = omap (fun o => match o with Emit s => Some s | _ => None end) tr
  /\ dispatched_in (tr ++ refusals n evs)%list = dispatched_in tr.
Proof.
  unfold dispatched_in. rewrite !omap_app.
  rewrite !refusals_project by reflexivity. now rewrite !app_nil_r.
Qed.

(** ** Traces only grow *)

Definition extends (st st' : State) : Prop :=
  exists o, trace st' = (trace st ++ o)%list.

Lemma extends_refl st : extends st st.
Proof. exists []. now rewrite app_nil_r. Qed.

Lemma extends_trans st1 st2 st3 : extends st1 st2 -> extends st2 st3 -> extends st1 st3.
Proof.
  intros (o1 & H1) (o2 & H2). exists (o1 ++ o2)%list. now rewrite H2, H1, app_assoc.
Qed.

Lemma extends_same st st' : trace st' = trace st -> extends st st'.
Proof. intros H. exists []. now rewrite app_nil_r. Qed.

Lemma extends_log st st' o : trace st' = (trace st ++ o)%list -> extends st st'.
Proof. intros H. now exists o. Qed.

Lemma fire_extends now t a st : extends st (fst (fire now t a st)).
Proof.
  unfold fire. st_unfold. destruct (has_key (apiKey st)); st_unfold;
    eapply extends_log; reflexivity.
Qed.

Lemma check_bucket_extends now t a st : extends st (fst (check_bucket now t a st)).
Proof.
  unfold check_bucket.
  destruct (limCanRequest (appLimiter st) now) as [ok l]. destruct ok.
  - eapply extends_trans; [|apply fire_extends]. now apply extends_same.
  - unfold limWaitTime. st_unfold. eapply extends_log; reflexivity.
Qed.

Lemma check_spacing_extends now t a st : extends st (fst (check_spacing now t a st)).
Proof.
  unfold check_spacing. destruct (now - lastRequestTime st <? REQUEST_SPACING_MS).
  - st_unfold. eapply extends_log; reflexivity.
  - apply check_bucket_extends.
Qed.

Lemma requestWithRetry_extends now t a st :
  extends st (fst (requestWithRetry now t a st)).
Proof.
  unfold requestWithRetry, limWaitTime.
  match goal with |- context [if ?c then _ else _] => destruct c end.
  - st_unfold. eapply extends_log; reflexivity.
  - eapply extends_trans; [|apply check_spacing_extends]. now apply extends_same.
Qed.

Lemma drain_extends fuel e now st : extends st (drain fuel e now st).
Proof.
  revert e st. induction fuel as [|fuel IH]; intros e st; simpl.
  { now apply extends_same. }
  destruct e.
  - destruct (queue st) as [|t q]; [now apply extends_same|].
    destruct (paused st && (0 <? pauseUntil st)).
    + destruct (0 <? pauseUntil st - now).
      * st_unfold. eapply extends_log; reflexivity.
      * eapply extends_trans; [|apply IH]. now apply extends_same.
    + apply IH.
  - destruct (paused st && (pauseUntil st =? 0)); [now apply extends_same|].
    match goal with |- context [if ?c then _ else _] => destruct c end.
    + eapply extends_trans; [|apply IH]. now apply extends_same.
    + cbn [queue pruneWindow set_window].
      destruct (queue st) as [|t q]; [now apply extends_same|].
      match goal with
      | |- context [requestWithRetry now t 0 ?s] =>
          pose proof (requestWithRetry_extends now t 0 s) as Hx;
          destruct (requestWithRetry now t 0 s) as [st' done]
      end.
      cbn [fst] in Hx.
      assert (Hd : extends st st').
      { eapply extends_trans; [|exact Hx]. st_unfold. eapply extends_log; reflexivity. }
      destruct done; [|exact Hd].
      eapply extends_trans; [exact Hd|apply IH].
Qed.

(** The loop at its test with a task waiting, no pause and the window
    below the soft throttle: the head of the queue is dispatched. *)
Lemma drain_dispatches fuel now st t q :
  queue st = t :: q -> paused st = false ->
  windowUsage now st < THROTTLE_NUM ->
  exists rest,
    trace (drain (S (S fuel)) AtWhile now st)
    = (trace st ++ Dispatched (ticket t) :: rest)%list.
Proof.
  intros Hq Hp Hu. cbn [drain]. rewrite Hq, Hp. cbn [andb].
  unfold windowUsage in Hu. apply Z.leb_gt in Hu. rewrite Hu.
  cbn [queue pruneWindow set_window]. rewrite Hq.
  match goal with
  | |- context [requestWithRetry now t 0 ?s] =>
      pose proof (requestWithRetry_extends now t 0 s) as Hx;
      destruct (requestWithRetry now t 0 s) as [st' done]
  end.
  cbn [fst] in Hx. destruct Hx as (o & Ho). st_unfold.
  destruct done.
  - destruct (drain_extends fuel AtWhile now st') as (o' & Ho').
    exists (o ++ o')%list. rewrite Ho', Ho. rewrite <- !app_assoc. reflexivity.
  - exists o. rewrite Ho. rewrite <- !app_assoc. reflexivity.
Qed.

(** After a reload that found a key, a submission is accepted and,
    below the soft throttle, dispatched in the same turn. *)
Lemma submit_dispatches now host p st :
  keyExpired st = false -> paused st = false -> pc st = Idle -> queue st = [] ->
  windowUsage now st < THROTTLE_NUM ->
  exists rest,
    trace (step now (Submit host p) st)
    = (trace st ++ Accepted (nextTicket st) :: Dispatched (nextTicket st) :: rest)%list.
Proof.
  intros Hk Hp Hpc Hq Hu. unfold step, submit, enqueue.
  cbn [keyExpired bump_ticket paused pauseUntil ticket]. rewrite Hk, Hp.
  cbn [andb]. unfold running. cbn [pc log set_queue bump_ticket]. rewrite Hpc.
  cbn [queue bump_ticket]. rewrite Hq. cbn [app].
  unfold drain_fuel. cbn [queue log set_queue bump_ticket List.length Nat.mul Nat.add].
  match goal with
  | |- context [drain _ AtWhile now ?s] =>
      destruct (drain_dispatches 4 now s (mkTask (nextTicket st) host p) [])
        as (rest & Hr); [reflexivity|exact Hp|exact Hu|]
  end.
  exists rest. rewrite Hr. cbn [trace log set_queue bump_ticket ticket].
  now rewrite <- app_assoc.
Qed.

(** C2. Credential expiry is sticky.  When the request in flight is
    answered 403 and the key was not yet known to be expired: every
    queued task is rejected with the credential-expired error, one
    key-expired signal is emitted, the task in flight is rejected with
    the 403 error, and the queue is left empty and paused for good.
    From then on, whatever happens short of a [reloadKey()] that finds
    a key, each submission is refused on the spot and the trace grows by
    these refusals alone: no HTTP call, no dispatch, no further signal.
    A [reloadKey()] that finds a key clears the flag and the pause; the
    next submission is accepted and (below the soft throttle)
    dispatched in the same turn. *)
Theorem credential_expiry_is_sticky
        (st : State) (t : Task) (a : nat) (r : Response) (now : Z)
        (evs : list (Z * event)) :
  pc st = AwaitHttp t a -> keyExpired st = false -> statusCode r = 403 ->
  forallb keeps_expired evs = true ->
  let st1 := step now (Responded r) st in
  let st2 := run evs st1 in
  trace st1 = (trace st ++ cancel_all (queue st)
                 ++ [Emit KeyExpired; Settled (ticket t) (Rejected Err403)])%list
  /\ queue st1 = [] /\ keyExpired st1 = true
  /\ paused st1 = true /\ pauseUntil st1 = 0 /\ pc st1 = Idle
  /\ trace st2 = (trace st1 ++ refusals (nextTicket st1) evs)%list
  /\ https st2 = https st
  /\ emitted st2 = (emitted st ++ [KeyExpired])%list
  /\ dispatched st2 = dispatched st
  /\ keyExpired st2 = true
  /\ forall key now2,
      has_key key = true ->
      let st3 := step now2 (ReloadKey key) st2 in
      keyExpired st3 = false /\ paused st3 = false /\ pc st3 = Idle
      /\ trace st3 = trace st2
      /\ forall now3 host p,
          windowUsage now3 st3 < THROTTLE_NUM ->
          exists rest,
            trace (step now3 (Submit host p) st3)
            = (trace st3 ++ Accepted (nextTicket st3)
                 :: Dispatched (nextTicket st3) :: rest)%list.
Proof.
  intros Hpc Hk Hs Hev st1 st2.
  destruct (step_403 now r t a st Hpc Hk Hs) as (l & H1). fold st1 in H1.
  assert (Hexp : Expired st1) by (rewrite H1; split; reflexivity).
  destruct (expired_run evs st1 Hexp Hev) as ((Hk2 & Hpc2) & Ht2 & Hq2). fold st2 in Hk2, Hpc2, Ht2, Hq2.
  assert (Htr1 : trace st1 = (trace st ++ cancel_all (queue st)
                 ++ [Emit KeyExpired; Settled (ticket t) (Rejected Err403)])%list)
    by (rewrite H1; reflexivity).
  destruct (refusals_silent (nextTicket st1) evs (trace st1)) as (Hh & He & Hd).
  destruct (cancel_all_projections (queue st)) as (_ & Hcd & _).
  split; [exact Htr1|].
  split; [rewrite H1; reflexivity|]. split; [rewrite H1; reflexivity|].
  split; [rewrite H1; reflexivity|]. split; [rewrite H1; reflexivity|].
  split; [rewrite H1; reflexivity|].
  split; [exact Ht2|].
  split.
  { unfold https. rewrite Ht2, Hh, Htr1, !omap_app.
    rewrite cancel_all_project by reflexivity. simpl. now rewrite !app_nil_r. }
  split.
  { unfold emitted. rewrite Ht2, He, Htr1, !omap_app.
    rewrite cancel_all_project by reflexivity. reflexivity. }
  split.
  { unfold dispatched. fold (dispatched_in (trace st2)). rewrite Ht2, Hd, Htr1.
    rewrite !dispatched_in_app, Hcd. simpl. now rewrite !app_nil_r. }
  split; [exact Hk2|].
  intros key now2 Hkey st3.
  assert (H3 : st3 = resume (set_key key false st2)).
  { unfold st3, step, reloadKey. now rewrite Hkey. }
  assert (Hq3 : queue st3 = []).
  { rewrite H3. st_unfold. rewrite Hq2, H1. reflexivity. }
  split; [rewrite H3; reflexivity|]. split; [rewrite H3; reflexivity|].
  split; [rewrite H3; exact Hpc2|]. split; [rewrite H3; reflexivity|].
  intros now3 host p Hu.
  apply submit_dispatches; try assumption; rewrite H3; try reflexivity.
  exact Hpc2.
Qed.

Lemma credential_expiry_witness :
  let st1 := step (T0 + 100) (Responded forbidden) three_submitted in
  let st2 := run while_expired st1 in
  trace st1
  = [Accepted 0; Dispatched 0; Http 0 0; Accepted 1; Accepted 2;
     Settled 1 (Rejected ErrPaused); Settled 2 (Rejected ErrPaused);
     Emit KeyExpired; Settled 0 (Rejected Err403)]
  /\ trace st2 = (trace st1 ++ [Settled 3 (Rejected ErrKeyExpired)])%list
  /\ https st2 = [(0%nat, 0%nat)]
  /\ emitted st2 = [KeyExpired]
  /\ exists rest,
      trace (step (T0 + 5400) (Submit "na1" "/lol/summoner/v4/e")
                  (step (T0 + 400) (ReloadKey (Some "RGAPI-new")) st2))
      = (trace st2 ++ Accepted 4 :: Dispatched 4 :: rest)%list.
Proof.
  pose proof (credential_expiry_is_sticky
                three_submitted
                (mkTask 0 "na1" "/lol/summoner/v4/a") 0 forbidden (T0 + 100)
                while_expired eq_refl eq_refl eq_refl eq_refl) as H.
  cbv zeta in H.
  destruct H as (H1 & _ & _ & _ & _ & _ & H2 & H3 & H4 & _ & _ & H5).
  intros st1 st2.
  split; [exact H1|]. split; [exact H2|]. split; [exact H3|]. split; [exact H4|].
  destruct (H5 (Some "RGAPI-new") (T0 + 400) eq_refl) as (_ & _ & _ & H6 & H7).
  destruct (H7 (T0 + 5400) "na1" "/lol/summoner/v4/e" eq_refl) as (rest & Hr).
  exists rest. subst st1 st2. rewrite Hr, H6. reflexivity.
Defined.

(** ** Retrying on 429 *)

(** Four 429 answers in a row: three sleeps of the announced length
    (one second where the header is missing), four HTTP calls, then one
    rate-limited signal and the rejection. *)
Example four_times_429_trace :
  trace (run four_times_429 (init (Some "RGAPI-key")))
  = [Accepted 0; Dispatched 0;
     Http 0 0; Sleep (Some 2000);
     Http 0 1; Sleep (Some 2000);
     Http 0 2; Sleep (Some 1000);
     Http 0 3;
     Emit (RateLimited (Some 7000));
     Settled 0 (Rejected (Err429 (Some 7000)))].
Proof. reflexivity. Qed.

Lemma limiter_updated (r : Response) (st : State) :
  exists l,
    match appLimit r with
    | Some h => if Js.truthy_str h
                then set_limiter (update (appLimiter st) h) st else st
    | None => st
    end = set_limiter l st.
Proof.
  destruct (appLimit r) as [h|].
  - destruct (Js.truthy_str h); [eexists; reflexivity|].
    exists (appLimiter st). now destruct st.
  - exists (appLimiter st). now destruct st.
Qed.

(** C4, where the code departs from it.  A 429 answer whose
    retry-after comes out as 0 ms or as NaN (the header [Retry-After: 0],
    or one that [parseInt] cannot read) is not retried, on whatever
    attempt: in the turn of the answer the rate-limited signal is
    emitted and the caller's promise is rejected, with no sleep before
    them. *)
Theorem retry_after_zero_gives_up (st : State) (t : Task) (a : nat) (r : Response)
        (now : Z) :
  pc st = AwaitHttp t a -> statusCode r = 429 ->
  let ms := Js.mul (Js.parseInt (retryAfterOr1 (retryAfter r))) (Some 1000) in
  Js.truthy_num ms = false ->
  (retryAfter r = Some "0" -> ms = Some 0)
  /\ exists rest,
      trace (step now (Responded r) st)
      = (trace st ++ [Emit (RateLimited ms);
                      Settled (ticket t) (Rejected (Err429 ms))] ++ rest)%list.
Proof.
  intros Hpc Hs ms Hfalsy. split; [intros H; subst ms; rewrite H; reflexivity|].
  assert (Hst1 : step now (Responded r) st = continue now (on_response now r t a st)).
  { unfold step. now rewrite Hpc. }
  unfold on_response in Hst1. rewrite Hs in Hst1. cbn [Z.eqb Pos.eqb] in Hst1.
  destruct (limiter_updated r st) as (l & Hl). rewrite Hl in Hst1. fold ms in Hst1.
  rewrite Hfalsy in Hst1. cbn [andb continue] in Hst1.
  match type of Hst1 with
  | _ = drain ?f ?e ?n ?s => destruct (drain_extends f e n s) as (o & Ho)
  end.
  exists o. rewrite Hst1, Ho. st_unfold. now rewrite <- !app_assoc.
Qed.

(** The first answer to the only request, on attempt 0 of 3. *)
Lemma retry_after_zero_witness :
  trace (run retry_after_zero (init (Some "RGAPI-key")))
  = [Accepted 0; Dispatched 0; Http 0 0;
     Emit (RateLimited (Some 0));
     Settled 0 (Rejected (Err429 (Some 0)))]
  /\ exists rest,
      trace (step (T0 + 100) (Responded (mkResponse 429 None (Some "0")))
                  (run [(T0, Submit "na1" "/lol/summoner/v4/a")] (init (Some "RGAPI-key"))))
      = ([Accepted 0; Dispatched 0; Http 0 0]
           ++ [Emit (RateLimited (Some 0)); Settled 0 (Rejected (Err429 (Some 0)))]
           ++ rest)%list.
Proof.
  split; [reflexivity|].
  exact (proj2 (retry_after_zero_gives_up
                  (run [(T0, Submit "na1" "/lol/summoner/v4/a")] (init (Some "RGAPI-key")))
                  (mkTask 0 "na1" "/lol/summoner/v4/a") 0
                  (mkResponse 429 None (Some "0")) (T0 + 100)
                  eq_refl eq_refl eq_refl)).
Defined.

(** X1. A 429 answer to the request in flight with a retry-after that
    is a positive number of seconds (one second when the header is
    missing), on an attempt below [MAX_RETRIES]: the coroutine sleeps
    exactly that long, and when the sleep is over the same task is
    requested again as the next attempt; nothing is emitted and the
    caller's promise stays pending.  On the attempt numbered
    [MAX_RETRIES] the rate-limited signal is emitted once and the
    caller's promise is rejected with the 429 error. *)
Theorem retry_on_429 (st : State) (t : Task) (a : nat) (r : Response) (now : Z) :
  pc st = AwaitHttp t a -> statusCode r = 429 ->
  let ms := Js.mul (Js.parseInt (retryAfterOr1 (retryAfter r))) (Some 1000) in
  let st1 := step now (Responded r) st in
  (retryAfter r = None -> ms = Some 1000)
  /\ (Js.truthy_num ms = true -> (a < MAX_RETRIES)%nat ->
      trace st1 = (trace st ++ [Sleep ms])%list
      /\ pc st1 = RetrySleep t a
      /\ forall now',
          step now' TimerFired st1
          = continue now' (requestWithRetry now' t (S a) st1))
  /\ ((MAX_RETRIES <= a)%nat ->
      exists rest,
        trace st1 = (trace st ++ [Emit (RateLimited ms);
                                  Settled (ticket t) (Rejected (Err429 ms))]
                       ++ rest)%list).
Proof.
  intros Hpc Hs ms st1. split; [intros H; subst ms; rewrite H; reflexivity|].
  assert (Hst1 : st1 = continue now (on_response now r t a st)).
  { unfold st1, step. now rewrite Hpc. }
  unfold on_response in Hst1. rewrite Hs in Hst1. cbn [Z.eqb Pos.eqb] in Hst1.
  destruct (limiter_updated r st) as (l & Hl). rewrite Hl in Hst1. fold ms in Hst1.
  split.
  - intros Htruthy Ha. apply Nat.ltb_lt in Ha. rewrite Htruthy, Ha in Hst1.
    cbn [andb continue] in Hst1. rewrite Hst1.
    split; [reflexivity|]. split; [reflexivity|]. intros now'. reflexivity.
  - intros Ha. apply Nat.ltb_ge in Ha. rewrite Ha, andb_false_r in Hst1.
    cbn [continue] in Hst1.
    match type of Hst1 with
    | _ = drain ?f ?e ?n ?s => destruct (drain_extends f e n s) as (o & Ho)
    end.
    exists o. rewrite Hst1, Ho. st_unfold. now rewrite <- !app_assoc.
Qed.

Lemma retry_on_429_witness :
  let st := run [(T0, Submit "na1" "/lol/summoner/v4/a")] (init (Some "RGAPI-key")) in
  let st1 := step (T0 + 100) (Responded (mkResponse 429 None (Some "2"))) st in
  trace st1 = (trace st ++ [Sleep (Some 2000)])%list
  /\ pc st1 = RetrySleep (mkTask 0 "na1" "/lol/summoner/v4/a") 0.
Proof.
  intros st st1.
  pose proof (retry_on_429 st (mkTask 0 "na1" "/lol/summoner/v4/a") 0
                           (mkResponse 429 None (Some "2")) (T0 + 100)
                           eq_refl eq_refl) as H.
  cbv zeta in H. destruct H as (_ & H & _).
  destruct (H eq_refl) as (H1 & H2 & _); [unfold MAX_RETRIES; lia|].
  split; [exact H1|exact H2].
Defined.

End SchedulerFacts.

(* ===================================================================== *)
(** * What a limit header does to the recorded requests *)
(* ===================================================================== *)

Module UpdateFacts.
Import RateLimit Scheduler RateLimitFacts.

(** C10, as stated, fails: after [update("0:1")] the one bucket is empty
    and still refuses, since nothing is fewer than a capacity of zero. *)
Lemma update_may_refuse :
  ~ (forall (rl : RateLimiter) (h : string) (now : Z),
       fst (limCanRequest (update rl h) now) = true
       /\ fst (limWaitTime (update rl h) now) = Some 0).
Proof.
  intros H. destruct (H (limConsume (newLimiter "20:1,100:120") 5) "0:1" 7) as [H1 _].
  vm_compute in H1. discriminate.
Qed.

Lemma default_limits_positive :
  Forall positive_capacity (parseBuckets "20:1,100:120").
Proof.
  assert (H : parseBuckets "20:1,100:120"
              = [mkBucket (Some 20) (Some 1000) []; mkBucket (Some 100) (Some 120000) []])
    by reflexivity.
  rewrite H. constructor; [exists 20; split; [reflexivity|lia]|].
  constructor; [exists 100; split; [reflexivity|lia]|constructor].
Qed.

Lemma on_response_limiter now r t a st hdr :
  appLimit r = Some hdr -> Js.truthy_str hdr = true ->
  appLimiter (fst (on_response now r t a st)) = parseBuckets hdr.
Proof.
  intros Hh Ht. unfold on_response. rewrite Hh, Ht.
  repeat match goal with
         | |- context [if ?c then _ else _] => destruct c
         end; reflexivity.
Qed.

(** C10, amended.  [update(header)] replaces the buckets by those
    parsed from the header, whatever was recorded before: every bucket
    is empty afterwards.  When the header gives every bucket a capacity
    of at least one (as "20:1,100:120" does), [canRequest()] then
    returns true and [waitTime()] returns 0, however many [consume()]
    calls came before.  The client applies [update] on every response
    that carries a non-empty X-App-Rate-Limit header, so after such a
    response the limiter holds no recorded request. *)
Theorem update_discards_history (rl : RateLimiter) (h : string) (now : Z) :
  update rl h = parseBuckets h
  /\ Forall (fun b => timestamps b = []) (update rl h)
  /\ (Forall positive_capacity (update rl h) ->
      fst (limCanRequest (update rl h) now) = true
      /\ fst (limWaitTime (update rl h) now) = Some 0)
  /\ Forall positive_capacity (update rl "20:1,100:120")
  /\ (forall st t a r hdr now',
        appLimit r = Some hdr -> Js.truthy_str hdr = true ->
        appLimiter (fst (on_response now' r t a st)) = parseBuckets hdr
        /\ Forall (fun b => timestamps b = [])
                  (appLimiter (fst (on_response now' r t a st)))).
Proof.
  split; [reflexivity|].
  split; [apply parseBuckets_fresh|].
  split.
  { intros Hp. split.
    - rewrite fresh_positive_admits; [reflexivity|apply parseBuckets_fresh|exact Hp].
    - apply fresh_positive_no_wait; [apply parseBuckets_fresh|exact Hp]. }
  split; [apply default_limits_positive|].
  intros st t a r hdr now' Hh Ht.
  rewrite (on_response_limiter now' r t a st hdr Hh Ht).
  split; [reflexivity|apply parseBuckets_fresh].
Qed.

End UpdateFacts.

(* ===================================================================== *)
(** * Properties of the trigger detector *)
(* ===================================================================== *)

Module TriggerFacts.
Import LiveClient Triggers.

Lemma Qltb_lt (x y : Q) : Js.Qltb x y = true <-> (x < y)%Q.
Proof.
  unfold Js.Qltb. rewrite negb_true_iff. split.
  - intros H. apply Qnot_le_lt. intros Hle. apply Qle_bool_iff in Hle. congruence.
  - intros H. destruct (Qle_bool y x) eqn:E; [|reflexivity].
    apply Qle_bool_iff in E. exfalso. now apply (Qlt_not_le x y).
Qed.

Lemma Qltb_ge (x y : Q) : Js.Qltb x y = false <-> (y <= x)%Q.
Proof.
  unfold Js.Qltb. rewrite negb_false_iff. apply Qle_bool_iff.
Qed.

Lemma qmin_le_l (a b : Q) : (qmin a b <= a)%Q.
Proof.
  unfold qmin, Js.Qleb. destruct (Qle_bool a b) eqn:E; [apply Qle_refl|].
  apply Qlt_le_weak, Qnot_le_lt. intros H. apply Qle_bool_iff in H. congruence.
Qed.

Lemma qmin_le_r (a b : Q) : (qmin a b <= b)%Q.
Proof.
  unfold qmin, Js.Qleb. destruct (Qle_bool a b) eqn:E; [|apply Qle_refl].
  now apply Qle_bool_iff.
Qed.

Lemma qmin_cases (a b : Q) : qmin a b = a \/ qmin a b = b.
Proof. unfold qmin. destruct (Js.Qleb a b); auto. Qed.

(** The folded minimum is below every timer and is one of them. *)
Lemma fold_qmin_le_init (l : list Q) (a : Q) : (fold_left qmin l a <= a)%Q.
Proof.
  revert a. induction l as [|y l IH]; intros a; simpl; [apply Qle_refl|].
  eapply Qle_trans; [apply IH|apply qmin_le_l].
Qed.

Lemma fold_qmin_le (l : list Q) (a x : Q) :
  x = a \/ In x l -> (fold_left qmin l a <= x)%Q.
Proof.
  intros [->|H]; [apply fold_qmin_le_init|].
  revert a. induction l as [|y l IH]; intros a; simpl; [contradiction|].
  destruct H as [->|H].
  - eapply Qle_trans; [apply fold_qmin_le_init|apply qmin_le_r].
  - now apply IH.
Qed.

Lemma fold_qmin_in (l : list Q) (a : Q) :
  fold_left qmin l a = a \/ In (fold_left qmin l a) l.
Proof.
  revert a. induction l as [|y l IH]; intros a; simpl; [now left|].
  destruct (IH (qmin a y)) as [H|H]; [|right; now right].
  rewrite H. destruct (qmin_cases a y) as [->| ->]; [now left|right; now left].
Qed.

Lemma minRespawn_le (p : Player) (ps : list Player) (x : Player) :
  In x (p :: ps) -> (minRespawn p ps <= respawnTimer x)%Q.
Proof.
  intros H. unfold minRespawn. apply fold_qmin_le.
  destruct H as [->|H]; [now left|right; now apply in_map].
Qed.

Lemma minRespawn_in (p : Player) (ps : list Player) :
  exists x, In x (p :: ps) /\ minRespawn p ps = respawnTimer x.
Proof.
  unfold minRespawn.
  destruct (fold_qmin_in (map respawnTimer ps) (respawnTimer p)) as [H|H].
  - exists p. split; [now left|exact H].
  - apply in_map_iff in H. destruct H as (x & Hx & Hin).
    exists x. split; [now right|now rewrite Hx].
Qed.

(** The loop over the lanes computes the largest counter. *)
Lemma bestLane_max (d : Detector) (e : Team) :
  bestLaneTurretsDown d e = maxTurretsDownInLane d e.
Proof.
  unfold bestLaneTurretsDown, maxTurretsDownInLane. simpl.
  generalize (turretsDown d e "top") (turretsDown d e "mid") (turretsDown d e "bot").
  intros a b c.
  destruct (Z.ltb_spec 0 a); destruct (Z.ltb_spec a b); destruct (Z.ltb_spec 0 b);
    destruct (Z.ltb_spec a c); destruct (Z.ltb_spec b c); destruct (Z.ltb_spec 0 c);
    lia.
Qed.

Lemma inhib_down_size (d : Detector) :
  (0 <? size (enemyInhibsDown d))%nat = negb (bool_decide (enemyInhibsDown d = ∅)).
Proof.
  destruct (bool_decide (enemyInhibsDown d = ∅)) eqn:E.
  - apply bool_decide_eq_true in E. rewrite E. reflexivity.
  - apply bool_decide_eq_false in E. simpl. apply Nat.ltb_lt.
    destruct (size (enemyInhibsDown d)) eqn:Hs; [|lia].
    exfalso. apply E. now apply size_empty_inv, leibniz_equiv in Hs.
Qed.

Lemma estimatedPushTime_spec (d : Detector) (e : Team) :
  inject_Z (estimatedPushTime d e) = pushTime d e.
Proof.
  unfold estimatedPushTime, pushTime. rewrite bestLane_max, inhib_down_size.
  destruct (bool_decide (enemyInhibsDown d = ∅)); reflexivity.
Qed.

Definition win_call : TriggerResult :=
  local WIN_CONDITION urgent "WIN CONDITION ACTIVE — PUSH TO END" "WIN_CONDITION".

Lemma checkWinCondition_cases (d : Detector) (enemies : list Player) jg :
  checkWinCondition d enemies jg = None
  \/ checkWinCondition d enemies jg = Some win_call.
Proof.
  unfold checkWinCondition.
  repeat match goal with
         | |- context [if ?c then _ else _] => destruct c
         | |- context [match ?x with _ => _ end] => destruct x
         end; auto.
Qed.

Lemma checkWinCondition_spec (d : Detector) (et : Team) (enemies : list Player) :
  (forall e, In e enemies -> team e = et) ->
  checkWinCondition d enemies (junglerOf enemies) = Some win_call
  <-> winCondition d et enemies.
Proof.
  intros Hteam. unfold checkWinCondition, winCondition.
  set (dead := List.filter isDead enemies).
  destruct (Nat.ltb_spec (List.length dead) 3) as [Hlen|Hlen].
  { split; [discriminate|]. intros (H & _). lia. }
  destruct (junglerOf enemies) as [jg|] eqn:Hjg.
  2:{ split; [discriminate|]. intros (_ & (x & Hx & _) & _). discriminate. }
  destruct (isDead jg) eqn:Hdead; simpl.
  2:{ split; [discriminate|]. intros (_ & (x & Hx & Hd) & _).
      injection Hx as <-. congruence. }
  destruct dead as [|p ps] eqn:Hd; [simpl in Hlen; lia|].
  destruct enemies as [|e rest] eqn:He.
  { discriminate. }
  assert (Het : team e = et) by (apply Hteam; now left).
  rewrite Het.
  destruct (Js.Qltb (minRespawn p ps) 15) eqn:H15.
  { split; [discriminate|]. intros (_ & _ & Hall).
    apply Qltb_lt in H15.
    destruct (minRespawn_in p ps) as (x & Hx & Hm).
    destruct (Hall x Hx) as [Hge _]. rewrite Hm in H15.
    exfalso. now apply (Qlt_not_le _ _ H15). }
  apply Qltb_ge in H15.
  rewrite estimatedPushTime_spec.
  destruct (Js.Qltb (pushTime d et) (minRespawn p ps)) eqn:Hpush.
  - apply Qltb_lt in Hpush. split; [intros _|reflexivity].
    split; [exact Hlen|]. split; [now exists jg|].
    intros x Hx. pose proof (minRespawn_le p ps x Hx) as Hle. split.
    + eapply Qle_trans; eauto.
    + eapply Qlt_le_trans; eauto.
  - apply Qltb_ge in Hpush. split; [discriminate|]. intros (_ & _ & Hall).
    destruct (minRespawn_in p ps) as (x & Hx & Hm).
    destruct (Hall x Hx) as [_ Hlt]. rewrite <- Hm in Hlt.
    exfalso. now apply (Qlt_not_le _ _ Hlt).
Qed.

Lemma enemies_team (lt : Team) (s : Snapshot) (e : Player) :
  In e (enemiesOf lt s) -> team e = opponent lt.
Proof.
  unfold enemiesOf. intros H. apply filter_In in H. destruct H as [_ H].
  destruct (team e), lt; simpl in *; congruence.
Qed.

Lemma when_In {A} (b : bool) (x t : A) : In t (when b x) -> t = x.
Proof. unfold when. destruct b; simpl; intuition. Qed.

Lemma laneCheck_call (d : Detector) (lt : Team) allies lane role t :
  laneCheck d lt allies lane role = Some t -> trigger t = CATCH_WAVE.
Proof.
  unfold laneCheck. destruct (turretsDown d lt lane <? 2); [discriminate|].
  destruct (find _ allies) as [laneAlly|]; [|discriminate].
  destruct (isDead laneAlly); [|discriminate].
  intros [= <-]. reflexivity.
Qed.

Lemma side_lane_call (d : Detector) (lt : Team) allies t :
  checkSideLanePressure d lt allies = Some t -> trigger t = CATCH_WAVE.
Proof.
  unfold checkSideLanePressure.
  destruct (laneCheck d lt allies "top" "TOP") as [w|] eqn:Htop.
  - intros [= <-]. eapply laneCheck_call; eauto.
  - apply laneCheck_call.
Qed.

Lemma evaluateFor_triggers (lt : Team) (lname : string) (s : Snapshot)
      (ap : ActivePlayer) (d : Detector) :
  exists before after,
    snd (evaluateFor lt lname s ap d)
    = (before
         ++ (if Js.Qltb 1500 (gameTime s)
             then opt_list (checkWinCondition d (enemiesOf lt s)
                                              (junglerOf (enemiesOf lt s)))
             else [])
         ++ after)%list
    /\ (forall t, In t (before ++ after) -> trigger t <> WIN_CONDITION).
Proof.
  unfold evaluateFor. cbv zeta. cbn [snd].
  fold (enemiesOf lt s). fold (junglerOf (enemiesOf lt s)).
  eexists; eexists. split; [reflexivity|].
  intros t Ht. rewrite <- !app_assoc in Ht.
  repeat (apply in_app_or in Ht; destruct Ht as [Ht|Ht]);
    try (apply when_In in Ht; subst t; discriminate).
  destruct (Js.Qltb 840 (gameTime s)); [|contradiction].
  destruct (checkSideLanePressure _ _ _) as [w|] eqn:Hw; [|contradiction].
  destruct Ht as [<-|[]]. rewrite (side_lane_call _ _ _ _ Hw). discriminate.
Qed.

(** The triggers of an evaluation that goes through, with the place of
    the win-condition check among them. *)
Lemma evaluateSnapshot_triggers (d : Detector) (s : Snapshot) (lt : Team) :
  allPlayers s <> [] -> activePlayer s <> None ->
  localTeam (fst (evaluateSnapshot s d)) = Some lt ->
  exists before after,
    snd (evaluateSnapshot s d)
    = (before
         ++ (if Js.Qltb 1500 (gameTime s)
             then opt_list (checkWinCondition d (enemiesOf lt s)
                                              (junglerOf (enemiesOf lt s)))
             else [])
         ++ after)%list
    /\ (forall t, In t (before ++ after) -> trigger t <> WIN_CONDITION).
Proof.
  intros Hp Ha. unfold evaluateSnapshot.
  destruct (allPlayers s) as [|p0 ps] eqn:Hps; [congruence|].
  destruct (activePlayer s) as [ap|]; [|congruence].
  rewrite <- Hps. clear Hp Ha.
  destruct (identify d (allPlayers s) ap) as [lname [lt'|]]; [|discriminate].
  intros Hlt.
  assert (lt' = lt) as ->.
  { unfold evaluateFor in Hlt. cbv zeta in Hlt. cbn [fst localTeam] in Hlt. congruence. }
  apply evaluateFor_triggers.
Qed.

(** C6. Win-condition trigger.  In an evaluation that goes through
    (players and active player present, local team [lt] known) with
    game time above 1500 s, the triggers contain a WIN_CONDITION exactly
    when at least three enemies are dead, the enemy jungler among them,
    every dead enemy respawns in 15 s or more (the minimum respawn is
    at least 15) and later than the estimated push takes (push-time
    below the minimum respawn), where push-time is
    max(0, 5 - maxTurretsDownInLane) x 18 + 10, times 0.7 rounded when
    an enemy inhibitor is down.  That trigger is the local call
    WIN_CONDITION of urgency urgent. *)
Theorem win_condition_trigger (d : Detector) (s : Snapshot) (lt : Team) :
  allPlayers s <> [] -> activePlayer s <> None ->
  localTeam (fst (evaluateSnapshot s d)) = Some lt ->
  (1500 < gameTime s)%Q ->
  ((exists t, In t (snd (evaluateSnapshot s d)) /\ trigger t = WIN_CONDITION)
   <-> winCondition d (opponent lt) (enemiesOf lt s))
  /\ (forall t, In t (snd (evaluateSnapshot s d)) -> trigger t = WIN_CONDITION ->
       urgency t = urgent
       /\ localCall t = Some "WIN CONDITION ACTIVE — PUSH TO END"
       /\ localCallType t = Some "WIN_CONDITION"
       /\ claudeWorthy t = false).
Proof.
  intros Hp Ha Hlt Htime.
  destruct (evaluateSnapshot_triggers d s lt Hp Ha Hlt) as (pre & post & Heq & Hother).
  apply Qltb_lt in Htime. rewrite Htime in Heq.
  pose proof (checkWinCondition_spec d (opponent lt) (enemiesOf lt s)
                                     (enemies_team lt s)) as Hspec.
  assert (Hmem : forall t,
             In t (snd (evaluateSnapshot s d)) -> trigger t = WIN_CONDITION ->
             checkWinCondition d (enemiesOf lt s) (junglerOf (enemiesOf lt s))
             = Some win_call /\ t = win_call).
  { intros t Ht Hw. rewrite Heq in Ht.
    apply in_app_or in Ht. destruct Ht as [Ht|Ht].
    { exfalso. apply (Hother t); [apply in_or_app; now left|exact Hw]. }
    apply in_app_or in Ht. destruct Ht as [Ht|Ht].
    2:{ exfalso. apply (Hother t); [apply in_or_app; now right|exact Hw]. }
    destruct (checkWinCondition_cases d (enemiesOf lt s) (junglerOf (enemiesOf lt s)))
      as [Hn|Hs]; rewrite ?Hn, ?Hs in Ht; simpl in Ht; [contradiction|].
    destruct Ht as [<-|[]]. split; [exact Hs|reflexivity]. }
  split.
  - split.
    + intros (t & Ht & Hw). apply Hspec. now destruct (Hmem t Ht Hw).
    + intros Hwin. apply Hspec in Hwin. exists win_call. split; [|reflexivity].
      rewrite Heq, Hwin. apply in_or_app. right. apply in_or_app. left. now left.
  - intros t Ht Hw. destruct (Hmem t Ht Hw) as [_ ->]. repeat split.
Qed.

Lemma win_condition_witness :
  (exists t, In t (snd (evaluateSnapshot late_snapshot late_detector))
             /\ trigger t = WIN_CONDITION)
  <-> winCondition late_detector CHAOS (enemiesOf ORDER late_snapshot).
Proof.
  apply (win_condition_trigger late_detector late_snapshot ORDER).
  - discriminate.
  - discriminate.
  - reflexivity.
  - reflexivity.
Defined.

(** The scenario of the specification: push-time 32 s against a minimum
    respawn of 35 s. *)
Example late_game_call :
  map trigger (snd (evaluateSnapshot late_snapshot late_detector))
  = [BARON_WINDOW; WIN_CONDITION; BARON_BAIT; DEATH_TIMER_LONG]
  /\ pushTime late_detector CHAOS = 32%Q.
Proof. split; reflexivity. Qed.

End TriggerFacts.

(* ===================================================================== *)
(** * Properties of the live advisor's dispatch policy *)
(* ===================================================================== *)

Module MacroFacts.
Import LiveClient Triggers Macro.

(** What a handler can do: nothing, or one dispatch stamped with the
    second clock reading, which becomes [#lastAdviceTime]. *)
Definition quiet (a : Agent) (r : Agent * list dispatch) : Prop :=
  snd r = [] /\ lastAdviceTime (fst r) = lastAdviceTime a.

Definition one_dispatch (now' : Z) (r : Agent * list dispatch) : Prop :=
  exists d, snd r = [d] /\ dispatch_time d = now' /\ lastAdviceTime (fst r) = now'.

Lemma emitLocalCall_one now' t a : one_dispatch now' (emitLocalCall now' t a).
Proof. unfold emitLocalCall. eexists. repeat split. Qed.

Lemma maybeInvokeClaude_cases now' ts a :
  quiet a (maybeInvokeClaude now' ts a) \/ one_dispatch now' (maybeInvokeClaude now' ts a).
Proof.
  unfold maybeInvokeClaude. destruct (invoking a); [left; split; reflexivity|].
  destruct (latestSnapshot a); [|left; split; reflexivity].
  right. eexists. repeat split.
Qed.

Lemma handleSnapshot_cases now now' s a :
  quiet a (handleSnapshot now now' s a)
  \/ (MIN_ADVICE_INTERVAL <= now - lastAdviceTime a
      /\ one_dispatch now' (handleSnapshot now now' s a)).
Proof.
  unfold handleSnapshot.
  destruct (allPlayers s) as [|p ps]; [left; split; reflexivity|].
  destruct (activePlayer s) as [ap|]; [|left; split; reflexivity].
  cbn [triggerDetector].
  destruct (evaluateSnapshot s (triggerDetector a)) as [d triggers].
  destruct triggers as [|t0 ts]; [left; split; reflexivity|].
  cbn [set_detector lastAdviceTime].
  destruct (Z.ltb_spec (now - lastAdviceTime a) MIN_ADVICE_INTERVAL) as [Hlt|Hge];
    [left; split; reflexivity|].
  destruct (sort (t0 :: ts)) as [|top rest]; [left; split; reflexivity|].
  destruct (truthy_call (localCall top)).
  { right. split; [exact Hge|]. apply emitLocalCall_one. }
  destruct (claudeWorthy top); [|left; split; reflexivity].
  match goal with
  | |- context [maybeInvokeClaude now' ?l ?b] =>
      destruct (maybeInvokeClaude_cases now' l b) as [Hq|Ho]
  end.
  - left. exact Hq.
  - right. split; [exact Hge|exact Ho].
Qed.

Lemma handleNewEvents_cases now now' es a :
  quiet a (handleNewEvents now now' es a)
  \/ (MIN_ADVICE_INTERVAL <= now - lastAdviceTime a
      /\ one_dispatch now' (handleNewEvents now now' es a)).
Proof.
  unfold handleNewEvents.
  destruct (evaluateEvents es (triggerDetector a)) as [d triggers].
  destruct triggers as [|t0 ts]; [left; split; reflexivity|].
  cbn [lastAdviceTime].
  destruct (Z.ltb_spec (now - lastAdviceTime a) MIN_ADVICE_INTERVAL) as [Hlt|Hge];
    [left; split; reflexivity|].
  destruct (List.filter claudeWorthy (t0 :: ts)) as [|w ws]; [left; split; reflexivity|].
  match goal with
  | |- context [maybeInvokeClaude now' ?l ?b] =>
      destruct (maybeInvokeClaude_cases now' l b) as [Hq|Ho]
  end.
  - left. exact Hq.
  - right. split; [exact Hge|exact Ho].
Qed.

(** During the cooldown a handler dispatches nothing and leaves the
    cooldown clock and the in-flight flag alone. *)
Lemma cooldown_drops_snapshot now now' s a :
  now - lastAdviceTime a < MIN_ADVICE_INTERVAL ->
  snd (handleSnapshot now now' s a) = []
  /\ lastAdviceTime (fst (handleSnapshot now now' s a)) = lastAdviceTime a
  /\ invoking (fst (handleSnapshot now now' s a)) = invoking a.
Proof.
  intros Hlt. unfold handleSnapshot.
  destruct (allPlayers s) as [|p ps]; [repeat split|].
  destruct (activePlayer s) as [ap|]; [|repeat split].
  cbn [triggerDetector].
  destruct (evaluateSnapshot s (triggerDetector a)) as [d triggers].
  destruct triggers as [|t0 ts]; [repeat split|].
  cbn [set_detector lastAdviceTime].
  apply Z.ltb_lt in Hlt. rewrite Hlt. repeat split.
Qed.

Lemma cooldown_drops_events now now' es a :
  now - lastAdviceTime a < MIN_ADVICE_INTERVAL ->
  snd (handleNewEvents now now' es a) = []
  /\ lastAdviceTime (fst (handleNewEvents now now' es a)) = lastAdviceTime a
  /\ invoking (fst (handleNewEvents now now' es a)) = invoking a.
Proof.
  intros Hlt. unfold handleNewEvents.
  destruct (evaluateEvents es (triggerDetector a)) as [d triggers].
  destruct triggers as [|t0 ts]; [repeat split|].
  cbn [lastAdviceTime].
  apply Z.ltb_lt in Hlt. rewrite Hlt. repeat split.
Qed.

Lemma last_default (x : Z) (l : list Z) (d d' : Z) :
  List.last (x :: l) d = List.last (x :: l) d'.
Proof.
  revert x. induction l as [|y l IH]; intros x; [reflexivity|].
  change (List.last (y :: l) d = List.last (y :: l) d'). apply IH.
Qed.

Lemma run_spaced (ins : list input) (a : Agent) (clock : Z) :
  lastAdviceTime a <= clock -> chronological clock ins ->
  spaced (snd (run ins a))
  /\ Forall (fun d => lastAdviceTime a + MIN_ADVICE_INTERVAL <= dispatch_time d)
            (snd (run ins a))
  /\ lastAdviceTime (fst (run ins a))
     = List.last (map dispatch_time (snd (run ins a))) (lastAdviceTime a).
Proof.
  revert a clock. induction ins as [|i ins IH]; intros a clock Hle Hch.
  { simpl. repeat split; constructor. }
  assert (Hstep :
    forall now now' (r : Agent * list dispatch),
      clock <= now -> now <= now' -> chronological now' ins ->
      quiet a r \/ (MIN_ADVICE_INTERVAL <= now - lastAdviceTime a /\ one_dispatch now' r) ->
      let out := (snd r ++ snd (run ins (fst r)))%list in
      spaced out
      /\ Forall (fun d => lastAdviceTime a + MIN_ADVICE_INTERVAL <= dispatch_time d) out
      /\ lastAdviceTime (fst (run ins (fst r)))
         = List.last (map dispatch_time out) (lastAdviceTime a)).
  { intros now now' r H1 H2 H3 [[Hq1 Hq2]|[Hge (d & Hd1 & Hd2 & Hd3)]] out; subst out.
    - destruct (IH (fst r) now') as (Ha & Hb & Hc); [lia|exact H3|].
      rewrite Hq1. simpl. rewrite Hq2 in Hb, Hc. repeat split; assumption.
    - destruct (IH (fst r) now') as (Ha & Hb & Hc); [lia|exact H3|].
      rewrite Hd1. simpl. rewrite Hd3 in Hb, Hc. repeat split.
      + constructor; [|exact Ha].
        eapply List.Forall_impl; [|exact Hb]. simpl. intros d2 Hd. lia.
      + constructor; [lia|].
        eapply List.Forall_impl; [|exact Hb]. simpl. intros d2 Hd. lia.
      + rewrite Hc. destruct (map dispatch_time (snd (run ins (fst r)))) as [|x l];
          [symmetry; exact Hd2|].
        change (List.last (x :: l) now' = List.last (x :: l) (lastAdviceTime a)).
        apply last_default. }
  destruct i as [now now' s|now now' es|]; simpl in Hch.
  - destruct Hch as (H1 & H2 & H3).
    specialize (Hstep now now' (handleSnapshot now now' s a) H1 H2 H3
                      (handleSnapshot_cases now now' s a)).
    revert Hstep. simpl. destruct (handleSnapshot now now' s a) as [a1 out1].
    simpl. destruct (run ins a1) as [a2 out2]. exact (fun H => H).
  - destruct Hch as (H1 & H2 & H3).
    specialize (Hstep now now' (handleNewEvents now now' es a) H1 H2 H3
                      (handleNewEvents_cases now now' es a)).
    revert Hstep. simpl. destruct (handleNewEvents now now' es a) as [a1 out1].
    simpl. destruct (run ins a1) as [a2 out2]. exact (fun H => H).
  - simpl. destruct (IH (invokeSettled a) clock Hle Hch) as (Ha & Hb & Hc).
    destruct (run ins (invokeSettled a)) as [a2 out2]. repeat split; assumption.
Qed.

(** C1, amended.  The advice cooldown of one activation.  A dispatch
    is a local call sent to the overlay by [#emitLocalCall] or a
    hand-over of triggers to the LLM by [#maybeInvokeClaude].  Along
    any run of one advisor instance (the orchestrator builds a new one
    at each activation, and [onActivate] sets the cooldown clock to 0)
    whose clock readings are in order from the cooldown clock on, any
    two dispatches are at least 60 000 ms apart, and the cooldown clock
    is the time of the last dispatch.  Whenever a snapshot or an event
    batch is handled within 60 000 ms of the cooldown clock, whatever
    triggers the evaluation produced, nothing is dispatched and the
    cooldown clock stays.  (The calls the LLM itself sends through
    [emit_macro_call] are not dispatches in this sense.) *)
Theorem advice_cooldown (a : Agent) (ins : list input) :
  chronological (lastAdviceTime a) ins ->
  spaced (snd (run ins a))
  /\ Forall (fun d => lastAdviceTime a + MIN_ADVICE_INTERVAL <= dispatch_time d)
            (snd (run ins a))
  /\ lastAdviceTime (fst (run ins a))
     = List.last (map dispatch_time (snd (run ins a))) (lastAdviceTime a)
  /\ (forall now now' s,
        now - lastAdviceTime (fst (run ins a)) < MIN_ADVICE_INTERVAL ->
        snd (handleSnapshot now now' s (fst (run ins a))) = []
        /\ lastAdviceTime (fst (handleSnapshot now now' s (fst (run ins a))))
           = lastAdviceTime (fst (run ins a)))
  /\ (forall now now' es,
        now - lastAdviceTime (fst (run ins a)) < MIN_ADVICE_INTERVAL ->
        snd (handleNewEvents now now' es (fst (run ins a))) = []
        /\ lastAdviceTime (fst (handleNewEvents now now' es (fst (run ins a))))
           = lastAdviceTime (fst (run ins a))).
Proof.
  intros Hch.
  destruct (run_spaced ins a (lastAdviceTime a) (Z.le_refl _) Hch) as (H1 & H2 & H3).
  split; [exact H1|]. split; [exact H2|]. split; [exact H3|]. split.
  - intros now now' s Hlt.
    destruct (cooldown_drops_snapshot now now' s _ Hlt) as (Ha & Hb & _). now split.
  - intros now now' es Hlt.
    destruct (cooldown_drops_events now now' es _ Hlt) as (Ha & Hb & _). now split.
Qed.

Lemma advice_cooldown_witness :
  map dispatch_time
      (snd (run throw_then_ace (onActivate (mkAgent fresh None [] 5 true 7))))
  = [T0; T0 + 70001; T0 + 131002]
  /\ spaced (snd (run throw_then_ace (onActivate (mkAgent fresh None [] 5 true 7)))).
Proof.
  split; [reflexivity|].
  apply (advice_cooldown (onActivate (mkAgent fresh None [] 5 true 7)) throw_then_ace).
  simpl. unfold T0. lia.
Defined.

End MacroFacts.

(* ===================================================================== *)
(** * Properties of the advisor handover *)
(* ===================================================================== *)

Module OrchestratorFacts.
Import Phase Orchestrator.

Definition begins_activate (o : obs) : bool :=
  match o with HookBegin _ OnActivate => true | _ => false end.

Definition of_deactivate (o : obs) : bool :=
  match o with
  | HookBegin _ OnDeactivate | HookEnd _ OnDeactivate
  | HookSuspended _ OnDeactivate => true
  | _ => false
  end.

Lemma createAgent_sync_stop (agentId : string) (c : AgentClass) :
  createAgent agentId = Some c -> onDeactivateAwaits c = false.
Proof.
  unfold createAgent.
  destruct (String.eqb agentId "drafting-oracle"); [intros [= <-]; reflexivity|].
  destruct (String.eqb agentId "macro-strategist"); [intros [= <-]; reflexivity|].
  destruct (String.eqb agentId "tilt-guard"); [intros [= <-]; reflexivity|].
  discriminate.
Qed.

Lemma mapGet_In (m : list (string * Instance)) (k : string) (v : Instance) :
  mapGet m k = Some v -> In (k, v) m.
Proof.
  induction m as [|[k' v'] m IH]; simpl; [discriminate|].
  destruct (String.eqb_spec k' k) as [->|Hne].
  - intros [= ->]. now left.
  - intros H. right. now apply IH.
Qed.

Lemma well_formed_lookup (st : State) (agentId : string) (inst : Instance) :
  well_formed st -> mapGet (activeAgents st) agentId = Some inst ->
  createAgent agentId = Some (class inst).
Proof.
  unfold well_formed. rewrite List.Forall_forall. intros Hwf Hget.
  exact (Hwf _ (mapGet_In _ _ _ Hget)).
Qed.

Lemma mapSet_Forall (P : string * Instance -> Prop) m k v :
  Forall P m -> P (k, v) -> Forall P (mapSet m k v).
Proof.
  induction m as [|[k' v'] m IH]; intros Hm Hv; simpl.
  - constructor; [exact Hv|constructor].
  - inversion Hm; subst. destruct (String.eqb k' k); constructor; auto.
Qed.

Lemma mapDelete_Forall (P : string * Instance -> Prop) m k :
  Forall P m -> Forall P (mapDelete m k).
Proof.
  unfold mapDelete. rewrite !List.Forall_forall. intros H x Hx.
  apply filter_In in Hx. apply H, Hx.
Qed.

(** The synchronous part of [#deactivateAgent]: nothing, or the whole
    body of the outgoing advisor's [onDeactivate]. *)
Lemma deactivateAgent_out (agentId : string) (st : State) :
  well_formed st ->
  well_formed (fst (deactivateAgent agentId st))
  /\ (snd (deactivateAgent agentId st) = []
      \/ snd (deactivateAgent agentId st)
         = [HookBegin agentId OnDeactivate; HookEnd agentId OnDeactivate])
  /\ (forall inst, mapGet (activeAgents st) agentId = Some inst -> active inst = true ->
      snd (deactivateAgent agentId st)
      = [HookBegin agentId OnDeactivate; HookEnd agentId OnDeactivate]).
Proof.
  intros Hwf. unfold deactivateAgent.
  destruct (mapGet (activeAgents st) agentId) as [agent|] eqn:Hget.
  2:{ split; [exact Hwf|]. split; [now left|discriminate]. }
  pose proof (well_formed_lookup _ _ _ Hwf Hget) as Hc.
  pose proof (createAgent_sync_stop _ _ Hc) as Hsync.
  destruct (active agent) eqn:Hact.
  - unfold callHook. cbn [awaits]. rewrite Hsync. cbn [fst snd].
    split; [|split; [now right|reflexivity]].
    unfold well_formed in *. cbn [activeAgents].
    apply mapSet_Forall; [exact Hwf|exact Hc].
  - cbn [fst snd]. split; [exact Hwf|]. split; [now left|].
    intros inst [= <-] H. congruence.
Qed.

(** The synchronous part of [#activateAgent]: nothing, or the
    publication followed by the start of the incoming advisor's
    [onActivate]. *)
Lemma activateAgent_out (agentId : string) (st : State) :
  well_formed st ->
  well_formed (fst (activateAgent agentId st))
  /\ (snd (activateAgent agentId st) = []
      \/ exists o, snd (activateAgent agentId st)
                   = [Publish "agent:activated" agentId; HookBegin agentId OnActivate; o]
                   /\ begins_activate o = false /\ of_deactivate o = false).
Proof.
  intros Hwf. unfold activateAgent.
  destruct (mapGet (activeAgents st) agentId) as [agent|] eqn:Hget.
  { split; [exact Hwf|now left]. }
  destruct (bool_decide (settings st !! settingKey agentId = Some "false")).
  { split; [exact Hwf|now left]. }
  destruct (createAgent agentId) as [c|] eqn:Hc.
  2:{ split; [exact Hwf|now left]. }
  unfold callHook. destruct (awaits c OnActivate); cbn [fst snd].
  - split.
    + unfold well_formed in *. cbn [activeAgents].
      apply mapSet_Forall; [exact Hwf|exact Hc].
    + right. eexists. split; [reflexivity|]. split; reflexivity.
  - split.
    + unfold well_formed in *. cbn [activeAgents].
      apply mapSet_Forall; [exact Hwf|exact Hc].
    + right. eexists. split; [reflexivity|]. split; reflexivity.
Qed.

Lemma settle_out (rs : list reaction) (agents : list (string * Instance))
      (P : string * Instance -> Prop) :
  Forall P agents ->
  Forall P (fst (fst (settle rs agents)))
  /\ Forall (fun o => begins_activate o = false /\ of_deactivate o = false)
            (snd (settle rs agents)).
Proof.
  revert agents. induction rs as [|r rs IH]; intros agents Hag; simpl.
  - split; [exact Hag|constructor].
  - destruct r as [a h|a].
    + specialize (IH agents Hag).
      destruct (settle rs agents) as [[ag kept] out]. exact IH.
    + specialize (IH (mapDelete agents a) (mapDelete_Forall _ _ _ Hag)).
      destruct (settle rs (mapDelete agents a)) as [[ag kept] out].
      simpl in *. destruct IH as [H1 H2]. split; [exact H1|].
      constructor; [split; reflexivity|exact H2].
Qed.

Lemma flush_out (st : State) :
  well_formed st ->
  well_formed (fst (flush st))
  /\ Forall (fun o => begins_activate o = false /\ of_deactivate o = false)
            (snd (flush st)).
Proof.
  intros Hwf. unfold flush.
  pose proof (settle_out (reactions st) (activeAgents st) _ Hwf) as H.
  destruct (settle (reactions st) (activeAgents st)) as [[ag kept] out].
  exact H.
Qed.

Definition quiet (o : obs) : Prop :=
  begins_activate o = false /\ of_deactivate o = false.

Lemma quiet_map (f : string -> obs) (l : list string) :
  (forall x, quiet (f x)) -> Forall quiet (map f l).
Proof.
  intros H. apply List.Forall_forall. intros o Ho.
  apply in_map_iff in Ho. destruct Ho as (x & <- & _). apply H.
Qed.

(** One transition, as observed: the tray, the outgoing advisor's
    [onDeactivate] from start to end, the overlays hidden, the incoming
    advisor's [onActivate] started, and a rest in which no hook of
    either kind starts. *)
Lemma transitionTurn_shape (from to : GamePhase) (st : State) :
  well_formed st ->
  exists d hides act rest,
    snd (transitionTurn from to st)
    = ([TrayStatus to] ++ d ++ hides ++ act ++ rest)%list
    /\ (d = []
        \/ exists b, PHASE_AGENT_MAP from = Some b
                     /\ d = [HookBegin b OnDeactivate; HookEnd b OnDeactivate])
    /\ Forall quiet hides
    /\ (act = []
        \/ exists a o, PHASE_AGENT_MAP to = Some a
                       /\ act = [Publish "agent:activated" a; HookBegin a OnActivate; o]
                       /\ quiet o)
    /\ Forall quiet rest
    /\ (forall b inst, PHASE_AGENT_MAP from = Some b ->
          mapGet (activeAgents st) b = Some inst -> active inst = true ->
          d = [HookBegin b OnDeactivate; HookEnd b OnDeactivate])
    /\ well_formed (fst (transitionTurn from to st)).
Proof.
  intros Hwf. unfold transitionTurn, onPhaseTransition.
  assert (Hd : exists st1 d,
             opt_call deactivateAgent (PHASE_AGENT_MAP from) st = (st1, d)
             /\ well_formed st1
             /\ (d = [] \/ exists b, PHASE_AGENT_MAP from = Some b
                   /\ d = [HookBegin b OnDeactivate; HookEnd b OnDeactivate])
             /\ (forall b inst, PHASE_AGENT_MAP from = Some b ->
                   mapGet (activeAgents st) b = Some inst -> active inst = true ->
                   d = [HookBegin b OnDeactivate; HookEnd b OnDeactivate])).
  { destruct (PHASE_AGENT_MAP from) as [b|]; cbn [opt_call].
    - destruct (deactivateAgent_out b st Hwf) as (H1 & H2 & H3).
      destruct (deactivateAgent b st) as [st1 d]. cbn [fst snd] in *.
      exists st1, d. split; [reflexivity|]. split; [exact H1|]. split.
      + destruct H2 as [->| ->]; [now left|right; eauto].
      + intros b' inst [= <-]. apply H3.
    - exists st, []. split; [reflexivity|]. split; [exact Hwf|].
      split; [now left|discriminate]. }
  destruct Hd as (st1 & d & -> & Hwf1 & Hd & Hlive).
  assert (Ha : exists st2 act,
             opt_call activateAgent (PHASE_AGENT_MAP to) st1 = (st2, act)
             /\ well_formed st2
             /\ (act = [] \/ exists a o, PHASE_AGENT_MAP to = Some a
                   /\ act = [Publish "agent:activated" a; HookBegin a OnActivate; o]
                   /\ quiet o)).
  { destruct (PHASE_AGENT_MAP to) as [a|]; cbn [opt_call].
    - destruct (activateAgent_out a st1 Hwf1) as (H1 & H2).
      destruct (activateAgent a st1) as [st2 act]. cbn [fst snd] in *.
      exists st2, act. split; [reflexivity|]. split; [exact H1|].
      destruct H2 as [->|(o & -> & Ho)]; [now left|].
      right. exists a, o. split; [reflexivity|]. split; [reflexivity|exact Ho].
    - exists st1, []. split; [reflexivity|]. split; [exact Hwf1|now left]. }
  destruct Ha as (st2 & act & -> & Hwf2 & Ha).
  destruct (flush_out st2 Hwf2) as (Hwf3 & Hq).
  destruct (flush st2) as [st3 o3]. cbn [fst snd] in *.
  exists d, (map OverlayHide (PHASE_OVERLAY_MAP from)), act,
    (map OverlayShow (PHASE_OVERLAY_MAP to)
       ++ [BroadcastPhase to; Publish "phase:changed" EmptyString] ++ o3)%list.
  split; [rewrite <- !app_assoc; reflexivity|].
  split; [exact Hd|].
  split; [apply quiet_map; intros x; split; reflexivity|].
  split; [exact Ha|].
  split.
  { apply Forall_app. split; [apply quiet_map; intros x; split; reflexivity|].
    constructor; [split; reflexivity|]. constructor; [split; reflexivity|exact Hq]. }
  split; [exact Hlive|exact Hwf3].
Qed.

Lemma quiet_no_begins (l : list obs) :
  Forall quiet l -> activation_begins l = [].
Proof.
  induction 1 as [|o l [Ho _] _ IH]; [reflexivity|].
  unfold activation_begins in *. simpl. rewrite IH.
  destruct o as [| a [|] | | | | | |]; try reflexivity. discriminate.
Qed.

Lemma quiet_not_begin (l : list obs) (a : string) :
  Forall quiet l -> ~ In (HookBegin a OnActivate) l.
Proof.
  rewrite List.Forall_forall. intros H Hin. destruct (H _ Hin) as [Hb _]. discriminate.
Qed.

Lemma quiet_not_deactivate (l : list obs) (o : obs) :
  Forall quiet l -> In o l -> of_deactivate o = false.
Proof. rewrite List.Forall_forall. intros H Hin. apply (H _ Hin). Qed.

(** A list with a single marked element splits at it in one way only. *)
Lemma split_unique (l1 l2 pre post : list obs) (x y : obs) :
  Forall (fun o => begins_activate o = false) l1 ->
  Forall (fun o => begins_activate o = false) l2 ->
  begins_activate y = true ->
  (l1 ++ x :: l2 = pre ++ y :: post)%list ->
  pre = l1 /\ y = x /\ post = l2.
Proof.
  revert pre. induction l1 as [|z l1 IH]; intros pre H1 H2 Hy Heq.
  - destruct pre as [|p pre]; simpl in Heq.
    + injection Heq as -> ->. auto.
    + injection Heq as _ ->. exfalso.
      rewrite List.Forall_forall in H2.
      specialize (H2 y (in_elt y pre post)). congruence.
  - inversion H1 as [|? ? Hz H1']; subst.
    destruct pre as [|p pre]; simpl in Heq.
    + injection Heq as -> _. congruence.
    + injection Heq as -> Heq.
      destruct (IH pre H1' H2 Hy Heq) as (-> & -> & ->). auto.
Qed.

(** C3. Advisor handover ordering.  On every phase transition, from a
    state whose live advisors are those the orchestrator creates: at
    most one advisor's [onActivate] starts, and it is the advisor of the
    new phase; only the advisor of the old phase has its [onDeactivate]
    run, and it does run when that advisor is live and active; wherever
    an [onActivate] starts, every [onDeactivate] that runs in the
    transition has started and run to its end before, and nothing of an
    [onDeactivate] is observed afterwards. *)
Theorem advisor_handover_order (from to : GamePhase) (st : State) :
  well_formed st ->
  (List.length (activation_begins (snd (transitionTurn from to st))) <= 1)%nat
  /\ (forall a, In (HookBegin a OnActivate) (snd (transitionTurn from to st)) ->
        PHASE_AGENT_MAP to = Some a)
  /\ (forall b, In (HookBegin b OnDeactivate) (snd (transitionTurn from to st)) ->
        PHASE_AGENT_MAP from = Some b)
  /\ (forall b inst, PHASE_AGENT_MAP from = Some b ->
        mapGet (activeAgents st) b = Some inst -> active inst = true ->
        In (HookBegin b OnDeactivate) (snd (transitionTurn from to st)))
  /\ (forall pre a post,
        snd (transitionTurn from to st) = (pre ++ HookBegin a OnActivate :: post)%list ->
        (forall b, In (HookBegin b OnDeactivate) (snd (transitionTurn from to st)) ->
           exists p1 p2,
             pre = (p1 ++ HookBegin b OnDeactivate :: HookEnd b OnDeactivate :: p2)%list)
        /\ (forall b, ~ In (HookBegin b OnDeactivate) post
                      /\ ~ In (HookSuspended b OnDeactivate) post
                      /\ ~ In (HookEnd b OnDeactivate) post)).
Proof.
  intros Hwf.
  destruct (transitionTurn_shape from to st Hwf)
    as (d & hides & act & rest & -> & Hd & Hh & Ha & Hr & Hlive & _).
  assert (Hdq : Forall (fun o => begins_activate o = false) d).
  { destruct Hd as [->|(b & _ & ->)]; repeat constructor. }
  assert (Hin_d : forall o, of_deactivate o = true ->
             In o ([TrayStatus to] ++ d ++ hides ++ act ++ rest)%list -> In o d).
  { intros o Ho Hin. rewrite !in_app_iff in Hin.
    destruct Hin as [[<-|[]]|[Hin|[Hin|[Hin|Hin]]]].
    - discriminate.
    - exact Hin.
    - rewrite (quiet_not_deactivate _ _ Hh Hin) in Ho. discriminate.
    - destruct Ha as [->|(a & o' & _ & -> & Ho')]; [destruct Hin|].
      destruct Hin as [<-|[<-|[<-|[]]]]; try discriminate.
      destruct Ho' as [_ Ho']. congruence.
    - rewrite (quiet_not_deactivate _ _ Hr Hin) in Ho. discriminate. }
  assert (Hbegin : forall b, In (HookBegin b OnDeactivate)
                               ([TrayStatus to] ++ d ++ hides ++ act ++ rest)%list ->
                     PHASE_AGENT_MAP from = Some b
                     /\ d = [HookBegin b OnDeactivate; HookEnd b OnDeactivate]).
  { intros b Hin. apply (Hin_d (HookBegin b OnDeactivate) eq_refl) in Hin.
    destruct Hd as [->|(b' & Hb' & ->)]; [destruct Hin|].
    destruct Hin as [[= <-]|[[=]|[]]]. auto. }
  assert (Hhq : Forall (fun o => begins_activate o = false) hides).
  { eapply List.Forall_impl; [|exact Hh]. intros o [H _]. exact H. }
  assert (Hrq : Forall (fun o => begins_activate o = false) rest).
  { eapply List.Forall_impl; [|exact Hr]. intros o [H _]. exact H. }
  split; [|split; [|split; [|split]]].
  - unfold activation_begins. rewrite !flat_map_app.
    fold (activation_begins d) (activation_begins hides)
         (activation_begins act) (activation_begins rest).
    rewrite (quiet_no_begins _ Hh), (quiet_no_begins _ Hr).
    assert (activation_begins d = []) as ->.
    { destruct Hd as [->|(b & _ & ->)]; reflexivity. }
    destruct Ha as [->|(a & o & _ & -> & [Ho _])]; [simpl; lia|].
    unfold activation_begins. simpl.
    destruct o as [| a' [|] | | | | | |]; try discriminate; simpl; lia.
  - intros a Hin. rewrite !in_app_iff in Hin.
    destruct Hin as [[[=]|[]]|[Hin|[Hin|[Hin|Hin]]]].
    + rewrite List.Forall_forall in Hdq. specialize (Hdq _ Hin). discriminate.
    + elim (quiet_not_begin _ _ Hh Hin).
    + destruct Ha as [->|(a' & o & Hto & -> & [Ho _])]; [destruct Hin|].
      destruct Hin as [[=]|[[= <-]|[Heq|[]]]]; [exact Hto|subst o; discriminate].
    + elim (quiet_not_begin _ _ Hr Hin).
  - intros b Hin. apply (Hbegin b Hin).
  - intros b inst Hb Hget Hact. rewrite (Hlive b inst Hb Hget Hact).
    rewrite !in_app_iff. right. left. now left.
  - intros pre a post Heq.
    destruct Ha as [->|(a' & o & Hto & -> & Ho)].
    { exfalso.
      assert (Hin : In (HookBegin a OnActivate)
                       ([TrayStatus to] ++ d ++ hides ++ [] ++ rest)%list)
        by (rewrite Heq; apply in_elt).
      rewrite !in_app_iff in Hin.
      destruct Hin as [[[=]|[]]|[Hin|[Hin|[[]|Hin]]]].
      - rewrite List.Forall_forall in Hdq. specialize (Hdq _ Hin). discriminate.
      - elim (quiet_not_begin _ _ Hh Hin).
      - elim (quiet_not_begin _ _ Hr Hin). }
    assert (Heq' : (([TrayStatus to] ++ d ++ hides ++ [Publish "agent:activated" a'])
                      ++ HookBegin a' OnActivate :: (o :: rest)
                    = pre ++ HookBegin a OnActivate :: post)%list).
    { rewrite <- Heq. rewrite <- !app_assoc. reflexivity. }
    apply split_unique in Heq'.
    + destruct Heq' as (-> & _ & ->). split.
      * intros b Hin. destruct (Hbegin b Hin) as [_ ->].
        exists [TrayStatus to], (hides ++ [Publish "agent:activated" a'])%list.
        reflexivity.
      * assert (Hq : Forall quiet (o :: rest)) by (constructor; assumption).
        intros b. repeat split; intros Hin;
          pose proof (quiet_not_deactivate _ _ Hq Hin) as Hf; discriminate.
    + repeat (apply Forall_app; split); try assumption; repeat constructor.
    + constructor; [apply Ho|exact Hrq].
    + reflexivity.
Qed.

Lemma advisor_handover_witness :
  snd (transitionTurn IN_GAME POST_GAME in_game)
  = [ TrayStatus POST_GAME;
      HookBegin "macro-strategist" OnDeactivate;
      HookEnd "macro-strategist" OnDeactivate;
      OverlayHide "macro";
      Publish "agent:activated" "tilt-guard";
      HookBegin "tilt-guard" OnActivate;
      HookSuspended "tilt-guard" OnActivate;
      OverlayShow "tilt";
      BroadcastPhase POST_GAME;
      Publish "phase:changed" EmptyString;
      Publish "agent:deactivated" "macro-strategist" ]
  /\ (List.length (activation_begins (snd (transitionTurn IN_GAME POST_GAME in_game)))
      <= 1)%nat.
Proof.
  split; [vm_compute; reflexivity|].
  apply (advisor_handover_order IN_GAME POST_GAME in_game).
  unfold well_formed. simpl. repeat constructor.
Defined.

(** The hypothesis of the handover property holds along every run of
    the orchestrator. *)
Lemma well_formed_initial (s : gmap string string) : well_formed (initial s).
Proof. constructor. Qed.

Lemma well_formed_turn (from to : GamePhase) (st : State) :
  well_formed st -> well_formed (fst (transitionTurn from to st)).
Proof.
  intros Hwf.
  destruct (transitionTurn_shape from to st Hwf) as (? & ? & ? & ? & _ & _ & _ & _ & _ & _ & H).
  exact H.
Qed.

Lemma well_formed_phaseChanged (to : GamePhase) (st : State) :
  well_formed st -> well_formed (fst (phaseChanged to st)).
Proof.
  intros Hwf. unfold phaseChanged.
  destruct (transition to (machine st)) as [[r m] eff].
  destruct (List.filter _ eff) as [|[| |from to'] l]; try exact Hwf.
  apply well_formed_turn. exact Hwf.
Qed.

End OrchestratorFacts.

(* ===================================================================== *)
(** * More on the request queue: throttle, rest and retries *)
(* ===================================================================== *)

Module QueueFacts.
Import RateLimit Scheduler SchedulerFacts.

(** The coroutine is suspended inside [#requestWithRetry] on attempt
    [a] of task [t], before the answer. *)
Definition in_flight (t : Task) (a : nat) (p : Pc) : Prop :=
  p = LimiterSleep t a \/ p = SpacingSleep t a
  \/ p = BucketSleep t a \/ p = AwaitHttp t a.

(** What a stretch of [#requestWithRetry] up to the answer can log. *)
Definition stage_obs (t : Task) (a : nat) (o : obs) : Prop :=
  match o with
  | Sleep _ => True
  | Http n b => n = ticket t /\ b = a
  | Settled n (Rejected ErrNoKey) => n = ticket t
  | _ => False
  end.

(** A stretch of [#requestWithRetry] leaves the queue alone. *)
Record Stage (t : Task) (a : nat) (st : State) (r : State * bool) : Prop := {
  stage_queue : queue (fst r) = queue st;
  stage_paused : paused (fst r) = paused st;
  stage_until : pauseUntil (fst r) = pauseUntil st;
  stage_window : windowTimestamps (fst r) = windowTimestamps st;
  stage_ticket : nextTicket (fst r) = nextTicket st;
  stage_trace : exists o, trace (fst r) = (trace st ++ o)%list /\ Forall (stage_obs t a) o;
  stage_pc : if snd r then pc (fst r) = pc st else in_flight t a (pc (fst r))
}.

Lemma Stage_limiter t a l st r : Stage t a (set_limiter l st) r -> Stage t a st r.
Proof. intros [H1 H2 H3 H4 H5 H6 H7]. st_unfold. now constructor. Qed.

Lemma fire_stage now t a st : Stage t a st (fire now t a st).
Proof.
  unfold fire. st_unfold. destruct (has_key (apiKey st)); constructor; st_unfold;
    try reflexivity.
  - eexists. split; [reflexivity|]. constructor; [split; reflexivity|constructor].
  - unfold in_flight. auto.
  - eexists. split; [reflexivity|]. constructor; [reflexivity|constructor].
Qed.

Lemma check_bucket_stage now t a st : Stage t a st (check_bucket now t a st).
Proof.
  unfold check_bucket.
  destruct (limCanRequest (appLimiter st) now) as [ok l]. destruct ok.
  - eapply Stage_limiter. apply fire_stage.
  - unfold limWaitTime. constructor; st_unfold; try reflexivity.
    + eexists. split; [reflexivity|]. constructor; [exact I|constructor].
    + unfold in_flight. auto.
Qed.

Lemma check_spacing_stage now t a st : Stage t a st (check_spacing now t a st).
Proof.
  unfold check_spacing. destruct (now - lastRequestTime st <? REQUEST_SPACING_MS).
  - constructor; st_unfold; try reflexivity.
    + eexists. split; [reflexivity|]. constructor; [exact I|constructor].
    + unfold in_flight. auto.
  - apply check_bucket_stage.
Qed.

Lemma requestWithRetry_stage now t a st : Stage t a st (requestWithRetry now t a st).
Proof.
  unfold requestWithRetry, limWaitTime.
  match goal with |- context [if ?c then _ else _] => destruct c end.
  - constructor; st_unfold; try reflexivity.
    + eexists. split; [reflexivity|]. constructor; [exact I|constructor].
    + unfold in_flight. auto.
  - eapply Stage_limiter. apply check_spacing_stage.
Qed.

(** What the answer to the request in flight can do. *)
Definition no_http (o : obs) : Prop :=
  match o with Http _ _ => False | _ => True end.

Record Answer (t : Task) (a : nat) (st : State) (r : State * bool) : Prop := {
  ans_window : windowTimestamps (fst r) = windowTimestamps st;
  ans_ticket : nextTicket (fst r) = nextTicket st;
  ans_queue :
    (queue (fst r) = queue st /\ paused (fst r) = paused st
     /\ pauseUntil (fst r) = pauseUntil st)
    \/ (queue (fst r) = [] /\ paused (fst r) = true /\ pauseUntil (fst r) = 0);
  ans_trace : exists o, trace (fst r) = (trace st ++ o)%list /\ Forall no_http o;
  ans_pc : if snd r then pc (fst r) = pc st
           else pc (fst r) = RetrySleep t a /\ (a < MAX_RETRIES)%nat
}.

Lemma on_response_answer now r t a st : Answer t a st (on_response now r t a st).
Proof.
  unfold on_response.
  destruct (limiter_updated r st) as (l & ->).
  destruct (statusCode r =? 200).
  { constructor; st_unfold; try reflexivity; [now left|].
    eexists. split; [reflexivity|]. repeat constructor. }
  destruct (statusCode r =? 429).
  { destruct (Js.truthy_num _) eqn:Ht; cbn [andb].
    - destruct (a <? MAX_RETRIES)%nat eqn:Ha.
      + constructor; st_unfold; try reflexivity; [now left| |].
        * eexists. split; [reflexivity|]. repeat constructor.
        * split; [reflexivity|]. now apply Nat.ltb_lt.
      + constructor; st_unfold; try reflexivity; [now left|].
        eexists. split; [reflexivity|]. repeat constructor.
    - constructor; st_unfold; try reflexivity; [now left|].
      eexists. split; [reflexivity|]. repeat constructor. }
  destruct (statusCode r =? 403).
  { st_unfold. destruct (keyExpired st).
    - constructor; st_unfold; try reflexivity; [now left|].
      eexists. split; [reflexivity|]. repeat constructor.
    - constructor; st_unfold; try reflexivity; [now right|].
      eexists. split; [rewrite <- !app_assoc; reflexivity|].
      apply Forall_app. split.
      + unfold cancel_all. apply List.Forall_forall. intros o Ho.
        apply in_map_iff in Ho. destruct Ho as (x & <- & _). exact I.
      + repeat constructor. }
  destruct (statusCode r =? 404).
  { constructor; st_unfold; try reflexivity; [now left|].
    eexists. split; [reflexivity|]. repeat constructor. }
  constructor; st_unfold; try reflexivity; [now left|].
  eexists. split; [reflexivity|]. repeat constructor.
Qed.

(** ** The soft throttle *)

(** [#windowTimestamps] never holds more than 80 entries. *)
Definition below_throttle (st : State) : Prop :=
  Z.of_nat (List.length (windowTimestamps st)) <= THROTTLE_NUM.

Lemma filter_length_le {A} (f : A -> bool) (l : list A) :
  (List.length (List.filter f l) <= List.length l)%nat.
Proof.
  induction l as [|x l IH]; simpl; [lia|]. destruct (f x); simpl; lia.
Qed.

Lemma drain_below fuel e now st :
  below_throttle st -> below_throttle (drain fuel e now st).
Proof.
  revert e st. induction fuel as [|fuel IH]; intros e st H; simpl; [exact H|].
  destruct e.
  - destruct (queue st) as [|t q]; [exact H|].
    destruct (paused st && (0 <? pauseUntil st)).
    + destruct (0 <? pauseUntil st - now); [exact H|]. apply IH. exact H.
    + apply IH. exact H.
  - destruct (paused st && (pauseUntil st =? 0)); [exact H|].
    assert (Hp : below_throttle (pruneWindow now st)).
    { unfold below_throttle in *. st_unfold.
      pose proof (filter_length_le (fun t => now - WINDOW_MS <? t) (windowTimestamps st)).
      lia. }
    match goal with |- context [if ?c then _ else _] => destruct c eqn:Hfull end.
    + apply IH. unfold below_throttle in *. st_unfold. exact Hp.
    + cbn [queue pruneWindow set_window].
      destruct (queue st) as [|t q]; [unfold below_throttle in *; st_unfold; exact Hp|].
      match goal with
      | |- context [requestWithRetry now t 0 ?s] =>
          pose proof (requestWithRetry_stage now t 0 s) as Hx;
          destruct (requestWithRetry now t 0 s) as [st' done]
      end.
      assert (Hd : below_throttle st').
      { pose proof (stage_window _ _ _ _ Hx) as Hw. cbn [fst] in Hw.
        unfold below_throttle in *. rewrite Hw.
        apply Z.leb_gt in Hfull. st_unfold. rewrite length_app. simpl. lia. }
      destruct done; [apply IH|]; exact Hd.
Qed.

Lemma continue_stage_below now t a st r :
  Stage t a st r -> below_throttle st -> below_throttle (continue now r).
Proof.
  intros Hs H. destruct r as [st' done]. unfold continue.
  assert (Hd : below_throttle st').
  { pose proof (stage_window _ _ _ _ Hs) as Hw. cbn [fst] in Hw.
    unfold below_throttle in *. now rewrite Hw. }
  destruct done; [apply drain_below|]; exact Hd.
Qed.

Lemma step_below now ev st : below_throttle st -> below_throttle (step now ev st).
Proof.
  intros H. unfold step.
  destruct ev as [host p| |r| |k].
  - unfold submit. st_unfold. destruct (keyExpired st); [exact H|].
    unfold enqueue. st_unfold.
    destruct (paused st && (pauseUntil st =? 0)); [exact H|].
    unfold running. st_unfold. destruct (pc st); try exact H.
    apply drain_below. exact H.
  - destruct (pc st) as [| |t a|t a|t a|t a|t a| |]; try exact H.
    + apply drain_below. exact H.
    + eapply continue_stage_below; [apply check_spacing_stage|exact H].
    + eapply continue_stage_below; [apply check_bucket_stage|exact H].
    + eapply continue_stage_below; [apply fire_stage|exact H].
    + eapply continue_stage_below; [apply requestWithRetry_stage|exact H].
  - destruct (pc st) as [| |t a|t a|t a|t a|t a| |]; try exact H.
    pose proof (on_response_answer now r t a st) as Ha.
    destruct (on_response now r t a st) as [st' done]. unfold continue.
    assert (Hd : below_throttle st').
    { pose proof (ans_window _ _ _ _ Ha) as Hw. cbn [fst] in Hw.
      unfold below_throttle in *. now rewrite Hw. }
    destruct done; [apply drain_below|]; exact Hd.
  - destruct (pc st) as [| |t a|t a|t a|t a|t a| |]; try exact H.
    unfold continue. apply drain_below. exact H.
  - unfold reloadKey. destruct (has_key k); exact H.
Qed.

Lemma run_below evs st : below_throttle st -> below_throttle (run evs st).
Proof.
  revert st. induction evs as [|[now ev] evs IH]; intros st H; [exact H|].
  simpl. apply IH. now apply step_below.
Qed.

(** X2. The soft throttle bounds the usage of the two-minute window:
    at every moment of every run of the client, [#windowTimestamps]
    holds at most 80 entries, so the [windowUsage] getter never
    returns more than 80, whenever it is read. *)
Theorem window_usage_bounded (k : option string) (evs : list (Z * event)) (now : Z) :
  Z.of_nat (List.length (windowTimestamps (run evs (init k)))) <= THROTTLE_NUM
  /\ windowUsage now (run evs (init k)) <= THROTTLE_NUM.
Proof.
  assert (H : below_throttle (run evs (init k))).
  { apply run_below. unfold below_throttle, THROTTLE_NUM. simpl. lia. }
  split; [exact H|].
  unfold windowUsage, below_throttle in *. st_unfold.
  pose proof (filter_length_le (fun t => now - WINDOW_MS <? t)
                               (windowTimestamps (run evs (init k)))).
  lia.
Qed.

(** ** The loop comes to rest *)

(** Where the client stands between two turns: the coroutine is never
    lost, it is idle only with an empty queue, it sleeps on the
    throttle only with a task waiting, and an indefinite pause goes
    with an empty queue. *)
Record Rest (st : State) : Prop := {
  rest_alive : pc st <> Crashed /\ pc st <> Hung;
  rest_idle : pc st = Idle -> queue st = [];
  rest_sleep : pc st = ThrottleSleep -> queue st <> [];
  rest_pause : paused st = true -> pauseUntil st = 0 -> queue st = [];
  rest_until : 0 <= pauseUntil st
}.

Lemma in_flight_rest t a st :
  in_flight t a (pc st) ->
  (paused st = true -> pauseUntil st = 0 -> queue st = []) ->
  0 <= pauseUntil st -> Rest st.
Proof.
  intros Hpc H4 H5.
  constructor; try assumption;
    destruct Hpc as [Hp|[Hp|[Hp|Hp]]]; rewrite Hp;
    try split; discriminate.
Qed.

Lemma drain_rest fuel e now st :
  0 <= now ->
  (paused st = true -> pauseUntil st = 0 -> queue st = []) ->
  0 <= pauseUntil st ->
  match e with
  | AtWhile => (2 * List.length (queue st) + 1 <= fuel)%nat
  | AfterThrottle => queue st <> [] /\ (2 * List.length (queue st) <= fuel)%nat
  end ->
  Rest (drain fuel e now st).
Proof.
  intros Hnow. revert e st.
  induction fuel as [|fuel IH]; intros e st H4 H5 Hf.
  { destruct e; [lia|]. destruct Hf as [Hq Hf].
    destruct (queue st); [congruence|simpl in Hf; lia]. }
  simpl. destruct e.
  - destruct (queue st) as [|t q] eqn:Hq.
    { constructor; st_unfold; try assumption;
        [split; discriminate|intros _; exact Hq|discriminate|now rewrite Hq]. }
    destruct (paused st) eqn:Hp; cbn [andb].
    + destruct (0 <? pauseUntil st) eqn:Hu.
      * destruct (0 <? pauseUntil st - now) eqn:Hr.
        -- apply Z.ltb_lt in Hu.
           constructor; st_unfold; try assumption;
             [split; discriminate|discriminate|rewrite Hq; discriminate|lia].
        -- apply IH; st_unfold; [discriminate|lia|].
           rewrite Hq. split; [discriminate|simpl in *; lia].
      * apply IH; [rewrite Hp, Hq; exact H4|exact H5|].
        rewrite Hq. split; [discriminate|simpl in *; lia].
    + apply IH; [rewrite Hp, Hq; exact H4|exact H5|].
      rewrite Hq. split; [discriminate|simpl in *; lia].
  - destruct Hf as [Hq Hf].
    destruct (paused st && (pauseUntil st =? 0)) eqn:Hind.
    { apply andb_true_iff in Hind. destruct Hind as [Hp Hu]. apply Z.eqb_eq in Hu.
      elim Hq. now apply H4. }
    assert (Hfree : paused st = true -> pauseUntil st = 0 -> False).
    { intros Hp Hu. rewrite Hp, Hu in Hind. discriminate. }
    match goal with |- context [if ?c then _ else _] => destruct c eqn:Hfull end.
    + destruct fuel as [|fuel'].
      { destruct (queue st); [congruence|simpl in Hf; lia]. }
      simpl. st_unfold. destruct (queue st) as [|t q] eqn:Hq'; [congruence|].
      assert (Hpos : (0 <? now + PAUSE_DURATION_MS) = true)
        by (apply Z.ltb_lt; unfold PAUSE_DURATION_MS; lia).
      rewrite Hpos.
      assert (Hrem : (0 <? now + PAUSE_DURATION_MS - now) = true)
        by (apply Z.ltb_lt; unfold PAUSE_DURATION_MS; lia).
      rewrite Hrem.
      constructor; st_unfold;
        [split; discriminate|discriminate|rewrite Hq'; discriminate
        |unfold PAUSE_DURATION_MS; lia|unfold PAUSE_DURATION_MS; lia].
    + cbn [queue pruneWindow set_window].
      destruct (queue st) as [|t q] eqn:Hq'; [congruence|].
      match goal with
      | |- context [requestWithRetry now t 0 ?s] =>
          pose proof (requestWithRetry_stage now t 0 s) as Hx;
          destruct (requestWithRetry now t 0 s) as [st' done]
      end.
      destruct Hx as [X1 X2 X3 X4 X5 X6 X7]. st_unfold.
      assert (H4' : paused st' = true -> pauseUntil st' = 0 -> queue st' = []).
      { rewrite X2, X3. intros Hp Hu. elim (Hfree Hp Hu). }
      assert (H5' : 0 <= pauseUntil st') by now rewrite X3.
      destruct done.
      * apply IH; [exact H4'|exact H5'|]. rewrite X1. simpl in Hf. lia.
      * eapply in_flight_rest; eauto.
Qed.

Lemma continue_stage_rest now t a st r :
  0 <= now -> Stage t a st r -> Rest st -> Rest (continue now r).
Proof.
  intros Hnow [X1 X2 X3 X4 X5 X6 X7] [R1 R2 R3 R4 R5].
  destruct r as [st' done]. unfold continue. st_unfold.
  assert (H4' : paused st' = true -> pauseUntil st' = 0 -> queue st' = [])
    by (rewrite X1, X2, X3; exact R4).
  assert (H5' : 0 <= pauseUntil st') by now rewrite X3.
  destruct done.
  - apply drain_rest; try assumption. unfold drain_fuel. lia.
  - eapply in_flight_rest; eauto.
Qed.

Lemma step_rest now ev st : 0 <= now -> Rest st -> Rest (step now ev st).
Proof.
  intros Hnow HR. pose proof HR as [R1 R2 R3 R4 R5]. unfold step.
  destruct ev as [host p| |r| |k].
  - unfold submit. st_unfold. destruct (keyExpired st).
    { constructor; st_unfold; assumption. }
    unfold enqueue. st_unfold.
    destruct (paused st && (pauseUntil st =? 0)) eqn:Hind.
    { constructor; st_unfold; assumption. }
    assert (Hfree : paused st = true -> pauseUntil st = 0 -> False).
    { intros Hp Hu. rewrite Hp, Hu in Hind. discriminate. }
    unfold running. st_unfold.
    destruct (pc st) eqn:Hpc;
      try (constructor; st_unfold; rewrite ?Hpc;
           [split; discriminate|discriminate
           |intros _; destruct (queue st); discriminate
           |intros Hp Hu; elim (Hfree Hp Hu)|exact R5]).
    + apply drain_rest; st_unfold; try assumption.
      * intros Hp Hu. elim (Hfree Hp Hu).
      * unfold drain_fuel. st_unfold. lia.
    + destruct R1 as [R1 _]. congruence.
    + destruct R1 as [_ R1]. congruence.
  - destruct (pc st) as [| |t a|t a|t a|t a|t a| |] eqn:Hpc; try exact HR.
    + apply drain_rest; st_unfold; try assumption; [discriminate|lia|].
      split; [now apply R3|unfold drain_fuel; st_unfold; lia].
    + eapply continue_stage_rest; [exact Hnow|apply check_spacing_stage|exact HR].
    + eapply continue_stage_rest; [exact Hnow|apply check_bucket_stage|exact HR].
    + eapply continue_stage_rest; [exact Hnow|apply fire_stage|exact HR].
    + eapply continue_stage_rest; [exact Hnow|apply requestWithRetry_stage|exact HR].
  - destruct (pc st) as [| |t a|t a|t a|t a|t a| |] eqn:Hpc; try exact HR.
    pose proof (on_response_answer now r t a st) as [A1 A2 A3 A4 A5].
    destruct (on_response now r t a st) as [st' done]. unfold continue. st_unfold.
    assert (H4' : paused st' = true -> pauseUntil st' = 0 -> queue st' = []).
    { destruct A3 as [(Hq & Hp & Hu)|(Hq & _)]; [rewrite Hq, Hp, Hu; exact R4|].
      intros _ _. exact Hq. }
    assert (H5' : 0 <= pauseUntil st').
    { destruct A3 as [(_ & _ & Hu)|(_ & _ & Hu)]; rewrite Hu; [exact R5|lia]. }
    destruct done.
    + apply drain_rest; try assumption. unfold drain_fuel. lia.
    + destruct A5 as [Hp _].
      constructor; try assumption; rewrite Hp; try split; discriminate.
  - destruct (pc st) as [| |t a|t a|t a|t a|t a| |] eqn:Hpc; try exact HR.
    unfold continue. apply drain_rest; st_unfold; try assumption.
    unfold drain_fuel. st_unfold. lia.
  - unfold reloadKey. destruct (has_key k).
    + constructor; st_unfold; try assumption; [discriminate|lia].
    + constructor; st_unfold; assumption.
Qed.

Lemma run_rest evs st :
  Forall (fun ev => 0 <= fst ev) evs -> Rest st -> Rest (run evs st).
Proof.
  revert st. induction evs as [|[now ev] evs IH]; intros st Hc H; [exact H|].
  inversion Hc; subst. simpl. apply IH; [assumption|]. now apply step_rest.
Qed.

(** X3. The drain loop comes to rest.  With a clock that is not
    negative, at every moment of every run of the client: the loop has
    neither taken a task from an empty queue nor spun without
    suspending; whenever the loop is not running ([#running] false) the
    queue is empty, so no accepted task is left behind; and an
    indefinite pause goes with an empty queue. *)
Theorem drain_comes_to_rest (k : option string) (evs : list (Z * event)) :
  Forall (fun ev => 0 <= fst ev) evs ->
  pc (run evs (init k)) <> Crashed
  /\ pc (run evs (init k)) <> Hung
  /\ (running (run evs (init k)) = false -> queue (run evs (init k)) = [])
  /\ (paused (run evs (init k)) = true -> pauseUntil (run evs (init k)) = 0 ->
      queue (run evs (init k)) = []).
Proof.
  intros Hc.
  assert (H0 : Rest (init k)).
  { constructor; simpl.
    - split; discriminate.
    - reflexivity.
    - discriminate.
    - reflexivity.
    - lia. }
  destruct (run_rest evs (init k) Hc H0) as [[R1 R1'] R2 R3 R4 R5].
  split; [exact R1|]. split; [exact R1'|]. split; [|exact R4].
  unfold running. intros Hr. apply R2.
  destruct (pc (run evs (init k))); try discriminate. reflexivity.
Qed.

Lemma drain_comes_to_rest_witness :
  pc (run four_times_429 (init (Some "RGAPI-key"))) = Idle
  /\ queue (run four_times_429 (init (Some "RGAPI-key"))) = [].
Proof.
  split; [reflexivity|].
  assert (Hc : Forall (fun ev : Z * event => 0 <= fst ev) four_times_429).
  { unfold four_times_429. repeat (constructor; [unfold T0; simpl; lia|]). constructor. }
  destruct (drain_comes_to_rest (Some "RGAPI-key") four_times_429 Hc) as (_ & _ & H & _).
  apply H. reflexivity.
Defined.

(** ** Retries are bounded *)

Definition att_ok (o : obs) : Prop :=
  match o with Http _ a => (a <= MAX_RETRIES)%nat | _ => True end.

Definition pc_att (p : Pc) : Prop :=
  match p with
  | LimiterSleep _ a | SpacingSleep _ a | BucketSleep _ a | AwaitHttp _ a =>
      (a <= MAX_RETRIES)%nat
  | RetrySleep _ a => (a < MAX_RETRIES)%nat
  | _ => True
  end.

Definition Att (st : State) : Prop := Forall att_ok (trace st) /\ pc_att (pc st).

Lemma stage_att t a st r :
  (a <= MAX_RETRIES)%nat -> Stage t a st r -> Forall att_ok (trace st) ->
  Forall att_ok (trace (fst r)) /\ (snd r = false -> pc_att (pc (fst r))).
Proof.
  intros Ha [X1 X2 X3 X4 X5 (o & Ho & Hso) X7] H. split.
  - rewrite Ho. apply Forall_app. split; [exact H|].
    eapply List.Forall_impl; [|exact Hso]. intros x Hx.
    destruct x as [| |n b| | |n [|[]]]; simpl in *; try exact I; try contradiction.
    destruct Hx as [_ ->]. exact Ha.
  - intros Hd. rewrite Hd in X7. destruct X7 as [Hp|[Hp|[Hp|Hp]]]; rewrite Hp; exact Ha.
Qed.

Lemma drain_att fuel e now st :
  Forall att_ok (trace st) -> Att (drain fuel e now st).
Proof.
  revert e st. induction fuel as [|fuel IH]; intros e st H; simpl.
  { split; [exact H|exact I]. }
  destruct e.
  - destruct (queue st) as [|t q]; [split; [exact H|exact I]|].
    destruct (paused st && (0 <? pauseUntil st)).
    + destruct (0 <? pauseUntil st - now).
      * split; [|exact I]. st_unfold. apply Forall_app. split; [exact H|].
        repeat constructor.
      * apply IH. exact H.
    + apply IH. exact H.
  - destruct (paused st && (pauseUntil st =? 0)); [split; [exact H|exact I]|].
    match goal with |- context [if ?c then _ else _] => destruct c end.
    + apply IH. exact H.
    + cbn [queue pruneWindow set_window].
      destruct (queue st) as [|t q]; [split; [exact H|exact I]|].
      match goal with
      | |- context [requestWithRetry now t 0 ?s] =>
          pose proof (requestWithRetry_stage now t 0 s) as Hx;
          assert (Hs : Forall att_ok (trace s))
            by (st_unfold; apply Forall_app; split; [exact H|repeat constructor]);
          destruct (stage_att t 0 s _ ltac:(unfold MAX_RETRIES; lia) Hx Hs) as [Ht Hp];
          destruct (requestWithRetry now t 0 s) as [st' done]
      end.
      cbn [fst snd] in *. destruct done; [now apply IH|].
      split; [exact Ht|now apply Hp].
Qed.

Lemma continue_stage_att now t a st r :
  (a <= MAX_RETRIES)%nat -> Stage t a st r -> Forall att_ok (trace st) ->
  Att (continue now r).
Proof.
  intros Ha Hs H. destruct (stage_att t a st r Ha Hs H) as [Ht Hp].
  destruct r as [st' done]. unfold continue. cbn [fst snd] in *.
  destruct done; [now apply drain_att|]. split; [exact Ht|now apply Hp].
Qed.

Lemma step_att now ev st : Att st -> Att (step now ev st).
Proof.
  intros [H Hp]. unfold step.
  destruct ev as [host p| |r| |k].
  - unfold submit. st_unfold. destruct (keyExpired st).
    { split; st_unfold; [|exact Hp]. apply Forall_app. split; [exact H|repeat constructor]. }
    unfold enqueue. st_unfold.
    destruct (paused st && (pauseUntil st =? 0)).
    { split; st_unfold; [|exact Hp]. apply Forall_app. split; [exact H|repeat constructor]. }
    assert (H' : Forall att_ok (trace st ++ [Accepted (nextTicket st)]))
      by (apply Forall_app; split; [exact H|repeat constructor]).
    unfold running. st_unfold.
    destruct (pc st) eqn:Hpc;
      try (split; st_unfold; [exact H'|rewrite Hpc; exact Hp]).
    apply drain_att. st_unfold. exact H'.
  - destruct (pc st) as [| |t a|t a|t a|t a|t a| |] eqn:Hpc;
      try (split; [assumption|rewrite Hpc; assumption]).
    + apply drain_att. exact H.
    + eapply continue_stage_att; [exact Hp|apply check_spacing_stage|exact H].
    + eapply continue_stage_att; [exact Hp|apply check_bucket_stage|exact H].
    + eapply continue_stage_att; [exact Hp|apply fire_stage|exact H].
    + eapply continue_stage_att; [|apply requestWithRetry_stage|exact H].
      simpl in Hp. lia.
  - destruct (pc st) as [| |t a|t a|t a|t a|t a| |] eqn:Hpc;
      try (split; [assumption|rewrite Hpc; assumption]).
    pose proof (on_response_answer now r t a st) as [A1 A2 A3 (o & Ho & Hn) A5].
    destruct (on_response now r t a st) as [st' done]. unfold continue.
    cbn [fst snd] in *.
    assert (Ht : Forall att_ok (trace st')).
    { rewrite Ho. apply Forall_app. split; [exact H|].
      eapply List.Forall_impl; [|exact Hn]. intros x Hx.
      destruct x; simpl in *; try exact I. contradiction. }
    destruct done; [now apply drain_att|].
    split; [exact Ht|]. destruct A5 as [-> Ha]. exact Ha.
  - destruct (pc st) as [| |t a|t a|t a|t a|t a| |] eqn:Hpc;
      try (split; [assumption|rewrite Hpc; assumption]).
    unfold continue. apply drain_att. st_unfold.
    apply Forall_app. split; [exact H|repeat constructor].
  - unfold reloadKey. destruct (has_key k); split; st_unfold; assumption.
Qed.

Lemma run_att evs st : Att st -> Att (run evs st).
Proof.
  revert st. induction evs as [|[now ev] evs IH]; intros st H; [exact H|].
  simpl. apply IH. now apply step_att.
Qed.

Lemma https_in (st : State) (t a : nat) :
  In (t, a) (https st) -> In (Http t a) (trace st).
Proof.
  unfold https. induction (trace st) as [|o tr IH]; simpl; [tauto|].
  destruct o; simpl; try (intros H; right; now apply IH).
  intros [[= -> ->]|H]; [now left|right; now apply IH].
Qed.

(** X4. Retries are bounded: in every run of the client, every HTTP
    call is attempt number 0, 1, 2 or 3 of its task; the retry that
    follows a 429 never goes beyond [MAX_RETRIES]. *)
Theorem attempts_bounded (k : option string) (evs : list (Z * event)) :
  Forall (fun ta => (snd ta <= MAX_RETRIES)%nat) (https (run evs (init k))).
Proof.
  assert (H : Att (run evs (init k))).
  { apply run_att. split; [constructor|exact I]. }
  destruct H as [H _]. apply List.Forall_forall. intros [t a] Hin.
  apply https_in in Hin. rewrite List.Forall_forall in H. exact (H _ Hin).
Qed.

(** ** The soft throttle at work *)

Lemma after_throttle_dispatches fuel now st t q :
  queue st = t :: q -> paused st = false ->
  windowUsage now st < THROTTLE_NUM ->
  exists rest,
    trace (drain (S fuel) AfterThrottle now st)
    = (trace st ++ Dispatched (ticket t) :: rest)%list.
Proof.
  intros Hq Hp Hu. cbn [drain]. rewrite Hp. cbn [andb].
  unfold windowUsage in Hu. apply Z.leb_gt in Hu. rewrite Hu.
  cbn [queue pruneWindow set_window]. rewrite Hq.
  match goal with
  | |- context [requestWithRetry now t 0 ?s] =>
      pose proof (requestWithRetry_extends now t 0 s) as Hx;
      destruct (requestWithRetry now t 0 s) as [st' done]
  end.
  cbn [fst] in Hx. destruct Hx as (o & Ho). st_unfold.
  destruct done.
  - destruct (drain_extends fuel AtWhile now st') as (o' & Ho').
    exists (o ++ o')%list. rewrite Ho', Ho. rewrite <- !app_assoc. reflexivity.
  - exists o. rewrite Ho. rewrite <- !app_assoc. reflexivity.
Qed.

Lemma at_while_throttled fuel now st t q :
  0 <= now -> queue st = t :: q -> paused st = false ->
  THROTTLE_NUM <= windowUsage now st ->
  drain (S (S (S fuel))) AtWhile now st
  = set_pc ThrottleSleep
      (log [Sleep (Some PAUSE_DURATION_MS)]
         (set_pause true (now + PAUSE_DURATION_MS) (pruneWindow now st))).
Proof.
  intros Hnow Hq Hp Hu.
  change (drain (S (S (S fuel))) AtWhile now st)
    with (match queue st with
          | [] => set_pc Idle st
          | _ :: _ =>
              if paused st && (0 <? pauseUntil st) then
                let remaining := pauseUntil st - now in
                if 0 <? remaining
                then set_pc ThrottleSleep (log [Sleep (Some remaining)] st)
                else drain (S (S fuel)) AfterThrottle now (set_pause false 0 st)
              else drain (S (S fuel)) AfterThrottle now st
          end).
  rewrite Hq, Hp. cbn [andb].
  change (drain (S (S fuel)) AfterThrottle now st)
    with (if paused st && (pauseUntil st =? 0) then set_pc Idle st
          else
            if THROTTLE_NUM <=? Z.of_nat (List.length (windowTimestamps (pruneWindow now st)))
            then drain (S fuel) AtWhile now
                       (set_pause true (now + PAUSE_DURATION_MS) (pruneWindow now st))
            else
              match queue (pruneWindow now st) with
              | [] => set_pc Crashed (pruneWindow now st)
              | t :: rest =>
                  let st := set_queue rest (pruneWindow now st) in
                  let st := set_window (windowTimestamps st ++ [now]) st in
                  let st := log [Dispatched (ticket t)] st in
                  let (st, done) := requestWithRetry now t 0 st in
                  if done then drain (S fuel) AtWhile now st else st
              end).
  rewrite Hp. cbn [andb].
  unfold windowUsage in Hu. apply Z.leb_le in Hu. rewrite Hu.
  cbn [drain]. st_unfold. rewrite Hq. cbn [andb].
  assert (Hpos : (0 <? now + PAUSE_DURATION_MS) = true)
    by (apply Z.ltb_lt; unfold PAUSE_DURATION_MS; lia).
  rewrite Hpos.
  replace (now + PAUSE_DURATION_MS - now) with PAUSE_DURATION_MS by lia.
  reflexivity.
Qed.

(** Eighty requests, one a second, each answered 200 after 100 ms. *)
Definition eighty_requests : list (Z * event) :=
  flat_map (fun i =>
              [(T0 + 1000 * Z.of_nat i, Submit "na1" "/lol/summoner/v4/a");
               (T0 + 1000 * Z.of_nat i + 100, Responded (mkResponse 200 None None))])
           (seq 0 80).

(** X5. The soft throttle at work.  A request submitted to the idle
    client when 80 dispatches lie within the last two minutes is
    accepted but not dispatched: the queue pauses itself until 30 s
    later and the loop sleeps exactly 30 000 ms.  When that sleep is
    over and the window has fallen below 80, the request is
    dispatched. *)
Theorem soft_throttle_pauses (st : State) (now : Z) (host p : string) :
  0 <= now ->
  pc st = Idle -> queue st = [] -> keyExpired st = false -> paused st = false ->
  THROTTLE_NUM <= windowUsage now st ->
  let st1 := step now (Submit host p) st in
  trace st1 = (trace st ++ [Accepted (nextTicket st); Sleep (Some PAUSE_DURATION_MS)])%list
  /\ pc st1 = ThrottleSleep
  /\ paused st1 = true /\ pauseUntil st1 = now + PAUSE_DURATION_MS
  /\ queue st1 = [mkTask (nextTicket st) host p]
  /\ forall now',
      windowUsage now' st1 < THROTTLE_NUM ->
      exists rest,
        trace (step now' TimerFired st1)
        = (trace st1 ++ Dispatched (nextTicket st) :: rest)%list.
Proof.
  intros Hnow Hpc Hq Hk Hp Hu st1.
  assert (Hst1 :
    st1 = set_pc ThrottleSleep
            (log [Sleep (Some PAUSE_DURATION_MS)]
               (set_pause true (now + PAUSE_DURATION_MS)
                  (pruneWindow now
                     (log [Accepted (nextTicket st)]
                        (set_queue [mkTask (nextTicket st) host p] (bump_ticket st))))))).
  { unfold st1, step, submit. st_unfold. rewrite Hk.
    unfold enqueue. st_unfold. rewrite Hp. cbn [andb].
    unfold running. st_unfold. rewrite Hpc.
    unfold drain_fuel. st_unfold. rewrite Hq.
    change (2 * List.length ([] ++ [mkTask (nextTicket st) host p]) + 4)%nat
      with (S (S (S 3))).
    cbn [app].
    erewrite at_while_throttled; [reflexivity|exact Hnow|st_unfold; reflexivity
                                 |st_unfold; exact Hp|].
    unfold windowUsage in *. st_unfold. exact Hu. }
  rewrite Hst1. st_unfold.
  split; [now rewrite <- app_assoc|]. split; [reflexivity|].
  split; [reflexivity|]. split; [reflexivity|]. split; [reflexivity|].
  intros now' Hu'. unfold step. st_unfold.
  match goal with
  | |- context [drain ?f AfterThrottle now' ?s] =>
      destruct (after_throttle_dispatches 5 now' s (mkTask (nextTicket st) host p) [])
        as (rest & Hr)
  end; st_unfold; try reflexivity.
  - unfold windowUsage in *. st_unfold. exact Hu'.
  - exists rest. unfold drain_fuel. st_unfold.
    change (2 * List.length [mkTask (nextTicket st) host p] + 4)%nat with 6%nat.
    rewrite Hr. st_unfold. reflexivity.
Qed.

Lemma soft_throttle_witness :
  let st := run eighty_requests (init (Some "RGAPI-key")) in
  let st1 := step (T0 + 80000) (Submit "na1" "/lol/summoner/v4/b") st in
  List.length (dispatched st) = 80%nat
  /\ pc st1 = ThrottleSleep
  /\ pauseUntil st1 = T0 + 110000
  /\ dispatched st1 = dispatched st.
Proof.
  intros st st1.
  assert (Hst : pc st = Idle /\ queue st = [] /\ keyExpired st = false
                /\ paused st = false /\ windowUsage (T0 + 80000) st = 80
                /\ List.length (dispatched st) = 80%nat).
  { vm_compute. repeat split; reflexivity. }
  clearbody st. destruct Hst as (H1 & H2 & H3 & H4 & H5 & H6).
  pose proof (soft_throttle_pauses st (T0 + 80000) "na1" "/lol/summoner/v4/b"
                ltac:(unfold T0; lia) H1 H2 H3 H4
                ltac:(rewrite H5; unfold THROTTLE_NUM; lia)) as H.
  cbv zeta in H. fold st1 in H. destruct H as (Ht & Hpc & _ & Hu & _).
  split; [exact H6|]. split; [exact Hpc|]. split.
  - rewrite Hu. unfold PAUSE_DURATION_MS. lia.
  - unfold dispatched. rewrite Ht, omap_app. simpl. now rewrite app_nil_r.
Defined.

End QueueFacts.

(* ===================================================================== *)
(** * The order of dispatch *)
(* ===================================================================== *)

Module FifoFacts.
Import RateLimit Scheduler SchedulerFacts QueueFacts.

(** C5, as stated, fails: a task accepted while the scheduler is
    running is thrown out by the pause of a 403 and never dispatched,
    and a task accepted after it, once the key is replaced, is
    dispatched. *)
Lemma cancelled_is_overtaken :
  let st := run expired_in_between (init (Some "RGAPI-old")) in
  accepted st = [0; 1; 2]%nat
  /\ dispatched st = [0; 2]%nat
  /\ In (Settled 1 (Rejected ErrPaused)) (trace st)
  /\ ~ (forall a b, before a b (accepted st) -> In b (dispatched st) ->
                    before a b (dispatched st)).
Proof.
  intros st.
  assert (Ha : accepted st = [0; 1; 2]%nat) by (vm_compute; reflexivity).
  assert (Hd : dispatched st = [0; 2]%nat) by (vm_compute; reflexivity).
  assert (Hs : In (Settled 1 (Rejected ErrPaused)) (trace st))
    by (vm_compute; tauto).
  clearbody st.
  split; [exact Ha|]. split; [exact Hd|]. split; [exact Hs|].
  intros H. specialize (H 1%nat 2%nat). rewrite Ha, Hd in H.
  destruct H as (l1 & l2 & l3 & Heq).
  - exists [0%nat], [], []. reflexivity.
  - simpl. tauto.
  - assert (Hin : In 1%nat (l1 ++ 1%nat :: l2 ++ 2%nat :: l3))
      by (apply in_or_app; right; now left).
    rewrite <- Heq in Hin. simpl in Hin. lia.
Qed.

(** C5, amended.  Tickets number the submissions in arrival order.
    With a clock that is not negative, at every moment of every run of
    the client: of two tasks accepted in the order a, b, when b has
    been dispatched, a was dispatched before b or was thrown out by a
    credential pause; between two dispatches the promise of the first
    task has settled, so tasks run one at a time; whenever the loop is
    not running, every accepted task that no pause threw out has been
    dispatched, in arrival order; and a task submitted to the idle
    client (key not expired, not paused, below the soft throttle) is
    dispatched in the turn of its submission. *)
Theorem fifo_dispatch (k : option string) (evs : list (Z * event)) :
  Forall (fun ev => 0 <= fst ev) evs ->
  let st := run evs (init k) in
  (forall a b,
      before a b (accepted st) -> In b (dispatched st) ->
      In a (cancelled st) \/ before a b (dispatched st))
  /\ (forall pre a mid b post,
        trace st = (pre ++ Dispatched a :: mid ++ Dispatched b :: post)%list ->
        exists o, In (Settled a o) mid)
  /\ (running st = false -> dispatched st = surviving (trace st))
  /\ (forall now host p,
        keyExpired st = false -> paused st = false -> pc st = Idle ->
        windowUsage now st < THROTTLE_NUM ->
        exists rest,
          trace (step now (Submit host p) st)
          = (trace st ++ Accepted (nextTicket st) :: Dispatched (nextTicket st) :: rest)%list).
Proof.
  intros Hclock st.
  destruct (arrival_order k evs) as (_ & Hall & Hord & Hone). fold st in Hall, Hord, Hone.
  assert (Hrest : Rest st).
  { apply run_rest; [exact Hclock|]. constructor; simpl.
    - split; discriminate.
    - reflexivity.
    - discriminate.
    - reflexivity.
    - lia. }
  split.
  { intros a b Hab Hb.
    destruct (in_dec Nat.eq_dec a (cancelled st)) as [Hc|Hc]; [now left|].
    right. now apply Hord. }
  split; [exact Hone|]. split.
  { intros Hrun. unfold running in Hrun.
    assert (Hq : queue st = []).
    { apply (rest_idle _ Hrest). destruct (pc st); try discriminate. reflexivity. }
    rewrite <- Hall, Hq. cbn [map]. now rewrite app_nil_r. }
  intros now host p Hk Hp Hpc Hu.
  apply submit_dispatches; try assumption.
  now apply (rest_idle _ Hrest).
Qed.

Lemma fifo_dispatch_witness :
  Forall (fun ev => 0 <= fst ev) expired_in_between
  /\ (In 1%nat (cancelled (run expired_in_between (init (Some "RGAPI-old"))))
      \/ before 1 2 (dispatched (run expired_in_between (init (Some "RGAPI-old")))))
  /\ dispatched (run expired_in_between (init (Some "RGAPI-old")))
     = surviving (trace (run expired_in_between (init (Some "RGAPI-old")))).
Proof.
  assert (Hc : Forall (fun ev => 0 <= fst ev) expired_in_between)
    by (repeat constructor; simpl; unfold T0; lia).
  split; [exact Hc|].
  destruct (fifo_dispatch (Some "RGAPI-old") expired_in_between Hc) as (H1 & _ & H3 & _).
  split.
  - apply H1.
    + exists [0%nat], [], []. vm_compute. reflexivity.
    + vm_compute. tauto.
  - apply H3. vm_compute. reflexivity.
Defined.

End FifoFacts.

(* ===================================================================== *)
(** * The wait a full bucket announces *)
(* ===================================================================== *)

Module BucketFacts.
Import RateLimit RateLimitFacts.

Lemma filter_filter_imp {A} (f g : A -> bool) (l : list A) :
  (forall x, f x = true -> g x = true) ->
  List.filter f (List.filter g l) = List.filter f l.
Proof.
  intros H. induction l as [|x l IH]; simpl; [reflexivity|].
  destruct (g x) eqn:Hg; simpl.
  - destruct (f x); now rewrite IH.
  - destruct (f x) eqn:Hf; [|exact IH]. apply H in Hf. congruence.
Qed.

Lemma filter_length_le' {A} (f : A -> bool) (l : list A) :
  (List.length (List.filter f l) <= List.length l)%nat.
Proof.
  induction l as [|x l IH]; simpl; [lia|]. destruct (f x); simpl; lia.
Qed.

Lemma ssorted_filter (f : Z -> bool) (l : list Z) :
  StronglySorted Z.le l -> StronglySorted Z.le (List.filter f l).
Proof.
  induction 1 as [|x l Hs IH Hx]; simpl; [constructor|].
  destruct (f x); [|exact IH]. constructor; [exact IH|].
  rewrite List.Forall_forall in *. intros y Hy. apply filter_In in Hy. apply Hx, Hy.
Qed.

(** X6. The wait a full bucket announces is exact.  Take a bucket that
    refuses at [now], holding no more requests in its window than its
    capacity, and let [wait] be what [waitTime()] returns.  Then [wait]
    is positive and the bucket admits at [now + wait].  If moreover the
    timestamps were recorded in order, the bucket refuses at every
    moment from [now] up to [now + wait]: the announced wait is neither
    too short nor too long. *)
Theorem waitTime_is_exact (b : Bucket) (cap now wait : Z) :
  max b = Some cap ->
  Z.of_nat (List.length (in_window b now)) <= cap ->
  fst (canRequest b now) = false ->
  fst (waitTime b now) = Some wait ->
  0 < wait
  /\ fst (canRequest b (now + wait)) = true
  /\ (StronglySorted Z.le (timestamps b) ->
      forall now', now <= now' < now + wait -> fst (canRequest b now') = false).
Proof.
  intros Hcap Hle Hno Hw.
  rewrite canRequest_eq in Hno. rewrite waitTime_eq in Hw. cbn [fst] in *.
  rewrite Hno in Hw. rewrite Hcap in Hno. cbn [Js.lt] in Hno.
  apply Z.ltb_ge in Hno.
  destruct (in_window b now) as [|oldest rest] eqn:Hwin.
  { simpl in Hw. discriminate. }
  destruct (in_window_has_window b now oldest rest Hwin) as [w Hwm].
  rewrite Hwm in Hw. simpl in Hw. injection Hw as Hw.
  assert (Hold : now - w < oldest).
  { assert (Hin : In oldest (in_window b now)) by (rewrite Hwin; now left).
    unfold in_window in Hin. rewrite Hwm in Hin. apply filter_In in Hin.
    now apply Z.ltb_lt. }
  split; [lia|]. split.
  - rewrite canRequest_eq. cbn [fst]. rewrite Hcap. cbn [Js.lt]. apply Z.ltb_lt.
    assert (Hsub : in_window b (now + wait)
                   = List.filter (fun t => oldest <? t) rest).
    { unfold in_window in *. rewrite Hwm in *.
      replace (now + wait - w) with oldest by lia.
      rewrite <- (filter_filter_imp (fun t => oldest <? t) (fun t => now - w <? t)).
      - rewrite Hwin. simpl. now rewrite Z.ltb_irrefl.
      - intros x Hx. apply Z.ltb_lt in Hx. apply Z.ltb_lt. lia. }
    rewrite Hsub.
    pose proof (filter_length_le' (fun t => oldest <? t) rest).
    simpl in Hle. lia.
  - intros Hs now' Hnow'.
    rewrite canRequest_eq. cbn [fst]. rewrite Hcap. cbn [Js.lt]. apply Z.ltb_ge.
    assert (Hsame : in_window b now' = in_window b now).
    { pose proof (ssorted_filter (fun t => now - w <? t) _ Hs) as Hsw.
      unfold in_window in *. rewrite Hwm in *. rewrite Hwin in Hsw.
      inversion Hsw as [|? ? _ Hall]; subst. rewrite List.Forall_forall in Hall.
      apply List.filter_ext_in. intros x Hx.
      destruct (now - w <? x) eqn:Hx1.
      - assert (Hin : In x (oldest :: rest)).
        { rewrite <- Hwin. apply filter_In. split; assumption. }
        apply Z.ltb_lt. destruct Hin as [<-|Hin]; [lia|].
        specialize (Hall _ Hin). lia.
      - apply Z.ltb_ge in Hx1. apply Z.ltb_ge. lia. }
    rewrite Hsame, Hwin. exact Hno.
Qed.

Lemma waitTime_is_exact_witness :
  fst (waitTime (mkBucket (Some 2) (Some 1000) [100; 400]) 500) = Some 600
  /\ fst (canRequest (mkBucket (Some 2) (Some 1000) [100; 400]) 1099) = false
  /\ fst (canRequest (mkBucket (Some 2) (Some 1000) [100; 400]) 1100) = true.
Proof.
  destruct (waitTime_is_exact (mkBucket (Some 2) (Some 1000) [100; 400]) 2 500 600)
    as (_ & H2 & H3); [reflexivity|simpl; lia|reflexivity|reflexivity|].
  split; [reflexivity|]. split; [|exact H2].
  apply H3; [|lia]. simpl. repeat constructor; lia.
Defined.

End BucketFacts.

(* ===================================================================== *)
(** * The phase machine along a run *)
(* ===================================================================== *)

Module PhaseRunFacts.
Import Phase PhaseRuns PhaseFacts.

Lemma callbacks_app (a b : list effect) :
  callbacks (a ++ b) = (callbacks a ++ callbacks b)%list.
Proof. unfold callbacks. apply omap_app. Qed.

Lemma apply_call_spec (c : call) (m : Machine) (t : GamePhase) :
  target c = Some t ->
  exists eff,
    apply_call c m = Some (t, eff)
    /\ callbacks eff = if GamePhase_eqb t m then [] else [(m, t)].
Proof.
  destruct c as [s|]; simpl.
  - unfold transitionFromLCU, canonical.
    destruct (prop LCU_PHASE_MAP s) as [mapped|name|]; intros [= <-]; unfold transition.
    + destruct (GamePhase_eqb mapped m) eqn:E; simpl.
      * apply GamePhase_eqb_eq in E. subst. eexists. split; reflexivity.
      * eexists. split; [reflexivity|]. rewrite callbacks_app.
        destruct (includes (VALID_TRANSITIONS m) mapped); reflexivity.
    + destruct (GamePhase_eqb IDLE m) eqn:E; simpl.
      * apply GamePhase_eqb_eq in E. subst. eexists. split; reflexivity.
      * eexists. split; [reflexivity|].
        change (WarnUnknown s :: ?l) with ([WarnUnknown s] ++ l)%list.
        destruct (includes (VALID_TRANSITIONS m) IDLE); reflexivity.
  - intros [= <-]. eexists. split; [reflexivity|].
    destruct m; reflexivity.
Qed.

Lemma apply_call_escapes (c : call) (m : Machine) :
  target c = None -> apply_call c m = None.
Proof.
  destruct c as [s|]; simpl; [|discriminate].
  unfold transitionFromLCU, canonical.
  destruct (prop LCU_PHASE_MAP s) as [mapped|name|]; try discriminate.
  reflexivity.
Qed.

Lemma last_cons_default {A} (l : list A) (x y d : A) :
  List.last (x :: l) d = List.last (x :: l) y.
Proof.
  revert x. induction l as [|z l IH]; intros x; [reflexivity|].
  change (List.last (z :: l) d = List.last (z :: l) y). apply IH.
Qed.

(** X7. The machine follows the client.  Take any sequence of
    [transitionFromLCU] and [reset] calls on a machine that holds a
    phase.  If every string stands for a phase (the canonical phase
    of the table, Idle for a string that is not found), then after
    the sequence the current phase is the one the last call asked
    for, Idle for a reset, and the [#onTransition] callback has been
    called exactly once for each change of phase along the sequence,
    with the phase before and the new phase, in order: never for a
    repeated phase, and also for edges outside [VALID_TRANSITIONS].
    If some string names a member objects inherit, the machine
    leaves the phases at the first such call. *)
Theorem machine_follows_client (cs : list call) (m : Machine) :
  (forall ts, map target cs = map Some ts ->
     exists eff,
       feed cs m = Some (List.last ts m, eff)
       /\ callbacks eff = changes m ts)
  /\ (In None (map target cs) -> feed cs m = None).
Proof.
  revert m. induction cs as [|c cs IH]; intros m.
  { split.
    - intros [|t ts] H; [|discriminate]. exists []. split; reflexivity.
    - intros []. }
  split.
  - intros ts H. destruct ts as [|t ts]; [discriminate|].
    cbn [map] in H. injection H as Ht Hts.
    destruct (apply_call_spec c m t Ht) as (eff1 & Ha & Hc).
    destruct (proj1 (IH t) ts Hts) as (eff2 & Hf & Hc2).
    cbn [feed]. rewrite Ha, Hf. exists (eff1 ++ eff2)%list. split.
    + f_equal. f_equal. destruct ts as [|x l]; [reflexivity|].
      change (List.last (x :: l) t = List.last (x :: l) m). apply last_cons_default.
    + rewrite callbacks_app, Hc, Hc2. cbn [changes].
      destruct (GamePhase_eqb t m) eqn:E; [|reflexivity].
      apply GamePhase_eqb_eq in E. now rewrite E.
  - cbn [map]. intros [Hn|Hin].
    + cbn [feed]. now rewrite apply_call_escapes.
    + cbn [feed]. destruct (apply_call c m) as [[m1 eff1]|]; [|reflexivity].
      now rewrite (proj2 (IH m1) Hin).
Qed.

Definition dodge : list call :=
  [FromLCU "Lobby"; FromLCU "ChampSelect"; FromLCU "ChampSelect";
   FromLCU "Lobby"; FromLCU "Unheard"; Reset].

Lemma machine_follows_witness :
  map target dodge = map Some [LOBBY; CHAMP_SELECT; CHAMP_SELECT; LOBBY; IDLE; IDLE]
  /\ (exists eff,
        feed dodge IDLE = Some (IDLE, eff)
        /\ callbacks eff
           = [(IDLE, LOBBY); (LOBBY, CHAMP_SELECT); (CHAMP_SELECT, LOBBY); (LOBBY, IDLE)])
  /\ feed [FromLCU "Lobby"; FromLCU "toString"; Reset] IDLE = None.
Proof.
  split; [reflexivity|]. split.
  - exact (proj1 (machine_follows_client dodge IDLE)
                 [LOBBY; CHAMP_SELECT; CHAMP_SELECT; LOBBY; IDLE; IDLE] eq_refl).
  - apply (proj2 (machine_follows_client [FromLCU "Lobby"; FromLCU "toString"; Reset] IDLE)).
    vm_compute. tauto.
Defined.

End PhaseRunFacts.

(* ===================================================================== *)
(** * The telemetry client: stale requests, reachability, completeness *)
(* ===================================================================== *)

Module LivePollingFacts.
Import LiveClient Triggers LivePolling LiveClientFacts.

Lemma run_app (a1 a2 : list action) (c : Client) :
  run (a1 ++ a2) c
  = match run a1 c with
    | None => None
    | Some (c1, out1) =>
        match run a2 c1 with
        | None => None
        | Some (c2, out2) => Some (c2, (out1 ++ out2)%list)
        end
    end.
Proof.
  revert c. induction a1 as [|a a1 IH]; intros c.
  - cbn [app run]. destruct (run a2 c) as [[c2 out2]|]; reflexivity.
  - cbn [app run]. destruct (step a c) as [[c1 out1]|]; [|reflexivity].
    rewrite IH. destruct (run a1 c1) as [[c2 out2]|]; [|reflexivity].
    destruct (run a2 c2) as [[c3 out3]|]; [|reflexivity].
    now rewrite app_assoc.
Qed.

Lemma filter_keep_all {A} (f : A -> bool) (l : list A) :
  Forall (fun x => f x = true) l -> List.filter f l = l.
Proof.
  induction 1 as [|x l Hx _ IH]; simpl; [reflexivity|]. now rewrite Hx, IH.
Qed.

Lemma filter_drop_all {A} (f : A -> bool) (l : list A) :
  Forall (fun x => f x = false) l -> List.filter f l = [].
Proof.
  induction 1 as [|x l Hx _ IH]; simpl; [reflexivity|]. now rewrite Hx, IH.
Qed.

(** ** A request in flight when polling stops *)

(** C8. Event monotonic delivery fails once polling is stopped with
    an event request in flight.  [stopPolling()] puts [#lastEventId]
    back to -1 and cancels no request; when the request then
    resolves, its callback compares with -1 and emits every event
    of the answer, those emitted before the stop included. *)
Theorem stale_fetch_repeats_events (c : Client) (evs : list GameEvent) :
  (0 < eventsInFlight c)%nat ->
  evs <> [] ->
  Forall (fun e => 0 <= EventID e) evs ->
  exists c',
    run [StopPolling; EventsFetched (FetchOk (Some evs))] c = Some (c', [NewEvents evs]).
Proof.
  intros Hf Hne Hpos. cbn [run step eventsInFlight poller].
  destruct (eventsInFlight c) as [|n]; [lia|].
  unfold eventTick, stopPolling. cbn [default lastEventId].
  rewrite filter_keep_all.
  2:{ eapply List.Forall_impl; [|exact Hpos]. intros x Hx. cbn beta in *.
      apply Z.ltb_lt. lia. }
  destruct evs as [|e rest]; [congruence|]. eexists. reflexivity.
Qed.

Lemma stale_fetch_witness :
  exists c,
    run stopped_in_flight newClient
    = Some (c, [NewEvents [ev 0; ev 1; ev 2]; NewEvents [ev 0; ev 1; ev 2; ev 3]]).
Proof.
  change stopped_in_flight
    with ([StartPolling; EventTimer; EventsFetched (FetchOk (Some [ev 0; ev 1; ev 2]));
           EventTimer]
            ++ [StopPolling; EventsFetched (FetchOk (Some [ev 0; ev 1; ev 2; ev 3]))])%list.
  rewrite run_app.
  change (run [StartPolling; EventTimer; EventsFetched (FetchOk (Some [ev 0; ev 1; ev 2]));
               EventTimer] newClient)
    with (Some (mkClient (mkPoller 2 false) true 1 0 1 1, [NewEvents [ev 0; ev 1; ev 2]])).
  destruct (stale_fetch_repeats_events (mkClient (mkPoller 2 false) true 1 0 1 1)
              [ev 0; ev 1; ev 2; ev 3]) as (c' & H).
  - simpl. lia.
  - discriminate.
  - repeat constructor; simpl; lia.
  - rewrite H. exists c'. reflexivity.
Defined.

(** ** Reachability *)

Lemma snaps_app (a b : list emitted) : snaps (a ++ b) = (snaps a ++ snaps b)%list.
Proof. unfold snaps. apply omap_app. Qed.

Lemma snaps_map (l : list emission) : snaps (map Snap l) = l.
Proof. induction l as [|x l IH]; [reflexivity|]. cbn. now f_equal. Qed.

Lemma new_events_app (a b : list emitted) :
  new_events (a ++ b) = (new_events a ++ new_events b)%list.
Proof. unfold new_events. apply omap_app. Qed.

Lemma new_events_map (l : list emission) : new_events (map Snap l) = [].
Proof. induction l as [|x l IH]; [reflexivity|]. exact IH. Qed.

Lemma run_announced (acts : list action) :
  forall (c c' : Client) (out : list emitted) (reachable : bool),
    (wasAvailable (poller c) = true -> reachable = true) ->
    run acts c = Some (c', out) ->
    announced reachable (snaps out).
Proof.
  induction acts as [|a acts IH]; intros c c' out reachable Hinv Hrun.
  { injection Hrun as <- <-. exact I. }
  cbn [run] in Hrun.
  destruct (step a c) as [[c1 out1]|] eqn:Hs; [|discriminate].
  destruct (run acts c1) as [[c2 out2]|] eqn:Hr; [|discriminate].
  injection Hrun as <- <-. rewrite snaps_app.
  destruct a as [| | | |r|r|r]; cbn [step] in Hs.
  - injection Hs as <- <-. cbn [snaps omap app].
    eapply IH; [|exact Hr]. exact Hinv.
  - injection Hs as <- <-. cbn [snaps omap app].
    eapply IH; [|exact Hr]. discriminate.
  - destruct (intervals c); [discriminate|]. injection Hs as <- <-.
    eapply IH; [|exact Hr]. exact Hinv.
  - destruct (intervals c); [discriminate|]. injection Hs as <- <-.
    eapply IH; [|exact Hr]. exact Hinv.
  - destruct (snapshotsInFlight c) as [|n]; [discriminate|].
    destruct (wasAvailable (poller c)) eqn:Hw;
      destruct r as [data|]; cbn [snapshotTick] in Hs; rewrite Hw in Hs;
      injection Hs as <- <-; cbn [map app snaps omap announced].
    + rewrite (Hinv eq_refl). split; [reflexivity|].
      eapply IH; [|exact Hr]. reflexivity.
    + split; [now apply Hinv|]. eapply IH; [|exact Hr]. discriminate.
    + split; [reflexivity|]. eapply IH; [|exact Hr]. reflexivity.
    + eapply IH; [|exact Hr]. discriminate.
  - destruct (eventsInFlight c) as [|n]; [discriminate|].
    assert (Hw : wasAvailable (fst (eventTick r (poller c))) = wasAvailable (poller c)).
    { unfold eventTick. destruct r as [|evs]; [reflexivity|].
      destruct (List.filter _ _); reflexivity. }
    destruct (eventTick r (poller c)) as [p o]. injection Hs as <- <-.
    cbn [fst] in Hw.
    assert (Hn : snaps (match o with Some evs => [NewEvents evs] | None => [] end) = [])
      by (destruct o; reflexivity).
    rewrite Hn. cbn [app].
    eapply IH; [|exact Hr]. cbn [poller]. now rewrite Hw.
  - destruct (firstPollsInFlight c) as [|n]; [discriminate|].
    destruct r as [data|]; cbn [firstPoll] in Hs; injection Hs as <- <-;
      cbn [map app snaps omap announced].
    + split; [reflexivity|]. eapply IH; [|exact Hr]. reflexivity.
    + eapply IH; [|exact Hr]. exact Hinv.
Qed.

(** X8. Nothing is reported of an API that was not announced.  In
    every run of the client from a state in which the API does not
    count as reachable (a new client, or one just stopped), whatever
    is started, stopped, fired or still in flight: an "unavailable"
    and a snapshot are emitted only after an "available" with no
    "unavailable" since; in particular "unavailable" never comes
    first and never twice in a row.  ("available" may come twice in a
    row: after a stop, or from a first poll that settles late.) *)
Theorem reachability_announced (acts : list action) (c c' : Client)
        (out : list emitted) :
  wasAvailable (poller c) = false ->
  run acts c = Some (c', out) ->
  announced false (snaps out).
Proof.
  intros Hw Hrun. eapply run_announced; [|exact Hrun].
  rewrite Hw. discriminate.
Qed.

Definition late_first_poll : list action :=
  [ StartPolling; SnapshotTimer; SnapshotFetched (Some late_snapshot);
    FirstPollFetched (Some late_snapshot); SnapshotTimer; StopPolling;
    SnapshotFetched None; StartPolling; FirstPollFetched None;
    SnapshotTimer; SnapshotFetched (Some late_snapshot);
    SnapshotTimer; SnapshotFetched None ].

Lemma reachability_witness :
  (exists c,
     run late_first_poll newClient
     = Some (c, map Snap [Available; SnapshotOut late_snapshot;
                          Available; SnapshotOut late_snapshot;
                          Available; SnapshotOut late_snapshot; Unavailable]))
  /\ announced false
       [Available; SnapshotOut late_snapshot; Available; SnapshotOut late_snapshot;
        Available; SnapshotOut late_snapshot; Unavailable].
Proof.
  assert (Hrun : run late_first_poll newClient
                 = Some (mkClient (mkPoller (-1) false) true 1 0 0 0,
                         map Snap [Available; SnapshotOut late_snapshot;
                                   Available; SnapshotOut late_snapshot;
                                   Available; SnapshotOut late_snapshot; Unavailable]))
    by reflexivity.
  split; [eexists; exact Hrun|].
  exact (reachability_announced late_first_poll newClient _ _ eq_refl Hrun).
Defined.

(** ** The event side while polling goes on *)

(** The identifiers of the log increase. *)
Definition ids_lt (a b : GameEvent) : Prop := EventID a < EventID b.

(** The poller has seen the first [seen] entries of the log and no
    others. *)
Definition synced (log : list GameEvent) (p : Poller) (seen : nat) : Prop :=
  Forall (fun e => EventID e <= lastEventId p) (firstn seen log)
  /\ Forall (fun e => lastEventId p < EventID e) (skipn seen log).

Lemma ssorted_app_lt (l1 l2 : list GameEvent) :
  StronglySorted ids_lt (l1 ++ l2) ->
  forall x y, In x l1 -> In y l2 -> EventID x < EventID y.
Proof.
  induction l1 as [|a l1 IH]; simpl; intros Hs x y Hx Hy; [contradiction|].
  inversion Hs as [|? ? Hs' Hall]; subst.
  destruct Hx as [<-|Hx]; [|now apply IH].
  rewrite List.Forall_forall in Hall. apply Hall. apply in_or_app. now right.
Qed.

Lemma skipn_firstn_In {A} (a b : nat) (l : list A) (x : A) :
  In x (skipn a (firstn b l)) -> In x (skipn a l).
Proof.
  revert b l. induction a as [|a IH]; intros b l; simpl.
  - rewrite <- (firstn_skipn b l) at 2. intros H. apply in_or_app. now left.
  - destruct l as [|y l]; [now rewrite firstn_nil|].
    destruct b as [|b]; simpl; [contradiction|]. apply IH.
Qed.

Lemma skipn_later_In {A} (a b : nat) (l : list A) (x : A) :
  (a <= b)%nat -> In x (skipn b l) -> In x (skipn a l).
Proof.
  intros Hle. replace b with ((b - a) + a)%nat by lia.
  rewrite <- skipn_skipn. intros H.
  rewrite <- (firstn_skipn (b - a) (skipn a l)). apply in_or_app. now right.
Qed.

Lemma skipn_firstn_split {A} (a n F : nat) (l : list A) :
  (a <= n)%nat -> (n <= F)%nat ->
  skipn a (firstn F l)
  = (skipn a (firstn n l) ++ skipn n (firstn F l))%list.
Proof.
  intros Han HnF.
  assert (Hn : firstn n l = firstn n (firstn F l)).
  { rewrite firstn_firstn. f_equal. lia. }
  rewrite Hn. set (L := firstn F l).
  rewrite <- (firstn_skipn n L) at 1. rewrite skipn_app.
  f_equal. rewrite length_firstn.
  destruct (Nat.le_gt_cases n (List.length L)) as [H|H].
  - replace (a - Nat.min n (List.length L))%nat with 0%nat by lia. reflexivity.
  - rewrite !skipn_all2 by (rewrite ?length_skipn; lia). reflexivity.
Qed.

Lemma fresh_events (log : list GameEvent) (p : Poller) (seen n : nat) :
  synced log p seen -> (seen <= n)%nat ->
  List.filter (fun e => lastEventId p <? EventID e) (firstn n log)
  = skipn seen (firstn n log)
  /\ firstn n log = (firstn seen log ++ skipn seen (firstn n log))%list.
Proof.
  intros [Hold Hnew] Hle.
  assert (Hsplit : firstn n log = (firstn seen log ++ skipn seen (firstn n log))%list).
  { rewrite <- (firstn_skipn seen (firstn n log)) at 1.
    rewrite firstn_firstn. do 2 f_equal. lia. }
  split; [|exact Hsplit].
  rewrite Hsplit at 1. rewrite List.filter_app.
  rewrite filter_drop_all, filter_keep_all; [reflexivity| |].
  - apply List.Forall_forall. intros x Hx. apply skipn_firstn_In in Hx.
    rewrite List.Forall_forall in Hnew. apply Z.ltb_lt. now apply Hnew.
  - eapply List.Forall_impl; [|exact Hold]. intros x Hx. simpl in Hx.
    apply Z.ltb_ge. exact Hx.
Qed.

Lemma fold_max_attained (l : list Z) (a : Z) :
  fold_left Z.max l a = a \/ In (fold_left Z.max l a) l.
Proof.
  revert a. induction l as [|x l IH]; intros a; simpl; [now left|].
  destruct (IH (Z.max a x)) as [H|H]; [|right; now right].
  rewrite H. destruct (Z.max_spec a x) as [[_ ->]|[_ ->]]; [right; now left|now left].
Qed.

Lemma maxId_attained (e : GameEvent) (rest : list GameEvent) :
  exists x, In x (e :: rest) /\ EventID x = maxId e rest.
Proof.
  unfold maxId. destruct (fold_max_attained (map EventID rest) (EventID e)) as [H|H].
  - exists e. split; [now left|now rewrite H].
  - apply in_map_iff in H. destruct H as (x & Hx & Hin).
    exists x. split; [now right|exact Hx].
Qed.


(** All emissions carry identifiers above [bound]. *)
Definition all_above (bound : Z) (ems : list (list GameEvent)) : Prop :=
  Forall (fun e => Forall (fun x => bound < EventID x) e) ems.

Lemma all_above_weaken (b b' : Z) (ems : list (list GameEvent)) :
  b <= b' -> all_above b' ems -> all_above b ems.
Proof.
  intros Hle H. unfold all_above in *.
  eapply List.Forall_impl; [|exact H]. intros e He.
  eapply List.Forall_impl; [|exact He]. simpl. intros x Hx. lia.
Qed.

(** A turn of a session leaves [#lastEventId] alone unless it is an
    event request that settles. *)
Lemma session_step (a : action) (c c1 : Client) (out1 : list emitted) :
  in_session a -> step a c = Some (c1, out1) ->
  match a with
  | EventsFetched r =>
      poller c1 = fst (eventTick r (poller c))
      /\ new_events out1
         = match snd (eventTick r (poller c)) with Some evs => [evs] | None => [] end
  | _ => lastEventId (poller c1) = lastEventId (poller c) /\ new_events out1 = []
  end.
Proof.
  intros Hs Hstep. destruct a as [| | | |r|r|r]; cbn [step] in Hstep; try contradiction.
  - destruct (intervals c); [discriminate|]. injection Hstep as <- <-. now split.
  - destruct (intervals c); [discriminate|]. injection Hstep as <- <-. now split.
  - destruct (snapshotsInFlight c); [discriminate|].
    destruct (snapshotTick r (poller c)) as [p o] eqn:E. injection Hstep as <- <-.
    rewrite new_events_map. split; [|reflexivity].
    destruct r; cbn in E; injection E as <- _; reflexivity.
  - destruct (eventsInFlight c); [discriminate|].
    destruct (eventTick r (poller c)) as [p o]. injection Hstep as <- <-.
    split; [reflexivity|]. destruct o; reflexivity.
  - destruct (firstPollsInFlight c); [discriminate|].
    destruct (firstPoll r (poller c)) as [p o] eqn:E. injection Hstep as <- <-.
    rewrite new_events_map. split; [|reflexivity].
    destruct r; cbn in E; injection E as <- _; reflexivity.
Qed.

Lemma session_ordered (acts : list action) :
  forall (c c' : Client) (out : list emitted),
    Forall in_session acts ->
    run acts c = Some (c', out) ->
    all_above (lastEventId (poller c)) (new_events out)
    /\ ForallOrdPairs strictly_later (new_events out)
    /\ Forall (fun e => e <> []) (new_events out).
Proof.
  induction acts as [|a acts IH]; intros c c' out Hs Hrun.
  { injection Hrun as <- <-. repeat split; constructor. }
  inversion Hs as [|? ? Ha Hs']; subst.
  cbn [run] in Hrun.
  destruct (step a c) as [[c1 out1]|] eqn:Hstep; [|discriminate].
  destruct (run acts c1) as [[c2 out2]|] eqn:Hr; [|discriminate].
  injection Hrun as <- <-. rewrite new_events_app.
  destruct (IH _ _ _ Hs' Hr) as (Habove & Hord & Hne).
  pose proof (session_step a c c1 out1 Ha Hstep) as Hst.
  assert (Hquiet : lastEventId (poller c1) = lastEventId (poller c) ->
                   new_events out1 = [] ->
                   all_above (lastEventId (poller c)) (new_events out1 ++ new_events out2)
                   /\ ForallOrdPairs strictly_later (new_events out1 ++ new_events out2)
                   /\ Forall (fun e => e <> []) (new_events out1 ++ new_events out2)).
  { intros Hl ->. cbn [app]. rewrite <- Hl. now repeat split. }
  destruct a as [| | | |r|r|r]; try (destruct Hst as [Hl Hn]; now apply Hquiet).
  destruct Hst as [Hp Hn]. rewrite Hn. rewrite Hp in Habove.
  unfold eventTick in *. destruct r as [|evs]; cbn [fst snd app] in *;
    [now repeat split|].
  destruct (List.filter _ (default [] evs)) as [|e rest] eqn:Hf; cbn [fst snd app] in *;
    [now repeat split|].
  cbn [lastEventId] in Habove.
  assert (Hnew : Forall (fun x => lastEventId (poller c) < EventID x) (e :: rest)).
  { apply List.Forall_forall. intros x Hx. rewrite <- Hf in Hx.
    apply filter_In in Hx. destruct Hx as [_ Hx]. now apply Z.ltb_lt in Hx. }
  assert (Hlt : lastEventId (poller c) <= maxId e rest).
  { inversion Hnew as [|? ? He _]; subst.
    pose proof (maxId_bound e rest e (or_introl eq_refl)). lia. }
  repeat split.
  - constructor; [exact Hnew|]. eapply all_above_weaken; [|exact Habove]. exact Hlt.
  - constructor; [|exact Hord].
    apply List.Forall_forall. intros later Hl x y Hx Hy.
    unfold all_above in Habove. rewrite List.Forall_forall in Habove.
    specialize (Habove later Hl). rewrite List.Forall_forall in Habove.
    specialize (Habove y Hy). simpl in Habove.
    pose proof (maxId_bound e rest x Hx). lia.
  - constructor; [discriminate|exact Hne].
Qed.

Lemma firstn_length_prefix {A} (n : nat) (l : list A) :
  firstn n l = firstn (List.length (firstn n l)) l.
Proof.
  rewrite length_firstn. destruct (Nat.le_gt_cases n (List.length l)) as [H|H].
  - now rewrite Nat.min_l.
  - rewrite Nat.min_r by lia. rewrite !firstn_all2; [reflexivity|lia|lia].
Qed.

Lemma session_complete (log : list GameEvent) :
  StronglySorted ids_lt log ->
  forall (acts : list action) (c c' : Client) (out : list emitted) (seen : nat),
    Forall in_session acts -> Forall (from_log log) acts ->
    synced log (poller c) seen -> (seen <= List.length log)%nat ->
    run acts c = Some (c', out) ->
    concat (new_events out) = skipn seen (firstn (Nat.max seen (longest acts)) log).
Proof.
  intros Hsorted acts.
  induction acts as [|a acts IH]; intros c c' out seen Hs Hfl Hsync Hlen Hrun.
  { injection Hrun as <- <-. cbn. rewrite Nat.max_0_r.
    rewrite skipn_all2; [reflexivity|]. rewrite length_firstn. lia. }
  inversion Hs as [|? ? Ha Hs']; subst. inversion Hfl as [|? ? Hfa Hfl']; subst.
  cbn [run] in Hrun.
  destruct (step a c) as [[c1 out1]|] eqn:Hstep; [|discriminate].
  destruct (run acts c1) as [[c2 out2]|] eqn:Hr; [|discriminate].
  injection Hrun as <- <-. rewrite new_events_app, concat_app.
  pose proof (session_step a c c1 out1 Ha Hstep) as Hst.
  unfold longest. cbn [map fold_right]. fold (longest acts).
  assert (Hquiet : lastEventId (poller c1) = lastEventId (poller c) ->
                   new_events out1 = [] -> answered a = 0%nat ->
                   (concat (new_events out1) ++ concat (new_events out2))%list
                   = skipn seen (firstn (Nat.max seen (Nat.max (answered a) (longest acts))) log)).
  { intros Hl -> ->. cbn [concat app Nat.max].
    apply (IH c1 c2 out2 seen Hs' Hfl'); [|exact Hlen|exact Hr].
    unfold synced in *. now rewrite Hl. }
  destruct a as [| | | |r|r|r];
    try (destruct Hst as [Hl Hn]; now apply Hquiet).
  destruct Hst as [Hp Hn]. rewrite Hn.
  destruct r as [|evs].
  { cbn [eventTick fst snd] in *. cbn [concat app answered Nat.max].
    apply (IH c1 c2 out2 seen Hs' Hfl'); [|exact Hlen|exact Hr]. now rewrite Hp. }
  cbn [from_log] in Hfa. destruct Hfa as (n0 & Hn0).
  cbn [answered]. set (k := List.length (default [] evs)).
  assert (Hk : default [] evs = firstn k log).
  { unfold k. rewrite Hn0. apply firstn_length_prefix. }
  assert (Hkl : (k <= List.length log)%nat).
  { unfold k. rewrite Hn0, length_firstn. lia. }
  unfold eventTick in Hp, Hn |- *. rewrite Hk in Hp, Hn |- *.
  destruct (Nat.le_gt_cases k seen) as [Hle|Hgt].
  - (* nothing new *)
    rewrite filter_drop_all in Hp, Hn |- *.
    2,3,4: (apply List.Forall_forall; intros x Hx; apply Z.ltb_ge;
            destruct Hsync as [Hold _]; rewrite List.Forall_forall in Hold;
            apply Hold;
            rewrite <- (firstn_skipn k (firstn seen log));
            apply in_or_app; left; rewrite firstn_firstn;
            now replace (Nat.min k seen) with k by lia).
    cbn [fst snd concat app] in *.
    replace (Nat.max seen (Nat.max k (longest acts)))
      with (Nat.max seen (longest acts)) by lia.
    apply (IH c1 c2 out2 seen Hs' Hfl'); [|exact Hlen|exact Hr]. now rewrite Hp.
  - (* the events from [seen] to [k] are new *)
    destruct (fresh_events log (poller c) seen k Hsync) as [Hnew Hsplit]; [lia|].
    rewrite Hnew in Hp, Hn |- *.
    destruct Hsync as [Hold Hfresh].
    destruct (skipn seen (firstn k log)) as [|e rest] eqn:Hne.
    { exfalso. assert (Hlenk : List.length (skipn seen (firstn k log)) = 0%nat)
        by now rewrite Hne.
      rewrite length_skipn, length_firstn in Hlenk. lia. }
    cbn [fst snd concat app] in *. rewrite app_nil_r.
    replace (Nat.max seen (Nat.max k (longest acts)))
      with (Nat.max k (longest acts)) by lia.
    rewrite (skipn_firstn_split seen k (Nat.max k (longest acts))) by lia.
    rewrite Hne. apply (f_equal (app (e :: rest))).
    apply (IH c1 c2 out2 k Hs' Hfl'); [|exact Hkl|exact Hr].
    rewrite Hp.
    assert (Hin_new : forall x, In x (e :: rest) -> lastEventId (poller c) < EventID x).
    { intros x Hx. rewrite <- Hne in Hx. apply skipn_firstn_In in Hx.
      rewrite List.Forall_forall in Hfresh. now apply Hfresh. }
    split; cbn [lastEventId].
    + rewrite Hsplit. apply Forall_app. split.
      * eapply List.Forall_impl; [|exact Hold]. intros x Hx. simpl in Hx.
        pose proof (Hin_new e (or_introl eq_refl)).
        pose proof (maxId_bound e rest e (or_introl eq_refl)). lia.
      * apply List.Forall_forall. intros x Hx. now apply maxId_bound.
    + destruct (maxId_attained e rest) as (x & Hx & <-).
      apply List.Forall_forall. intros y Hy.
      apply (ssorted_app_lt (firstn k log) (skipn k log)); [| |exact Hy].
      * now rewrite firstn_skipn.
      * rewrite Hsplit. apply in_or_app. now right.
Qed.

(** X9. No event is lost or repeated while polling goes on.  Take any
    run of the client in which polling is neither stopped nor started
    anew, whatever timers fire and in whatever order the requests in
    flight settle.  Every ["new-events"] emission is non-empty, its
    identifiers are above the [#lastEventId] of the start and below
    those of every later emission.  If moreover the event feed is a
    log that only grows, with identifiers that increase and lie above
    the [#lastEventId] of the start, each successful request
    returning the log up to some length, then the emissions put end
    to end are exactly the log up to the longest answer received:
    every event once, in order. *)
Theorem no_event_lost (acts : list action) (c c' : Client) (out : list emitted) :
  Forall in_session acts ->
  run acts c = Some (c', out) ->
  ForallOrdPairs strictly_later (new_events out)
  /\ Forall (fun evs => evs <> []
                        /\ Forall (fun x => lastEventId (poller c) < EventID x) evs)
            (new_events out)
  /\ (forall log,
        StronglySorted ids_lt log ->
        Forall (fun e => lastEventId (poller c) < EventID e) log ->
        Forall (from_log log) acts ->
        concat (new_events out) = firstn (longest acts) log).
Proof.
  intros Hs Hrun.
  destruct (session_ordered acts c c' out Hs Hrun) as (Ha & Ho & Hn).
  split; [exact Ho|]. split.
  - unfold all_above in Ha. rewrite List.Forall_forall in *.
    intros e He. split; [now apply Hn|now apply Ha].
  - intros log Hsorted Hfresh Hfl.
    rewrite (session_complete log Hsorted acts c c' out 0 Hs Hfl); [reflexivity| |lia|exact Hrun].
    split; [constructor|exact Hfresh].
Qed.

Definition three_kills : list GameEvent := [ev 0; ev 1; ev 2].

(** Two requests in flight settle in the reverse order. *)
Definition overtaken : list action :=
  [ EventTimer; EventsFetched (FetchOk (Some (firstn 1 three_kills)));
    EventTimer; EventTimer;
    EventsFetched (FetchOk (Some (firstn 3 three_kills)));
    EventsFetched (FetchOk (Some (firstn 2 three_kills)));
    SnapshotTimer; EventTimer; EventsFetched FetchFailed ].

Lemma no_event_lost_witness :
  (exists c',
     run overtaken (mkClient newPoller true 1 0 0 1)
     = Some (c', [NewEvents [ev 0]; NewEvents [ev 1; ev 2]]))
  /\ concat (new_events [NewEvents [ev 0]; NewEvents [ev 1; ev 2]]) = three_kills.
Proof.
  assert (Hrun : run overtaken (mkClient newPoller true 1 0 0 1)
                 = Some (mkClient (mkPoller 2 false) true 1 1 0 1,
                         [NewEvents [ev 0]; NewEvents [ev 1; ev 2]]))
    by reflexivity.
  split; [eexists; exact Hrun|].
  assert (Hs : Forall in_session overtaken) by (repeat constructor).
  destruct (no_event_lost overtaken _ _ _ Hs Hrun) as (_ & _ & H).
  apply (H three_kills).
  - repeat constructor; unfold ids_lt; simpl; lia.
  - repeat constructor; simpl; lia.
  - unfold overtaken.
    repeat (constructor; [cbn [from_log]; first [exact I | eexists; reflexivity]|]).
    constructor.
Defined.

End LivePollingFacts.

(* ===================================================================== *)
(** * More on the trigger detector *)
(* ===================================================================== *)

Module DetectorFacts.
Import LiveClient Triggers TriggerFacts.

(** ** Events are counted once *)

Lemma onEvent_seen (d : Detector) (ts : list TriggerResult) (e : GameEvent) :
  seenEventIds (fst (onEvent (d, ts) e))
  = if bool_decide (eventKey e ∈ seenEventIds d) then seenEventIds d
    else {[eventKey e]} ∪ seenEventIds d.
Proof.
  unfold onEvent. destruct (bool_decide (eventKey e ∈ seenEventIds d)); [reflexivity|].
  repeat match goal with
         | |- context [if ?c then _ else _] => destruct c
         | |- context [match ?x with _ => _ end] => destruct x
         end; reflexivity.
Qed.

Lemma onEvent_skip (d : Detector) (ts : list TriggerResult) (e : GameEvent) :
  eventKey e ∈ seenEventIds d -> onEvent (d, ts) e = (d, ts).
Proof.
  intros H. unfold onEvent. now rewrite bool_decide_eq_true_2.
Qed.

Lemma fold_seen (es : list GameEvent) (d : Detector) (ts : list TriggerResult) :
  seenEventIds d ⊆ seenEventIds (fst (fold_left onEvent es (d, ts)))
  /\ forall e, In e es -> eventKey e ∈ seenEventIds (fst (fold_left onEvent es (d, ts))).
Proof.
  revert d ts. induction es as [|e es IH]; intros d ts; cbn [fold_left In].
  { split; [reflexivity|contradiction]. }
  pose proof (onEvent_seen d ts e) as Hs.
  destruct (onEvent (d, ts) e) as [d1 ts1]. cbn [fst] in Hs.
  destruct (IH d1 ts1) as [H1 H2].
  assert (Hk : eventKey e ∈ seenEventIds d1 /\ seenEventIds d ⊆ seenEventIds d1).
  { rewrite Hs. destruct (bool_decide (eventKey e ∈ seenEventIds d)) eqn:Hb.
    - apply bool_decide_eq_true in Hb. split; [exact Hb|reflexivity].
    - split; [apply elem_of_union_l; now apply elem_of_singleton
             |apply union_subseteq_r]. }
  destruct Hk as [Hk Hsub]. rewrite elem_of_subseteq in H1.
  split; [etransitivity; [exact Hsub|]; apply elem_of_subseteq; exact H1|].
  intros x [<-|Hx]; [now apply H1|now apply H2].
Qed.

Lemma fold_skip (es : list GameEvent) (d : Detector) (ts : list TriggerResult) :
  (forall e, In e es -> eventKey e ∈ seenEventIds d) ->
  fold_left onEvent es (d, ts) = (d, ts).
Proof.
  induction es as [|e es IH]; intros H; cbn [fold_left]; [reflexivity|].
  rewrite onEvent_skip by (apply H; now left).
  apply IH. intros x Hx. apply H. now right.
Qed.

(** X10. Events are counted once.  Events that come again, with the
    name and identifier of an event already evaluated, change nothing:
    evaluating a batch followed by such repeats gives the state and the
    triggers of the batch alone, and evaluating the repeats afterwards
    yields no trigger and leaves the detector as it is. *)
Theorem replayed_events_are_ignored (es es' : list GameEvent) (d : Detector) :
  Forall (fun e => In (eventKey e) (map eventKey es)) es' ->
  evaluateEvents (es ++ es') d = evaluateEvents es d
  /\ evaluateEvents es' (fst (evaluateEvents es d)) = (fst (evaluateEvents es d), []).
Proof.
  intros Hre. unfold evaluateEvents. rewrite fold_left_app.
  destruct (fold_seen es d []) as [_ Hseen].
  destruct (fold_left onEvent es (d, [])) as [d1 ts1]. cbn [fst] in *.
  assert (Hall : forall e, In e es' -> eventKey e ∈ seenEventIds d1).
  { intros e He. rewrite List.Forall_forall in Hre. specialize (Hre e He).
    apply in_map_iff in Hre. destruct Hre as (e0 & <- & He0). now apply Hseen. }
  split; now apply fold_skip.
Qed.

Lemma replayed_events_witness :
  snd (evaluateEvents [Macro.kill 1 "me" 880; Macro.kill 2 "a2" 890;
                       Macro.kill 1 "me" 880] fresh)
  = snd (evaluateEvents [Macro.kill 1 "me" 880; Macro.kill 2 "a2" 890] fresh).
Proof.
  destruct (replayed_events_are_ignored
              [Macro.kill 1 "me" 880; Macro.kill 2 "a2" 890]
              [Macro.kill 1 "me" 880] fresh) as [H _].
  - repeat constructor.
  - exact (f_equal snd H).
Defined.

(** ** What each snapshot trigger needs *)

(** The gold lead [evaluateSnapshot] computes for the team [lt]. *)
Definition goldLeadOf (lt : Team) (s : Snapshot) : Z :=
  estimateTeamGold (List.filter (fun p => Team_eqb (team p) lt) (allPlayers s))
  - estimateTeamGold (List.filter (fun p => negb (Team_eqb (team p) lt)) (allPlayers s)).

(** A trigger is a local call (a message that is not empty, a call
    type, not for the LLM) or it carries neither message nor type. *)
Definition well_classified (t : TriggerResult) : Prop :=
  match localCall t with
  | Some m => Js.truthy_str m = true /\ localCallType t <> None /\ claudeWorthy t = false
  | None => localCallType t = None
  end.

Definition needs (lt : Team) (lname : string) (s : Snapshot) (ap : ActivePlayer)
           (d : Detector) (t : TriggerResult) : Prop :=
  match trigger t with
  | THROW_GUARD => 3000 < goldLeadOf lt s
  | BARON_WINDOW | CONTEST_SOUL => isBaronUp d (gameTime s) = true
  | RUSH_BARON => isBaronUp d (gameTime s) = true /\ 3 <= allyDrakeCount d
  | BARON_BAIT =>
      isBaronUp d (gameTime s) = true /\ allyDrakeCount d < 3
      /\ (0 < size (enemyInhibsDown d))%nat
  | CATCH_WAVE => (840 < gameTime s)%Q
  | WIN_CONDITION => (1500 < gameTime s)%Q
  | GOLD_SWING => 1000 <= Z.abs (goldLeadOf lt s - lastReportedGoldLead d)
  | POWER_SPIKE =>
      ap_level ap <> default 0 (playerLevels d !! Js.or_str lname "local")
  | _ => True
  end.

Lemma when_In_cond {A} (b : bool) (x t : A) : In t (when b x) -> b = true /\ t = x.
Proof. unfold when. destruct b; simpl; [intuition|contradiction]. Qed.

Lemma laneCheck_form (d : Detector) (lt : Team) allies lane role t :
  laneCheck d lt allies lane role = Some t ->
  exists msg, t = local CATCH_WAVE suggestion msg "CATCH_WAVE"
              /\ Js.truthy_str msg = true.
Proof.
  unfold laneCheck. destruct (turretsDown d lt lane <? 2); [discriminate|].
  destruct (find _ allies) as [laneAlly|]; [|discriminate].
  destruct (isDead laneAlly); [|discriminate].
  intros [= <-]. eexists. split; reflexivity.
Qed.

Lemma side_lane_form (d : Detector) (lt : Team) allies t :
  checkSideLanePressure d lt allies = Some t ->
  exists msg, t = local CATCH_WAVE suggestion msg "CATCH_WAVE"
              /\ Js.truthy_str msg = true.
Proof.
  unfold checkSideLanePressure.
  destruct (laneCheck d lt allies "top" "TOP") as [w|] eqn:Htop.
  - intros [= <-]. eapply laneCheck_form; eauto.
  - apply laneCheck_form.
Qed.

Lemma evaluateFor_needs (lt : Team) (lname : string) (s : Snapshot)
      (ap : ActivePlayer) (d : Detector) (t : TriggerResult) :
  In t (snd (evaluateFor lt lname s ap d)) ->
  needs lt lname s ap d t /\ well_classified t.
Proof.
  unfold evaluateFor. cbv zeta. cbn [snd]. intros Ht. rewrite <- !app_assoc in Ht.
  repeat (apply in_app_or in Ht; destruct Ht as [Ht|Ht]).
  - apply when_In_cond in Ht. destruct Ht as [Hb ->].
    apply andb_true_iff in Hb. destruct Hb as [Hb _]. apply Z.ltb_lt in Hb.
    split; [exact Hb|]. repeat split; discriminate.
  - apply when_In_cond in Ht. destruct Ht as [Hb ->].
    apply andb_true_iff in Hb. destruct Hb as [Hb _].
    apply andb_true_iff in Hb. destruct Hb as [Hb _].
    split; [exact Hb|reflexivity].
  - apply when_In_cond in Ht. destruct Ht as [Hb ->].
    apply andb_true_iff in Hb. destruct Hb as [Hb _].
    apply andb_true_iff in Hb. destruct Hb as [Hb _].
    split; [exact Hb|]. repeat split; discriminate.
  - apply when_In_cond in Ht. destruct Ht as [Hb ->].
    apply andb_true_iff in Hb. destruct Hb as [Hb Hd].
    apply andb_true_iff in Hb. destruct Hb as [Hb _]. apply Z.leb_le in Hd.
    split; [split; [exact Hb|exact Hd]|]. repeat split; discriminate.
  - destruct (Js.Qltb 840 (gameTime s)) eqn:Hg; [|contradiction].
    destruct (checkSideLanePressure _ _ _) as [w|] eqn:Hw; [|contradiction].
    destruct Ht as [<-|[]]. destruct (side_lane_form _ _ _ _ Hw) as (msg & -> & Hm).
    split; [now apply Qltb_lt|]. repeat split; [exact Hm|discriminate].
  - destruct (Js.Qltb 1500 (gameTime s)) eqn:Hg; [|contradiction].
    match type of Ht with
    | In _ (opt_list (checkWinCondition ?a ?b ?c)) =>
        destruct (checkWinCondition_cases a b c) as [Hc|Hc]; rewrite Hc in Ht
    end; [contradiction|].
    destruct Ht as [<-|[]].
    split; [now apply Qltb_lt|]. repeat split; discriminate.
  - apply when_In_cond in Ht. destruct Ht as [Hb ->].
    apply andb_true_iff in Hb. destruct Hb as [Hb Hd].
    apply andb_true_iff in Hb. destruct Hb as [Hi Hb].
    apply andb_true_iff in Hb. destruct Hb as [Hb _].
    apply Z.ltb_lt in Hd. apply Nat.ltb_lt in Hi.
    split; [split; [exact Hb|split; [exact Hd|exact Hi]]|].
    repeat split; discriminate.
  - apply when_In_cond in Ht. destruct Ht as [_ ->]. split; [exact I|reflexivity].
  - apply when_In_cond in Ht. destruct Ht as [Hb ->]. apply Z.leb_le in Hb.
    split; [exact Hb|reflexivity].
  - apply when_In_cond in Ht. destruct Ht as [_ ->]. split; [exact I|reflexivity].
  - apply when_In_cond in Ht. destruct Ht as [Hb ->].
    apply andb_true_iff in Hb. destruct Hb as [Hb _].
    apply andb_true_iff in Hb. destruct Hb as [Hb _].
    apply negb_true_iff in Hb. apply Z.eqb_neq in Hb.
    split; [exact Hb|reflexivity].
Qed.

(** An evaluation yields nothing, or it goes through for the local
    team and name [identify] finds. *)
Lemma evaluateSnapshot_cases (s : Snapshot) (d : Detector) :
  snd (evaluateSnapshot s d) = []
  \/ exists lt lname ap,
       activePlayer s = Some ap
       /\ identify d (allPlayers s) ap = (lname, Some lt)
       /\ evaluateSnapshot s d = evaluateFor lt lname s ap d.
Proof.
  unfold evaluateSnapshot.
  destruct (allPlayers s) as [|p0 ps] eqn:Hps; [now left|].
  destruct (activePlayer s) as [ap|]; [|now left].
  rewrite <- Hps.
  destruct (identify d (allPlayers s) ap) as [lname [lt|]] eqn:Hid; [|now left].
  right. exists lt, lname, ap. auto.
Qed.

(** ** The order of the snapshot triggers *)

(** The order in which [evaluateSnapshot] pushes its triggers. *)
Definition snapshot_order : list MacroTrigger :=
  [THROW_GUARD; BARON_WINDOW; CONTEST_SOUL; RUSH_BARON; CATCH_WAVE; WIN_CONDITION;
   BARON_BAIT; ACE; GOLD_SWING; DEATH_TIMER_LONG; POWER_SPIKE].

Lemma when_sublist (b : bool) (x : TriggerResult) :
  sublist (map trigger (when b x)) [trigger x].
Proof. destruct b; simpl; [reflexivity|apply sublist_nil_l]. Qed.

Lemma evaluateFor_order (lt : Team) (lname : string) (s : Snapshot)
      (ap : ActivePlayer) (d : Detector) :
  sublist (map trigger (snd (evaluateFor lt lname s ap d))) snapshot_order.
Proof.
  unfold evaluateFor. cbv zeta. cbn [snd]. rewrite !map_app.
  change snapshot_order
    with (([THROW_GUARD] ++ [BARON_WINDOW] ++ [CONTEST_SOUL] ++ [RUSH_BARON]
             ++ [CATCH_WAVE])
            ++ [WIN_CONDITION]
            ++ ([BARON_BAIT] ++ [ACE] ++ [GOLD_SWING] ++ [DEATH_TIMER_LONG]
                  ++ [POWER_SPIKE]))%list.
  repeat apply sublist_app; try apply when_sublist.
  - destruct (Js.Qltb 840 (gameTime s)); [|apply sublist_nil_l].
    destruct (checkSideLanePressure _ _ _) as [w|] eqn:Hw; [|apply sublist_nil_l].
    simpl. rewrite (side_lane_call _ _ _ _ Hw). reflexivity.
  - destruct (Js.Qltb 1500 (gameTime s)); [|apply sublist_nil_l].
    match goal with
    | |- context [checkWinCondition ?a ?b ?c] =>
        destruct (checkWinCondition_cases a b c) as [Hc|Hc]; rewrite Hc
    end; [apply sublist_nil_l|reflexivity].
Qed.

(** X11. The snapshot triggers come in a fixed order, each kind at most
    once: the kinds of the triggers of any evaluation form a
    subsequence of throw guard, baron window, contest soul, rush baron,
    catch wave, win condition, baron bait, ace, gold swing, long death
    timers, power spike.  (The agent's stable sort by urgency keeps
    this order among triggers of equal urgency.) *)
Theorem snapshot_triggers_ordered (s : Snapshot) (d : Detector) :
  sublist (map trigger (snd (evaluateSnapshot s d))) snapshot_order
  /\ List.NoDup (map trigger (snd (evaluateSnapshot s d))).
Proof.
  assert (H : sublist (map trigger (snd (evaluateSnapshot s d))) snapshot_order).
  { destruct (evaluateSnapshot_cases s d) as [->|(lt & lname & ap & _ & _ & ->)].
    - apply sublist_nil_l.
    - apply evaluateFor_order. }
  split; [exact H|].
  apply NoDup_ListNoDup. eapply sublist_NoDup; [|exact H].
  unfold snapshot_order. apply NoDup_ListNoDup.
  repeat (constructor; [simpl; intuition discriminate|]). constructor.
Qed.

(** X12. Rush Baron and Baron Bait exclude each other: no evaluation
    of a snapshot yields both. *)
Theorem rush_and_bait_exclusive (s : Snapshot) (d : Detector) (t1 t2 : TriggerResult) :
  In t1 (snd (evaluateSnapshot s d)) -> In t2 (snd (evaluateSnapshot s d)) ->
  trigger t1 = RUSH_BARON -> trigger t2 <> BARON_BAIT.
Proof.
  destruct (evaluateSnapshot_cases s d) as [->|(lt & lname & ap & _ & _ & ->)];
    [contradiction|].
  intros H1 H2 E1 E2.
  destruct (evaluateFor_needs _ _ _ _ _ _ H1) as [N1 _].
  destruct (evaluateFor_needs _ _ _ _ _ _ H2) as [N2 _].
  unfold needs in N1, N2. rewrite E1 in N1. rewrite E2 in N2. lia.
Qed.

(** The late-game scenario with three drakes for the local team. *)
Definition soul_detector : Detector :=
  mkDetector (Some ORDER) "me" ∅ [] 0 3 0 0%Q 0%Q []
             {[ "CHAOS:mid" := 3 ]} ∅ {[ "mid" ]} ∅ ∅.

Lemma rush_and_bait_witness :
  In (local RUSH_BARON urgent "RUSH BARON — Force lose-lose trade" "BARON_CALL")
     (snd (evaluateSnapshot late_snapshot soul_detector))
  /\ Forall (fun t => trigger t <> BARON_BAIT)
            (snd (evaluateSnapshot late_snapshot soul_detector)).
Proof.
  assert (Hr : In (local RUSH_BARON urgent "RUSH BARON — Force lose-lose trade"
                         "BARON_CALL")
                  (snd (evaluateSnapshot late_snapshot soul_detector))).
  { vm_compute. tauto. }
  split; [exact Hr|].
  apply List.Forall_forall. intros t Ht.
  exact (rush_and_bait_exclusive late_snapshot soul_detector _ t Hr Ht eq_refl).
Defined.

(** X13. Baron calls need the baron.  A baron window, contest soul,
    rush baron or baron bait trigger comes only from a snapshot taken
    at 1200 s of game time or later and, when a baron kill has been
    recorded, 360 s or more after that kill. *)
Theorem baron_calls_need_baron (s : Snapshot) (d : Detector) (t : TriggerResult) :
  In t (snd (evaluateSnapshot s d)) ->
  In (trigger t) [BARON_WINDOW; CONTEST_SOUL; RUSH_BARON; BARON_BAIT] ->
  (1200 <= gameTime s)%Q
  /\ (~ (lastBaronKillTime d == 0)%Q ->
      (lastBaronKillTime d + 360 <= gameTime s)%Q).
Proof.
  destruct (evaluateSnapshot_cases s d) as [->|(lt & lname & ap & _ & _ & ->)];
    [contradiction|].
  intros Ht Hk.
  destruct (evaluateFor_needs _ _ _ _ _ _ Ht) as [N _]. unfold needs in N.
  assert (Hup : isBaronUp d (gameTime s) = true).
  { destruct Hk as [E|[E|[E|[E|[]]]]]; rewrite <- E in N; tauto. }
  unfold isBaronUp in Hup.
  destruct (Js.Qltb (gameTime s) BARON_SPAWN_TIME) eqn:Hg; [discriminate|].
  apply Qltb_ge in Hg. split; [exact Hg|].
  intros Hz. destruct (Qeq_bool (lastBaronKillTime d) 0) eqn:Hq.
  - apply Qeq_bool_iff in Hq. contradiction.
  - unfold Js.Qleb in Hup. now apply Qle_bool_iff in Hup.
Qed.

Lemma baron_calls_witness :
  In (forClaude BARON_WINDOW urgent) (snd (evaluateSnapshot late_snapshot late_detector))
  /\ (1200 <= gameTime late_snapshot)%Q.
Proof.
  assert (Hb : In (forClaude BARON_WINDOW urgent)
                  (snd (evaluateSnapshot late_snapshot late_detector))).
  { vm_compute. tauto. }
  split; [exact Hb|].
  assert (Hk : In (trigger (forClaude BARON_WINDOW urgent))
                  [BARON_WINDOW; CONTEST_SOUL; RUSH_BARON; BARON_BAIT])
    by (left; reflexivity).
  exact (proj1 (baron_calls_need_baron late_snapshot late_detector _ Hb Hk)).
Defined.

(** ** What an evaluation remembers *)

Lemma evaluateFor_state (lt : Team) (lname : string) (s : Snapshot)
      (ap : ActivePlayer) (d : Detector) :
  let d1 := fst (evaluateFor lt lname s ap d) in
  localTeam d1 = Some lt
  /\ localPlayerName d1 = lname
  /\ lastReportedGoldLead d1
     = (if 1000 <=? Z.abs (goldLeadOf lt s - lastReportedGoldLead d)
        then goldLeadOf lt s else lastReportedGoldLead d)
  /\ playerLevels d1
     = (if ap_level ap =? default 0 (playerLevels d !! Js.or_str lname "local")
        then playerLevels d
        else <[Js.or_str lname "local" := ap_level ap]> (playerLevels d)).
Proof.
  unfold evaluateFor. cbv zeta.
  cbn [fst localTeam localPlayerName lastReportedGoldLead playerLevels].
  repeat split; reflexivity.
Qed.

(** X14. A swing is reported once.  When the same snapshot is
    evaluated a second time right after the first, the second
    evaluation reports neither a gold swing nor a power spike: the
    first one has recorded the gold lead it reported and the level it
    saw. *)
Theorem swing_is_reported_once (s : Snapshot) (d : Detector) (t : TriggerResult) :
  In t (snd (evaluateSnapshot s (fst (evaluateSnapshot s d)))) ->
  trigger t <> GOLD_SWING /\ trigger t <> POWER_SPIKE.
Proof.
  unfold evaluateSnapshot at 2.
  destruct (allPlayers s) as [|p0 ps] eqn:Hps.
  { cbn [fst]. unfold evaluateSnapshot. rewrite Hps. contradiction. }
  destruct (activePlayer s) as [ap|] eqn:Hap.
  2:{ cbn [fst]. unfold evaluateSnapshot. rewrite Hps, Hap. contradiction. }
  rewrite <- Hps.
  destruct (identify d (allPlayers s) ap) as [lname [lt|]] eqn:Hid.
  - pose proof (evaluateFor_state lt lname s ap d) as Hst. cbv zeta in Hst.
    destruct Hst as (H1 & H2 & H3 & H4).
    set (d1 := fst (evaluateFor lt lname s ap d)) in *.
    assert (Hid1 : identify d1 (allPlayers s) ap = (lname, Some lt)).
    { unfold identify. now rewrite H1, H2. }
    unfold evaluateSnapshot. rewrite Hps, Hap, <- Hps, Hid1.
    intros Ht. destruct (evaluateFor_needs _ _ _ _ _ _ Ht) as [N _].
    unfold needs in N. split; intros E; rewrite E in N.
    + rewrite H3 in N.
      destruct (1000 <=? Z.abs (goldLeadOf lt s - lastReportedGoldLead d)) eqn:Hsw.
      * lia.
      * apply Z.leb_gt in Hsw. lia.
    + rewrite H4 in N.
      destruct (ap_level ap =? default 0 (playerLevels d !! Js.or_str lname "local"))
        eqn:Hl.
      * apply Z.eqb_eq in Hl. contradiction.
      * rewrite lookup_insert_eq in N. simpl in N. contradiction.
  - cbn [fst]. unfold evaluateSnapshot. rewrite Hps, Hap, <- Hps.
    assert (Hid1 : identify
                     (mkDetector None lname (playerTeamMap d) (goldHistory d)
                        (lastReportedGoldLead d) (allyDrakeCount d) (enemyDrakeCount d)
                        (lastDrakeKillTime d) (lastBaronKillTime d)
                        (recentAllyDeathTimes d) (turretsDestroyed d)
                        (allyInhibsDown d) (enemyInhibsDown d) (playerLevels d)
                        (seenEventIds d))
                     (allPlayers s) ap = (lname, None)).
    { unfold identify in *. cbn [localTeam]. destruct (localTeam d); [congruence|].
      injection Hid as <- Hf. now rewrite Hf. }
    rewrite Hid1. contradiction.
Qed.

(** A snapshot with a gold lead of 3500 for the local team. *)
Lemma swing_witness :
  In (forClaude GOLD_SWING suggestion)
     (snd (evaluateSnapshot (Macro.ahead false 870) fresh))
  /\ Forall (fun t => trigger t <> GOLD_SWING)
            (snd (evaluateSnapshot (Macro.ahead false 870)
                                   (fst (evaluateSnapshot (Macro.ahead false 870) fresh)))).
Proof.
  split; [vm_compute; tauto|].
  apply List.Forall_forall. intros t Ht.
  exact (proj1 (swing_is_reported_once (Macro.ahead false 870) fresh t Ht)).
Defined.

(** ** Local calls and calls for the LLM *)

Lemma onEvent_new (d : Detector) (ts : list TriggerResult) (e : GameEvent) :
  exists new,
    snd (onEvent (d, ts) e) = (ts ++ new)%list
    /\ Forall (fun t => localCall t = None /\ localCallType t = None) new.
Proof.
  unfold onEvent.
  repeat match goal with
         | |- context [if ?c then _ else _] => destruct c
         | |- context [match ?x with _ => _ end] => destruct x
         end; cbn [snd];
    first [ exists []; split; [symmetry; apply app_nil_r|constructor]
          | eexists; split; [reflexivity|repeat constructor] ].
Qed.

Lemma fold_new (es : list GameEvent) (d : Detector) (ts : list TriggerResult) :
  Forall (fun t => localCall t = None /\ localCallType t = None) ts ->
  Forall (fun t => localCall t = None /\ localCallType t = None)
         (snd (fold_left onEvent es (d, ts))).
Proof.
  revert d ts. induction es as [|e es IH]; intros d ts H; cbn [fold_left]; [exact H|].
  destruct (onEvent_new d ts e) as (new & Hn & Hf).
  destruct (onEvent (d, ts) e) as [d1 ts1]. cbn [snd] in Hn. subst ts1.
  apply IH. apply Forall_app. now split.
Qed.

(** X15. Local calls and calls for the LLM are kept apart.  Every
    trigger of a snapshot evaluation is either a local call, with a
    message that is not empty, a call type, and not marked for the LLM,
    or has neither message nor call type; the triggers of an event
    evaluation are never local calls.  So the agent's test on
    [localCall] before [claudeWorthy] never hides a trigger meant for
    the LLM. *)
Theorem triggers_are_classified (s : Snapshot) (es : list GameEvent) (d : Detector) :
  Forall well_classified (snd (evaluateSnapshot s d))
  /\ Forall (fun t => localCall t = None /\ localCallType t = None)
            (snd (evaluateEvents es d)).
Proof.
  split.
  - destruct (evaluateSnapshot_cases s d) as [->|(lt & lname & ap & _ & _ & ->)];
      [constructor|].
    apply List.Forall_forall. intros t Ht. now apply evaluateFor_needs in Ht.
  - apply fold_new. constructor.
Qed.

(** ** Inhibitors *)

Lemma onEvent_inhib_killed (d : Detector) (ts : list TriggerResult) (e : GameEvent)
      (tm : Team) (lane : string) :
  EventName e = "InhibKilled" ->
  eventKey e ∉ seenEventIds d ->
  parseInhibTeam (InhibKilled e) = Some tm ->
  parseInhibLane (InhibKilled e) = Some lane ->
  onEvent (d, ts) e
  = (let d' := set_seen ({[eventKey e]} ∪ seenEventIds d) d in
     if same_team (Some tm) (localTeam d)
     then set_inhibs ({[lane]} ∪ allyInhibsDown d) (enemyInhibsDown d) d'
     else set_inhibs (allyInhibsDown d) ({[lane]} ∪ enemyInhibsDown d) d',
     (ts ++ [forClaude INHIB_KILLED suggestion])%list).
Proof.
  intros Hn Hk Ht Hl. unfold onEvent.
  rewrite bool_decide_eq_false_2 by exact Hk. rewrite Hn, Ht, Hl.
  reflexivity.
Qed.

Lemma onEvent_inhib_respawned (d : Detector) (ts : list TriggerResult) (e : GameEvent)
      (tm : Team) (lane : string) :
  EventName e = "InhibRespawned" ->
  eventKey e ∉ seenEventIds d ->
  parseInhibTeam (Js.or_str (InhibRespawned e) (InhibKilled e)) = Some tm ->
  parseInhibLane (Js.or_str (InhibRespawned e) (InhibKilled e)) = Some lane ->
  onEvent (d, ts) e
  = (let d' := set_seen ({[eventKey e]} ∪ seenEventIds d) d in
     if same_team (Some tm) (localTeam d)
     then set_inhibs (allyInhibsDown d ∖ {[lane]}) (enemyInhibsDown d) d'
     else set_inhibs (allyInhibsDown d) (enemyInhibsDown d ∖ {[lane]}) d',
     ts).
Proof.
  intros Hn Hk Ht Hl. unfold onEvent.
  rewrite bool_decide_eq_false_2 by exact Hk. rewrite Hn, Ht, Hl.
  reflexivity.
Qed.

(** X16. An inhibitor that respawns is up again.  When the kill of an
    inhibitor and then its respawn are evaluated (two new events that
    name the same inhibitor, whose name gives a team and a lane), the
    lane is no longer in the set of inhibitors down of the side it was
    counted for, the other lanes and the other side's set are as
    before, and the only trigger is the one of the kill.  The side is
    the local team's when the inhibitor's team is the local team, and
    the enemy's otherwise, also while the local team is not yet
    known. *)
Theorem inhibitor_respawn_clears (d : Detector) (k r : GameEvent)
        (tm : Team) (lane : string) :
  EventName k = "InhibKilled" -> EventName r = "InhibRespawned" ->
  Js.or_str (InhibRespawned r) (InhibKilled r) = InhibKilled k ->
  parseInhibTeam (InhibKilled k) = Some tm ->
  parseInhibLane (InhibKilled k) = Some lane ->
  eventKey k ∉ seenEventIds d -> eventKey r ∉ seenEventIds d ->
  let d2 := fst (evaluateEvents [k; r] d) in
  snd (evaluateEvents [k; r] d) = [forClaude INHIB_KILLED suggestion]
  /\ (if same_team (Some tm) (localTeam d)
      then allyInhibsDown d2 = allyInhibsDown d ∖ {[lane]}
           /\ enemyInhibsDown d2 = enemyInhibsDown d
      else enemyInhibsDown d2 = enemyInhibsDown d ∖ {[lane]}
           /\ allyInhibsDown d2 = allyInhibsDown d).
Proof.
  intros Hk Hr Hname Ht Hl Hsk Hsr d2.
  assert (Hne : eventKey r <> eventKey k).
  { unfold eventKey. rewrite Hk, Hr. simpl. intros [=]. }
  assert (Hev : evaluateEvents [k; r] d
                = onEvent (onEvent (d, []) k) r) by reflexivity.
  rewrite (onEvent_inhib_killed d [] k tm lane Hk Hsk Ht Hl) in Hev.
  cbv zeta in Hev.
  assert (Hdiff : forall (S : gset string), ({[lane]} ∪ S) ∖ {[lane]} = S ∖ {[lane]})
    by (intros S; set_solver).
  destruct (same_team (Some tm) (localTeam d)) eqn:Hside.
  - rewrite (onEvent_inhib_respawned _ _ r tm lane) in Hev;
      [|exact Hr|cbn; set_solver|now rewrite Hname|now rewrite Hname].
    cbv zeta in Hev. cbn [localTeam set_inhibs set_seen with_events] in Hev.
    rewrite Hside in Hev. subst d2. rewrite Hev. cbn. split; [reflexivity|].
    split; [apply Hdiff|reflexivity].
  - rewrite (onEvent_inhib_respawned _ _ r tm lane) in Hev;
      [|exact Hr|cbn; set_solver|now rewrite Hname|now rewrite Hname].
    cbv zeta in Hev. cbn [localTeam set_inhibs set_seen with_events] in Hev.
    rewrite Hside in Hev. subst d2. rewrite Hev. cbn. split; [reflexivity|].
    split; [apply Hdiff|reflexivity].
Qed.

(** The top-lane inhibitor of the enemy falls and respawns. *)
Definition inhib_killed : GameEvent :=
  mkEvent 7 "InhibKilled" 1500 "me" EmptyString EmptyString EmptyString
          EmptyString "Barracks_T2_L1" EmptyString.
Definition inhib_respawned : GameEvent :=
  mkEvent 9 "InhibRespawned" 1800 EmptyString EmptyString EmptyString EmptyString
          EmptyString EmptyString "Barracks_T2_L1".

Lemma inhibitor_respawn_witness :
  enemyInhibsDown (fst (evaluateEvents [inhib_killed; inhib_respawned] late_detector))
  = enemyInhibsDown late_detector ∖ {["top"]}.
Proof.
  assert (Hs : forall e, eventKey e ∉ seenEventIds late_detector).
  { intros e. apply not_elem_of_empty. }
  destruct (inhibitor_respawn_clears late_detector inhib_killed inhib_respawned
              CHAOS "top" eq_refl eq_refl eq_refl eq_refl eq_refl
              (Hs inhib_killed) (Hs inhib_respawned)) as [_ H].
  exact (proj1 H).
Defined.

End DetectorFacts.

(* ===================================================================== *)
(** * More on the live advisor *)
(* ===================================================================== *)

Module AdvisorFacts.
Import LiveClient Triggers Macro MacroTool MacroFacts.

(** ** The cooldown is neither global nor for every call *)

Definition started : Agent := onActivate (mkAgent fresh None [] 0 false 0).

(** The LLM answers a hand-over with two calls half a second apart. *)
Definition two_toasts : list input2 :=
  [ Live (SnapshotIn T0 T0 (ahead false 870));
    EmitMacroCall (T0 + 3000) "PLAY_SAFE" "urgent" "Do not fight." None;
    EmitMacroCall (T0 + 3500) "GROUP_MID" "suggestion" "Group and reset." None ].

(** C1, as stated, fails, in two ways.  The macro calls the LLM sends
    through [emit_macro_call] are put on the overlay channel without
    the cooldown test: here two of them, 500 ms apart.  And the
    cooldown clock starts anew at each activation: here a hand-over to
    the LLM, a deactivation and an activation, and a hand-over 15 000
    ms after the first. *)
Lemma cooldown_is_not_global :
  snd (sent two_toasts started) = [(T0 + 3000, 1); (T0 + 3500, 2)]
  /\ (T0 + 3500) - (T0 + 3000) < MIN_ADVICE_INTERVAL
  /\ map dispatch_time (snd (run [SnapshotIn T0 T0 (ahead false 870)] started)) = [T0]
  /\ map dispatch_time
         (snd (run [SnapshotIn (T0 + 15000) (T0 + 15000) (ahead false 885)]
                   (onActivate
                      (onDeactivate
                         (fst (run [SnapshotIn T0 T0 (ahead false 870)] started))))))
     = [T0 + 15000]
  /\ (T0 + 15000) - T0 < MIN_ADVICE_INTERVAL.
Proof.
  split; [vm_compute; reflexivity|]. split; [unfold MIN_ADVICE_INTERVAL; lia|].
  split; [vm_compute; reflexivity|]. split; [vm_compute; reflexivity|].
  unfold MIN_ADVICE_INTERVAL. lia.
Qed.

(** ** The most urgent trigger is acted upon *)

Lemma sort_nil (l : list TriggerResult) : sort l = [] -> l = [].
Proof.
  destruct l as [|x l]; [reflexivity|]. simpl.
  destruct (sort l) as [|y r]; simpl; [discriminate|].
  destruct (priority (urgency x) <=? priority (urgency y)); discriminate.
Qed.

(** The head of the sorted array is the first of the most urgent
    triggers of the array. *)
Lemma sort_head (l : list TriggerResult) (top : TriggerResult) rest :
  sort l = top :: rest ->
  exists l1 l2,
    l = (l1 ++ top :: l2)%list
    /\ Forall (fun t => priority (urgency top) < priority (urgency t)) l1
    /\ Forall (fun t => priority (urgency top) <= priority (urgency t)) l2.
Proof.
  revert top rest. induction l as [|x l IH]; intros top rest; [discriminate|].
  simpl. destruct (sort l) as [|y r] eqn:Hs.
  - apply sort_nil in Hs. subst l. simpl. intros [= <- <-].
    exists [], []. repeat split; constructor.
  - specialize (IH y r eq_refl). destruct IH as (l1 & l2 & -> & H1 & H2).
    simpl. destruct (priority (urgency x) <=? priority (urgency y)) eqn:Hle.
    + apply Z.leb_le in Hle. intros [= <- <-].
      exists [], (l1 ++ y :: l2)%list. split; [reflexivity|]. split; [constructor|].
      apply Forall_app. split.
      * eapply List.Forall_impl; [|exact H1]. simpl. intros t Ht. lia.
      * constructor; [exact Hle|].
        eapply List.Forall_impl; [|exact H2]. simpl. intros t Ht. lia.
    + apply Z.leb_gt in Hle. intros [= <- <-].
      exists (x :: l1), l2. split; [reflexivity|]. split; [|exact H2].
      constructor; [exact Hle|exact H1].
Qed.

(** X17. The most urgent trigger is acted upon.  Whatever
    [#handleSnapshot] dispatches comes from the first of the most
    urgent triggers of the evaluation, in the order the detector pushed
    them: a local call carries its message, type and urgency; a
    hand-over to the LLM happens only when that trigger has no local
    message and is marked for the LLM, and passes on all triggers
    marked for the LLM. *)
Theorem most_urgent_trigger_first (now now' : Z) (s : Snapshot) (a : Agent)
        (dp : dispatch) :
  In dp (snd (handleSnapshot now now' s a)) ->
  exists top l1 l2,
    snd (evaluateSnapshot s (triggerDetector a)) = (l1 ++ top :: l2)%list
    /\ Forall (fun t => priority (urgency top) < priority (urgency t)) l1
    /\ Forall (fun t => priority (urgency top) <= priority (urgency t)) l2
    /\ match dp with
       | LocalCall _ c =>
           truthy_call (localCall top) = true
           /\ message c = localCall top /\ call_type c = localCallType top
           /\ call_urgency c = urgency top
       | ClaudeInvoke _ ts =>
           truthy_call (localCall top) = false /\ claudeWorthy top = true
           /\ ts = List.filter claudeWorthy
                     (sort (snd (evaluateSnapshot s (triggerDetector a))))
       end.
Proof.
  unfold handleSnapshot.
  destruct (allPlayers s) as [|p ps]; [contradiction|].
  destruct (activePlayer s) as [ap|]; [|contradiction].
  cbn [triggerDetector].
  destruct (evaluateSnapshot s (triggerDetector a)) as [d triggers].
  destruct triggers as [|t0 ts]; [contradiction|].
  cbn [set_detector lastAdviceTime snd].
  destruct (now - lastAdviceTime a <? MIN_ADVICE_INTERVAL); [contradiction|].
  destruct (sort (t0 :: ts)) as [|top rest] eqn:Hs; [contradiction|].
  destruct (sort_head _ _ _ Hs) as (l1 & l2 & Hl & H1 & H2).
  intros Hin. exists top, l1, l2.
  split; [exact Hl|]. split; [exact H1|]. split; [exact H2|].
  destruct (truthy_call (localCall top)) eqn:Ht.
  - unfold emitLocalCall in Hin. destruct Hin as [<-|[]]. repeat split.
  - destruct (claudeWorthy top) eqn:Hw; [|contradiction].
    unfold maybeInvokeClaude in Hin. cbn [invoking latestSnapshot] in Hin.
    destruct (invoking a); [contradiction|].
    destruct Hin as [<-|[]]. repeat split.
Qed.

(** The late-game scenario reaches an agent that has not spoken yet. *)
Definition late_agent : Agent := mkAgent late_detector None [] 0 false 0.

Lemma most_urgent_witness :
  snd (handleSnapshot T0 T0 late_snapshot late_agent)
  = [ClaudeInvoke T0 [forClaude BARON_WINDOW urgent;
                      forClaude DEATH_TIMER_LONG suggestion]]
  /\ exists top l1 l2,
       snd (evaluateSnapshot late_snapshot (triggerDetector late_agent))
       = (l1 ++ top :: l2)%list
       /\ Forall (fun t => priority (urgency top) < priority (urgency t)) l1
       /\ Forall (fun t => priority (urgency top) <= priority (urgency t)) l2
       /\ truthy_call (localCall top) = false /\ claudeWorthy top = true.
Proof.
  assert (Hout : snd (handleSnapshot T0 T0 late_snapshot late_agent)
                 = [ClaudeInvoke T0 [forClaude BARON_WINDOW urgent;
                                     forClaude DEATH_TIMER_LONG suggestion]])
    by (vm_compute; reflexivity).
  split; [exact Hout|].
  destruct (most_urgent_trigger_first T0 T0 late_snapshot late_agent
              (ClaudeInvoke T0 [forClaude BARON_WINDOW urgent;
                                forClaude DEATH_TIMER_LONG suggestion]))
    as (top & l1 & l2 & H1 & H2 & H3 & H4 & H5 & _).
  { rewrite Hout. now left. }
  exists top, l1, l2. auto.
Defined.

(** ** One LLM call at a time *)

Definition is_claude (d : dispatch) : bool :=
  match d with ClaudeInvoke _ _ => true | LocalCall _ _ => false end.

(** The settled LLM calls among the inputs. *)
Fixpoint settled_calls (ins : list input) : nat :=
  match ins with
  | [] => 0
  | InvokeSettled :: rest => S (settled_calls rest)
  | _ :: rest => settled_calls rest
  end.

Definition claude_step (a : Agent) (r : Agent * list dispatch) : Prop :=
  if invoking a
  then List.filter is_claude (snd r) = [] /\ invoking (fst r) = true
  else (List.filter is_claude (snd r) = [] /\ invoking (fst r) = false)
       \/ (List.length (List.filter is_claude (snd r)) = 1%nat
           /\ invoking (fst r) = true).

Lemma claude_step_quiet (a a' : Agent) :
  invoking a' = invoking a -> claude_step a (a', []).
Proof.
  intros H. unfold claude_step. cbn [fst snd]. rewrite H.
  destruct (invoking a); [split|left; split]; reflexivity.
Qed.

Lemma maybeInvokeClaude_step now' ts a a0 :
  invoking a = invoking a0 ->
  claude_step a0 (maybeInvokeClaude now' ts a).
Proof.
  intros H. unfold maybeInvokeClaude, claude_step. rewrite <- H.
  destruct (invoking a) eqn:Hi; cbn [fst snd]; [now split|].
  destruct (latestSnapshot a); cbn [fst snd filter is_claude invoking].
  - right. now split.
  - left. now split.
Qed.

Lemma handleSnapshot_step now now' s a : claude_step a (handleSnapshot now now' s a).
Proof.
  unfold handleSnapshot.
  destruct (allPlayers s) as [|p ps]; [now apply claude_step_quiet|].
  destruct (activePlayer s) as [ap|]; [|now apply claude_step_quiet].
  cbn [triggerDetector].
  destruct (evaluateSnapshot s (triggerDetector a)) as [d triggers].
  destruct triggers as [|t0 ts]; [now apply claude_step_quiet|].
  cbn [set_detector lastAdviceTime].
  destruct (now - lastAdviceTime a <? MIN_ADVICE_INTERVAL);
    [now apply claude_step_quiet|].
  destruct (sort (t0 :: ts)) as [|top rest]; [now apply claude_step_quiet|].
  destruct (truthy_call (localCall top)).
  - unfold emitLocalCall, claude_step. cbn [fst snd invoking filter is_claude].
    destruct (invoking a); [now split|left; now split].
  - destruct (claudeWorthy top); [|now apply claude_step_quiet].
    now apply maybeInvokeClaude_step.
Qed.

Lemma handleNewEvents_step now now' es a : claude_step a (handleNewEvents now now' es a).
Proof.
  unfold handleNewEvents.
  destruct (evaluateEvents es (triggerDetector a)) as [d triggers].
  destruct triggers as [|t0 ts]; [now apply claude_step_quiet|].
  cbn [lastAdviceTime].
  destruct (now - lastAdviceTime a <? MIN_ADVICE_INTERVAL);
    [now apply claude_step_quiet|].
  destruct (List.filter claudeWorthy (t0 :: ts)) as [|w ws];
    [now apply claude_step_quiet|].
  now apply maybeInvokeClaude_step.
Qed.

(** X18. One LLM call at a time.  Along any run of the advisor, the
    number of hand-overs to the LLM never exceeds the number of LLM
    calls that have settled by more than one (by none if a call was in
    flight at the start): a new call starts only after the one before
    it has returned.  Triggers for the LLM that arrive meanwhile are
    dropped. *)
Theorem one_llm_call_at_a_time (ins : list input) (a : Agent) :
  (List.length (List.filter is_claude (snd (run ins a)))
   <= settled_calls ins + (if invoking a then 0 else 1))%nat.
Proof.
  revert a. induction ins as [|i ins IH]; intros a.
  { simpl. destruct (invoking a); lia. }
  assert (Hstep : forall r : Agent * list dispatch,
             claude_step a r ->
             (List.length (List.filter is_claude (snd r ++ snd (run ins (fst r))))
              <= settled_calls ins + (if invoking a then 0 else 1))%nat).
  { intros r Hr. rewrite List.filter_app, length_app.
    specialize (IH (fst r)). unfold claude_step in Hr.
    destruct (invoking a).
    - destruct Hr as [Hn Hi]. rewrite Hn, Hi in *. simpl. lia.
    - destruct Hr as [[Hn Hi]|[Hn Hi]]; rewrite Hn, Hi in *; simpl; lia. }
  destruct i as [now now' s|now now' es|]; cbn [run handle settled_calls].
  - specialize (Hstep _ (handleSnapshot_step now now' s a)).
    destruct (handleSnapshot now now' s a) as [a1 out1]. cbn [fst snd] in Hstep.
    destruct (run ins a1) as [a2 out2]. exact Hstep.
  - specialize (Hstep _ (handleNewEvents_step now now' es a)).
    destruct (handleNewEvents now now' es a) as [a1 out1]. cbn [fst snd] in Hstep.
    destruct (run ins a1) as [a2 out2]. exact Hstep.
  - specialize (IH (invokeSettled a)). cbn [invokeSettled invoking] in IH.
    destruct (run ins (invokeSettled a)) as [a2 out2]. cbn [snd app] in *.
    destruct (invoking a); lia.
Qed.

(** ** The event buffer *)

(** The last [k] entries of an array: [l.slice(-k)]. *)
Definition latest {A} (k : nat) (l : list A) : list A :=
  skipn (List.length l - k) l.

(** The events the client delivered, batch after batch. *)
Fixpoint delivered (ins : list input) : list GameEvent :=
  match ins with
  | [] => []
  | EventsIn _ _ es :: rest => (es ++ delivered rest)%list
  | _ :: rest => delivered rest
  end.

Lemma latest_length {A} (k : nat) (l : list A) : (List.length (latest k l) <= k)%nat.
Proof. unfold latest. rewrite length_skipn. lia. Qed.

Lemma latest_app {A} (k : nat) (l es : list A) :
  latest k (latest k l ++ es) = latest k (l ++ es).
Proof.
  unfold latest. rewrite !length_app, length_skipn.
  destruct (Nat.le_gt_cases (List.length l) k) as [H|H].
  - replace (List.length l - k)%nat with 0%nat by lia. simpl.
    now replace (List.length l - 0)%nat with (List.length l) by lia.
  - rewrite !skipn_app, length_skipn, skipn_skipn.
    f_equal; [f_equal; lia|f_equal; lia].
Qed.

Lemma handle_recent (i : input) (a : Agent) :
  recentEvents (fst (handle i a))
  = match i with
    | EventsIn _ _ es =>
        if (30 <? List.length (recentEvents a ++ es))%nat
        then latest 30 (recentEvents a ++ es) else (recentEvents a ++ es)%list
    | _ => recentEvents a
    end.
Proof.
  destruct i as [now now' s|now now' es|]; [| |reflexivity].
  - unfold handle, handleSnapshot.
    destruct (allPlayers s) as [|p ps]; [reflexivity|].
    destruct (activePlayer s) as [ap|]; [|reflexivity].
    cbn [triggerDetector].
    destruct (evaluateSnapshot s (triggerDetector a)) as [d triggers].
    destruct triggers as [|t0 ts]; [reflexivity|].
    cbn [set_detector lastAdviceTime].
    destruct (now - lastAdviceTime a <? MIN_ADVICE_INTERVAL); [reflexivity|].
    destruct (sort (t0 :: ts)) as [|top rest]; [reflexivity|].
    destruct (truthy_call (localCall top)); [reflexivity|].
    destruct (claudeWorthy top); [|reflexivity].
    unfold maybeInvokeClaude. cbn [invoking latestSnapshot].
    destruct (invoking a); reflexivity.
  - unfold handle, handleNewEvents, latest.
    destruct (evaluateEvents es (triggerDetector a)) as [d triggers].
    destruct triggers as [|t0 ts]; [reflexivity|].
    cbn [lastAdviceTime].
    destruct (now - lastAdviceTime a <? MIN_ADVICE_INTERVAL); [reflexivity|].
    destruct (List.filter claudeWorthy (t0 :: ts)) as [|w ws]; [reflexivity|].
    unfold maybeInvokeClaude. cbn [invoking latestSnapshot].
    destruct (invoking a); [reflexivity|].
    destruct (latestSnapshot a); reflexivity.
Qed.

Lemma handle_recent_latest (i : input) (a : Agent) (all : list GameEvent) :
  recentEvents a = latest 30 all ->
  recentEvents (fst (handle i a))
  = latest 30 (all ++ match i with EventsIn _ _ es => es | _ => [] end).
Proof.
  intros Ha. rewrite handle_recent. destruct i as [now now' s|now now' es|].
  - now rewrite app_nil_r.
  - rewrite Ha, <- (latest_app 30 all es).
    destruct (30 <? List.length (latest 30 all ++ es))%nat eqn:Hlen; [reflexivity|].
    apply Nat.ltb_ge in Hlen. symmetry. unfold latest at 1.
    now replace (List.length (latest 30 all ++ es) - 30)%nat with 0%nat by lia.
  - now rewrite app_nil_r.
Qed.

Lemma run_recent (ins : list input) (a : Agent) (all : list GameEvent) :
  recentEvents a = latest 30 all ->
  recentEvents (fst (run ins a)) = latest 30 (all ++ delivered ins).
Proof.
  revert a all. induction ins as [|i ins IH]; intros a all Ha.
  { simpl. now rewrite app_nil_r. }
  pose proof (handle_recent_latest i a all Ha) as H1.
  cbn [run]. destruct (handle i a) as [a1 out1]. cbn [fst] in H1.
  specialize (IH a1 _ H1). destruct (run ins a1) as [a2 out2]. cbn [fst] in *.
  rewrite IH. destruct i; cbn [delivered]; rewrite <- ?app_assoc; reflexivity.
Qed.

(** X19. The event buffer holds the latest thirty events.  Along any
    run of the advisor since its activation, [#recentEvents] is the
    last 30 of all the events delivered so far, in order (all of them
    while there are fewer); it never holds more than 30 entries. *)
Theorem recent_events_are_the_latest (ins : list input) (a0 : Agent) :
  recentEvents (fst (run ins (onActivate a0))) = latest 30 (delivered ins)
  /\ (List.length (recentEvents (fst (run ins (onActivate a0)))) <= 30)%nat.
Proof.
  assert (H : recentEvents (fst (run ins (onActivate a0))) = latest 30 (delivered ins)).
  { apply (run_recent ins (onActivate a0) []). reflexivity. }
  split; [exact H|]. rewrite H. apply latest_length.
Qed.

(** ** The ids of the calls *)

Definition counter_step (a : Agent) (a' : Agent) (ids : list (Z * Z)) : Prop :=
  (ids = [] /\ callCounter a' = callCounter a)
  \/ (exists ts, ids = [(ts, callCounter a + 1)]
                 /\ callCounter a' = callCounter a + 1).

Lemma handle_counter (i : input) (a : Agent) :
  counter_step a (fst (handle i a)) (local_ids (snd (handle i a))).
Proof.
  unfold counter_step.
  destruct i as [now now' s|now now' es|]; [| |left; split; reflexivity].
  - unfold handle, handleSnapshot.
    destruct (allPlayers s) as [|p ps]; [left; split; reflexivity|].
    destruct (activePlayer s) as [ap|]; [|left; split; reflexivity].
    cbn [triggerDetector].
    destruct (evaluateSnapshot s (triggerDetector a)) as [d triggers].
    destruct triggers as [|t0 ts]; [left; split; reflexivity|].
    cbn [set_detector lastAdviceTime].
    destruct (now - lastAdviceTime a <? MIN_ADVICE_INTERVAL); [left; split; reflexivity|].
    destruct (sort (t0 :: ts)) as [|top rest]; [left; split; reflexivity|].
    destruct (truthy_call (localCall top)).
    + right. eexists. split; reflexivity.
    + destruct (claudeWorthy top); [|left; split; reflexivity].
      unfold maybeInvokeClaude. cbn [invoking latestSnapshot].
      destruct (invoking a); left; split; reflexivity.
  - unfold handle, handleNewEvents.
    destruct (evaluateEvents es (triggerDetector a)) as [d triggers].
    destruct triggers as [|t0 ts]; [left; split; reflexivity|].
    cbn [lastAdviceTime].
    destruct (now - lastAdviceTime a <? MIN_ADVICE_INTERVAL); [left; split; reflexivity|].
    destruct (List.filter claudeWorthy (t0 :: ts)) as [|w ws]; [left; split; reflexivity|].
    unfold maybeInvokeClaude. cbn [invoking latestSnapshot].
    destruct (invoking a); [left; split; reflexivity|].
    destruct (latestSnapshot a); left; split; reflexivity.
Qed.

Lemma handle2_counter (i : input2) (a : Agent) :
  counter_step a (fst (handle2 i a)) (snd (handle2 i a)).
Proof.
  destruct i as [i|now type urg msg w]; cbn [handle2].
  - pose proof (handle_counter i a) as H.
    destruct (handle i a) as [a' out]. exact H.
  - right. eexists. split; reflexivity.
Qed.

Lemma sent_counters (ins : list input2) (a : Agent) :
  StronglySorted Z.lt (map snd (snd (sent ins a)))
  /\ Forall (fun id => callCounter a < snd id) (snd (sent ins a)).
Proof.
  revert a. induction ins as [|i ins IH]; intros a; [split; constructor|].
  cbn [sent]. pose proof (handle2_counter i a) as Hc.
  destruct (handle2 i a) as [a1 out1]. cbn [fst snd] in Hc.
  destruct (IH a1) as [Hs Hf]. destruct (sent ins a1) as [a2 out2]. cbn [snd] in *.
  destruct Hc as [[-> Hk]|(ts & -> & Hk)]; rewrite Hk in Hf.
  - split; assumption.
  - split.
    + simpl. constructor; [exact Hs|].
      apply List.Forall_forall. intros c Hin. apply in_map_iff in Hin.
      destruct Hin as (id & <- & Hid). rewrite List.Forall_forall in Hf. exact (Hf _ Hid).
    + constructor; [simpl; lia|].
      eapply List.Forall_impl; [|exact Hf]. simpl. intros id Hid. lia.
Qed.

Lemma sorted_lt_NoDup (l : list Z) : StronglySorted Z.lt l -> List.NoDup l.
Proof.
  induction 1 as [|x l Hs IH Hx]; constructor; [|exact IH].
  intros Hin. rewrite List.Forall_forall in Hx. specialize (Hx _ Hin). lia.
Qed.

(** X20. Call ids are unique.  The calls the advisor sends to the
    overlay, local calls and the calls the LLM emits through its tool
    alike, carry counters that strictly increase from the counter at
    the start of the run on; so no two calls of an activation share an
    id [macro-<time>-<counter>]. *)
Theorem call_ids_are_unique (ins : list input2) (a : Agent) :
  StronglySorted Z.lt (map snd (snd (sent ins a)))
  /\ Forall (fun id => callCounter a < snd id) (snd (sent ins a))
  /\ List.NoDup (snd (sent ins a)).
Proof.
  destruct (sent_counters ins a) as [Hs Hf].
  split; [exact Hs|]. split; [exact Hf|].
  apply (NoDup_map_inv snd). now apply sorted_lt_NoDup.
Qed.

End AdvisorFacts.

(* ===================================================================== *)
(** * The orchestrator from turn to turn *)
(* ===================================================================== *)

Module OrchestratorTurnFacts.
Import Phase Orchestrator OrchestratorTurns.

Lemma settle_resume_app (rs tail : list reaction) (ag : list (string * Instance)) :
  Forall is_resume rs ->
  settle (rs ++ tail) ag
  = (let '(ag', kept, out) := settle tail ag in (ag', (rs ++ kept)%list, out)).
Proof.
  induction 1 as [|r rs Hr _ IH]; simpl.
  - destruct (settle tail ag) as [[? ?] ?]; reflexivity.
  - destruct r; [|contradiction]. rewrite IH.
    destruct (settle tail ag) as [[? ?] ?]; reflexivity.
Qed.

Lemma settle_resume (rs : list reaction) (ag : list (string * Instance)) :
  Forall is_resume rs -> settle rs ag = (ag, rs, []).
Proof.
  intros H. rewrite <- (app_nil_r rs) at 1.
  rewrite (settle_resume_app _ _ _ H). simpl. now rewrite app_nil_r.
Qed.

(** The tidy states, phase by phase. *)
Lemma tidy_cases (st : State) :
  tidy st ->
  Forall is_resume (reactions st)
  /\ (activeAgents st = []
      \/ (machine st = CHAMP_SELECT
          /\ activeAgents st = [("drafting-oracle", mkInstance DraftingOracle true)])
      \/ (machine st = IN_GAME
          /\ activeAgents st = [("macro-strategist", mkInstance MacroStrategist true)])
      \/ (machine st = POST_GAME
          /\ activeAgents st = [("tilt-guard", mkInstance TiltGuard true)])).
Proof.
  intros [Hr [He|(a & c & Ha & Hp & Hc)]]; (split; [exact Hr|]); [now left|].
  right. destruct (machine st); try discriminate Hp;
    injection Hp as <-; vm_compute in Hc; injection Hc as <-; auto.
Qed.

Lemma sync_phaseChanged (to : GamePhase) (m : Machine) ag se rs :
  sync (PhaseChanged to) (mkState m ag se rs)
  = if GamePhase_eqb to m then (mkState m ag se rs, [], 0%nat)
    else let (st', o) := onPhaseTransition m to (mkState to ag se rs) in
         (st', map Seen o, 0%nat).
Proof.
  unfold sync, transition. cbn [machine activeAgents settings reactions].
  destruct (GamePhase_eqb to m) eqn:E; [reflexivity|].
  destruct (includes (VALID_TRANSITIONS m) to); reflexivity.
Qed.

Ltac settle_with Hr :=
  rewrite <- ?app_assoc;
  repeat first [rewrite (settle_resume_app _ _ _ Hr) | rewrite (settle_resume _ _ Hr)];
  cbn -[settingKey bool_decide lookup].

Ltac tidy_now Hr :=
  split;
  [ cbn [reactions]; rewrite ?Forall_app; repeat split; auto; repeat constructor
  | cbn [activeAgents machine];
    first [ left; reflexivity
          | right; eexists _, _; split; [reflexivity|]; split; reflexivity ] ].

(** A phase notification, from a tidy state. *)
Lemma phaseChanged_turn (to : GamePhase) (st : State) :
  tidy st ->
  let st' := fst (happen (Call (PhaseChanged to)) st) in
  tidy st'
  /\ machine st' = to
  /\ (to = machine st -> activeAgents st' = activeAgents st)
  /\ (to <> machine st ->
      match PHASE_AGENT_MAP to with
      | None => activeAgents st' = []
      | Some b =>
          if bool_decide (settings st !! settingKey b = Some "false")
          then activeAgents st' = []
          else exists c, createAgent b = Some c
                         /\ activeAgents st' = [(b, mkInstance c true)]
      end).
Proof.
  intros Ht st'. subst st'.
  destruct (tidy_cases st Ht) as [Hr Hc]. clear Ht.
  destruct st as [m ag se rs]. cbn [machine activeAgents settings reactions] in *.
  unfold happen, turn, syncs. rewrite sync_phaseChanged.
  destruct Hc as [->|[[-> ->]|[[-> ->]|[-> ->]]]]; [destruct m| | |]; destruct to;
    cbn [GamePhase_eqb]; unfold flush; cbn -[settingKey bool_decide lookup];
    try destruct (bool_decide _) eqn:Hd; cbn -[settingKey bool_decide lookup];
    settle_with Hr;
    (split; [tidy_now Hr|]; split; [reflexivity|]; split; [intros; congruence|];
     intros Hne; try congruence;
     try reflexivity; try (rewrite Hd); try reflexivity; try (eexists; split; reflexivity)).
Qed.

(** X21. What a phase change leaves behind.  From a state between
    turns in which the advisor of the phase, if there is one, is
    active, a phase notification whose string stands for the phase
    [to] moves the machine to [to].  When that is the phase the
    machine is in, the advisors are left as they are.  Otherwise,
    once the turn is over, the advisor of the new phase is the only
    one live, active and of its class, unless the new phase has none
    or its setting is the string false, in which case no advisor is
    live. *)
Theorem phase_change_settles (to : GamePhase) (st : State) :
  tidy st ->
  let st' := fst (happen (Call (PhaseChanged to)) st) in
  machine st' = to
  /\ (to = machine st -> activeAgents st' = activeAgents st)
  /\ (to <> machine st ->
      match PHASE_AGENT_MAP to with
      | None => activeAgents st' = []
      | Some b =>
          if bool_decide (settings st !! settingKey b = Some "false")
          then activeAgents st' = []
          else exists c, createAgent b = Some c
                         /\ activeAgents st' = [(b, mkInstance c true)]
      end).
Proof. intros Ht. exact (proj2 (phaseChanged_turn to st Ht)). Qed.

Lemma tidy_in_game : tidy in_game.
Proof.
  split; [constructor|]. right. exists "macro-strategist", MacroStrategist.
  repeat split.
Qed.

Lemma phase_change_witness :
  tidy in_game
  /\ activeAgents (fst (happen (Call (PhaseChanged POST_GAME)) in_game))
     = [("tilt-guard", mkInstance TiltGuard true)].
Proof.
  split; [exact tidy_in_game|].
  destruct (phase_change_settles POST_GAME in_game tidy_in_game) as (_ & _ & H).
  assert (Hne : POST_GAME <> machine in_game) by discriminate.
  specialize (H Hne).
  change (exists c, createAgent "tilt-guard" = Some c
                    /\ activeAgents (fst (happen (Call (PhaseChanged POST_GAME)) in_game))
                       = [("tilt-guard", mkInstance c true)]) in H.
  destruct H as (c & Hc & H). vm_compute in Hc. injection Hc as <-. exact H.
Defined.

Lemma disconnected_turn (st : State) :
  tidy st ->
  tidy (fst (happen (Call Disconnected) st))
  /\ machine (fst (happen (Call Disconnected) st)) = IDLE
  /\ activeAgents (fst (happen (Call Disconnected) st)) = []
  /\ forall a i,
      activeAgents st = [(a, i)] ->
      snd (happen (Call Disconnected) st)
      = ([TrayText "Disconnected — waiting for League Client...";
          Seen (HookBegin a OnDeactivate); Seen (HookEnd a OnDeactivate);
          HideAll; Seen (TrayStatus IDLE)]
           ++ map (fun ov => Seen (OverlayHide ov)) (PHASE_OVERLAY_MAP (machine st))
           ++ [Seen (BroadcastPhase IDLE); Seen (Publish "phase:changed" EmptyString);
               SendToMain "status:update" "Disconnected — reconnecting...";
               Seen (Publish "agent:deactivated" a);
               Seen (Publish "agent:deactivated" a)])%list.
Proof.
  intros Ht.
  destruct (tidy_cases st Ht) as [Hr Hc]. clear Ht.
  destruct st as [m ag se rs]. cbn [machine activeAgents settings reactions] in *.
  unfold happen, turn, syncs.
  destruct Hc as [->|[[-> ->]|[[-> ->]|[-> ->]]]]; [destruct m| | |];
    unfold flush; cbn -[settingKey bool_decide lookup];
    settle_with Hr;
    (split; [tidy_now Hr|]; split; [reflexivity|]; split; [reflexivity|];
     intros a i Heq; try discriminate Heq; injection Heq as <- <-; reflexivity).
Qed.

(** X22. A disconnect clears everything, and says so twice.  When the
    client disconnects between turns, the machine ends in Idle and no
    advisor is live.  An advisor that was live has its deactivation
    hook run once, before the overlays are hidden, but its
    deactivation is published twice at the end of the turn: once by
    the handler's own sweep and once by the transition to Idle that
    the reset calls back while the advisor is still in the map. *)
Theorem disconnect_clears (st : State) :
  tidy st ->
  machine (fst (happen (Call Disconnected) st)) = IDLE
  /\ activeAgents (fst (happen (Call Disconnected) st)) = []
  /\ forall a i,
      activeAgents st = [(a, i)] ->
      snd (happen (Call Disconnected) st)
      = ([TrayText "Disconnected — waiting for League Client...";
          Seen (HookBegin a OnDeactivate); Seen (HookEnd a OnDeactivate);
          HideAll; Seen (TrayStatus IDLE)]
           ++ map (fun ov => Seen (OverlayHide ov)) (PHASE_OVERLAY_MAP (machine st))
           ++ [Seen (BroadcastPhase IDLE); Seen (Publish "phase:changed" EmptyString);
               SendToMain "status:update" "Disconnected — reconnecting...";
               Seen (Publish "agent:deactivated" a);
               Seen (Publish "agent:deactivated" a)])%list.
Proof. intros Ht. exact (proj2 (disconnected_turn st Ht)). Qed.

Lemma disconnect_witness :
  tidy in_game
  /\ snd (happen (Call Disconnected) in_game)
     = [TrayText "Disconnected — waiting for League Client...";
        Seen (HookBegin "macro-strategist" OnDeactivate);
        Seen (HookEnd "macro-strategist" OnDeactivate);
        HideAll; Seen (TrayStatus IDLE); Seen (OverlayHide "macro");
        Seen (BroadcastPhase IDLE); Seen (Publish "phase:changed" EmptyString);
        SendToMain "status:update" "Disconnected — reconnecting...";
        Seen (Publish "agent:deactivated" "macro-strategist");
        Seen (Publish "agent:deactivated" "macro-strategist")].
Proof.
  split; [exact tidy_in_game|].
  destruct (disconnect_clears in_game tidy_in_game) as (_ & _ & H).
  exact (H "macro-strategist" (mkInstance MacroStrategist true) eq_refl).
Defined.

Lemma pause_turn (st : State) :
  tidy st ->
  tidy (fst (happen (Call PauseAgents) st))
  /\ machine (fst (happen (Call PauseAgents) st)) = machine st
  /\ settings (fst (happen (Call PauseAgents) st)) = settings st
  /\ activeAgents (fst (happen (Call PauseAgents) st)) = [].
Proof.
  intros Ht.
  destruct (tidy_cases st Ht) as [Hr Hc]. clear Ht.
  destruct st as [m ag se rs]. cbn [machine activeAgents settings reactions] in *.
  unfold happen, turn, syncs.
  destruct Hc as [->|[[-> ->]|[[-> ->]|[-> ->]]]];
    unfold flush; cbn -[settingKey bool_decide lookup];
    settle_with Hr;
    (split; [tidy_now Hr|]; repeat split).
Qed.

Lemma resume_turn (st : State) :
  tidy st ->
  tidy (fst (happen (Call ResumeAgents) st))
  /\ forall a c,
      activeAgents st = [] -> PHASE_AGENT_MAP (machine st) = Some a ->
      createAgent a = Some c ->
      settings st !! settingKey a <> Some "false" ->
      activeAgents (fst (happen (Call ResumeAgents) st)) = [(a, mkInstance c true)].
Proof.
  intros Ht.
  destruct (tidy_cases st Ht) as [Hr Hc]. clear Ht.
  destruct st as [m ag se rs]. cbn [machine activeAgents settings reactions] in *.
  unfold happen, turn, syncs.
  destruct Hc as [->|[[-> ->]|[[-> ->]|[-> ->]]]]; [destruct m| | |];
    unfold flush; cbn -[settingKey bool_decide lookup];
    try destruct (bool_decide _) eqn:Hd; cbn -[settingKey bool_decide lookup];
    settle_with Hr;
    (split; [tidy_now Hr|]; intros a c He Hp Hc Hs; try discriminate;
     injection Hp as <-; vm_compute in Hc; injection Hc as <-;
     try reflexivity;
     apply bool_decide_eq_true_1 in Hd; contradiction).
Qed.

Lemma keysSaved_turn (st : State) :
  tidy st ->
  tidy (fst (happen KeysSaved st))
  /\ forall a i,
      activeAgents st = [(a, i)] ->
      activeAgents (fst (happen KeysSaved st)) = []
      /\ snd (happen KeysSaved st)
         = ([Seen (HookBegin a OnDeactivate); Seen (HookEnd a OnDeactivate)]
              ++ map (fun ov => Seen (OverlayShow ov)) (PHASE_OVERLAY_MAP (machine st))
              ++ [TrayText "Keys propagated — agents resumed.";
                  Seen (Publish "agent:deactivated" a); HideAll])%list.
Proof.
  intros Ht.
  destruct (tidy_cases st Ht) as [Hr Hc]. clear Ht.
  destruct st as [m ag se rs]. cbn [machine activeAgents settings reactions] in *.
  unfold happen, turn, syncs.
  destruct Hc as [->|[[-> ->]|[[-> ->]|[-> ->]]]]; [destruct m| | |];
    unfold flush; cbn -[settingKey bool_decide lookup];
    try destruct (bool_decide _) eqn:Hd; cbn -[settingKey bool_decide lookup];
    settle_with Hr;
    (split; [tidy_now Hr|]; intros a i Heq; try discriminate Heq;
     injection Heq as <- <-; split; reflexivity).
Qed.

(** The housed states, phase by phase. *)
Lemma housed_cases (st : State) :
  housed st ->
  Forall is_resume (reactions st)
  /\ (activeAgents st = []
      \/ (machine st = CHAMP_SELECT
          /\ exists act,
               activeAgents st = [("drafting-oracle", mkInstance DraftingOracle act)])
      \/ (machine st = IN_GAME
          /\ exists act,
               activeAgents st = [("macro-strategist", mkInstance MacroStrategist act)])
      \/ (machine st = POST_GAME
          /\ exists act,
               activeAgents st = [("tilt-guard", mkInstance TiltGuard act)])).
Proof.
  intros [Hr [He|(a & c & act & Ha & Hp & Hc)]]; (split; [exact Hr|]); [now left|].
  right. destruct (machine st); try discriminate Hp;
    injection Hp as <-; vm_compute in Hc; injection Hc as <-; eauto 6.
Qed.

Ltac housed_now Hr :=
  split;
  [ cbn [reactions]; rewrite ?Forall_app; repeat split; auto; repeat constructor
  | cbn [activeAgents machine];
    first [ left; reflexivity
          | right; eexists _, _, _; split; [reflexivity|]; split; reflexivity ] ].

Lemma housed_call (c : call) (st : State) :
  housed st -> housed (fst (happen (Call c) st)).
Proof.
  intros Ht.
  destruct (housed_cases st Ht) as [Hr Hc]. clear Ht.
  destruct st as [m ag se rs]. cbn [machine activeAgents settings reactions] in *.
  unfold happen, turn, syncs.
  destruct c as [to| | |]; [rewrite sync_phaseChanged| | |];
    (destruct Hc as [->|[[-> [[|] ->]]|[[-> [[|] ->]]|[-> [[|] ->]]]]];
     [destruct m| | | | | |]);
    try destruct to;
    cbn [GamePhase_eqb]; unfold flush; cbn -[settingKey bool_decide lookup];
    try destruct (bool_decide _) eqn:Hd; cbn -[settingKey bool_decide lookup];
    settle_with Hr; housed_now Hr.
Qed.

Lemma housed_keysSaved (st : State) :
  housed st -> housed (fst (happen KeysSaved st)).
Proof.
  intros Ht.
  destruct (housed_cases st Ht) as [Hr Hc]. clear Ht.
  destruct st as [m ag se rs]. cbn [machine activeAgents settings reactions] in *.
  unfold happen, turn, syncs.
  destruct Hc as [->|[[-> [[|] ->]]|[[-> [[|] ->]]|[-> [[|] ->]]]]];
    [destruct m| | | | | |];
    unfold flush; cbn -[settingKey bool_decide lookup];
    try destruct (bool_decide _) eqn:Hd; cbn -[settingKey bool_decide lookup];
    settle_with Hr; housed_now Hr.
Qed.

Lemma take_resume_Forall (agentId : string) (rs rs' : list reaction) :
  Forall is_resume rs -> take_resume agentId rs = Some rs' -> Forall is_resume rs'.
Proof.
  revert rs'. induction rs as [|r rs IH]; intros rs' Hr; [discriminate|].
  inversion Hr as [|? ? Hh Ht]; subst. cbn [take_resume].
  destruct r as [a h|a]; [|contradiction].
  destruct h.
  - destruct (String.eqb a agentId); [intros [= <-]; exact Ht|].
    destruct (take_resume agentId rs) as [l|]; [|discriminate].
    intros [= <-]. constructor; [exact I|]. now apply IH.
  - destruct (take_resume agentId rs) as [l|]; [|discriminate].
    intros [= <-]. constructor; [exact I|]. now apply IH.
Qed.

Lemma housed_startSettled (agentId : string) (rejected live : bool) (st : State) :
  housed st -> housed (fst (startSettled agentId rejected live st)).
Proof.
  intros [Hr Ha]. unfold startSettled.
  destruct (take_resume agentId (reactions st)) as [rs|] eqn:E; [|now split].
  pose proof (take_resume_Forall _ _ _ Hr E) as Hrs.
  destruct rejected; [|now split].
  split; [exact Hrs|]. cbn [activeAgents machine fst].
  destruct live; [|exact Ha].
  destruct Ha as [->|(a & c & act & -> & Hp & Hc)]; [now left|].
  right. cbn [mapGet]. destruct (String.eqb a agentId) eqn:Eq.
  - apply String.eqb_eq in Eq. subst agentId. cbn [mapSet class].
    rewrite String.eqb_refl. exists a, c, false. now split.
  - exists a, c, act. now split.
Qed.

Lemma housed_happen (h : happening) (st : State) :
  housed st -> housed (fst (happen h st)).
Proof.
  intros Ht. destruct h as [c| |k v|agentId rejected live].
  - now apply housed_call.
  - now apply housed_keysSaved.
  - exact Ht.
  - now apply housed_startSettled.
Qed.

Lemma housed_happenings (hs : list happening) (st : State) :
  housed st -> housed (fst (happenings hs st)).
Proof.
  revert st. induction hs as [|h hs IH]; intros st Ht; [exact Ht|].
  cbn [happenings].
  pose proof (housed_happen h st Ht) as H1.
  destruct (happen h st) as [st1 o1]. cbn [fst] in H1.
  specialize (IH st1 H1).
  destruct (happenings hs st1) as [st2 o2]. exact IH.
Qed.

(** X23. At most the advisor of the current phase is in the map.
    Whatever phase notifications (each standing for a phase),
    disconnects, pauses, resumes, saved keys, changes of settings and
    ends of suspended activation hooks, fulfilled or rejected, follow
    one another from the start, each in a turn of its own, at the end
    of every turn no deactivation is left half done and the map of
    advisors is either empty or holds one entry: the advisor of the
    phase the machine is in, of the class built for its name.  (It
    need not be active: an advisor whose activation hook has
    rejected stays in the map, inactive.) *)
Theorem one_advisor_per_phase (s : gmap string string) (hs : list happening) :
  let st := fst (happenings hs (initial s)) in
  Forall is_resume (reactions st)
  /\ (activeAgents st = []
      \/ exists a c act,
           activeAgents st = [(a, mkInstance c act)]
           /\ PHASE_AGENT_MAP (machine st) = Some a
           /\ createAgent a = Some c).
Proof.
  apply (housed_happenings hs (initial s)). split; [constructor|]. now left.
Qed.

(** X24. Pausing and resuming in one breath stops the advisor.  The
    timer of the key-saving handler calls the pause and the resume one
    after the other.  With an advisor live, the pause runs its
    deactivation hook but has not removed it from the map yet when the
    resume looks it up, so nothing is started; at the end of the turn
    the advisor is removed, its deactivation is published and the
    overlays the resume has just shown are hidden: no advisor is live.
    With the pause and the resume in turns of their own, the advisor
    of the phase is live again afterwards, unless its setting is the
    string false. *)
Theorem pause_and_resume_in_one_turn (st : State) (a : string) (c : AgentClass) :
  tidy st ->
  activeAgents st = [(a, mkInstance c true)] ->
  activeAgents (fst (happen KeysSaved st)) = []
  /\ snd (happen KeysSaved st)
     = ([Seen (HookBegin a OnDeactivate); Seen (HookEnd a OnDeactivate)]
          ++ map (fun ov => Seen (OverlayShow ov)) (PHASE_OVERLAY_MAP (machine st))
          ++ [TrayText "Keys propagated — agents resumed.";
              Seen (Publish "agent:deactivated" a); HideAll])%list
  /\ (settings st !! settingKey a <> Some "false" ->
      activeAgents (fst (happenings [Call PauseAgents; Call ResumeAgents] st))
      = [(a, mkInstance c true)]).
Proof.
  intros Ht Ha.
  destruct (proj2 (keysSaved_turn st Ht) _ _ Ha) as [H1 H2].
  split; [exact H1|]. split; [exact H2|].
  intros Hs. cbn [happenings].
  destruct (pause_turn st Ht) as (Ht1 & Hm1 & Hs1 & Ha1).
  destruct (happen (Call PauseAgents) st) as [st1 o1]. cbn [fst] in *.
  pose proof (proj2 (resume_turn st1 Ht1)) as Hres.
  destruct (happen (Call ResumeAgents) st1) as [st2 o2]. cbn [fst] in *.
  destruct Ht as [_ [He|(a' & c' & Ha' & Hp & Hc)]]; [congruence|].
  rewrite Ha in Ha'. injection Ha' as <- <-.
  apply Hres; [exact Ha1|now rewrite Hm1|exact Hc|now rewrite Hs1].
Qed.

Lemma pause_and_resume_witness :
  tidy in_game
  /\ activeAgents (fst (happen KeysSaved in_game)) = []
  /\ activeAgents (fst (happenings [Call PauseAgents; Call ResumeAgents] in_game))
     = [("macro-strategist", mkInstance MacroStrategist true)].
Proof.
  split; [exact tidy_in_game|].
  destruct (pause_and_resume_in_one_turn in_game "macro-strategist" MacroStrategist
              tidy_in_game eq_refl) as (H1 & _ & H3).
  split; [exact H1|]. apply H3. vm_compute. discriminate.
Defined.

End OrchestratorTurnFacts.

(* ===================================================================== *)
(** * The tilt score and the streaks *)
(* ===================================================================== *)

Module TiltFacts.
Import TiltMetrics.

(** How many matches in a row, from the first of the list, have the
    result [w]. *)
Fixpoint in_a_row (w : bool) (l : list Match) : nat :=
  match l with
  | [] => 0%nat
  | m :: rest => if Bool.eqb (win m) w then S (in_a_row w rest) else 0%nat
  end.

Lemma streakLoop_wins (l : list Match) (k : nat) :
  streakLoop l 0 (S k) = (0%nat, (S k + in_a_row true l)%nat).
Proof.
  revert k. induction l as [|m l IH]; intros k; simpl.
  - f_equal. lia.
  - destruct (win m); simpl.
    + rewrite IH. f_equal. lia.
    + f_equal. lia.
Qed.

Lemma streakLoop_losses (l : list Match) (k : nat) :
  streakLoop l (S k) 0 = ((S k + in_a_row false l)%nat, 0%nat).
Proof.
  revert k. induction l as [|m l IH]; intros k; simpl.
  - f_equal. lia.
  - destruct (win m); simpl.
    + f_equal. lia.
    + rewrite IH. f_equal. lia.
Qed.

Lemma streakLoop_spec (l : list Match) :
  streakLoop l 0 0 = (in_a_row false l, in_a_row true l).
Proof.
  destruct l as [|m l]; [reflexivity|]. simpl.
  destruct (win m); simpl.
  - now rewrite streakLoop_wins.
  - now rewrite streakLoop_losses.
Qed.

Lemma in_a_row_exclusive (l : list Match) :
  in_a_row false l = 0%nat \/ in_a_row true l = 0%nat.
Proof. destruct l as [|m l]; [now left|]. simpl. destruct (win m); simpl; auto. Qed.

Lemma in_a_row_length (l : list Match) :
  (in_a_row false l + in_a_row true l <= List.length l)%nat.
Proof. induction l as [|m l IH]; simpl; [lia|]. destruct (win m); simpl; lia. Qed.

Lemma buildTiltMetrics_fields (ms : list Match) (latest : option Match) (fl : Measured) :
  let metrics := buildTiltMetrics ms latest fl in
  current_loss_streak metrics = Z.of_nat (in_a_row false (rev ms))
  /\ current_win_streak metrics = Z.of_nat (in_a_row true (rev ms))
  /\ session_games_played metrics = Z.of_nat (List.length ms)
  /\ surrender_votes metrics = 0.
Proof.
  unfold buildTiltMetrics. rewrite streakLoop_spec. cbn. repeat split.
Qed.

(** X25. The streaks are the run that ends the session.  The loss
    streak is the number of losses in a row at the end of the session
    and the win streak the number of wins in a row at its end, so at
    most one of the two is not zero and together they do not exceed
    the number of games played. *)
Theorem streaks_end_the_session (ms : list Match) (latest : option Match)
        (fl : Measured) :
  let metrics := buildTiltMetrics ms latest fl in
  current_loss_streak metrics = Z.of_nat (in_a_row false (rev ms))
  /\ current_win_streak metrics = Z.of_nat (in_a_row true (rev ms))
  /\ (current_loss_streak metrics = 0 \/ current_win_streak metrics = 0)
  /\ current_loss_streak metrics + current_win_streak metrics
     <= session_games_played metrics.
Proof.
  intros metrics.
  destruct (buildTiltMetrics_fields ms latest fl) as (Hl & Hw & Hn & _).
  fold metrics in Hl, Hw, Hn. rewrite Hl, Hw, Hn.
  split; [reflexivity|]. split; [reflexivity|].
  pose proof (in_a_row_exclusive (rev ms)) as He.
  pose proof (in_a_row_length (rev ms)) as Hlen. rewrite length_rev in Hlen.
  split; lia.
Qed.

Lemma score_parts (metrics : Metrics) :
  0 <= current_loss_streak metrics -> surrender_votes metrics = 0 ->
  Z.min (current_loss_streak metrics * 12) 36 <= calculateTiltScore metrics
  /\ calculateTiltScore metrics <= Z.min (current_loss_streak metrics * 12) 36 + 68
  /\ calculateTiltScore metrics <= 100.
Proof.
  intros Hl Hs. unfold calculateTiltScore. rewrite Hs.
  destruct (is_declining (kda_trend metrics)), (is_declining (cs_per_min_trend metrics)),
    (is_declining (death_timing_trend metrics)), (avg_time_between_games metrics <? 60),
    (8 <? last_game_death_count metrics), (negb (Qle_bool 1 (last_game_kda metrics))),
    (5 <? session_games_played metrics), (8 <? session_games_played metrics); lia.
Qed.

Lemma tiltAnalysis_score (ms : list Match) (fl : Measured) (score : Z) (level : TiltLevel) :
  tiltAnalysis ms fl = Some (score, level) ->
  level = getTiltLevel score
  /\ Z.min (Z.of_nat (in_a_row false (rev ms)) * 12) 36 <= score
  /\ score <= Z.min (Z.of_nat (in_a_row false (rev ms)) * 12) 36 + 68
  /\ score <= 100.
Proof.
  intros Ha. unfold tiltAnalysis in Ha.
  destruct ms as [|m0 ms0]; [discriminate|]. set (ms := m0 :: ms0) in *. clearbody ms.
  injection Ha as <- <-. split; [reflexivity|].
  destruct (buildTiltMetrics_fields ms (List.last (map Some ms) None) fl) as (Hl & _ & _ & Hv).
  rewrite <- Hl. apply score_parts; [rewrite Hl; lia|exact Hv].
Qed.

(** X26. No danger zone after a win.  When the last match of the
    session is a win, the score of the session is between 0 and 68,
    so its level is never the danger zone, whatever the trends, the
    pauses between games and the number of games. *)
Theorem no_danger_zone_after_a_win (ms : list Match) (fl : Measured)
        (score : Z) (level : TiltLevel) :
  tiltAnalysis ms fl = Some (score, level) ->
  (1 <= in_a_row true (rev ms))%nat ->
  0 <= score <= 68 /\ level <> DANGER_ZONE.
Proof.
  intros Ha Hw.
  destruct (tiltAnalysis_score ms fl score level Ha) as (-> & H1 & H2 & _).
  destruct (in_a_row_exclusive (rev ms)) as [H0|H0]; [|lia].
  rewrite H0 in H1, H2. simpl in H1, H2.
  split; [lia|]. unfold getTiltLevel.
  destruct (score <=? 25); [discriminate|]. destruct (score <=? 50); [discriminate|].
  destruct (score <=? 75) eqn:E; [discriminate|]. apply Z.leb_gt in E. lia.
Qed.

Definition two_wins : list Match := [mkMatch false 9; mkMatch true 2; mkMatch true 11].
Definition rushed : Measured := mkMeasured declining declining declining 20 (1 # 2).

Lemma no_danger_zone_witness :
  tiltAnalysis two_wins rushed = Some (53, TILTED)
  /\ 0 <= 53 <= 68 /\ TILTED <> DANGER_ZONE.
Proof.
  assert (Ha : tiltAnalysis two_wins rushed = Some (53, TILTED)) by reflexivity.
  split; [exact Ha|].
  apply (no_danger_zone_after_a_win two_wins rushed 53 TILTED Ha).
  simpl. lia.
Defined.

(** X27. Three losses in a row are never cool.  When the session ends
    on three or more losses in a row, its score is at least 36 and at
    most 100, so its level is never the lowest one. *)
Theorem three_losses_are_never_cool (ms : list Match) (fl : Measured)
        (score : Z) (level : TiltLevel) :
  tiltAnalysis ms fl = Some (score, level) ->
  (3 <= in_a_row false (rev ms))%nat ->
  36 <= score <= 100 /\ level <> COOL.
Proof.
  intros Ha Hw.
  destruct (tiltAnalysis_score ms fl score level Ha) as (-> & H1 & _ & H3).
  assert (H36 : 36 <= score) by lia.
  split; [lia|]. unfold getTiltLevel.
  destruct (score <=? 25) eqn:E; [apply Z.leb_le in E; lia|].
  destruct (score <=? 50); [discriminate|]. destruct (score <=? 75); discriminate.
Qed.

Definition three_losses : list Match :=
  [mkMatch true 1; mkMatch false 3; mkMatch false 4; mkMatch false 2].
Definition calm : Measured := mkMeasured stable improving stable 400 (3 # 1).

Lemma three_losses_witness :
  tiltAnalysis three_losses calm = Some (36, WARMING)
  /\ 36 <= 36 <= 100 /\ WARMING <> COOL.
Proof.
  assert (Ha : tiltAnalysis three_losses calm = Some (36, WARMING)) by reflexivity.
  split; [exact Ha|].
  apply (three_losses_are_never_cool three_losses calm 36 WARMING Ha).
  simpl. lia.
Defined.

End TiltFacts.

(* ===================================================================== *)
(** * The tool loop: protocol, accounting and end *)
(* ===================================================================== *)

Module ClaudeClientFacts.
Import ClaudeClient.

Section ToolLoopFacts.

Variable Json : Type.
Variable asContent : Json -> string.
Variable errorObject : string -> Json.
Variable State : Type.
Variable toolHandler : string -> Json -> State -> State * (Json + string).
Variable api : nat -> list (Message Json) -> answer Json.

Local Abbreviation processTools := (processTools Json asContent errorObject State toolHandler).
Local Abbreviation rounds := (rounds Json asContent errorObject State toolHandler api).
Local Abbreviation runToolLoop := (runToolLoop Json asContent errorObject State toolHandler api).

(** The identifiers of the tool uses of a response, in order. *)
Definition tool_ids (bs : list (block Json)) : list string :=
  flat_map (fun b => match b with ToolUse _ id _ _ => [id] | _ => [] end) bs.

(** The response asks for tools and does not end the turn. *)
Definition goes_on (r : Response Json) : bool :=
  negb ((List.length (List.filter (is_tool_use Json) (content Json r)) =? 0)%nat
        || String.eqb (stop_reason Json r) "end_turn").

(** The tool uses the loop acts upon after an answer. *)
Definition asked (a : answer Json) : list (block Json) :=
  match a with
  | Responded _ r => if goes_on r then List.filter (is_tool_use Json) (content Json r) else []
  | Failed _ _ => []
  end.

(** The answers to the conversations sent, the first in round [round]. *)
Fixpoint answers (round : nat) (sent : list (list (Message Json))) : list (answer Json) :=
  match sent with
  | [] => []
  | c :: rest => api round c :: answers (S round) rest
  end.

(** Each conversation sent after the first is the one before it, the
    response to it and one tool result for each of its tool uses. *)
Fixpoint linked (round : nat) (sent : list (list (Message Json))) : Prop :=
  match sent with
  | c1 :: rest =>
      match rest with
      | c2 :: _ =>
          (exists r rs,
              api round c1 = Responded Json r
              /\ stop_reason Json r <> "end_turn"
              /\ rs <> []
              /\ map (tool_use_id) rs = tool_ids (content Json r)
              /\ c2 = (c1 ++ [mkMessage Json "assistant" (Blocks Json (content Json r));
                              mkMessage Json "user" (Results Json rs)])%list)
          /\ linked (S round) rest
      | [] => True
      end
  | [] => True
  end.

Lemma tool_ids_filter (bs : list (block Json)) :
  tool_ids (List.filter (is_tool_use Json) bs) = tool_ids bs.
Proof.
  induction bs as [|b bs IH]; [reflexivity|].
  destruct b; simpl; now rewrite ?IH.
Qed.

Lemma processTools_ids (bs : list (block Json)) (s : State) :
  map tool_use_id (snd (processTools bs s)) = tool_ids bs.
Proof.
  revert s. induction bs as [|b bs IH]; intros s; [reflexivity|].
  destruct b as [t|id name inp|]; cbn [ClaudeClient.processTools tool_ids flat_map app].
  - apply IH.
  - destruct (toolHandler name inp s) as [s1 r].
    specialize (IH s1). destruct (processTools bs s1) as [[s2 recs] results].
    cbn [snd map] in *. now rewrite IH.
  - apply IH.
Qed.

Lemma processTools_app (bs1 bs2 : list (block Json)) (s : State) :
  processTools (bs1 ++ bs2) s
  = (let '(s1, recs1, res1) := processTools bs1 s in
     let '(s2, recs2, res2) := processTools bs2 s1 in
     (s2, recs1 ++ recs2, res1 ++ res2))%list.
Proof.
  revert s. induction bs1 as [|b bs1 IH]; intros s.
  - cbn [app ClaudeClient.processTools].
    destruct (processTools bs2 s) as [[s2 recs2] res2]. reflexivity.
  - destruct b as [t|id name inp|]; cbn [app ClaudeClient.processTools].
    + apply IH.
    + destruct (toolHandler name inp s) as [s1 r]. rewrite IH.
      destruct (processTools bs1 s1) as [[s2 recs1] res1].
      destruct (processTools bs2 s2) as [[s3 recs2] res2]. reflexivity.
    + apply IH.
Qed.

Lemma filter_tools_nonempty (bs : list (block Json)) :
  (List.length (List.filter (is_tool_use Json) bs) =? 0)%nat = false ->
  tool_ids bs <> [].
Proof.
  rewrite <- tool_ids_filter.
  destruct (List.filter (is_tool_use Json) bs) as [|b l] eqn:E; [discriminate|].
  intros _.
  assert (Hb : is_tool_use Json b = true).
  { assert (Hin : In b (List.filter (is_tool_use Json) bs)) by (rewrite E; now left).
    apply filter_In in Hin. tauto. }
  destruct b; discriminate.
Qed.

(** One round that goes on. *)
Lemma rounds_step (left round : nat) (s : State) conv tin tout all :
  rounds (S left) round s conv tin tout all
  = match api round conv with
    | Failed _ apiErr =>
        (s, mkResult Json EmptyString all tin tout
                     (Some (if isTimeout apiErr then "Claude request timed out"
                            else message apiErr)),
         [conv])
    | Responded _ r =>
        if goes_on r then
          let '(s1, recs, results) :=
            processTools (List.filter (is_tool_use Json) (content Json r)) s in
          let '(s2, res, sent) :=
            rounds left (S round) s1
                   (conv ++ [mkMessage Json "assistant" (Blocks Json (content Json r));
                             mkMessage Json "user" (Results Json results)])%list
                   (tin + input_tokens Json r) (tout + output_tokens Json r)
                   (all ++ recs)%list in
          (s2, res, conv :: sent)
        else
          (s, mkResult Json (String.concat EmptyString (texts Json (content Json r)))
                       all (tin + input_tokens Json r) (tout + output_tokens Json r) None,
           [conv])
    end.
Proof.
  cbn [ClaudeClient.rounds]. destruct (api round conv) as [r|e]; [|reflexivity].
  unfold goes_on. destruct (_ || _); reflexivity.
Qed.

Lemma rounds_sent (left round : nat) (s : State) conv tin tout all :
  let sent := snd (rounds left round s conv tin tout all) in
  (List.length sent <= left)%nat
  /\ (left <> 0%nat -> hd_error sent = Some conv)
  /\ linked round sent.
Proof.
  revert round s conv tin tout all.
  induction left as [|left IH]; intros round s conv tin tout all.
  { cbn. split; [lia|]. split; [congruence|exact I]. }
  rewrite rounds_step.
  destruct (api round conv) as [r|e] eqn:Ha.
  2:{ cbn. split; [lia|]. split; [reflexivity|exact I]. }
  destruct (goes_on r) eqn:Hg.
  2:{ cbn. split; [lia|]. split; [reflexivity|exact I]. }
  pose proof (processTools_ids (List.filter (is_tool_use Json) (content Json r)) s) as Hids.
  destruct (processTools _ s) as [[s1 recs] results]. cbn [snd] in Hids.
  specialize (IH (S round) s1
                 (conv ++ [mkMessage Json "assistant" (Blocks Json (content Json r));
                           mkMessage Json "user" (Results Json results)])%list
                 (tin + input_tokens Json r) (tout + output_tokens Json r)
                 (all ++ recs)%list).
  destruct (rounds left (S round) s1 _ _ _ _) as [[s2 res] sent].
  cbn [snd] in *. destruct IH as (Hlen & Hhd & Hl).
  split; [cbn [List.length]; lia|]. split; [reflexivity|].
  cbn [linked]. destruct sent as [|c2 sent']; [exact I|].
  split; [|exact Hl].
  assert (Hc2 : Some c2 = Some (conv ++ [mkMessage Json "assistant" (Blocks Json (content Json r));
                           mkMessage Json "user" (Results Json results)])%list).
  { destruct left; [cbn in Hlen; lia|]. apply Hhd. discriminate. }
  injection Hc2 as ->.
  unfold goes_on in Hg. apply negb_true_iff, orb_false_iff in Hg. destruct Hg as [Hn He].
  rewrite tool_ids_filter in Hids.
  exists r, results. split; [exact Ha|]. split.
  { intros Heq. rewrite Heq in He. discriminate. }
  split.
  { intros ->. apply (filter_tools_nonempty _ Hn). now rewrite <- Hids. }
  split; [exact Hids|reflexivity].
Qed.

Lemma run_inr (messages : list (Message Json)) (s : State) v :
  runToolLoop true messages s = inr v ->
  rounds MAX_TOOL_ROUNDS 0 s messages 0 0 [] = v.
Proof. unfold ClaudeClient.runToolLoop. congruence. Qed.

(** X28. Every tool use is answered.  The loop asks the service at
    least once and at most ten times, first with the messages it was
    given.  Every later conversation is the one before it followed by
    the response to it, which did not end the turn, as the assistant's
    message and by a user message that holds one tool result for each
    tool use of that response, with the same identifiers in the same
    order, and at least one. *)
Theorem every_tool_use_is_answered (messages : list (Message Json)) (s s' : State)
        (res : Result Json) (sent : list (list (Message Json))) :
  runToolLoop true messages s = inr (s', res, sent) ->
  (1 <= List.length sent <= 10)%nat
  /\ hd_error sent = Some messages
  /\ linked 0 sent.
Proof.
  intros Hrun. apply run_inr in Hrun.
  pose proof (rounds_sent MAX_TOOL_ROUNDS 0 s messages 0 0 []) as H.
  rewrite Hrun in H. cbn [snd] in H. destruct H as (Hlen & Hhd & Hl).
  specialize (Hhd ltac:(discriminate)).
  split; [|split; assumption].
  split; [|exact Hlen]. destruct sent; [discriminate|cbn; lia].
Qed.

Lemma rounds_tools (left round : nat) (s : State) conv tin tout all :
  let '(s', res, sent) := rounds left round s conv tin tout all in
  let '(s2, recs, _) := processTools (flat_map asked (answers round sent)) s in
  s' = s2 /\ toolResults Json res = (all ++ recs)%list.
Proof.
  revert round s conv tin tout all.
  induction left as [|left IH]; intros round s conv tin tout all.
  { cbn. now rewrite app_nil_r. }
  rewrite rounds_step.
  destruct (api round conv) as [r|e] eqn:Ha.
  2:{ cbn. rewrite Ha. cbn. now rewrite app_nil_r. }
  destruct (goes_on r) eqn:Hg.
  2:{ cbn. rewrite Ha. cbn. rewrite Hg. cbn. now rewrite app_nil_r. }
  destruct (processTools (List.filter (is_tool_use Json) (content Json r)) s)
    as [[s1 recs] results] eqn:Hp.
  specialize (IH (S round) s1
                 (conv ++ [mkMessage Json "assistant" (Blocks Json (content Json r));
                           mkMessage Json "user" (Results Json results)])%list
                 (tin + input_tokens Json r) (tout + output_tokens Json r)
                 (all ++ recs)%list).
  destruct (rounds left (S round) s1 _ _ _ _) as [[s2 res] sent].
  cbn [answers flat_map]. rewrite Ha. cbn [asked]. rewrite Hg.
  rewrite processTools_app, Hp.
  destruct (processTools (flat_map asked (answers (S round) sent)) s1) as [[s3 recs3] res3].
  destruct IH as [-> ->]. split; [reflexivity|]. now rewrite app_assoc.
Qed.

(** X29. Every tool asked for is run once, in order.  The tools run
    during the loop are the tool uses of the answers that asked for
    tools without ending the turn, taken in the order of the rounds:
    the final state of the tools and the tool results returned are
    those of one pass of the handler over them.  This holds when a
    later request fails, and it includes the tool uses of the tenth
    answer, whose results are not sent back. *)
Theorem tools_run_once_in_order (messages : list (Message Json)) (s s' : State)
        (res : Result Json) (sent : list (list (Message Json))) :
  runToolLoop true messages s = inr (s', res, sent) ->
  let '(s2, recs, _) := processTools (flat_map asked (answers 0 sent)) s in
  s' = s2 /\ toolResults Json res = recs.
Proof.
  intros Hrun. apply run_inr in Hrun.
  pose proof (rounds_tools MAX_TOOL_ROUNDS 0 s messages 0 0 []) as H.
  rewrite Hrun in H. exact H.
Qed.

(** The tokens counted for an answer. *)
Definition tokens (a : answer Json) : Z * Z :=
  match a with
  | Responded _ r => (input_tokens Json r, output_tokens Json r)
  | Failed _ _ => (0, 0)
  end.

(** How the loop ends after its last answer [a], having sent [n]
    conversations. *)
Definition ends_with (n : nat) (a : answer Json) (res : Result Json) : Prop :=
  match a with
  | Failed _ e =>
      text Json res = EmptyString
      /\ error Json res = Some (if isTimeout e then "Claude request timed out"
                                else message e)
  | Responded _ r =>
      error Json res = None
      /\ if goes_on r
         then n = MAX_TOOL_ROUNDS /\ text Json res = "[Tool loop exceeded maximum rounds]"
         else text Json res = String.concat EmptyString (texts Json (content Json r))
  end.

Lemma last_some_cons {A} (x : option A) (l : list (option A)) (a : A) :
  List.last l None = Some a -> List.last (x :: l) None = Some a.
Proof. destruct l; [discriminate|]. intros H. exact H. Qed.

Lemma rounds_end (left round : nat) (s : State) conv tin tout all :
  left <> 0%nat ->
  let '(_, res, sent) := rounds left round s conv tin tout all in
  usage_input Json res
  = tin + fold_right Z.add 0 (map (fun a => fst (tokens a)) (answers round sent))
  /\ usage_output Json res
     = tout + fold_right Z.add 0 (map (fun a => snd (tokens a)) (answers round sent))
  /\ exists a, List.last (map Some (answers round sent)) None = Some a
               /\ ends_with (List.length sent + MAX_TOOL_ROUNDS - left)%nat a res.
Proof.
  revert round s conv tin tout all.
  induction left as [|left IH]; intros round s conv tin tout all Hl; [congruence|].
  rewrite rounds_step.
  destruct (api round conv) as [r|e] eqn:Ha.
  2:{ cbn [answers map fold_right List.last]. rewrite Ha. cbn.
      split; [lia|]. split; [lia|]. eexists. split; [reflexivity|]. cbn. auto. }
  destruct (goes_on r) eqn:Hg.
  2:{ cbn [answers map fold_right List.last]. rewrite Ha. cbn.
      split; [lia|]. split; [lia|]. eexists. split; [reflexivity|]. cbn.
      rewrite Hg. auto. }
  destruct (processTools (List.filter (is_tool_use Json) (content Json r)) s)
    as [[s1 recs] results] eqn:Hp.
  destruct left as [|left'].
  { cbn [ClaudeClient.rounds answers map fold_right List.last]. rewrite Ha. cbn.
    split; [lia|]. split; [lia|]. eexists. split; [reflexivity|]. cbn.
    rewrite Hg. auto. }
  specialize (IH (S round) s1
                 (conv ++ [mkMessage Json "assistant" (Blocks Json (content Json r));
                           mkMessage Json "user" (Results Json results)])%list
                 (tin + input_tokens Json r) (tout + output_tokens Json r)
                 (all ++ recs)%list ltac:(discriminate)).
  destruct (rounds (S left') (S round) s1 _ _ _ _) as [[s2 res] sent].
  destruct IH as (Hi & Ho & a & Hlast & Hend).
  cbn [answers map fold_right]. rewrite Ha. cbn [tokens fst snd].
  split; [lia|]. split; [lia|].
  exists a. split; [now apply last_some_cons|].
  replace (List.length (conv :: sent) + MAX_TOOL_ROUNDS - S (S left'))%nat
    with (List.length sent + MAX_TOOL_ROUNDS - S left')%nat by (cbn [List.length]; lia).
  exact Hend.
Qed.

(** X30. How the loop ends.  The tokens reported are the sums over
    the responses received.  After a failed request the text is empty
    and the error is the fixed timeout text for a timeout and the
    error's message otherwise, the tool results gathered so far being
    returned with it.  After a response that ends the turn or asks
    for no tool, the text is the concatenation of its text blocks.
    Otherwise the last response still asked for tools, ten
    conversations were sent and the text is the fixed notice that the
    loop exceeded its rounds. *)
Theorem tool_loop_end (messages : list (Message Json)) (s s' : State)
        (res : Result Json) (sent : list (list (Message Json))) :
  runToolLoop true messages s = inr (s', res, sent) ->
  usage_input Json res = fold_right Z.add 0 (map (fun a => fst (tokens a)) (answers 0 sent))
  /\ usage_output Json res
     = fold_right Z.add 0 (map (fun a => snd (tokens a)) (answers 0 sent))
  /\ exists a, List.last (map Some (answers 0 sent)) None = Some a
               /\ ends_with (List.length sent) a res.
Proof.
  intros Hrun. apply run_inr in Hrun.
  pose proof (rounds_end MAX_TOOL_ROUNDS 0 s messages 0 0 [] ltac:(discriminate)) as H.
  rewrite Hrun in H. destruct H as (Hi & Ho & a & Hl & He).
  split; [lia|]. split; [lia|]. exists a. split; [exact Hl|].
  replace (List.length sent + MAX_TOOL_ROUNDS - MAX_TOOL_ROUNDS)%nat
    with (List.length sent) in He by lia.
  exact He.
Qed.

End ToolLoopFacts.

(** A run for the examples: two rounds with a tool use each, then the
    end of the turn; the state of the tools counts the calls. *)
Definition counting (name : string) (inp : string) (s : nat) : nat * (string + string) :=
  (S s, if String.eqb name "emit_macro_call" then inl "displayed" else inr "no such tool").

Definition three_answers (round : nat) (_ : list (Message string)) : answer string :=
  if (round <? 2)%nat
  then Responded string
         (mkResponse string [Text string "thinking";
                             ToolUse string "toolu_1" "emit_macro_call" "{}"]
                     "tool_use" 10 5)
  else Responded string (mkResponse string [Text string "done"] "end_turn" 7 3).

(** The second request times out. *)
Definition then_timeout (round : nat) (_ : list (Message string)) : answer string :=
  if (round <? 1)%nat
  then Responded string
         (mkResponse string [ToolUse string "toolu_1" "emit_macro_call" "{}"]
                     "tool_use" 10 5)
  else Failed string (mkApiError "Request timeout" None).

Definition context : list (Message string) := [mkMessage string "user" (Plain string "context")].

Definition demo (api : nat -> list (Message string) -> answer string) :=
  rounds string (fun r => r) (fun m => m) nat counting api MAX_TOOL_ROUNDS 0 0%nat context 0 0 [].

Lemma every_tool_use_witness :
  runToolLoop string (fun r => r) (fun m => m) nat counting three_answers true context 0%nat
  = inr (2%nat, snd (fst (demo three_answers)), snd (demo three_answers))
  /\ List.length (snd (demo three_answers)) = 3%nat
  /\ linked string three_answers 0 (snd (demo three_answers)).
Proof.
  assert (Hrun : runToolLoop string (fun r => r) (fun m => m) nat counting three_answers
                             true context 0%nat
                 = inr (2%nat, snd (fst (demo three_answers)), snd (demo three_answers)))
    by reflexivity.
  split; [exact Hrun|].
  destruct (every_tool_use_is_answered _ _ _ _ _ _ _ _ _ _ _ Hrun) as (_ & _ & Hl).
  split; [reflexivity|exact Hl].
Defined.

Lemma tools_run_once_witness :
  runToolLoop string (fun r => r) (fun m => m) nat counting three_answers true context 0%nat
  = inr (2%nat, snd (fst (demo three_answers)), snd (demo three_answers))
  /\ toolResults string (snd (fst (demo three_answers)))
     = [mkToolRecord string "emit_macro_call" "{}" "displayed";
        mkToolRecord string "emit_macro_call" "{}" "displayed"].
Proof.
  assert (Hrun : runToolLoop string (fun r => r) (fun m => m) nat counting three_answers
                             true context 0%nat
                 = inr (2%nat, snd (fst (demo three_answers)), snd (demo three_answers)))
    by reflexivity.
  split; [exact Hrun|].
  pose proof (tools_run_once_in_order _ _ _ _ _ _ _ _ _ _ _ Hrun) as H.
  destruct (processTools string (fun r => r) (fun m => m) nat counting
              (flat_map (asked string) (answers string three_answers 0 (snd (demo three_answers))))
              0%nat) as [[s2 recs] results] eqn:E.
  destruct H as [_ H]. rewrite H.
  vm_compute in E. injection E as _ <- _. reflexivity.
Defined.

Lemma tool_loop_end_witness :
  runToolLoop string (fun r => r) (fun m => m) nat counting then_timeout true context 0%nat
  = inr (1%nat, snd (fst (demo then_timeout)), snd (demo then_timeout))
  /\ usage_input string (snd (fst (demo then_timeout))) = 10
  /\ error string (snd (fst (demo then_timeout))) = Some "Claude request timed out".
Proof.
  assert (Hrun : runToolLoop string (fun r => r) (fun m => m) nat counting then_timeout
                             true context 0%nat
                 = inr (1%nat, snd (fst (demo then_timeout)), snd (demo then_timeout)))
    by reflexivity.
  split; [exact Hrun|].
  destruct (tool_loop_end _ _ _ _ _ _ _ _ _ _ _ Hrun) as (Hi & _ & a & Hl & He).
  split; [exact Hi|].
  vm_compute in Hl. injection Hl as <-. exact (proj2 He).
Defined.

End ClaudeClientFacts.
